(** * System.Decimal arithmetic core (classlibnative/bcltype)

    A shallow embedding of [decimal_calc.inl], [decimal_calc.cpp] and the
    parser [COMDecimal::NumberToDecimal] of [decimal.cpp], followed by the
    properties established about them.

    Configuration embedded: the 64-bit build ([_TARGET_64BIT],
    [_TARGET_AMD64_], hence [HAS_DIVMOD128BY64]); the carry, multiply and
    divide helpers have the meaning of the processor instructions they are
    bound to.  Fixed-width unsigned integers are values of [Z] and every
    operation writes its wrap-around out. *)

From Stdlib Require Import ZArith Lia List Bool.
Import ListNotations.
Local Open Scope Z_scope.

(** ** Fixed-width words *)

Definition two8  : Z := 256.
Definition two16 : Z := 65536.
Definition two32 : Z := 4294967296.
Definition two64 : Z := 18446744073709551616.
Definition two96 : Z := 79228162514264337593543950336.

Definition u8  (x : Z) : Z := x mod two8.
Definition u16 (x : Z) : Z := x mod two16.
Definition u32 (x : Z) : Z := x mod two32.
Definition u64 (x : Z) : Z := x mod two64.

Definition UINT32_MAX : Z := 4294967295.
Definition UINT64_MAX : Z := 18446744073709551615.

(** [carry_t] is an unsigned char holding 0 or 1. *)
Definition carry_t := Z.

(** ** decimal_calc.inl: views of a 64-bit value *)

Definition low32 (value : Z) : Z := value mod two32.
Definition hi32 (value : Z) : Z := (value / two32) mod two32.
(** Assignments through the references [low32(v)] and [hi32(v)]. *)
Definition set_low32 (value x : Z) : Z := hi32 value * two32 + u32 x.
Definition set_hi32 (value x : Z) : Z := u32 x * two32 + low32 value.

(** ** decimal_calc.inl: arithmetic helpers *)

Definition AddCarry32 (carry : carry_t) (lhs rhs : Z) : carry_t * Z :=
  let sum := carry + lhs + rhs in (sum / two32, u32 sum).

Definition SubBorrow32 (carry : carry_t) (lhs rhs : Z) : carry_t * Z :=
  let res := lhs - (rhs + carry) in ((if res <? 0 then 1 else 0), u32 res).

Definition AddCarry64 (carry : carry_t) (lhs rhs : Z) : carry_t * Z :=
  let sum := carry + lhs + rhs in (sum / two64, u64 sum).

Definition SubBorrow64 (carry : carry_t) (lhs rhs : Z) : carry_t * Z :=
  let res := lhs - (rhs + carry) in ((if res <? 0 then 1 else 0), u64 res).

Definition Mul32By32 (lhs rhs : Z) : Z := lhs * rhs.

(** Returns (low 64 bits, [*_HighProduct]). *)
Definition Mul64By32 (lhs rhs : Z) : Z * Z :=
  let res := lhs * rhs in (u64 res, u32 (res / two64)).

Definition Mul64By64 (lhs rhs : Z) : Z * Z :=
  let res := lhs * rhs in (u64 res, u64 (res / two64)).

(** Returns (quotient, [*pRemainder]). *)
Definition DivMod32By32 (ulNum ulDen : Z) : Z * Z :=
  (ulNum / ulDen, ulNum mod ulDen).

Definition DivMod64By64 (ullNum ullDen : Z) : Z * Z :=
  (ullNum / ullDen, ullNum mod ullDen).

(** The [div] instruction on the pair hi:lo.  The callers keep [hi < ulDen],
    which makes the quotient fit; the register keeps its low 32 bits. *)
Definition DivMod64By32 (lo hi ulDen : Z) : Z * Z :=
  let n := hi * two32 + lo in (u32 (n / ulDen), n mod ulDen).

(** Returns (new [*pLow], remainder). *)
Definition DivMod64By32InPlace (pLow hi ulDen : Z) : Z * Z :=
  DivMod64By32 pLow hi ulDen.

(** The 64-bit [div] instruction on the pair hi:lo.  With [hi < ulDen] the
    quotient fits; otherwise the instruction raises a divide error and
    there is no result, where the model keeps the low 64 bits of the
    quotient. *)
Definition DivMod128By64 (lo hi ulDen : Z) : Z * Z :=
  let n := hi * two64 + lo in (u64 (n / ulDen), n mod ulDen).

(** Returns (found, [*Index]). *)
Definition BitScanMsb32 (Mask : Z) : bool * Z := (negb (Mask =? 0), Z.log2 Mask).
Definition BitScanMsb64 (Mask : Z) : bool * Z := (negb (Mask =? 0), Z.log2 Mask).

(** [(_HighPart << _Shift) | (_LowPart >> (64 - _Shift))] on 64-bit
    operands.  With [_Shift = 0] the right shift is by 64, the width of its
    operand, which the language leaves undefined; the shift instructions of
    the target take their count modulo 64, so that [_LowPart] is then or-ed
    in unshifted.  Both counts are modelled that way. *)
Definition ShiftLeft128 (_LowPart _HighPart _Shift : Z) : Z :=
  Z.lor (u64 (Z.shiftl _HighPart (_Shift mod 64)))
        (Z.shiftr _LowPart ((64 - _Shift) mod 64)).

(** ** The DECIMAL value

    The structure is declared by the platform headers: a 16-bit [wReserved],
    the bytes [scale] and [sign] (together the 16-bit [signscale], scale in
    the low byte), the 32-bit [Hi32] and the 64-bit [Lo64], whose halves are
    [Lo32] and [Mid32]. *)

Record DECIMAL : Type := mkDECIMAL {
  wReserved : Z;
  scale : Z;
  sign : Z;
  Hi32 : Z;
  Lo64 : Z
}.

Definition DECIMAL_NEG : Z := 128.
Definition DEC_SCALE_MAX : Z := 28.

Definition DECIMAL_LO32 (d : DECIMAL) : Z := low32 (Lo64 d).
Definition DECIMAL_MID32 (d : DECIMAL) : Z := hi32 (Lo64 d).
Definition DECIMAL_HI32 (d : DECIMAL) : Z := Hi32 d.
Definition low64 (d : DECIMAL) : Z := Lo64 d.
Definition signscale (d : DECIMAL) : Z := scale d + two8 * sign d.

Definition set_wReserved (d : DECIMAL) (x : Z) : DECIMAL :=
  mkDECIMAL (u16 x) (scale d) (sign d) (Hi32 d) (Lo64 d).
Definition set_scale (d : DECIMAL) (x : Z) : DECIMAL :=
  mkDECIMAL (wReserved d) (u8 x) (sign d) (Hi32 d) (Lo64 d).
Definition set_sign (d : DECIMAL) (x : Z) : DECIMAL :=
  mkDECIMAL (wReserved d) (scale d) (u8 x) (Hi32 d) (Lo64 d).
Definition set_signscale (d : DECIMAL) (x : Z) : DECIMAL :=
  mkDECIMAL (wReserved d) (u8 x) (u8 (x / two8)) (Hi32 d) (Lo64 d).
Definition set_hi32_dec (d : DECIMAL) (x : Z) : DECIMAL :=
  mkDECIMAL (wReserved d) (scale d) (sign d) (u32 x) (Lo64 d).
Definition set_low64 (d : DECIMAL) (x : Z) : DECIMAL :=
  mkDECIMAL (wReserved d) (scale d) (sign d) (Hi32 d) (u64 x).
Definition set_low32_dec (d : DECIMAL) (x : Z) : DECIMAL :=
  set_low64 d (set_low32 (Lo64 d) x).
Definition set_mid32_dec (d : DECIMAL) (x : Z) : DECIMAL :=
  set_low64 d (set_hi32 (Lo64 d) x).

(** [memset(&dec, 0, sizeof(DECIMAL))]. *)
Definition DECIMAL_SETZERO : DECIMAL := mkDECIMAL 0 0 0 0 0.

(** The 96-bit magnitude. *)
Definition mantissa (d : DECIMAL) : Z := Hi32 d * two64 + Lo64 d.

Inductive HRESULT : Type := NOERROR | DISP_E_OVERFLOW | DISP_E_DIVBYZERO.

(** ** Arrays of words

    Local buffers are lists; an element outside the list reads as zero and a
    store outside the list is dropped (the code never does either). *)

Definition get (a : list Z) (i : Z) : Z := nth (Z.to_nat i) a 0.

Fixpoint set_nat (a : list Z) (i : nat) (x : Z) : list Z :=
  match a, i with
  | [], _ => []
  | _ :: t, O => x :: t
  | h :: t, S j => h :: set_nat t j x
  end.

Definition set (a : list Z) (i : Z) (x : Z) : list Z :=
  if i <? 0 then a else set_nat a (Z.to_nat i) x.

(** A [uint32_t] array read and written through a [uint64_t*] placed at
    element [i] (little endian). *)
Definition get64 (a : list Z) (i : Z) : Z := get a i + two32 * get a (i + 1).
Definition set64 (a : list Z) (i : Z) (x : Z) : list Z :=
  set (set a i (low32 x)) (i + 1) (hi32 x).

(** ** decimal_calc.cpp: constants *)

Definition rgulPower10_64 : list Z :=
  [ 1; 10; 100; 1000; 10000; 100000; 1000000; 10000000; 100000000;
    1000000000; 10000000000; 100000000000; 1000000000000; 10000000000000;
    100000000000000; 1000000000000000; 10000000000000000;
    100000000000000000; 1000000000000000000; 10000000000000000000 ].

Definition POWER10_MAX64 : Z := 19.
Definition POWER10_MAX32 : Z := 9.
Definition POWER10_MAX_VALUE64 : Z := get rgulPower10_64 POWER10_MAX64.
Definition POWER10_MAX_VALUE32 : Z := u32 (get rgulPower10_64 POWER10_MAX32).

Definition FitsIn32Bit (pValue : Z) : bool := pValue <=? UINT32_MAX.

(** ** Loops

    A [for (;;)] or [do ... while] loop is its body, which either goes round
    again or leaves with a result, run under a bound on the number of
    rounds; [None] means the bound was reached.  The routines that contain
    such a loop take the bound as their first argument [rounds], which
    every loop inside them gets in full. *)

Inductive step (S R : Type) : Type :=
| Continue (s : S)
| Break (r : R).
Arguments Continue {S R} s.
Arguments Break {S R} r.

Fixpoint iterate {S R : Type} (fuel : nat) (body : S -> option (step S R))
  (s : S) : option R :=
  match fuel with
  | O => None
  | Datatypes.S n =>
      match body s with
      | None => None
      | Some (Continue s') => iterate n body s'
      | Some (Break r) => Some r
      end
  end.

Definition bind {A B : Type} (m : option A) (k : A -> option B) : option B :=
  match m with
  | Some a => k a
  | None => None
  end.

Notation "x <- m ;; k" := (bind m (fun x => k))
  (at level 61, m at next level, right associativity).
Notation "' p <- m ;; k" := (bind m (fun x => let p := x in k))
  (at level 61, p pattern, m at next level, right associativity).

(** ** decimal_calc.cpp: SearchScale64 *)

Definition SEARCHSCALE_MAX_SCALE : Z := POWER10_MAX64.

(** [PowerOvfl[k]] as (Hi, Lo): the largest 96-bit value that can be
    multiplied by 10^k, split as a 64-bit top and a 32-bit bottom. *)
Definition PowerOvfl : list (Z * Z) :=
  [ (UINT64_MAX, UINT32_MAX);
    (1844674407370955161, 2576980377);
    (184467440737095516, 687194767);
    (18446744073709551, 2645699854);
    (1844674407370955, 694066715);
    (184467440737095, 2216890319);
    (18446744073709, 2369172679);
    (1844674407370, 4102387834);
    (184467440737, 410238783);
    (18446744073, 3047500985);
    (1844674407, 1593240287);
    (184467440, 3165801135);
    (18446744, 316580113);
    (1844674, 1749644929);
    (184467, 1892951411);
    (18446, 3195772248);
    (1844, 2896557602);
    (184, 2007642678);
    (18, 1918751186);
    (1, 3627848955) ].

Definition PowerOvfl_Hi (i : Z) : Z := fst (nth (Z.to_nat i) PowerOvfl (0, 0)).
Definition PowerOvfl_Lo (i : Z) : Z := snd (nth (Z.to_nat i) PowerOvfl (0, 0)).

Definition OVFL_MAX32_1_HI : Z := 429496729.

Module SearchScale.

(** Label [HaveScale]. *)
Definition HaveScale (iCurScale iScale : Z) : Z :=
  if (iCurScale + iScale <? 0) && negb (iCurScale =? SEARCHSCALE_MAX_SCALE)
  then -1
  else iCurScale.

(** Label [UpperEq]. *)
Definition UpperEq (rgulQuo : list Z) (iCurScale iScale : Z) : Z :=
  if get rgulQuo 0 >? PowerOvfl_Lo iCurScale
  then HaveScale (iCurScale - 1) iScale
  else HaveScale iCurScale iScale.

(** The search by bit position, from [if (ulResHi != 0)] on. *)
Definition by_msb (rgulQuo : list Z) (ulResHi iScale : Z) : Z :=
  if negb (ulResHi =? 0) then
    let msb := snd (BitScanMsb64 ulResHi) in
    let iCurScale := 63 - msb in
    let iCurScale := Z.shiftr (iCurScale * 77) 8 + 1 in
    if ulResHi >? PowerOvfl_Hi iCurScale then HaveScale (iCurScale - 1) iScale
    else if ulResHi =? PowerOvfl_Hi iCurScale then UpperEq rgulQuo iCurScale iScale
    else HaveScale iCurScale iScale
  else HaveScale SEARCHSCALE_MAX_SCALE iScale.

End SearchScale.

Definition SearchScale64 (rgulQuo : list Z) (iScale : Z) : Z :=
  let hi32 := get rgulQuo 2 in
  let mid32 := get rgulQuo 1 in
  if (iScale >=? DEC_SCALE_MAX) || (hi32 >? OVFL_MAX32_1_HI) then
    SearchScale.HaveScale 0 iScale
  else
    let ulResHi := u64 (u64 (Z.shiftl hi32 32) + mid32) in
    if iScale >? DEC_SCALE_MAX - SEARCHSCALE_MAX_SCALE then
      let iCurScale := DEC_SCALE_MAX - iScale in
      if ulResHi <? PowerOvfl_Hi iCurScale then
        SearchScale.HaveScale iCurScale iScale
      else if ulResHi =? PowerOvfl_Hi iCurScale then
        SearchScale.UpperEq rgulQuo iCurScale iScale
      else SearchScale.by_msb rgulQuo ulResHi iScale
    else SearchScale.by_msb rgulQuo ulResHi iScale.

(** ** decimal_calc.cpp: 96-bit additions *)

(** [Add96By64(DECIMAL*, uint64_t)]. *)
Definition Add96By64_dec (pDec : DECIMAL) (value : Z) : carry_t * DECIMAL :=
  let '(carry, lo) := AddCarry64 0 (low64 pDec) value in
  let pDec := set_low64 pDec lo in
  let '(carry, hi) := AddCarry32 carry (DECIMAL_HI32 pDec) 0 in
  (carry, set_hi32_dec pDec hi).

(** [Add96By32(uint64_t*, uint32_t)]. *)
Definition Add96By32_u64 (pllVal : list Z) (value : Z) : carry_t * list Z :=
  let '(carry, v0) := AddCarry64 0 (get pllVal 0) value in
  let pllVal := set pllVal 0 v0 in
  let '(carry, v1) := AddCarry32 carry (low32 (get pllVal 1)) 0 in
  (carry, set pllVal 1 (set_low32 (get pllVal 1) v1)).

(** [Add96By64(uint32_t*, uint64_t)]. *)
Definition Add96By64_u32 (plVal : list Z) (value : Z) : carry_t * list Z :=
  let '(carry, v) := AddCarry64 0 (get64 plVal 0) value in
  let plVal := set64 plVal 0 v in
  let '(carry, v2) := AddCarry32 carry (get plVal 2) 0 in
  (carry, set plVal 2 v2).

(** [Add96By32(uint32_t*, uint32_t)]. *)
Definition Add96By32_u32 (plVal : list Z) (value : Z) : carry_t * list Z :=
  let '(carry, v0) := AddCarry32 0 (get plVal 0) value in
  let plVal := set plVal 0 v0 in
  let '(carry, v1) := AddCarry32 carry (get plVal 1) 0 in
  let plVal := set plVal 1 v1 in
  let '(carry, v2) := AddCarry32 carry (get plVal 2) 0 in
  (carry, set plVal 2 v2).

(** ** decimal_calc.cpp: ReduceScale *)

Record ReduceScale_result : Type := mkReduceScale {
  rs_rgullRes : list Z;
  rs_iHiRes : Z;
  rs_ulDen : Z;
  rs_iNewScale : Z;
  rs_remainder : Z
}.

(** [while (iCur >= 0)], entered with [iCur + 1 = n]. *)
Fixpoint ReduceScale_words (n : nat) (rgullRes : list Z) (ulRemainder ulDen : Z)
  : list Z * Z :=
  match n with
  | O => (rgullRes, ulRemainder)
  | Datatypes.S m =>
      let iCur := Z.of_nat m in
      let w := get rgullRes iCur in
      let '(q, ulRemainder) := DivMod64By32InPlace (hi32 w) ulRemainder ulDen in
      let w := set_hi32 w q in
      let '(q, ulRemainder) := DivMod64By32InPlace (low32 w) ulRemainder ulDen in
      let w := set_low32 w q in
      ReduceScale_words m (set rgullRes iCur w) ulRemainder ulDen
  end.

Definition ReduceScale (rgullRes : list Z) (iHiRes iNewScale : Z)
  : ReduceScale_result :=
  let iCur := iHiRes in
  let ulDen :=
    if iNewScale <? POWER10_MAX32 then u32 (get rgulPower10_64 iNewScale)
    else POWER10_MAX_VALUE32 in
  let iNewScale := iNewScale - POWER10_MAX32 in
  let w := get rgullRes iCur in
  let '(rgullRes, iHiRes, ulRemainder, iCur) :=
    if hi32 w <? ulDen then
      if (hi32 w =? 0) && (low32 w <? ulDen) then
        (set rgullRes iCur (set_low32 w 0),
         (if iHiRes >? 0 then iHiRes - 1 else iHiRes),
         low32 w, iCur - 1)
      else
        let '(q, r) := DivMod64By32InPlace (low32 w) (hi32 w) ulDen in
        (set rgullRes iCur (set_hi32 (set_low32 w q) 0), iHiRes, r, iCur - 1)
    else (rgullRes, iHiRes, 0, iCur) in
  let '(rgullRes, ulRemainder) :=
    ReduceScale_words (Z.to_nat (iCur + 1)) rgullRes ulRemainder ulDen in
  mkReduceScale rgullRes iHiRes ulDen iNewScale ulRemainder.

(** ** decimal_calc.cpp: ScaleResult *)

Record ScaleResult_state : Type := mkScaleResult {
  sr_rgullRes : list Z;
  sr_iHiRes : Z;
  sr_iScale : Z;
  sr_iNewScale : Z;
  sr_ulSticky : Z;
  sr_ulRemainder : Z
}.

(** The rounding at the end of a round ("Round final result" down to the
    two returns).  [ulPwr] is the divisor of the last [ReduceScale]. *)
Definition ScaleResult_round (rgullRes : list Z) (iHiRes iScale ulPwr ulSticky
  ulRemainder : Z) : step ScaleResult_state (Z * list Z) :=
  let ulPwr := Z.shiftr ulPwr 1 in
  let finish (rgullRes : list Z) :=
    if iScale <? 0 then Break (-1, rgullRes) else Break (iScale, rgullRes) in
  if (ulRemainder >? ulPwr)
     || ((ulRemainder =? ulPwr)
         && negb (Z.lor (Z.land (u32 (get rgullRes 0)) 1) ulSticky =? 0))
  then
    let '(carry, rgullRes) := Add96By32_u64 rgullRes 1 in
    if negb (carry =? 0) then
      Continue (mkScaleResult (set rgullRes 1 (set_hi32 (get rgullRes 1) 1))
                  iHiRes (iScale - 1) 1 0 0)
    else finish rgullRes
  else finish rgullRes.

(** One round of the [for (;;)]. *)
Definition ScaleResult_body (st : ScaleResult_state)
  : option (step ScaleResult_state (Z * list Z)) :=
  let ulSticky := Z.lor (sr_ulSticky st) (sr_ulRemainder st) in
  let rs := ReduceScale (sr_rgullRes st) (sr_iHiRes st) (sr_iNewScale st) in
  let rgullRes := rs_rgullRes rs in
  let iHiRes := rs_iHiRes rs in
  let ulPwr := rs_ulDen rs in
  let iNewScale := rs_iNewScale rs in
  let ulRemainder := rs_remainder rs in
  let iScale := sr_iScale st in
  if iNewScale >? 0 then
    Some (Continue (mkScaleResult rgullRes iHiRes iScale iNewScale ulSticky ulRemainder))
  else if (iHiRes >? 1) || negb (hi32 (get rgullRes 1) =? 0) then
    Some (Continue (mkScaleResult rgullRes iHiRes (iScale - 1) 1 ulSticky ulRemainder))
  else
    Some (ScaleResult_round rgullRes iHiRes iScale ulPwr ulSticky ulRemainder).

(** Returns the new scale (or -1) and the buffer as it is left. *)
Definition ScaleResult (rounds : nat) (rgullRes : list Z) (iHiRes iScale : Z)
  : option (Z * list Z) :=
  let '(found, ulMsb) := BitScanMsb64 (get rgullRes iHiRes) in
  let iNewScale := iHiRes * 64 + ulMsb - 96 in
  let est :=
    if iNewScale >=? 0 then
      let iNewScale := Z.shiftr (iNewScale * 77) 8 + 1 in
      if iNewScale >? iScale then None else Some iNewScale
    else Some 0 in
  match est with
  | None => Some (-1, rgullRes)
  | Some iNewScale =>
      let iNewScale :=
        if iNewScale <? iScale - DEC_SCALE_MAX then iScale - DEC_SCALE_MAX
        else iNewScale in
      if negb (iNewScale =? 0) then
        iterate rounds ScaleResult_body
          (mkScaleResult rgullRes iHiRes (iScale - iNewScale) iNewScale 0 0)
      else Some (iScale, rgullRes)
  end.

(** ** decimal_calc.cpp: DecimalMul *)

(** Label [ReturnZero]. *)
Definition ReturnZero : option (HRESULT * DECIMAL) :=
  Some (NOERROR, DECIMAL_SETZERO).

(** The two stores shared by both branches before [return NOERROR]. *)
Definition DecimalMul_finish (pdecL pdecR pRes : DECIMAL) (iScale : Z)
  : option (HRESULT * DECIMAL) :=
  let pRes := set_sign pRes (Z.lxor (sign pdecL) (sign pdecR)) in
  let pRes := set_scale pRes iScale in
  Some (NOERROR, pRes).

Definition DecimalMul (rounds : nat) (pdecL pdecR pRes : DECIMAL) : option (HRESULT * DECIMAL) :=
  let iScale := scale pdecL + scale pdecR in
  if Z.lor (DECIMAL_HI32 pdecL) (DECIMAL_HI32 pdecR) =? 0 then
    let '(lo, hi) := Mul64By64 (low64 pdecL) (low64 pdecR) in
    if hi =? 0 then
      if iScale >? DEC_SCALE_MAX then
        let iScale := iScale - DEC_SCALE_MAX in
        if iScale >? 19 then ReturnZero
        else
          let ullPwr := get rgulPower10_64 iScale in
          let '(lo, ullRem) := DivMod64By64 lo ullPwr in
          let ullPwr := Z.shiftr ullPwr 1 in
          let lo :=
            if (ullRem >? ullPwr) || ((ullRem =? ullPwr) && negb (Z.land lo 1 =? 0))
            then u64 (lo + 1) else lo in
          let iScale := DEC_SCALE_MAX in
          let pRes := set_hi32_dec pRes 0 in
          let pRes := set_low64 pRes lo in
          DecimalMul_finish pdecL pdecR pRes iScale
      else
        let pRes := set_hi32_dec pRes 0 in
        let pRes := set_low64 pRes lo in
        DecimalMul_finish pdecL pdecR pRes iScale
    else
      let tmpSpace := [lo; hi] in
      ' (iScale, tmpSpace) <- ScaleResult rounds tmpSpace 1 iScale ;;
      if iScale =? -1 then Some (DISP_E_OVERFLOW, pRes)
      else
        let pRes := set_low64 pRes (get tmpSpace 0) in
        let pRes := set_hi32_dec pRes (u32 (get tmpSpace 1)) in
        DecimalMul_finish pdecL pdecR pRes iScale
  else
    let '(prod0, tmpSum) := Mul64By64 (low64 pdecL) (low64 pdecR) in
    let prod2 := Mul32By32 (DECIMAL_HI32 pdecL) (DECIMAL_HI32 pdecR) in
    let '(lo, tmpHi1) := Mul64By32 (low64 pdecL) (DECIMAL_HI32 pdecR) in
    let '(carry1, tmpSum) := AddCarry64 0 lo tmpSum in
    let '(_, prod2) := AddCarry64 carry1 tmpHi1 prod2 in
    let '(tmpLo2, tmpHi2) := Mul64By32 (low64 pdecR) (DECIMAL_HI32 pdecL) in
    let '(carry2, tmpSum) := AddCarry64 0 tmpLo2 tmpSum in
    let '(_, prod2) := AddCarry64 carry2 tmpHi2 prod2 in
    let rgulProd := [prod0; tmpSum; prod2] in
    (* while (rgulProd[iHiProd] == 0) if (--iHiProd < 0) goto ReturnZero; *)
    let iHiProd :=
      if negb (get rgulProd 2 =? 0) then 2
      else if negb (get rgulProd 1 =? 0) then 1
      else if negb (get rgulProd 0 =? 0) then 0
      else -1 in
    if iHiProd <? 0 then ReturnZero
    else
      ' (iScale, rgulProd) <- ScaleResult rounds rgulProd iHiProd iScale ;;
      if iScale =? -1 then Some (DISP_E_OVERFLOW, pRes)
      else
        let pRes := set_low64 pRes (get rgulProd 0) in
        let pRes := set_hi32_dec pRes (u32 (get rgulProd 1)) in
        DecimalMul_finish pdecL pdecR pRes iScale.

(** ** decimal_calc.cpp: DecimalAddSub *)

Module AddSub.

(** Label [SignFlip]: negate the 96 bits of the result, toggle its sign. *)
Definition SignFlip (pdecRes : DECIMAL) : DECIMAL :=
  let pdecRes := set_low64 pdecRes (u64 (- low64 pdecRes)) in
  let pdecRes := set_hi32_dec pdecRes (u32 (Z.lnot (DECIMAL_HI32 pdecRes))) in
  let pdecRes :=
    if low64 pdecRes =? 0 then set_hi32_dec pdecRes (DECIMAL_HI32 pdecRes + 1)
    else pdecRes in
  set_sign pdecRes (Z.lxor (sign pdecRes) DECIMAL_NEG).

(** Label [AlignedAdd], down to [RetDec]. *)
Definition AlignedAdd (pdecL pdecR pdecRes : DECIMAL) (bSign : Z)
  : HRESULT * DECIMAL :=
  if negb (bSign =? 0) then
    let '(carry, lo) := SubBorrow64 0 (low64 pdecL) (low64 pdecR) in
    let pdecRes := set_low64 pdecRes lo in
    let '(carry, hi) := SubBorrow32 carry (DECIMAL_HI32 pdecL) (DECIMAL_HI32 pdecR) in
    let pdecRes := set_hi32_dec pdecRes hi in
    if negb (carry =? 0) then (NOERROR, SignFlip pdecRes)
    else (NOERROR, pdecRes)
  else
    let '(carry, lo) := AddCarry64 0 (low64 pdecL) (low64 pdecR) in
    let pdecRes := set_low64 pdecRes lo in
    let '(carry, hi) := AddCarry32 carry (DECIMAL_HI32 pdecL) (DECIMAL_HI32 pdecR) in
    let pdecRes := set_hi32_dec pdecRes hi in
    if negb (carry =? 0) then
      if scale pdecRes =? 0 then (DISP_E_OVERFLOW, pdecRes)
      else
        let pdecRes := set_scale pdecRes (scale pdecRes - 1) in
        let '(q, remainder) := DivMod64By32InPlace (DECIMAL_HI32 pdecRes) 1 10 in
        let pdecRes := set_hi32_dec pdecRes q in
        let '(q, remainder) := DivMod64By32InPlace (DECIMAL_MID32 pdecRes) remainder 10 in
        let pdecRes := set_mid32_dec pdecRes q in
        let '(q, remainder) := DivMod64By32InPlace (DECIMAL_LO32 pdecRes) remainder 10 in
        let pdecRes := set_low32_dec pdecRes q in
        if (remainder >=? 5)
           && ((remainder >? 5) || negb (Z.land (DECIMAL_LO32 pdecRes) 1 =? 0))
        then (NOERROR, snd (Add96By64_dec pdecRes 1))
        else (NOERROR, pdecRes)
    else (NOERROR, pdecRes).

(** [for (int iCur = 1; iCur <= iHiProd; iCur++)], with [n] elements left. *)
Fixpoint scale_words (n : nat) (iCur : Z) (rgullNum : list Z)
  (ullPwr mul_carry : Z) (add_carry : carry_t) : list Z * Z * carry_t :=
  match n with
  | O => (rgullNum, mul_carry, add_carry)
  | S m =>
      let tmp := mul_carry in
      let '(product, mul_carry) := Mul64By64 ullPwr (get rgullNum iCur) in
      let '(add_carry, x) := AddCarry64 add_carry tmp product in
      scale_words m (iCur + 1) (set rgullNum iCur x) ullPwr mul_carry add_carry
  end.

(** [for (; iScale > 0; iScale -= POWER10_MAX64)]: at most [n] rounds are
    needed when [iScale <= n]. *)
Fixpoint scale_loop (n : nat) (rgullNum : list Z) (iHiProd iScale : Z)
  : list Z * Z :=
  match n with
  | O => (rgullNum, iHiProd)
  | S m =>
      if iScale >? 0 then
        let ullPwr :=
          if iScale >=? POWER10_MAX64 then POWER10_MAX_VALUE64
          else get rgulPower10_64 iScale in
        let '(x, mul_carry) := Mul64By64 ullPwr (get rgullNum 0) in
        let rgullNum := set rgullNum 0 x in
        let '(rgullNum, mul_carry, add_carry) :=
          scale_words (Z.to_nat iHiProd) 1 rgullNum ullPwr mul_carry 0 in
        let '(rgullNum, iHiProd) :=
          if negb (Z.lor mul_carry add_carry =? 0) then
            let iHiProd := iHiProd + 1 in
            (set rgullNum iHiProd (snd (AddCarry64 add_carry mul_carry 0)), iHiProd)
          else (rgullNum, iHiProd) in
        scale_loop m rgullNum iHiProd (iScale - POWER10_MAX64)
      else (rgullNum, iHiProd)
  end.

(** From "Scaling complete, do the add" to [RetDec]. *)
Definition Unaligned (rounds : nat) (rgullNum : list Z) (iHiProd : Z) (pdecR pdecRes : DECIMAL)
  (bSign : Z) : option (HRESULT * DECIMAL) :=
  let normalize (rgullNum : list Z) (iHiProd : Z) (pdecRes : DECIMAL) :=
    if (iHiProd >? 1) || ((iHiProd =? 1) && negb (FitsIn32Bit (get rgullNum 1)))
    then
      let rgullNum := set rgullNum 0 (low64 pdecRes) in
      ' (iScale, rgullNum) <- ScaleResult rounds rgullNum iHiProd (scale pdecRes) ;;
      let pdecRes := set_scale pdecRes iScale in
      if scale pdecRes =? u8 (-1) then Some (DISP_E_OVERFLOW, pdecRes)
      else
        let pdecRes := set_low64 pdecRes (get rgullNum 0) in
        let pdecRes := set_hi32_dec pdecRes (u32 (get rgullNum 1)) in
        Some (NOERROR, pdecRes)
    else Some (NOERROR, pdecRes) in
  if negb (bSign =? 0) then
    let '(carry, lo) := SubBorrow64 0 (get rgullNum 0) (low64 pdecR) in
    let pdecRes := set_low64 pdecRes lo in
    let '(carry, x) := SubBorrow64 carry (get rgullNum 1) (DECIMAL_HI32 pdecR) in
    let rgullNum := set rgullNum 1 x in
    let pdecRes := set_hi32_dec pdecRes (u32 (get rgullNum 1)) in
    if negb (carry =? 0) then
      if iHiProd <=? 1 then Some (NOERROR, SignFlip pdecRes)
      else
        let rgullNum := set rgullNum 2 (u64 (get rgullNum 2 - 1)) in
        let iHiProd := if get rgullNum 2 =? 0 then 1 else iHiProd in
        normalize rgullNum iHiProd pdecRes
    else normalize rgullNum iHiProd pdecRes
  else
    let '(carry, lo) := AddCarry64 0 (get rgullNum 0) (low64 pdecR) in
    let pdecRes := set_low64 pdecRes lo in
    let '(carry, x) := AddCarry64 carry (get rgullNum 1) (DECIMAL_HI32 pdecR) in
    let rgullNum := set rgullNum 1 x in
    let pdecRes := set_hi32_dec pdecRes (u32 (get rgullNum 1)) in
    if negb (carry =? 0) then
      if iHiProd <? 2 then normalize (set rgullNum 2 1) 2 pdecRes
      else normalize (set rgullNum 2 (u64 (get rgullNum 2 + 1))) iHiProd pdecRes
    else normalize rgullNum iHiProd pdecRes.

(** The unequal scales, from "*pdecL will need to be multiplied by
    10^iScale" on: [pdecL] is the operand to scale up by [iScale]. *)
Definition ScaleUp (rounds : nat) (iScale : Z) (pdecL pdecR pdecRes : DECIMAL) (bSign : Z)
  : option (HRESULT * DECIMAL) :=
  if iScale <=? POWER10_MAX64 then
    let ullPwr := get rgulPower10_64 iScale in
    let '(num0, hi) := Mul64By64 (low64 pdecL) ullPwr in
    let '(num1, num2) := Mul64By64 (DECIMAL_HI32 pdecL) ullPwr in
    let '(carry, num1) := AddCarry64 0 num1 hi in
    let '(_, num2) := AddCarry64 carry num2 0 in
    let rgullNum := [num0; num1; num2] in
    if negb (get rgullNum 2 =? 0) then Unaligned rounds rgullNum 2 pdecR pdecRes bSign
    else if FitsIn32Bit (get rgullNum 1) then
      (* only the mantissa of decTmp is written and read *)
      let decTmp := mkDECIMAL 0 0 0 (u32 (get rgullNum 1)) (get rgullNum 0) in
      Some (AlignedAdd decTmp pdecR pdecRes bSign)
    else Unaligned rounds rgullNum 1 pdecR pdecRes bSign
  else
    let rgullNum := [low64 pdecL; DECIMAL_HI32 pdecL; 0] in
    if (DECIMAL_HI32 pdecL =? 0) && (low64 pdecL =? 0) then
      let pdecRes := set_low64 pdecRes (low64 pdecR) in
      let pdecRes := set_hi32_dec pdecRes (DECIMAL_HI32 pdecR) in
      let pdecRes := set_sign pdecRes (Z.lxor (sign pdecRes) bSign) in
      Some (NOERROR, pdecRes)
    else
      let iHiProd := if DECIMAL_HI32 pdecL =? 0 then 0 else 1 in
      let '(rgullNum, iHiProd) :=
        scale_loop (Z.to_nat iScale) rgullNum iHiProd iScale in
      Unaligned rounds rgullNum iHiProd pdecR pdecRes bSign.

End AddSub.

Definition DecimalAddSub (rounds : nat) (pdecL pdecR pdecRes : DECIMAL) (bSign : Z)
  : option (HRESULT * DECIMAL) :=
  let bSign := Z.lxor bSign (Z.land (Z.lxor (sign pdecR) (sign pdecL)) DECIMAL_NEG) in
  if scale pdecR =? scale pdecL then
    let pdecRes := set_signscale pdecRes (signscale pdecL) in
    Some (AddSub.AlignedAdd pdecL pdecR pdecRes bSign)
  else
    let pdecRes := set_scale pdecRes (scale pdecR) in
    let pdecRes := set_sign pdecRes (sign pdecL) in
    let iScale := scale pdecRes - scale pdecL in
    if iScale <? 0 then
      (* Guessed scale factor wrong. Swap operands. *)
      let iScale := - iScale in
      let pdecRes := set_scale pdecRes (scale pdecL) in
      let pdecRes := set_sign pdecRes (Z.lxor (sign pdecRes) bSign) in
      AddSub.ScaleUp rounds iScale pdecR pdecL pdecRes bSign
    else AddSub.ScaleUp rounds iScale pdecL pdecR pdecRes bSign.

Definition DecimalAdd (rounds : nat) (l r res : DECIMAL) : option (HRESULT * DECIMAL) :=
  DecimalAddSub rounds l r res 0.
Definition DecimalSub (rounds : nat) (l r res : DECIMAL) : option (HRESULT * DECIMAL) :=
  DecimalAddSub rounds l r res DECIMAL_NEG.

(** ** decimal_calc.cpp: helpers of the division *)

(** Returns (highest 64 bits of the product, [rgulNum]). *)
Definition IncreaseScale96By64 (rgulNum : list Z) (ulPwr : Z) : Z * list Z :=
  let '(x, hi) := Mul64By64 (get64 rgulNum 0) ulPwr in
  let rgulNum := set64 rgulNum 0 x in
  let '(tmp64, overflow) := Mul64By64 (get rgulNum 2) ulPwr in
  let '(carry, tmp64) := AddCarry64 0 tmp64 hi in
  let '(_, overflow) := AddCarry64 carry overflow 0 in
  let rgulNum := set rgulNum 2 (low32 tmp64) in
  (u64 (u64 (Z.shiftl (u32 overflow) 32) + hi32 tmp64), rgulNum).

Definition IncreaseScale96By32 (rgulNum : list Z) (ulPwr : Z) : Z * list Z :=
  let '(x, hi) := Mul64By32 (get64 rgulNum 0) ulPwr in
  let rgulNum := set64 rgulNum 0 x in
  let sdlTmp := u64 (Mul32By32 (get rgulNum 2) ulPwr + hi) in
  let rgulNum := set rgulNum 2 (low32 sdlTmp) in
  (hi32 sdlTmp, rgulNum).

(** Returns (remainder, [rgulNum]). *)
Definition Div96By32_x64 (rgulNum : list Z) (ulDen : Z) : Z * list Z :=
  let Div1Word (rgulNum : list Z) (remainder : Z) :=
    let '(q, remainder) := DivMod64By32InPlace (get rgulNum 0) remainder ulDen in
    (remainder, set rgulNum 0 q) in
  let Div2Word (rgulNum : list Z) (remainder : Z) :=
    let '(q, remainder) := DivMod64By32InPlace (get rgulNum 1) remainder ulDen in
    Div1Word (set rgulNum 1 q) remainder in
  let Div3Word (rgulNum : list Z) :=
    let '(q, remainder) := DivMod32By32 (get rgulNum 2) ulDen in
    Div2Word (set rgulNum 2 q) remainder in
  if get rgulNum 2 >=? ulDen then Div3Word rgulNum
  else
    let remainder := get rgulNum 2 in
    let rgulNum := set rgulNum 2 0 in
    if negb (remainder =? 0) || (get rgulNum 1 >=? ulDen) then Div2Word rgulNum remainder
    else
      let remainder := get rgulNum 1 in
      let rgulNum := set rgulNum 1 0 in
      Div1Word rgulNum remainder.

(** The dividend is the four words of [rgulNum] from element [o] on (the
    pointer handed in); returns (quotient, [rgulNum]). *)
Definition Div128By96_x64 (rounds : nat) (rgulNum : list Z) (o : Z) (rgulDen : list Z)
  : option (Z * list Z) :=
  if (get rgulNum (o + 3) =? 0) && (get rgulNum (o + 2) <? get rgulDen 2) then
    Some (0, rgulNum)
  else
    let '(quo, remainder) :=
      DivMod64By32 (get rgulNum (o + 2)) (get rgulNum (o + 3)) (get rgulDen 2) in
    let '(sdlProd1, hi) := Mul64By32 (get64 rgulDen 0) quo in
    let '(carry, sdlNum) := SubBorrow64 0 (get64 rgulNum o) sdlProd1 in
    let '(carry, x) := SubBorrow32 carry remainder hi in
    let rgulNum := set rgulNum (o + 2) x in
    ' (quo, sdlNum, rgulNum) <-
      (if negb (carry =? 0) then
         (* do { ... } while (carry == 0) *)
         iterate rounds
           (fun '(quo, sdlNum, rgulNum) =>
              let quo := u32 (quo - 1) in
              let '(carry, sdlNum) := AddCarry64 0 sdlNum (get64 rgulDen 0) in
              let '(carry, x) := AddCarry32 carry (get rgulNum (o + 2)) (get rgulDen 2) in
              let rgulNum := set rgulNum (o + 2) x in
              if carry =? 0 then Some (Continue (quo, sdlNum, rgulNum))
              else Some (Break (quo, sdlNum, rgulNum)))
           (quo, sdlNum, rgulNum)
       else Some (quo, sdlNum, rgulNum)) ;;
    Some (quo, set64 rgulNum o sdlNum).

Definition Div160By96_x64 (rounds : nat) (rgulNum rgulDen : list Z) : option (Z * list Z) :=
  ' (quo, rgulNum) <-
    (if get64 rgulNum 3 >=? get rgulDen 2 then
       ' (q, rgulNum) <- Div128By96_x64 rounds rgulNum 1 rgulDen ;;
       Some (u64 (Z.shiftl q 32), rgulNum)
     else Some (0, rgulNum)) ;;
  ' (q, rgulNum) <- Div128By96_x64 rounds rgulNum 0 rgulDen ;;
  Some (u64 (quo + q), rgulNum).

(** [do { quo--; sdlNum += ullDen; } while (sdlNum >= ullDen)], with [quo]
    of [w] bits. *)
Definition NegRem (rounds : nat) (w : Z) (ullDen : Z) (quo sdlNum : Z) : option (Z * Z) :=
  iterate rounds
    (fun '(quo, sdlNum) =>
       let quo := (quo - 1) mod w in
       let sdlNum := u64 (sdlNum + ullDen) in
       if sdlNum >=? ullDen then Some (Continue (quo, sdlNum))
       else Some (Break (quo, sdlNum)))
    (quo, sdlNum).

(** [rgullNum] is the buffer seen as 32-bit words; returns
    (quotient, buffer). *)
Definition Div96By64_x64 (rounds : nat) (rgulNum : list Z) (ullDen : Z) : option (Z * list Z) :=
  let sdlNum := get rgulNum 0 in
  if get rgulNum 2 >=? hi32 ullDen then
    let sdlNum := set_hi32 sdlNum (get rgulNum 1 - low32 ullDen) in
    ' (quo, sdlNum) <- NegRem rounds two32 ullDen 0 sdlNum ;;
    Some (quo, set64 rgulNum 0 sdlNum)
  else if (get rgulNum 2 =? 0) && (get64 rgulNum 0 <? ullDen) then
    Some (0, rgulNum)
  else
    let '(quo, h) := DivMod64By32 (get rgulNum 1) (get rgulNum 2) (hi32 ullDen) in
    let sdlNum := set_hi32 sdlNum h in
    let sdlProd := Mul32By32 quo (low32 ullDen) in
    let '(carry, sdlNum) := SubBorrow64 0 sdlNum sdlProd in
    ' (quo, sdlNum) <-
      (if negb (carry =? 0) then NegRem rounds two32 ullDen quo sdlNum
       else Some (quo, sdlNum)) ;;
    Some (quo, set64 rgulNum 0 sdlNum).

Definition Div128By64_x64 (rounds : nat) (rgulNum : list Z) (ullDen : Z) : option (Z * list Z) :=
  let hi64 := get64 rgulNum 2 in
  if hi64 >=? ullDen then
    let sdlNum := get64 rgulNum 2 in
    ' (quotient, sdlNum) <- NegRem rounds two64 ullDen 0 sdlNum ;;
    Some (quotient, set64 rgulNum 0 sdlNum)
  else
    let low64 := get64 rgulNum 0 in
    if (hi64 =? 0) && (low64 <? ullDen) then Some (0, rgulNum)
    else
      let '(quotient, r) := DivMod128By64 low64 hi64 ullDen in
      Some (quotient, set64 rgulNum 0 r).

(** ** decimal_calc.cpp: DecimalDiv *)

Module Div.

Record state : Type := mkState {
  rgulQuo : list Z;
  rgulRem : list Z;
  iScale : Z;
  fUnscale : bool
}.

Definition loop_step : Type := step state (HRESULT * state).

(** Label [RoundUp]: [Add96By32(rgulQuo, 1)], then [break]. *)
Definition RoundUp (st : state) : loop_step :=
  Break (NOERROR,
         mkState (snd (Add96By32_u32 (rgulQuo st) 1)) (rgulRem st) (iScale st)
           (fUnscale st)).

(** Label [HaveScale32], to the end of the round. *)
Definition HaveScale32 (rgulDivisor : list Z) (st : state) (iCurScale : Z)
  : option loop_step :=
  let ullPwr32 := u32 (get rgulPower10_64 iCurScale) in
  let iScale := iScale st + iCurScale in
  let '(ovf, rgulQuo) := IncreaseScale96By32 (rgulQuo st) ullPwr32 in
  if negb (ovf =? 0) then
    Some (Break (DISP_E_OVERFLOW, mkState rgulQuo (rgulRem st) iScale (fUnscale st)))
  else
    let num := Mul32By32 (get (rgulRem st) 0) (u32 ullPwr32) in
    let '(ullTmp32, r) := DivMod64By32 (low32 num) (hi32 num) (get rgulDivisor 0) in
    let rgulRem := set (rgulRem st) 0 r in
    let rgulQuo := snd (Add96By32_u32 rgulQuo ullTmp32) in
    Some (Continue (mkState rgulQuo rgulRem iScale (fUnscale st))).

(** One round of the loop for a 32-bit divisor. *)
Definition body32 (rgulDivisor : list Z) (st : state) : option loop_step :=
  if get (rgulRem st) 0 =? 0 then
    if iScale st <? 0 then
      HaveScale32 rgulDivisor st (Z.min POWER10_MAX32 (- iScale st))
    else Some (Break (NOERROR, st))
  else
    let st := mkState (rgulQuo st) (rgulRem st) (iScale st) true in
    let iCurScale := SearchScale64 (rgulQuo st) (iScale st) in
    if iCurScale =? 0 then
      let ulTmp := u32 (Z.shiftl (get (rgulRem st) 0) 1) in
      if (ulTmp <? get (rgulRem st) 0)
         || ((ulTmp >? get rgulDivisor 0)
             || ((ulTmp =? get rgulDivisor 0)
                 && negb (Z.land (get (rgulQuo st) 0) 1 =? 0)))
      then Some (RoundUp st)
      else Some (Break (NOERROR, st))
    else if iCurScale =? -1 then Some (Break (DISP_E_OVERFLOW, st))
    else HaveScale32 rgulDivisor st (Z.min iCurScale POWER10_MAX32).

(** Label [HaveScale64], to the end of the round. *)
Definition HaveScale64 (rounds : nat) (ullDivisor : Z) (st : state) (iCurScale : Z)
  : option loop_step :=
  let iCurScale := Z.min iCurScale POWER10_MAX32 in
  let ullPwr32 := u32 (get rgulPower10_64 iCurScale) in
  let iScale := iScale st + iCurScale in
  let '(ovf, rgulQuo) := IncreaseScale96By32 (rgulQuo st) ullPwr32 in
  if negb (ovf =? 0) then
    Some (Break (DISP_E_OVERFLOW, mkState rgulQuo (rgulRem st) iScale (fUnscale st)))
  else
    let '(x, h) := Mul64By32 (get64 (rgulRem st) 0) ullPwr32 in
    let rgulRem := set (set64 (rgulRem st) 0 x) 2 h in
    ' (tmp32, rgulRem) <- Div96By64_x64 rounds rgulRem ullDivisor ;;
    let rgulQuo := snd (Add96By32_u32 rgulQuo tmp32) in
    Some (Continue (mkState rgulQuo rgulRem iScale (fUnscale st))).

(** One round of the loop for a 64-bit divisor. *)
Definition body64 (rounds : nat) (ullDivisor : Z) (st : state) : option loop_step :=
  if get64 (rgulRem st) 0 =? 0 then
    if iScale st <? 0 then
      HaveScale64 rounds ullDivisor st (Z.min POWER10_MAX64 (- iScale st))
    else Some (Break (NOERROR, st))
  else
    let st := mkState (rgulQuo st) (rgulRem st) (iScale st) true in
    let iCurScale := SearchScale64 (rgulQuo st) (iScale st) in
    if iCurScale =? 0 then
      let ullTmp64 := get64 (rgulRem st) 0 in
      if (ullTmp64 >=? 9223372036854775808)
         || ((u64 (Z.shiftl ullTmp64 1) >? ullDivisor)
             || ((u64 (Z.shiftl ullTmp64 1) =? ullDivisor)
                 && negb (Z.land (get (rgulQuo st) 0) 1 =? 0)))
      then Some (RoundUp st)
      else Some (Break (NOERROR, st))
    else if iCurScale =? -1 then Some (Break (DISP_E_OVERFLOW, st))
    else HaveScale64 rounds ullDivisor st iCurScale.

(** Label [HaveScale96], to the end of the round. *)
Definition HaveScale96 (rounds : nat) (rgulDivisor : list Z) (st : state) (iCurScale : Z)
  : option loop_step :=
  let ullPwr64 := get rgulPower10_64 iCurScale in
  let iScale := iScale st + iCurScale in
  let '(ovf, rgulQuo) := IncreaseScale96By64 (rgulQuo st) ullPwr64 in
  if negb (ovf =? 0) then
    Some (Break (DISP_E_OVERFLOW, mkState rgulQuo (rgulRem st) iScale (fUnscale st)))
  else
    let '(tmp64, rgulRem) := IncreaseScale96By64 (rgulRem st) ullPwr64 in
    let rgulRem := set64 rgulRem 3 tmp64 in
    ' (quo, rgulRem) <- Div160By96_x64 rounds rgulRem rgulDivisor ;;
    let rgulQuo := snd (Add96By64_u32 rgulQuo quo) in
    Some (Continue (mkState rgulQuo rgulRem iScale (fUnscale st))).

(** One round of the loop for a 96-bit divisor. *)
Definition body96 (rounds : nat) (rgulDivisor : list Z) (st : state) : option loop_step :=
  if Z.lor (get64 (rgulRem st) 0) (get (rgulRem st) 2) =? 0 then
    if iScale st <? 0 then
      HaveScale96 rounds rgulDivisor st (Z.min POWER10_MAX64 (- iScale st))
    else Some (Break (NOERROR, st))
  else
    let st := mkState (rgulQuo st) (rgulRem st) (iScale st) true in
    let iCurScale := SearchScale64 (rgulQuo st) (iScale st) in
    if iCurScale =? 0 then
      if get (rgulRem st) 2 >=? 2147483648 then Some (RoundUp st)
      else
        let '(carry, x) :=
          AddCarry64 0 (get64 (rgulRem st) 0) (get64 (rgulRem st) 0) in
        let rgulRem := set64 (rgulRem st) 0 x in
        let '(_, x) := AddCarry32 carry (get rgulRem 2) (get rgulRem 2) in
        let rgulRem := set rgulRem 2 x in
        let st := mkState (rgulQuo st) rgulRem (iScale st) (fUnscale st) in
        if (get rgulRem 2 >? get rgulDivisor 2)
           || ((get rgulRem 2 =? get rgulDivisor 2)
               && ((get64 rgulRem 0 >? get64 rgulDivisor 0)
                   || ((get64 rgulRem 0 =? get64 rgulDivisor 0)
                       && negb (Z.land (get (rgulQuo st) 0) 1 =? 0))))
        then Some (RoundUp st)
        else Some (Break (NOERROR, st))
    else if iCurScale =? -1 then Some (Break (DISP_E_OVERFLOW, st))
    else HaveScale96 rounds rgulDivisor st iCurScale.

(** One attempt of the trimming: copy the quotient to [rgullQuoSave],
    divide the copy by [ulDen], keep it when the remainder is zero.
    Returns whether it was kept. *)
Definition try_unscale (ulDen power : Z) (rgulQuo : list Z) (iScale : Z)
  : bool * list Z * Z :=
  let rgullQuoSave := [0; 0; 0; 0] in
  let rgullQuoSave := set64 rgullQuoSave 0 (get64 rgulQuo 0) in
  let rgullQuoSave := set rgullQuoSave 2 (low32 (get64 rgulQuo 2)) in
  let '(remainder, rgullQuoSave) := Div96By32_x64 rgullQuoSave ulDen in
  if remainder =? 0 then
    let rgulQuo := set64 rgulQuo 0 (get64 rgullQuoSave 0) in
    let rgulQuo := set rgulQuo 2 (low32 (get64 rgullQuoSave 2)) in
    (true, rgulQuo, iScale - power)
  else (false, rgulQuo, iScale).

(** [while ((rgullQuo[0] & 0xFF) == 0 && iScale >= 8)]. *)
Definition unscale8 (rounds : nat) (rgulQuo : list Z) (iScale : Z) : option (list Z * Z) :=
  iterate rounds
    (fun '(rgulQuo, iScale) =>
       if (Z.land (get64 rgulQuo 0) 255 =? 0) && (iScale >=? 8) then
         let '(kept, rgulQuo, iScale) := try_unscale 100000000 8 rgulQuo iScale in
         if kept then Some (Continue (rgulQuo, iScale))
         else Some (Break (rgulQuo, iScale))
       else Some (Break (rgulQuo, iScale)))
    (rgulQuo, iScale).

(** The body of [if (fUnscale)]. *)
Definition unscale (rounds : nat) (rgulQuo : list Z) (iScale : Z) : option (list Z * Z) :=
  ' (rgulQuo, iScale) <- unscale8 rounds rgulQuo iScale ;;
  let '(rgulQuo, iScale) :=
    if (Z.land (get64 rgulQuo 0) 15 =? 0) && (iScale >=? 4) then
      let '(_, rgulQuo, iScale) := try_unscale 10000 4 rgulQuo iScale in
      (rgulQuo, iScale)
    else (rgulQuo, iScale) in
  let '(rgulQuo, iScale) :=
    if (Z.land (get64 rgulQuo 0) 3 =? 0) && (iScale >=? 2) then
      let '(_, rgulQuo, iScale) := try_unscale 100 2 rgulQuo iScale in
      (rgulQuo, iScale)
    else (rgulQuo, iScale) in
  let '(rgulQuo, iScale) :=
    if (Z.land (get64 rgulQuo 0) 1 =? 0) && (iScale >=? 1) then
      let '(_, rgulQuo, iScale) := try_unscale 10 1 rgulQuo iScale in
      (rgulQuo, iScale)
    else (rgulQuo, iScale) in
  Some (rgulQuo, iScale).

(** From "We need to unscale" to [return NOERROR]. *)
Definition finish (rounds : nat) (pdecL pdecR pdecRes : DECIMAL) (r : HRESULT * state)
  : option (HRESULT * DECIMAL) :=
  match r with
  | (NOERROR, st) =>
      ' (rgulQuo, iScale) <-
        (if fUnscale st then unscale rounds (rgulQuo st) (iScale st)
         else Some (rgulQuo st, iScale st)) ;;
      let pdecRes := set_hi32_dec pdecRes (u32 (get64 rgulQuo 2)) in
      let pdecRes := set_scale pdecRes iScale in
      let pdecRes := set_sign pdecRes (Z.lxor (sign pdecL) (sign pdecR)) in
      let pdecRes := set_low64 pdecRes (get64 rgulQuo 0) in
      Some (NOERROR, pdecRes)
  | (hr, _) => Some (hr, pdecRes)
  end.

End Div.

Definition DecimalDiv (rounds : nat) (pdecL pdecR pdecRes : DECIMAL) : option (HRESULT * DECIMAL) :=
  let rgulQuo := [0; 0; 0; 0] in
  let rgulRem := [0; 0; 0; 0; 0; 0] in
  let rgulDivisor := [0; 0; 0; 0] in
  let iScale := scale pdecL - scale pdecR in
  let fUnscale := false in
  let rgulDivisor := set64 rgulDivisor 0 (low64 pdecR) in
  let rgulDivisor := set rgulDivisor 2 (DECIMAL_HI32 pdecR) in
  if (get rgulDivisor 2 =? 0) && FitsIn32Bit (get64 rgulDivisor 0) then
    if get rgulDivisor 0 =? 0 then Some (DISP_E_DIVBYZERO, pdecRes)
    else
      let rgulQuo := set64 rgulQuo 0 (low64 pdecL) in
      let rgulQuo := set rgulQuo 2 (DECIMAL_HI32 pdecL) in
      let '(r, rgulQuo) := Div96By32_x64 rgulQuo (get rgulDivisor 0) in
      let rgulRem := set rgulRem 0 r in
      r <- iterate rounds (Div.body32 rgulDivisor)
             (Div.mkState rgulQuo rgulRem iScale fUnscale) ;;
      Div.finish rounds pdecL pdecR pdecRes r
  else
    let ulTmp :=
      if get rgulDivisor 2 =? 0 then get rgulDivisor 1 else get rgulDivisor 2 in
    let '(found, msb) := BitScanMsb32 ulTmp in
    let iCurScale := 31 - msb in
    let rgulRem := set64 rgulRem 0 (u64 (Z.shiftl (low64 pdecL) iCurScale)) in
    let rgulRem :=
      set64 rgulRem 2 (ShiftLeft128 (low64 pdecL) (DECIMAL_HI32 pdecL) (u8 iCurScale)) in
    let ullDivisor := u64 (Z.shiftl (get64 rgulDivisor 0) iCurScale) in
    if get rgulDivisor 2 =? 0 then
      let rgulQuo := set rgulQuo 2 0 in
      ' (q, rgulRem) <- Div128By64_x64 rounds rgulRem ullDivisor ;;
      let rgulQuo := set64 rgulQuo 0 q in
      r <- iterate rounds (Div.body64 rounds ullDivisor)
             (Div.mkState rgulQuo rgulRem iScale fUnscale) ;;
      Div.finish rounds pdecL pdecR pdecRes r
    else
      let rgulDivisor :=
        set64 rgulDivisor 2
          (ShiftLeft128 (get64 rgulDivisor 0) (get64 rgulDivisor 2) (u8 iCurScale)) in
      let rgulDivisor := set64 rgulDivisor 0 ullDivisor in
      let rgulQuo := set rgulQuo 2 0 in
      ' (q, rgulRem) <- Div128By96_x64 rounds rgulRem 0 rgulDivisor ;;
      let rgulQuo := set64 rgulQuo 0 q in
      r <- iterate rounds (Div.body96 rounds rgulDivisor)
             (Div.mkState rgulQuo rgulRem iScale fUnscale) ;;
      Div.finish rounds pdecL pdecR pdecRes r.

(** ** decimal.cpp: the callers of the arithmetic

    [decRes] is the local the result is written to, with whatever it held. *)

Definition FAILED (hr : HRESULT) : bool :=
  match hr with
  | NOERROR => false
  | _ => true
  end.

(** What a call leaves: [*pdecL] and [*overflowed], or an exception. *)
Inductive fcall : Type :=
| Returned (d1 : DECIMAL) (overflowed : bool)
| Thrown_DivideByZero.

Definition DoMultiply (rounds : nat) (d1 d2 decRes : DECIMAL) : option fcall :=
  ' (hr, decRes) <- DecimalMul rounds d1 d2 decRes ;;
  if FAILED hr then Some (Returned d1 true)
  else Some (Returned (set_wReserved decRes 0) false).

Definition DoAddSub (rounds : nat) (pdecL pdecR decRes : DECIMAL) (bSign : Z) : option fcall :=
  ' (hr, decRes) <- DecimalAddSub rounds pdecL pdecR decRes bSign ;;
  if FAILED hr then Some (Returned pdecL true)
  else Some (Returned (set_wReserved decRes 0) false).

Definition DoDivide (rounds : nat) (pdecL pdecR decRes : DECIMAL) : option fcall :=
  ' (hr, decRes) <- DecimalDiv rounds pdecL pdecR decRes ;;
  match hr with
  | DISP_E_DIVBYZERO => Some Thrown_DivideByZero
  | DISP_E_OVERFLOW => Some (Returned pdecL true)
  | NOERROR => Some (Returned (set_wReserved decRes 0) false)
  end.

(** ** decimal.cpp: NumberToDecimal and its helpers *)

(** Returns (carry, new [*value]). *)
Definition D32AddCarry (value i : Z) : Z * Z :=
  let v := value in
  let sum := u32 (v + i) in
  ((if (sum <? v) || (sum <? i) then 1 else 0), sum).

Definition DecShiftLeft (value : DECIMAL) : DECIMAL :=
  let c0 := if negb (Z.land (DECIMAL_LO32 value) 2147483648 =? 0) then 1 else 0 in
  let c1 := if negb (Z.land (DECIMAL_MID32 value) 2147483648 =? 0) then 1 else 0 in
  let value := set_low32_dec value (Z.shiftl (DECIMAL_LO32 value) 1) in
  let value := set_mid32_dec value (Z.lor (u32 (Z.shiftl (DECIMAL_MID32 value) 1)) c0) in
  set_hi32_dec value (Z.lor (u32 (Z.shiftl (DECIMAL_HI32 value) 1)) c1).

Definition DecAdd (value d : DECIMAL) : DECIMAL :=
  let '(c, x) := D32AddCarry (DECIMAL_LO32 value) (DECIMAL_LO32 d) in
  let value := set_low32_dec value x in
  let value :=
    if negb (c =? 0) then
      let '(c, x) := D32AddCarry (DECIMAL_MID32 value) 1 in
      let value := set_mid32_dec value x in
      if negb (c =? 0) then set_hi32_dec value (snd (D32AddCarry (DECIMAL_HI32 value) 1))
      else value
    else value in
  let '(c, x) := D32AddCarry (DECIMAL_MID32 value) (DECIMAL_MID32 d) in
  let value := set_mid32_dec value x in
  let value :=
    if negb (c =? 0) then set_hi32_dec value (snd (D32AddCarry (DECIMAL_HI32 value) 1))
    else value in
  set_hi32_dec value (snd (D32AddCarry (DECIMAL_HI32 value) (DECIMAL_HI32 d))).

Definition DecMul10 (value : DECIMAL) : DECIMAL :=
  let d := value in
  let value := DecShiftLeft value in
  let value := DecShiftLeft value in
  let value := DecAdd value d in
  DecShiftLeft value.

Definition DecAddInt32 (value : DECIMAL) (i : Z) : DECIMAL :=
  let '(c, x) := D32AddCarry (DECIMAL_LO32 value) i in
  let value := set_low32_dec value x in
  if negb (c =? 0) then
    let '(c, x) := D32AddCarry (DECIMAL_MID32 value) 1 in
    let value := set_mid32_dec value x in
    if negb (c =? 0) then set_hi32_dec value (snd (D32AddCarry (DECIMAL_HI32 value) 1))
    else value
  else value.

(** The fields of [NUMBER] the parser reads: the decimal exponent
    [number_scale], the flag [number_sign] and [digits], the characters up
    to the terminating zero.  [before_digits] is the 16-bit unit that lies
    in front of [digits[0]]: the parser reads it as [*(p-2)] when the digit
    it rounds on is the first one. *)
Record NUMBER : Type := mkNUMBER {
  number_scale : Z;
  number_sign : bool;
  before_digits : Z;
  digits : list Z
}.

Module Parse.

Definition char_0 : Z := 48.
Definition char_5 : Z := 53.

(** [*p] for the pointer at index [p] of [digits]. *)
Definition deref (number : NUMBER) (p : Z) : Z :=
  if p <? 0 then before_digits number else get (digits number) p.

(** The test on the mantissa in the condition of the digit loop. *)
Definition can_absorb (d : DECIMAL) (c : Z) : bool :=
  (DECIMAL_HI32 d <? 429496729)
  || ((DECIMAL_HI32 d =? 429496729)
      && ((DECIMAL_MID32 d <? 2576980377)
          || ((DECIMAL_MID32 d =? 2576980377)
              && ((DECIMAL_LO32 d <? 2576980377)
                  || ((DECIMAL_LO32 d =? 2576980377) && (c <=? char_5)))))).

(** The digit loop.  Every round lowers [e] and needs [e > -28], so
    [e + 28] rounds are enough. *)
Fixpoint absorb (n : nat) (number : NUMBER) (d : DECIMAL) (p e : Z)
  : DECIMAL * Z * Z :=
  match n with
  | O => (d, p, e)
  | S m =>
      if ((e >? 0) || (negb (deref number p =? 0) && (e >? -28)))
         && can_absorb d (deref number p)
      then
        let d := DecMul10 d in
        let '(d, p) :=
          if negb (deref number p =? 0)
          then (DecAddInt32 d (u32 (deref number p - char_0)), p + 1)
          else (d, p) in
        absorb m number d p (e - 1)
      else (d, p, e)
  end.

(** The loop that skips up to [count] characters '0' from [p] on (the scan
    of the next 20 digits); returns the final [p] and [count]. *)
Fixpoint skip_zeros (count : nat) (number : NUMBER) (p : Z) : Z * nat :=
  match count with
  | O => (p, O)
  | S c =>
      if deref number p =? char_0 then skip_zeros c number (p + 1)
      else (p, count)
  end.

(** The block run when the character after the absorbed digits is '5'
    or more; [p] is already past that character. *)
Definition round_up (number : NUMBER) (d : DECIMAL) (p e : Z) : DECIMAL * Z :=
  let round :=
    if (deref number (p - 1) =? char_5) && (deref number (p - 2) mod 2 =? 0) then
      let '(p, count) := skip_zeros 20 number p in
      if (deref number p =? 0) || (Nat.eqb count 0) then false else true
    else true in
  if round then
    let d := DecAddInt32 d 1 in
    if Z.lor (Z.lor (DECIMAL_HI32 d) (DECIMAL_MID32 d)) (DECIMAL_LO32 d) =? 0 then
      let d := set_hi32_dec d 429496729 in
      let d := set_mid32_dec d 2576980377 in
      let d := set_low32_dec d 2576980378 in
      (d, e + 1)
    else (d, e)
  else (d, e).

(** The digit loop and the rounding after it: the mantissa and the
    exponent they leave. *)
Definition scan (number : NUMBER) (d : DECIMAL) (p e : Z) : DECIMAL * Z :=
  let '(d, p, e) := absorb (Z.to_nat (e + 28)) number d p e in
  let c := deref number p in
  let p := p + 1 in
  if c >=? char_5 then round_up number d p e else (d, e).

End Parse.

Section NumberToDecimal.

(** [DECIMAL_PRECISION] is defined in a header that is not part of the
    sources at hand. *)
Variable DECIMAL_PRECISION : Z.

(** The tail of the function, from [if (e > 0) return 0;] on. *)
Definition NumberToDecimal_store (number : NUMBER) (d : DECIMAL) (e : Z)
  : option DECIMAL :=
  if e >? 0 then None
  else
    let d :=
      if e <=? - DECIMAL_PRECISION then
        let d := set_signscale d 0 in
        let d := set_hi32_dec d 0 in
        let d := set_low32_dec d 0 in
        let d := set_mid32_dec d 0 in
        set_scale d (DECIMAL_PRECISION - 1)
      else set_scale d (- e) in
    Some (set_sign d (if number_sign number then DECIMAL_NEG else 0)).

(** [None] is the return value 0 ([*value] is left alone); [Some d] is the
    return value 1 with [d] stored in [*value]. *)
Definition NumberToDecimal (number : NUMBER) : option DECIMAL :=
  let d := mkDECIMAL 0 0 0 0 0 in
  let p := 0 in
  let e := number_scale number in
  if Parse.deref number p =? 0 then
    NumberToDecimal_store number d (if e >? 0 then 0 else e)
  else if e >? DECIMAL_PRECISION then None
  else
    let '(d, e) := Parse.scan number d p e in
    NumberToDecimal_store number d e.

End NumberToDecimal.

(** ** decimal.cpp: division of the mantissa by 10^9

    [D32DivMod1E9] returns (new [*lo32], remainder). *)
Definition D32DivMod1E9 (hi32 lo32 : Z) : Z * Z :=
  let n := Z.lor (u64 (Z.shiftl hi32 32)) lo32 in
  (u32 (n / 1000000000), u32 (n mod 1000000000)).

(** Returns (remainder, [*value]); the innermost call, on the high word, is
    made first. *)
Definition DecDivMod1E9 (value : DECIMAL) : Z * DECIMAL :=
  let '(q, r) := D32DivMod1E9 0 (DECIMAL_HI32 value) in
  let value := set_hi32_dec value q in
  let '(q, r) := D32DivMod1E9 r (DECIMAL_MID32 value) in
  let value := set_mid32_dec value q in
  let '(q, r) := D32DivMod1E9 r (DECIMAL_LO32 value) in
  let value := set_low32_dec value q in
  (r, value).

(** ** decimal.cpp: the callers that throw

    [VarDecMul] and [VarDecDiv] are [DecimalMul] and [DecimalDiv]
    (decimal_calc.h).  What a call leaves: [*pdecL], or an exception. *)
Inductive fthrow : Type :=
| Stored (d1 : DECIMAL)
| Throw_Overflow
| Throw_DivideByZero.

Definition DoMultiplyThrow (rounds : nat) (d1 d2 decRes : DECIMAL) : option fthrow :=
  ' (hr, decRes) <- DecimalMul rounds d1 d2 decRes ;;
  if FAILED hr then Some Throw_Overflow
  else Some (Stored (set_wReserved decRes 0)).

Definition DoDivideThrow (rounds : nat) (pdecL pdecR decRes : DECIMAL) : option fthrow :=
  ' (hr, decRes) <- DecimalDiv rounds pdecL pdecR decRes ;;
  if FAILED hr then
    match hr with
    | DISP_E_DIVBYZERO => Some Throw_DivideByZero
    | _ => Some Throw_Overflow
    end
  else Some (Stored (set_wReserved decRes 0)).

Definition DoAddSubThrow (rounds : nat) (pdecL pdecR decRes : DECIMAL) (bSign : Z)
  : option fthrow :=
  ' (hr, decRes) <- DecimalAddSub rounds pdecL pdecR decRes bSign ;;
  if FAILED hr then Some Throw_Overflow
  else Some (Stored (set_wReserved decRes 0)).

(** ** Notions used by the statements *)

(** An operand as the callers hand it over: mantissa words within their
    width, the scale at most 28, the sign byte 0 or [DECIMAL_NEG]. *)
Definition operand (d : DECIMAL) : Prop :=
  (0 <= Hi32 d < two32) /\ (0 <= Lo64 d < two64) /\
  (0 <= scale d <= DEC_SCALE_MAX) /\ (sign d = 0 \/ sign d = DECIMAL_NEG).

(** The 96-bit value held by the first three words of a 32-bit array. *)
Definition value96 (rgulNum : list Z) : Z :=
  get rgulNum 0 + two32 * get rgulNum 1 + two64 * get rgulNum 2.


(** [q * 10^k] still fits in 96 bits. *)
Definition fits96 (q k : Z) : Prop := q * 10 ^ k < two96.

(** [k] is the largest power in 0..19 by which [q] can be scaled up within
    96 bits without taking the scale [iScale] past 28. *)
Definition max_scale_up (q iScale k : Z) : Prop :=
  (0 <= k <= 19 /\ fits96 q k /\ iScale + k <= DEC_SCALE_MAX) /\
  forall k', 0 <= k' <= 19 -> fits96 q k' -> iScale + k' <= DEC_SCALE_MAX -> k' <= k.

(** The largest 96-bit value that can still be multiplied by [10^k]. *)
Definition limit96 (k : Z) : Z := (two96 - 1) / 10 ^ k.

(** [f] holds of every index below [n]. *)
Fixpoint forall_below (n : nat) (f : Z -> bool) : bool :=
  match n with
  | O => true
  | S m => f (Z.of_nat m) && forall_below m f
  end.

(** Entry [k] of [PowerOvfl] is [limit96 k], split at bit 32. *)
Definition PowerOvfl_entry_ok (k : Z) : bool :=
  (PowerOvfl_Hi k * two32 + PowerOvfl_Lo k =? limit96 k)
  && (0 <=? PowerOvfl_Lo k) && (PowerOvfl_Lo k <? two32)
  && (0 <=? PowerOvfl_Hi k) && (PowerOvfl_Hi k <? two64).

(** The power of ten [SearchScale64] first tries for a 64-bit top part
    whose highest set bit is [msb]. *)
Definition estimate (msb : Z) : Z := Z.shiftr ((63 - msb) * 77) 8 + 1.

(** What the search needs of the estimate for bit position [msb]: one power
    less always fits, two powers more never do. *)
Definition estimate_ok (msb : Z) : bool :=
  let e := estimate msb in
  (1 <=? e) && (e <=? 19)
  && ((e =? 1) || (2 ^ (msb + 1) - 1 <? PowerOvfl_Hi (e - 1)))
  && ((e =? 19) || (PowerOvfl_Hi (e + 1) <? 2 ^ msb)).

(** What can be said of a value an arithmetic routine has stored: scale,
    mantissa words and sign byte. *)
Definition stored_ok (r : DECIMAL) : Prop :=
  (0 <= scale r <= DEC_SCALE_MAX) /\ (0 <= Hi32 r < two32) /\
  (0 <= Lo64 r < two64) /\ (sign r = 0 \/ sign r = DECIMAL_NEG).

(** The same, with the fate of [wReserved]: it is what the output slot
    [res0] held, or zero. *)
Definition produced (res0 r : DECIMAL) : Prop :=
  stored_ok r /\ (wReserved r = wReserved res0 \/ wReserved r = 0).

(** The output slot on the way through a routine: scale and sign byte
    already valid, [wReserved] as it was in [res0]. *)
Definition slot_ok (res0 pdecRes : DECIMAL) : Prop :=
  (0 <= scale pdecRes <= DEC_SCALE_MAX)
  /\ (sign pdecRes = 0 \/ sign pdecRes = DECIMAL_NEG)
  /\ wReserved pdecRes = wReserved res0.

(** What one round leaves: the scale stays at most 28; a round that ends
    the loop never reports a division by zero, and ends it without error
    only at a scale in 0..28. *)
Definition round_ok (st : Div.state) (r : Div.loop_step) : Prop :=
  match r with
  | Continue st' => Div.iScale st <= 28 -> Div.iScale st' <= 28
  | Break (hr, st') =>
      hr <> DISP_E_DIVBYZERO
      /\ (Div.iScale st <= 28 -> hr = NOERROR -> 0 <= Div.iScale st' <= 28)
  end.

(** The reserved bits of the flags word: the 16 bits of [wReserved] and the
    seven bits of the sign byte below the sign bit. *)
Definition reserved_bits_zero (d : DECIMAL) : Prop :=
  wReserved d = 0 /\ Z.land (sign d) 127 = 0.

(** The invariants of a decimal value. *)
Definition value_invariants (d : DECIMAL) : Prop :=
  (0 <= scale d <= DEC_SCALE_MAX) /\ (0 <= mantissa d < two96)
  /\ reserved_bits_zero d.

(** The inputs with which DecimalMul leaves through its [ReturnZero] label:
    two operands within 64 bits whose product is within 64 bits and would
    have to be divided by more than 10^19 to come down to scale 28; or an
    operand wider than 64 bits and a product of zero, which is when the
    three words of the 192-bit product are all zero. *)
Definition ReturnZero_exit (L R : DECIMAL) : Prop :=
  (Hi32 L = 0 /\ Hi32 R = 0 /\ Lo64 L * Lo64 R < two64
   /\ DEC_SCALE_MAX + 19 < scale L + scale R)
  \/ ((Hi32 L <> 0 \/ Hi32 R <> 0) /\ mantissa L * mantissa R = 0).

(** A decimal with mantissa [m], scale [s] and sign byte [g]. *)
Definition decimal_of (g m s : Z) : DECIMAL :=
  mkDECIMAL 0 s g (m / two64) (m mod two64).



(** [le_result o1 o2]: a result given by [o1] is given by [o2] as well.
    A routine with a bound on its loops is [stable] when its result under
    one bound is its result under every larger bound: the bound only
    decides whether the run is followed to its end. *)
Definition le_result {A : Type} (o1 o2 : option A) : Prop :=
  forall x, o1 = Some x -> o2 = Some x.

Definition stable {A : Type} (f : nat -> option A) : Prop :=
  forall n m, (n <= m)%nat -> le_result (f n) (f m).

(** ** Notions used by the further properties *)

(** The number written by the decimal digit characters [ds], most
    significant first, appended to [acc]. *)
Fixpoint digits_value (ds : list Z) (acc : Z) : Z :=
  match ds with
  | [] => acc
  | c :: t => digits_value t (10 * acc + (c - Parse.char_0))
  end.

(** Every character of [ds] is one of '0' .. '9'. *)
Definition all_digits (ds : list Z) : Prop :=
  Forall (fun c => 48 <= c <= 57) ds.

(** [v / 10] rounded to the nearest integer, a tie going to the even one. *)
Definition div10_half_even (v : Z) : Z :=
  v / 10
  + (if (v mod 10 >? 5) || ((v mod 10 =? 5) && Z.odd (v / 10)) then 1 else 0).

(** What [DecimalAddSub] does to the magnitudes: 0 when it adds them (an
    addition of equal signs, a subtraction of unequal ones), [DECIMAL_NEG]
    when it subtracts them. *)
Definition effective_sign (L R : DECIMAL) (bSign : Z) : Z :=
  Z.lxor bSign (Z.lxor (sign L) (sign R)).

(** The number held by the first [n] 64-bit words of a buffer, least
    significant word first. *)
Fixpoint words64_value (n : nat) (a : list Z) : Z :=
  match n with
  | O => 0
  | S m => words64_value m a + two64 ^ Z.of_nat m * get a (Z.of_nat m)
  end.

(** [v / d] rounded to the nearest integer, a tie going to the even one. *)
Definition div_half_even (v d : Z) : Z :=
  v / d
  + (if (2 * (v mod d) >? d) || ((2 * (v mod d) =? d) && Z.odd (v / d))
     then 1 else 0).

(** What one round does to a quotient without remainder: once the scale
    is not negative the loop is left; while it is negative the quotient is
    multiplied by [10^k], for some [k] of at least [min 9 (- iScale)], or
    the overflow is reported. *)
Definition scales_up (body : Div.state -> option Div.loop_step)
  (Z0 : Div.state -> Prop) : Prop :=
  (forall st, Z0 st -> 0 <= Div.iScale st -> body st = Some (Break (NOERROR, st)))
  /\ forall st q0 q1 q2 qt,
       Z0 st -> Div.rgulQuo st = q0 :: q1 :: q2 :: qt ->
       0 <= q0 < two32 -> 0 <= q1 < two32 -> 0 <= q2 < two32 ->
       Div.iScale st < 0 ->
       exists k,
         Z.min 9 (- Div.iScale st) <= k <= - Div.iScale st
         /\ ((q0 + two32 * q1 + two64 * q2) * 10 ^ k < two96 ->
             exists q0' q1' q2' st',
               body st = Some (Continue st')
               /\ Z0 st' /\ Div.iScale st' = Div.iScale st + k
               /\ Div.fUnscale st' = Div.fUnscale st
               /\ Div.rgulQuo st' = q0' :: q1' :: q2' :: qt
               /\ (0 <= q0' < two32) /\ (0 <= q1' < two32) /\ (0 <= q2' < two32)
               /\ q0' + two32 * q1' + two64 * q2'
                  = (q0 + two32 * q1 + two64 * q2) * 10 ^ k)
         /\ (two96 <= (q0 + two32 * q1 + two64 * q2) * 10 ^ k ->
             exists st', body st = Some (Break (DISP_E_OVERFLOW, st'))).

(** * Properties *)

(** ** Arithmetic on words *)

Ltac dlia := Z.to_euclidean_division_equations; lia.

Ltac unfold_words :=
  unfold u8, u16, u32, u64, low32, hi32, two8, two16, two32, two64, two96,
    UINT32_MAX, UINT64_MAX, DECIMAL_NEG, DEC_SCALE_MAX in *.

Lemma u8_small x : 0 <= x < two8 -> u8 x = x.
Proof. unfold_words; intros; apply Z.mod_small; lia. Qed.

Lemma u32_small x : 0 <= x < two32 -> u32 x = x.
Proof. unfold_words; intros; apply Z.mod_small; lia. Qed.

Lemma u64_small x : 0 <= x < two64 -> u64 x = x.
Proof. unfold_words; intros; apply Z.mod_small; lia. Qed.

Lemma u8_range x : 0 <= u8 x < two8.
Proof. unfold_words; apply Z.mod_pos_bound; lia. Qed.

Lemma u32_range x : 0 <= u32 x < two32.
Proof. unfold_words; apply Z.mod_pos_bound; lia. Qed.

Lemma u64_range x : 0 <= u64 x < two64.
Proof. unfold_words; apply Z.mod_pos_bound; lia. Qed.

Lemma mantissa_range d :
  0 <= Hi32 d < two32 -> 0 <= Lo64 d < two64 -> 0 <= mantissa d < two96.
Proof. unfold mantissa; unfold_words; lia. Qed.

(** The sign bytes of two operands combine to a sign byte. *)
Lemma sign_lxor a b :
  (a = 0 \/ a = DECIMAL_NEG) -> (b = 0 \/ b = DECIMAL_NEG) ->
  Z.lxor a b = 0 \/ Z.lxor a b = DECIMAL_NEG.
Proof. intros [-> | ->] [-> | ->]; cbv; auto. Qed.

Lemma sign_land a :
  (a = 0 \/ a = DECIMAL_NEG) -> Z.land a DECIMAL_NEG = a.
Proof. intros [-> | ->]; reflexivity. Qed.

Lemma sign_u8 a : (a = 0 \/ a = DECIMAL_NEG) -> u8 a = a.
Proof. intros [-> | ->]; reflexivity. Qed.

(** ** Loops *)

Lemma iterate_inv {S R : Type} (Inv : S -> Prop) (Post : R -> Prop)
  (body : S -> option (step S R)) :
  (forall s s', Inv s -> body s = Some (Continue s') -> Inv s') ->
  (forall s r, Inv s -> body s = Some (Break r) -> Post r) ->
  forall fuel s r, Inv s -> iterate fuel body s = Some r -> Post r.
Proof.
  intros Hc Hb fuel; induction fuel as [|n IH]; simpl; intros s r Hs H.
  - discriminate.
  - destruct (body s) as [[s'|r']|] eqn:E; try discriminate.
    + apply (IH s'); [apply (Hc s); assumption | assumption].
    + inversion H; subst; apply (Hb s); assumption.
Qed.

Lemma bind_Some {A B : Type} (m : option A) (k : A -> option B) b :
  bind m k = Some b -> exists a, m = Some a /\ k a = Some b.
Proof. destruct m as [a|]; simpl; intros; [eauto | discriminate]. Qed.

Ltac inv_bind H :=
  let a := fresh "a" in
  let E := fresh "E" in
  apply bind_Some in H; destruct H as (a & E & H).

(** ** The overflow table and the estimate of SearchScale64 *)

Lemma forall_below_spec n f :
  forall_below n f = true -> forall z, 0 <= z < Z.of_nat n -> f z = true.
Proof.
  induction n as [|m IH]; simpl; intros H z Hz.
  - lia.
  - apply andb_prop in H; destruct H as [H1 H2].
    destruct (Z.eq_dec z (Z.of_nat m)) as [->|Hne]; [assumption|].
    apply IH; [assumption | lia].
Qed.

Lemma PowerOvfl_table k :
  0 <= k <= 19 ->
  PowerOvfl_Hi k * two32 + PowerOvfl_Lo k = limit96 k
  /\ 0 <= PowerOvfl_Lo k < two32 /\ 0 <= PowerOvfl_Hi k < two64.
Proof.
  intros Hk.
  assert (H : PowerOvfl_entry_ok k = true).
  { apply (forall_below_spec 20); [vm_compute; reflexivity | lia]. }
  unfold PowerOvfl_entry_ok in H.
  repeat (apply andb_prop in H; destruct H as [H ?]).
  repeat split; lia.
Qed.

Lemma estimate_table m :
  0 <= m <= 63 ->
  let e := estimate m in
  1 <= e <= 19
  /\ (e = 1 \/ 2 ^ (m + 1) - 1 < PowerOvfl_Hi (e - 1))
  /\ (e = 19 \/ PowerOvfl_Hi (e + 1) < 2 ^ m).
Proof.
  intros Hm e.
  assert (H : estimate_ok m = true).
  { apply (forall_below_spec 64); [vm_compute; reflexivity | lia]. }
  unfold estimate_ok in H; fold e in H.
  repeat (apply andb_prop in H; destruct H as [H ?]).
  repeat match goal with
         | H : (_ || _) = true |- _ => apply orb_prop in H
         end.
  repeat split; lia.
Qed.

Lemma pow10_pos k : 0 <= k -> 0 < 10 ^ k.
Proof. intros; apply Z.pow_pos_nonneg; lia. Qed.

Lemma fits96_limit q k : 0 <= k -> (fits96 q k <-> q <= limit96 k).
Proof.
  intros Hk; unfold fits96, limit96.
  pose proof (pow10_pos k Hk) as Hp.
  split; intros H.
  - apply Z.div_le_lower_bound; [assumption | lia].
  - pose proof (Z.mul_div_le (two96 - 1) (10 ^ k) Hp).
    assert (q * 10 ^ k <= (two96 - 1) / 10 ^ k * 10 ^ k)
      by (apply Z.mul_le_mono_nonneg_r; lia).
    lia.
Qed.

Lemma limit96_antitone k k' : 0 <= k <= k' -> limit96 k' <= limit96 k.
Proof.
  intros H; unfold limit96.
  apply Z.div_le_compat_l; [unfold two96; lia|].
  split; [apply pow10_pos; lia | apply Z.pow_le_mono_r; lia].
Qed.

Lemma limit96_0 : limit96 0 = two96 - 1.
Proof. reflexivity. Qed.

(** Comparing a 96-bit value, split at bit 32, with a table entry. *)
Lemma le_limit96 H lo k :
  0 <= k <= 19 -> 0 <= lo < two32 ->
  (H * two32 + lo <= limit96 k
   <-> H < PowerOvfl_Hi k \/ (H = PowerOvfl_Hi k /\ lo <= PowerOvfl_Lo k)).
Proof.
  intros Hk Hlo.
  destruct (PowerOvfl_table k Hk) as (<- & HL & _).
  unfold two32 in *; lia.
Qed.

Lemma PowerOvfl_Hi_antitone k k' :
  0 <= k -> k < k' <= 19 -> PowerOvfl_Hi k' < PowerOvfl_Hi k.
Proof.
  intros H0 H.
  assert (Hs : forall j, 0 <= j < 19 -> PowerOvfl_Hi (j + 1) < PowerOvfl_Hi j).
  { intros j Hj.
    assert (E : (PowerOvfl_Hi (j + 1) <? PowerOvfl_Hi j) = true)
      by (apply (forall_below_spec 19
                   (fun j => PowerOvfl_Hi (j + 1) <? PowerOvfl_Hi j));
          [vm_compute; reflexivity | lia]).
    lia. }
  assert (G : forall n : nat, (Z.of_nat n + k + 1 <= 19) ->
              PowerOvfl_Hi (k + 1 + Z.of_nat n) < PowerOvfl_Hi k).
  { induction n as [|n IH]; intros Hn.
    - replace (k + 1 + Z.of_nat 0) with (k + 1) by lia. apply Hs; lia.
    - replace (k + 1 + Z.of_nat (S n)) with ((k + 1 + Z.of_nat n) + 1) by lia.
      specialize (Hs (k + 1 + Z.of_nat n)). lia. }
  specialize (G (Z.to_nat (k' - k - 1))).
  replace (k + 1 + Z.of_nat (Z.to_nat (k' - k - 1))) with k' in G by lia.
  apply G; lia.
Qed.

(** ** SearchScale64 *)

Lemma HaveScale_range r iScale :
  0 <= r <= 19 ->
  let k := SearchScale.HaveScale r iScale in
  (k = -1 \/ k = r) /\ (k = 0 -> 0 <= iScale).
Proof.
  intros Hr; unfold SearchScale.HaveScale, SEARCHSCALE_MAX_SCALE, POWER10_MAX64; simpl.
  destruct (r + iScale <? 0) eqn:E1; destruct (r =? 19) eqn:E2; simpl; lia.
Qed.

Lemma log2_u64 H : 0 < H < two64 -> 0 <= Z.log2 H <= 63.
Proof.
  intros [Hp Hlt]. split; [apply Z.log2_nonneg|].
  assert (Z.log2 H < 64); [|lia].
  apply Z.log2_lt_pow2; [assumption|]. exact Hlt.
Qed.

(** Whatever the low word is, the power found by the bit position fits the
    top 64 bits. *)
Lemma by_msb_Hi rgulQuo H iScale :
  0 <= H < two64 ->
  exists r, 0 <= r <= 19 /\ H <= PowerOvfl_Hi r
    /\ SearchScale.by_msb rgulQuo H iScale = SearchScale.HaveScale r iScale.
Proof.
  intros HH; unfold SearchScale.by_msb, BitScanMsb64; cbn [snd].
  change (Z.shiftr ((63 - Z.log2 H) * 77) 8 + 1) with (estimate (Z.log2 H)).
  destruct (H =? 0) eqn:E0; cbn [negb].
  - exists 19; repeat split; try lia. apply Z.eqb_eq in E0; subst; cbv; discriminate.
  - apply Z.eqb_neq in E0.
    assert (Hm : 0 <= Z.log2 H <= 63) by (apply log2_u64; lia).
    pose proof (estimate_table _ Hm) as (He & Hlow & _).
    destruct (Z.log2_spec H ltac:(lia)) as [_ Hup].
    replace (Z.succ (Z.log2 H)) with (Z.log2 H + 1) in Hup by lia.
    set (e := estimate (Z.log2 H)) in *.
    destruct (H >? PowerOvfl_Hi e) eqn:E1.
    + exists (e - 1); repeat split; try lia.
      destruct Hlow as [-> | Hlow]; [|lia].
      change (PowerOvfl_Hi (1 - 1)) with UINT64_MAX. unfold_words; lia.
    + assert (Hle : H <= PowerOvfl_Hi e) by lia.
      destruct (H =? PowerOvfl_Hi e) eqn:E2.
      * unfold SearchScale.UpperEq.
        destruct (get rgulQuo 0 >? PowerOvfl_Lo e).
        -- exists (e - 1); repeat split; try lia.
           destruct (Z.eq_dec e 1) as [->|Hne].
           ++ change (PowerOvfl_Hi (1 - 1)) with UINT64_MAX. unfold_words; lia.
           ++ pose proof (PowerOvfl_Hi_antitone (e - 1) e); lia.
        -- exists e; repeat split; lia.
      * exists e; repeat split; lia.
Qed.

(** With the low word in range, the power found by the bit position is the
    largest one that keeps the value within 96 bits. *)
Lemma by_msb_spec rgulQuo H iScale :
  0 <= H < two64 -> 0 <= get rgulQuo 0 < two32 ->
  exists r, 0 <= r <= 19
    /\ H * two32 + get rgulQuo 0 <= limit96 r
    /\ (r = 19 \/ limit96 (r + 1) < H * two32 + get rgulQuo 0)
    /\ SearchScale.by_msb rgulQuo H iScale = SearchScale.HaveScale r iScale.
Proof.
  intros HH Hlo; unfold SearchScale.by_msb, BitScanMsb64; cbn [snd].
  change (Z.shiftr ((63 - Z.log2 H) * 77) 8 + 1) with (estimate (Z.log2 H)).
  set (lo := get rgulQuo 0) in *.
  destruct (H =? 0) eqn:E0; cbn [negb].
  - apply Z.eqb_eq in E0; subst H.
    exists 19; repeat split; try lia.
    change (limit96 19) with 7922816251. unfold_words; lia.
  - apply Z.eqb_neq in E0.
    assert (Hm : 0 <= Z.log2 H <= 63) by (apply log2_u64; lia).
    pose proof (estimate_table _ Hm) as (He & Hlow & Hhigh).
    destruct (Z.log2_spec H ltac:(lia)) as [Hdn Hup].
    replace (Z.succ (Z.log2 H)) with (Z.log2 H + 1) in Hup by lia.
    set (e := estimate (Z.log2 H)) in *.
    assert (Hfit1 : H * two32 + lo <= limit96 (e - 1)).
    { destruct Hlow as [E | Hlow].
      - rewrite E; change (limit96 (1 - 1)) with (two96 - 1). unfold_words; lia.
      - apply le_limit96; [lia | assumption | lia]. }
    assert (Hover : e = 19 \/ limit96 (e + 1) < H * two32 + lo).
    { destruct (Z.eq_dec e 19) as [E | Hne]; [left; assumption | right].
      destruct Hhigh as [E | Hhigh]; [contradiction|].
      assert (~ H * two32 + lo <= limit96 (e + 1)); [|lia].
      rewrite le_limit96 by lia. lia. }
    destruct (H >? PowerOvfl_Hi e) eqn:E1.
    + exists (e - 1); repeat split; try lia.
      right. replace (e - 1 + 1) with e by lia.
      assert (~ H * two32 + lo <= limit96 e); [|lia].
      rewrite le_limit96 by lia. lia.
    + destruct (H =? PowerOvfl_Hi e) eqn:E2.
      * unfold SearchScale.UpperEq; fold lo.
        destruct (lo >? PowerOvfl_Lo e) eqn:E3.
        -- exists (e - 1); repeat split; try lia.
           right. replace (e - 1 + 1) with e by lia.
           assert (~ H * two32 + lo <= limit96 e); [|lia].
           rewrite le_limit96 by lia. lia.
        -- exists e; repeat split; try lia.
           apply le_limit96; lia.
      * exists e; repeat split; try lia.
        apply le_limit96; lia.
Qed.

Lemma ulResHi_eq hi mid :
  0 <= hi < two32 -> 0 <= mid < two32 ->
  u64 (u64 (Z.shiftl hi 32) + mid) = hi * two32 + mid.
Proof.
  intros Hh Hm. rewrite Z.shiftl_mul_pow2 by lia.
  change (2 ^ 32) with two32.
  rewrite (u64_small (hi * two32)) by (unfold_words; lia).
  apply u64_small; unfold_words; lia.
Qed.

(** The result of SearchScale64 is -1 or a power in 0..19 that keeps the
    scale within 28; it is 0 only for a scale that is not negative. *)
Lemma SearchScale64_range rgulQuo iScale :
  iScale <= 28 ->
  let k := SearchScale64 rgulQuo iScale in
  -1 <= k <= 19 /\ (0 <= k -> iScale + k <= 28) /\ (k = 0 -> 0 <= iScale).
Proof.
  intros Hs; unfold SearchScale64.
  set (H := u64 (u64 (Z.shiftl (get rgulQuo 2) 32) + get rgulQuo 1)).
  assert (HH : 0 <= H < two64) by apply u64_range.
  assert (Hfin : forall r, 0 <= r <= 19 -> iScale + r <= 28 ->
            let k := SearchScale.HaveScale r iScale in
            -1 <= k <= 19 /\ (0 <= k -> iScale + k <= 28) /\ (k = 0 -> 0 <= iScale)).
  { intros r Hr Hle. pose proof (HaveScale_range r iScale Hr) as [Hk H0]. simpl in *. lia. }
  assert (Hmsb : (iScale <= 9 \/ PowerOvfl_Hi (28 - iScale) < H) ->
            let k := SearchScale.by_msb rgulQuo H iScale in
            -1 <= k <= 19 /\ (0 <= k -> iScale + k <= 28) /\ (k = 0 -> 0 <= iScale)).
  { intros Hc. destruct (by_msb_Hi rgulQuo H iScale HH) as (r & Hr & Hle & ->).
    apply Hfin; [assumption|].
    destruct Hc as [Hc | Hc]; [lia|].
    destruct (Z_le_gt_dec r (28 - iScale - 1)) as [?|Hgt]; [lia|].
    destruct (Z.eq_dec r (28 - iScale)) as [->|Hne]; [lia|].
    pose proof (PowerOvfl_Hi_antitone (28 - iScale) r). 
    assert (0 <= 28 - iScale) by lia. lia. }
  unfold DEC_SCALE_MAX, SEARCHSCALE_MAX_SCALE, POWER10_MAX64, OVFL_MAX32_1_HI.
  destruct ((iScale >=? 28) || (get rgulQuo 2 >? 429496729)) eqn:E0.
  { apply Hfin; lia. }
  apply orb_false_elim in E0; destruct E0 as [E0 _].
  destruct (iScale >? 28 - 19) eqn:E1.
  - destruct (H <? PowerOvfl_Hi (28 - iScale)) eqn:E2.
    + apply Hfin; lia.
    + destruct (H =? PowerOvfl_Hi (28 - iScale)) eqn:E3.
      * unfold SearchScale.UpperEq.
        destruct (get rgulQuo 0 >? PowerOvfl_Lo (28 - iScale)); apply Hfin; lia.
      * apply Hmsb; lia.
  - apply Hmsb; lia.
Qed.

Lemma max_scale_up_intro q iScale K :
  0 <= K <= 19 -> q <= limit96 K -> iScale + K <= 28 ->
  (K = 19 \/ limit96 (K + 1) < q \/ iScale + K = 28) ->
  max_scale_up q iScale K.
Proof.
  intros HK Hfit Hs Hmax; unfold max_scale_up, DEC_SCALE_MAX.
  split; [repeat split; try lia; apply fits96_limit; lia|].
  intros k' Hk' Hfit' Hs'.
  destruct (Z_le_gt_dec k' K) as [?|Hgt]; [assumption | exfalso].
  apply fits96_limit in Hfit'; [|lia].
  destruct Hmax as [-> | [Hover | Heq]]; try lia.
  pose proof (limit96_antitone (K + 1) k'). lia.
Qed.

(** C3 fails as stated: for the quotient 1 at scale -28 no power of ten in
    0..19 brings the scale up to 0, yet SearchScale64 answers 19 and not
    -1. *)
Lemma SearchScale64_overflow_signal_counterexample :
  (forall k, 0 <= k <= 19 -> fits96 (value96 [1; 0; 0; 0]) k ->
             -28 + k <= DEC_SCALE_MAX -> -28 + k < 0)
  /\ SearchScale64 [1; 0; 0; 0] (-28) = 19
  /\ SearchScale64 [1; 0; 0; 0] (-28) <> -1.
Proof.
  split; [intros; lia | split; [reflexivity | discriminate]].
Qed.

(** C3, amended: for a 96-bit quotient and a scale in -28..28, let K be the
    largest power in 0..19 such that quotient * 10^K fits in 96 bits and
    scale + K <= 28.  SearchScale64 returns -1 when scale + K < 0 and
    K < 19, and K otherwise; in particular K = 19 is returned even when
    scale + 19 is still negative. *)
Theorem SearchScale64_max_scale_up rgulQuo iScale :
  0 <= get rgulQuo 0 < two32 -> 0 <= get rgulQuo 1 < two32 ->
  0 <= get rgulQuo 2 < two32 -> -28 <= iScale <= 28 ->
  exists K, max_scale_up (value96 rgulQuo) iScale K
    /\ SearchScale64 rgulQuo iScale
       = if (K + iScale <? 0) && negb (K =? 19) then -1 else K.
Proof.
  intros Hlo Hmid Hhi Hs.
  assert (Hfin : forall K, max_scale_up (value96 rgulQuo) iScale K ->
            exists K0, max_scale_up (value96 rgulQuo) iScale K0
              /\ SearchScale.HaveScale K iScale
                 = if (K0 + iScale <? 0) && negb (K0 =? 19) then -1 else K0).
  { intros K HK; exists K; split; [assumption | reflexivity]. }
  unfold SearchScale64.
  rewrite (ulResHi_eq _ _ Hhi Hmid).
  set (lo := get rgulQuo 0) in *; set (mid := get rgulQuo 1) in *;
    set (hi := get rgulQuo 2) in *.
  set (H := hi * two32 + mid).
  assert (HH : 0 <= H < two64) by (subst H; unfold_words; lia).
  assert (Hq : value96 rgulQuo = H * two32 + lo).
  { unfold value96; fold lo mid hi; subst H; unfold_words; lia. }
  rewrite Hq in *.
  assert (Hmsb : (iScale <= 9 \/ limit96 (28 - iScale) < H * two32 + lo) ->
            exists K0, max_scale_up (H * two32 + lo) iScale K0
              /\ SearchScale.by_msb rgulQuo H iScale
                 = if (K0 + iScale <? 0) && negb (K0 =? 19) then -1 else K0).
  { intros Hc.
    destruct (by_msb_spec rgulQuo H iScale HH Hlo) as (r & Hr & Hfit & Hover & ->).
    fold lo in Hfit, Hover.
    apply Hfin. apply max_scale_up_intro; try assumption; [|tauto].
    destruct Hc as [Hc | Hc]; [lia|].
    destruct (Z_le_gt_dec r (28 - iScale - 1)) as [?|Hgt]; [lia|].
    pose proof (limit96_antitone (28 - iScale) r). lia. }
  unfold DEC_SCALE_MAX, SEARCHSCALE_MAX_SCALE, POWER10_MAX64, OVFL_MAX32_1_HI.
  destruct ((iScale >=? 28) || (hi >? 429496729)) eqn:E0.
  { apply Hfin. apply max_scale_up_intro; try lia.
    - change (limit96 0) with (two96 - 1). unfold_words; lia.
    - apply orb_prop in E0. destruct E0 as [E0 | E0]; [lia|].
      right; left. change (limit96 (0 + 1)) with 7922816251426433759354395033.
      subst H; unfold_words; lia. }
  apply orb_false_elim in E0; destruct E0 as [E0 E0'].
  destruct (iScale >? 28 - 19) eqn:E1.
  - assert (Hc : 0 <= 28 - iScale <= 19) by lia.
    destruct (H <? PowerOvfl_Hi (28 - iScale)) eqn:E2.
    + apply Hfin. apply max_scale_up_intro; try lia.
      apply le_limit96; try lia.
    + destruct (H =? PowerOvfl_Hi (28 - iScale)) eqn:E3.
      * unfold SearchScale.UpperEq; fold lo.
        destruct (lo >? PowerOvfl_Lo (28 - iScale)) eqn:E4; apply Hfin.
        -- assert (Hc1 : 0 <= 28 - iScale - 1) by lia.
           pose proof (PowerOvfl_Hi_antitone (28 - iScale - 1) (28 - iScale) Hc1).
           apply max_scale_up_intro; try lia.
           ++ apply le_limit96; lia.
           ++ right; left. replace (28 - iScale - 1 + 1) with (28 - iScale) by lia.
              assert (~ H * two32 + lo <= limit96 (28 - iScale)); [|lia].
              rewrite le_limit96 by lia. lia.
        -- apply max_scale_up_intro; try lia.
           apply le_limit96; lia.
      * apply Hmsb. right.
        assert (~ H * two32 + lo <= limit96 (28 - iScale)); [|lia].
        rewrite le_limit96 by lia. lia.
  - apply Hmsb; lia.
Qed.

Lemma SearchScale64_max_scale_up_witness :
  exists K, max_scale_up (value96 [1; 0; 0; 0]) (-28) K
    /\ SearchScale64 [1; 0; 0; 0] (-28)
       = if (K + -28 <? 0) && negb (K =? 19) then -1 else K.
Proof.
  apply (SearchScale64_max_scale_up [1; 0; 0; 0] (-28));
    cbv; repeat split; discriminate.
Defined.

(** ** ScaleResult: the scale it returns *)

Lemma ScaleResult_round_scale rgullRes iHiRes iScale ulPwr ulSticky ulRemainder :
  iScale <= 28 ->
  match ScaleResult_round rgullRes iHiRes iScale ulPwr ulSticky ulRemainder with
  | Continue st => sr_iScale st <= 28
  | Break (s, _) => s = -1 \/ 0 <= s <= 28
  end.
Proof.
  intros Hs; unfold ScaleResult_round.
  destruct (Add96By32_u64 rgullRes 1) as [carry res'].
  destruct (iScale <? 0) eqn:E;
    repeat match goal with
           | |- context [if ?c then _ else _] => destruct c
           end; cbn [sr_iScale]; lia.
Qed.

Lemma ScaleResult_body_scale st r :
  sr_iScale st <= 28 -> ScaleResult_body st = Some r ->
  match r with
  | Continue st' => sr_iScale st' <= 28
  | Break (s, _) => s = -1 \/ 0 <= s <= 28
  end.
Proof.
  intros Hs; unfold ScaleResult_body.
  destruct (rs_iNewScale _ >? 0).
  { intros E; inversion E; subst; cbn [sr_iScale]; lia. }
  destruct (_ || _).
  { intros E; inversion E; subst; cbn [sr_iScale]; lia. }
  intros E; inversion E; subst. apply ScaleResult_round_scale; assumption.
Qed.

Lemma ScaleResult_scale rounds rgullRes iHiRes iScale s res' :
  0 <= iScale ->
  ScaleResult rounds rgullRes iHiRes iScale = Some (s, res') ->
  s = -1 \/ 0 <= s <= 28.
Proof.
  intros Hs; unfold ScaleResult, BitScanMsb64, DEC_SCALE_MAX.
  cbv beta iota zeta.
  set (n0 := iHiRes * 64 + Z.log2 (get rgullRes iHiRes) - 96).
  assert (Hloop : forall n, iScale - 28 <= n ->
            (if negb (n =? 0)
             then iterate rounds ScaleResult_body
                    (mkScaleResult rgullRes iHiRes (iScale - n) n 0 0)
             else Some (iScale, rgullRes)) = Some (s, res') ->
            s = -1 \/ 0 <= s <= 28).
  { intros n Hn. destruct (n =? 0) eqn:E; cbn [negb].
    - intros H; inversion H; subst. apply Z.eqb_eq in E. lia.
    - intros H.
      apply (iterate_inv (fun st => sr_iScale st <= 28)
               (fun r : Z * list Z => fst r = -1 \/ 0 <= fst r <= 28)
               ScaleResult_body) in H; [exact H | | | cbn; lia].
      + intros st st' Hi Hb. apply (ScaleResult_body_scale st _ Hi Hb).
      + intros st [s0 b0] Hi Hb. apply (ScaleResult_body_scale st _ Hi Hb). }
  destruct (n0 >=? 0).
  - destruct (Z.shiftr (n0 * 77) 8 + 1 >? iScale).
    + intros H; inversion H; auto.
    + destruct (Z.shiftr (n0 * 77) 8 + 1 <? iScale - 28) eqn:E; apply Hloop; lia.
  - destruct (0 <? iScale - 28) eqn:E; apply Hloop; lia.
Qed.

(** ** What DecimalMul stores *)

Lemma operand_sign_lxor L R :
  operand L -> operand R ->
  u8 (Z.lxor (sign L) (sign R)) = 0 \/ u8 (Z.lxor (sign L) (sign R)) = DECIMAL_NEG.
Proof.
  intros (_ & _ & _ & HL) (_ & _ & _ & HR).
  destruct HL as [-> | ->]; destruct HR as [-> | ->]; cbv; auto.
Qed.

Lemma DecimalMul_finish_produced L R res0 pRes iScale r :
  operand L -> operand R ->
  (iScale = -1 \/ 0 <= iScale <= 28) -> (iScale =? -1) = false ->
  0 <= Hi32 pRes < two32 -> 0 <= Lo64 pRes < two64 ->
  wReserved pRes = wReserved res0 ->
  DecimalMul_finish L R pRes iScale = Some (NOERROR, r) ->
  produced res0 r.
Proof.
  intros HL HR Hs Hne Hhi Hlo Hw H.
  unfold DecimalMul_finish in H. inversion H; subst; clear H.
  unfold produced, stored_ok, set_scale, set_sign, DEC_SCALE_MAX; cbn.
  rewrite u8_small by (unfold_words; lia).
  pose proof (operand_sign_lxor L R HL HR).
  repeat split; try lia; auto.
Qed.

Lemma ReturnZero_produced res0 r : ReturnZero = Some (NOERROR, r) -> produced res0 r.
Proof.
  unfold ReturnZero; intros H; inversion H; subst.
  unfold produced, stored_ok; cbn; unfold_words; repeat split; auto; lia.
Qed.

Lemma DecimalMul_produced rounds L R res0 r :
  operand L -> operand R ->
  DecimalMul rounds L R res0 = Some (NOERROR, r) -> produced res0 r.
Proof.
  intros HL HR.
  pose proof HL as (_ & _ & HsL & _); pose proof HR as (_ & _ & HsR & _).
  unfold DEC_SCALE_MAX in *.
  unfold DecimalMul, Mul64By64, Mul64By32, AddCarry64, DivMod64By64, DEC_SCALE_MAX.
  cbv beta iota zeta.
  destruct (Z.lor (DECIMAL_HI32 L) (DECIMAL_HI32 R) =? 0).
  - destruct (u64 (low64 L * low64 R / two64) =? 0).
    + destruct (scale L + scale R >? 28) eqn:E1.
      * destruct (scale L + scale R - 28 >? 19); [apply ReturnZero_produced|].
        apply DecimalMul_finish_produced; cbn; auto;
          try apply u64_range; try apply u32_range; try (unfold two32, two64; lia).
      * apply DecimalMul_finish_produced; cbn; auto;
          try apply u64_range; try apply u32_range; try (unfold two32, two64; lia).
    + intros H; inv_bind H. destruct a as [s buf].
      apply ScaleResult_scale in E; [|lia].
      destruct (s =? -1) eqn:E2; [discriminate|].
      revert H; apply DecimalMul_finish_produced; cbn; auto;
        try apply u64_range; try apply u32_range; try (unfold two32, two64; lia).
  - match goal with
    | |- (if ?c then _ else _) = _ -> _ => destruct c
    end; [apply ReturnZero_produced|].
    intros H; inv_bind H. destruct a as [s buf].
    apply ScaleResult_scale in E; [|lia].
    destruct (s =? -1) eqn:E2; [discriminate|].
    revert H; apply DecimalMul_finish_produced; cbn; auto;
      try apply u64_range; try apply u32_range; try (unfold two32, two64; lia).
Qed.

(** ** What DecimalAddSub stores *)

Ltac unfold_setters :=
  unfold set_low32_dec, set_mid32_dec, set_low64, set_hi32_dec, set_scale,
    set_sign, set_signscale, set_wReserved, low64, DECIMAL_HI32 in *;
  cbn [wReserved scale sign Hi32 Lo64] in *.

Ltac word_range :=
  first [ apply u64_range | apply u32_range | apply u8_range
        | unfold two8, two16, two32, two64; lia ].

Lemma sign_toggle_byte s b :
  (s = 0 \/ s = DECIMAL_NEG) -> (b = 0 \/ b = DECIMAL_NEG) ->
  u8 (Z.lxor s b) = 0 \/ u8 (Z.lxor s b) = DECIMAL_NEG.
Proof. intros [-> | ->] [-> | ->]; cbv; auto. Qed.

Lemma produced_intro res0 r :
  slot_ok res0 r -> 0 <= Hi32 r < two32 -> 0 <= Lo64 r < two64 ->
  produced res0 r.
Proof. unfold slot_ok, produced, stored_ok; tauto. Qed.

Lemma SignFlip_produced res0 d :
  slot_ok res0 d -> produced res0 (AddSub.SignFlip d).
Proof.
  intros (Hs & Hg & Hw). unfold AddSub.SignFlip.
  pose proof (sign_toggle_byte _ DECIMAL_NEG Hg (or_intror eq_refl)).
  cbv zeta. destruct (low64 _ =? 0); unfold_setters;
    apply produced_intro; unfold slot_ok; cbn [wReserved scale sign Hi32 Lo64];
    try word_range; auto.
Qed.

Lemma AlignedAdd_produced pdecL pdecR pdecRes bSign res0 r :
  slot_ok res0 pdecRes ->
  AddSub.AlignedAdd pdecL pdecR pdecRes bSign = (NOERROR, r) -> produced res0 r.
Proof.
  intros Hslot. pose proof Hslot as (Hs & Hg & Hw). unfold DEC_SCALE_MAX in Hs.
  unfold AddSub.AlignedAdd.
  destruct (negb (bSign =? 0)).
  - destruct (SubBorrow64 _ _ _) as [c lo]. destruct (SubBorrow32 _ _ _) as [c2 hi].
    destruct (negb (c2 =? 0)); intros H; inversion H; subst; clear H.
    + apply SignFlip_produced. unfold slot_ok; unfold_setters; auto.
    + apply produced_intro; unfold slot_ok, DEC_SCALE_MAX; unfold_setters;
        try word_range; auto.
  - destruct (AddCarry64 _ _ _) as [c lo]. destruct (AddCarry32 _ _ _) as [c2 hi].
    destruct (negb (c2 =? 0)).
    + unfold_setters. destruct (scale pdecRes =? 0) eqn:E0; [discriminate|].
      apply Z.eqb_neq in E0.
      assert (Hu : u8 (scale pdecRes - 1) = scale pdecRes - 1)
        by (apply u8_small; unfold two8; lia).
      destruct (DivMod64By32InPlace (u32 hi) 1 10) as [q1 r1].
      unfold DECIMAL_MID32, DECIMAL_LO32; cbn [wReserved scale sign Hi32 Lo64].
      destruct (DivMod64By32InPlace _ r1 10) as [q2 r2].
      destruct (DivMod64By32InPlace _ r2 10) as [q3 r3].
      unfold Add96By64_dec. unfold_setters.
      destruct (AddCarry64 _ _ _) as [c4 lo4]. cbn [wReserved scale sign Hi32 Lo64].
      destruct (AddCarry32 _ _ _) as [c5 hi5].
      destruct (_ && _); intros H; inversion H; subst; clear H;
        apply produced_intro; unfold slot_ok, DEC_SCALE_MAX;
        cbn [wReserved scale sign Hi32 Lo64 snd]; rewrite ?Hu;
        try word_range; auto; repeat split; auto; lia.
    + intros H; inversion H; subst; clear H.
      apply produced_intro; unfold slot_ok, DEC_SCALE_MAX; unfold_setters;
        try word_range; auto.
Qed.

Lemma normalize_produced rounds rgullNum iHiProd pdecRes res0 r :
  slot_ok res0 pdecRes ->
  0 <= Hi32 pdecRes < two32 -> 0 <= Lo64 pdecRes < two64 ->
  (if (iHiProd >? 1) || ((iHiProd =? 1) && negb (FitsIn32Bit (get rgullNum 1)))
   then
     ' (iScale, rgullNum) <-
       ScaleResult rounds (set rgullNum 0 (low64 pdecRes)) iHiProd (scale pdecRes) ;;
     (let pdecRes := set_scale pdecRes iScale in
      if scale pdecRes =? u8 (-1) then Some (DISP_E_OVERFLOW, pdecRes)
      else
        let pdecRes := set_low64 pdecRes (get rgullNum 0) in
        let pdecRes := set_hi32_dec pdecRes (u32 (get rgullNum 1)) in
        Some (NOERROR, pdecRes))
   else Some (NOERROR, pdecRes)) = Some (NOERROR, r) ->
  produced res0 r.
Proof.
  intros Hslot Hhi Hlo. pose proof Hslot as (Hs & Hg & Hw). unfold DEC_SCALE_MAX in Hs.
  destruct (_ || _).
  - intros H; inv_bind H. destruct a as [s buf].
    apply ScaleResult_scale in E; [|lia].
    cbv zeta in H. unfold_setters.
    destruct (u8 s =? u8 (-1)) eqn:E1; [discriminate|].
    inversion H; subst; clear H.
    assert (Hs' : 0 <= s <= 28).
    { destruct E as [-> | ?]; [|assumption]. rewrite Z.eqb_refl in E1; discriminate. }
    apply produced_intro; unfold slot_ok, DEC_SCALE_MAX;
      cbn [wReserved scale sign Hi32 Lo64]; try word_range; auto.
    rewrite u8_small by (unfold two8; lia). auto.
  - intros H; inversion H; subst. apply produced_intro; assumption.
Qed.

Lemma Unaligned_produced rounds rgullNum iHiProd pdecR pdecRes bSign res0 r :
  slot_ok res0 pdecRes ->
  AddSub.Unaligned rounds rgullNum iHiProd pdecR pdecRes bSign = Some (NOERROR, r) ->
  produced res0 r.
Proof.
  intros Hslot. pose proof Hslot as (Hs & Hg & Hw).
  unfold AddSub.Unaligned. cbv zeta.
  destruct (negb (bSign =? 0)).
  - destruct (SubBorrow64 _ _ _) as [c lo]. destruct (SubBorrow64 _ _ _) as [c2 x].
    destruct (negb (c2 =? 0)).
    + destruct (iHiProd <=? 1).
      * intros H; inversion H; subst; clear H.
        apply SignFlip_produced. unfold slot_ok; unfold_setters; auto.
      * apply normalize_produced; unfold slot_ok; unfold_setters; auto; word_range.
    + apply normalize_produced; unfold slot_ok; unfold_setters; auto; word_range.
  - destruct (AddCarry64 _ _ _) as [c lo]. destruct (AddCarry64 _ _ _) as [c2 x].
    destruct (negb (c2 =? 0)).
    + destruct (iHiProd <? 2);
        apply normalize_produced; unfold slot_ok; unfold_setters; auto; word_range.
    + apply normalize_produced; unfold slot_ok; unfold_setters; auto; word_range.
Qed.

Lemma ScaleUp_produced rounds iScale pdecL pdecR pdecRes bSign res0 r :
  slot_ok res0 pdecRes -> (bSign = 0 \/ bSign = DECIMAL_NEG) ->
  0 <= Hi32 pdecR < two32 -> 0 <= Lo64 pdecR < two64 ->
  AddSub.ScaleUp rounds iScale pdecL pdecR pdecRes bSign = Some (NOERROR, r) ->
  produced res0 r.
Proof.
  intros Hslot Hb HRhi HRlo. pose proof Hslot as (Hs & Hg & Hw).
  unfold AddSub.ScaleUp.
  destruct (iScale <=? POWER10_MAX64).
  - destruct (Mul64By64 (low64 pdecL) _) as [num0 hi].
    destruct (Mul64By64 (DECIMAL_HI32 pdecL) _) as [num1 num2].
    destruct (AddCarry64 0 num1 hi) as [carry num1'].
    destruct (AddCarry64 carry num2 0) as [c2 num2'].
    cbv zeta.
    destruct (negb (_ =? 0)); [apply Unaligned_produced; assumption|].
    destruct (FitsIn32Bit _); [|apply Unaligned_produced; assumption].
    intros H; inversion H as [H1]; clear H. revert H1.
    apply AlignedAdd_produced; assumption.
  - cbv zeta. destruct (_ && _).
    + intros H; inversion H; subst; clear H.
      pose proof (sign_toggle_byte _ _ Hg Hb).
      apply produced_intro; unfold slot_ok; unfold_setters; auto; try word_range.
    + destruct (AddSub.scale_loop _ _ _ _) as [num hp].
      apply Unaligned_produced; assumption.
Qed.

Lemma sign_bSign L R bSign :
  operand L -> operand R -> (bSign = 0 \/ bSign = DECIMAL_NEG) ->
  let b := Z.lxor bSign (Z.land (Z.lxor (sign R) (sign L)) DECIMAL_NEG) in
  b = 0 \/ b = DECIMAL_NEG.
Proof.
  intros (_ & _ & _ & HL) (_ & _ & _ & HR) Hb.
  destruct HL as [-> | ->]; destruct HR as [-> | ->]; destruct Hb as [-> | ->];
    cbv; auto.
Qed.

Lemma signscale_operand L :
  operand L -> u8 (signscale L) = scale L /\ u8 (signscale L / two8) = sign L.
Proof.
  intros (_ & _ & Hs & Hg). unfold signscale, DEC_SCALE_MAX in *.
  destruct Hg as [-> | ->]; unfold_words; split; dlia.
Qed.

Lemma DecimalAddSub_produced rounds L R res0 bSign r :
  operand L -> operand R -> (bSign = 0 \/ bSign = DECIMAL_NEG) ->
  DecimalAddSub rounds L R res0 bSign = Some (NOERROR, r) -> produced res0 r.
Proof.
  intros HL HR Hb.
  pose proof (sign_bSign L R bSign HL HR Hb) as Hb'. cbv zeta in Hb'.
  pose proof HL as (HLhi & HLlo & HLs & HLg).
  pose proof HR as (HRhi & HRlo & HRs & HRg).
  unfold DEC_SCALE_MAX in *.
  unfold DecimalAddSub. cbv zeta.
  destruct (scale R =? scale L).
  - intros H; inversion H as [H1]; clear H. revert H1.
    apply AlignedAdd_produced.
    destruct (signscale_operand L HL) as [E1 E2].
    unfold slot_ok, DEC_SCALE_MAX; unfold_setters. rewrite E1, E2. auto.
  - unfold_setters.
    rewrite (u8_small (scale R)) by (unfold two8; lia).
    rewrite (u8_small (scale L)) by (unfold two8; lia).
    rewrite (sign_u8 (sign L)) by assumption.
    destruct (scale R - scale L <? 0).
    + apply ScaleUp_produced; auto.
      unfold slot_ok, DEC_SCALE_MAX; cbn [wReserved scale sign Hi32 Lo64].
      pose proof (sign_toggle_byte _ _ HLg Hb'). auto.
    + apply ScaleUp_produced; auto.
      unfold slot_ok, DEC_SCALE_MAX; cbn [wReserved scale sign Hi32 Lo64]. auto.
Qed.

(** ** The rounds of DecimalDiv *)

Ltac destruct_if :=
  match goal with
  | |- (if ?c then _ else _) = _ -> _ => destruct c eqn:?
  end.

Lemma HaveScale32_step rgulDivisor st k r :
  (Div.iScale st <= 28 -> Div.iScale st + k <= 28) ->
  Div.HaveScale32 rgulDivisor st k = Some r -> round_ok st r.
Proof.
  intros Hk; unfold Div.HaveScale32. cbv zeta.
  destruct (IncreaseScale96By32 _ _) as [ovf quo].
  destruct (negb (ovf =? 0)).
  - intros H; inversion H; subst; cbn; split; [discriminate | intros; discriminate].
  - destruct (DivMod64By32 _ _ _) as [q rem].
    intros H; inversion H; subst; cbn; lia.
Qed.

Lemma HaveScale64_step rounds ullDivisor st k r :
  (Div.iScale st <= 28 -> Div.iScale st + Z.min k POWER10_MAX32 <= 28) ->
  Div.HaveScale64 rounds ullDivisor st k = Some r -> round_ok st r.
Proof.
  intros Hk; unfold Div.HaveScale64. cbv zeta.
  destruct (IncreaseScale96By32 _ _) as [ovf quo].
  destruct (negb (ovf =? 0)).
  - intros H; inversion H; subst; cbn; split; [discriminate | intros; discriminate].
  - destruct (Mul64By32 _ _) as [x h].
    intros H; inv_bind H. destruct a as [tmp32 rem].
    inversion H; subst; cbn; lia.
Qed.

Lemma HaveScale96_step rounds rgulDivisor st k r :
  (Div.iScale st <= 28 -> Div.iScale st + k <= 28) ->
  Div.HaveScale96 rounds rgulDivisor st k = Some r -> round_ok st r.
Proof.
  intros Hk; unfold Div.HaveScale96. cbv zeta.
  destruct (IncreaseScale96By64 (Div.rgulQuo st) _) as [ovf quo].
  destruct (negb (ovf =? 0)).
  - intros H; inversion H; subst; cbn; split; [discriminate | intros; discriminate].
  - destruct (IncreaseScale96By64 (Div.rgulRem st) _) as [tmp64 rem].
    intros H; inv_bind H. destruct a as [q rem'].
    inversion H; subst; cbn; lia.
Qed.

Lemma round_ok_weaken st st0 r :
  Div.iScale st0 = Div.iScale st -> round_ok st0 r -> round_ok st r.
Proof. unfold round_ok; intros E; destruct r as [st'|[hr st']]; rewrite E; auto. Qed.

Ltac finish_break :=
  intros H; inversion H; subst; unfold Div.RoundUp; cbn;
  split; [discriminate | intros; lia].

Ltac use_range :=
  match goal with
  | Hk : Div.iScale ?st <= 28 -> _ |- _ =>
      let Hs := fresh "Hs" in intros Hs; specialize (Hk Hs); lia
  end.

Lemma body32_step rgulDivisor st r :
  Div.body32 rgulDivisor st = Some r -> round_ok st r.
Proof.
  unfold Div.body32, POWER10_MAX32.
  destruct (get (Div.rgulRem st) 0 =? 0).
  - destruct (Div.iScale st <? 0) eqn:E.
    + apply HaveScale32_step; lia.
    + finish_break.
  - cbv zeta. cbn [Div.rgulQuo Div.rgulRem Div.iScale Div.fUnscale].
    pose proof (SearchScale64_range (Div.rgulQuo st) (Div.iScale st)) as Hk.
    cbv zeta in Hk.
    set (k := SearchScale64 (Div.rgulQuo st) (Div.iScale st)) in *.
    destruct (k =? 0) eqn:E0.
    + destruct_if; intros H; inversion H; subst; unfold Div.RoundUp; cbn;
        (split; [discriminate | intros Hs _; specialize (Hk Hs); lia]).
    + destruct (k =? -1) eqn:E1.
      * intros H; inversion H; subst; cbn; split; [discriminate | intros; discriminate].
      * intros H. eapply round_ok_weaken; [|eapply HaveScale32_step; [|exact H]];
          cbn; [reflexivity | intros Hs; specialize (Hk Hs); lia].
Qed.

Lemma body64_step rounds ullDivisor st r :
  Div.body64 rounds ullDivisor st = Some r -> round_ok st r.
Proof.
  unfold Div.body64, POWER10_MAX64.
  destruct (get64 (Div.rgulRem st) 0 =? 0).
  - destruct (Div.iScale st <? 0) eqn:E.
    + apply HaveScale64_step; unfold POWER10_MAX32; lia.
    + finish_break.
  - cbv zeta. cbn [Div.rgulQuo Div.rgulRem Div.iScale Div.fUnscale].
    pose proof (SearchScale64_range (Div.rgulQuo st) (Div.iScale st)) as Hk.
    cbv zeta in Hk.
    set (k := SearchScale64 (Div.rgulQuo st) (Div.iScale st)) in *.
    destruct (k =? 0) eqn:E0.
    + destruct_if; intros H; inversion H; subst; unfold Div.RoundUp; cbn;
        (split; [discriminate | intros Hs _; specialize (Hk Hs); lia]).
    + destruct (k =? -1) eqn:E1.
      * intros H; inversion H; subst; cbn; split; [discriminate | intros; discriminate].
      * intros H. eapply round_ok_weaken; [|eapply HaveScale64_step; [|exact H]];
          cbn; unfold POWER10_MAX32; [reflexivity | intros Hs; specialize (Hk Hs); lia].
Qed.

Lemma body96_step rounds rgulDivisor st r :
  Div.body96 rounds rgulDivisor st = Some r -> round_ok st r.
Proof.
  unfold Div.body96, POWER10_MAX64.
  destruct (Z.lor _ _ =? 0).
  - destruct (Div.iScale st <? 0) eqn:E.
    + apply HaveScale96_step; lia.
    + finish_break.
  - cbv zeta. cbn [Div.rgulQuo Div.rgulRem Div.iScale Div.fUnscale].
    pose proof (SearchScale64_range (Div.rgulQuo st) (Div.iScale st)) as Hk.
    cbv zeta in Hk.
    set (k := SearchScale64 (Div.rgulQuo st) (Div.iScale st)) in *.
    destruct (k =? 0) eqn:E0.
    + assert (Hb : forall q r0 f,
                round_ok st (Break (NOERROR, Div.mkState q r0 (Div.iScale st) f))).
      { intros; cbn; split; [discriminate | intros Hs _; specialize (Hk Hs); lia]. }
      destruct (get (Div.rgulRem st) 2 >=? 2147483648).
      { intros H; inversion H; subst; apply Hb. }
      destruct (AddCarry64 _ _ _) as [c x]. destruct (AddCarry32 _ _ _) as [c2 x2].
      destruct_if; intros H; inversion H; subst; apply Hb.
    + destruct (k =? -1) eqn:E1.
      * intros H; inversion H; subst; cbn; split; [discriminate | intros; discriminate].
      * intros H. eapply round_ok_weaken; [|eapply HaveScale96_step; [|exact H]];
          cbn; [reflexivity | intros Hs; specialize (Hk Hs); lia].
Qed.

(** The loop as a whole, for any of the three bodies. *)
Lemma div_loop_ok (body : Div.state -> option Div.loop_step) fuel st hr st' :
  (forall s r, body s = Some r -> round_ok s r) ->
  iterate fuel body st = Some (hr, st') ->
  hr <> DISP_E_DIVBYZERO
  /\ (Div.iScale st <= 28 -> hr = NOERROR -> 0 <= Div.iScale st' <= 28).
Proof.
  intros Hbody H.
  split.
  - apply (iterate_inv (fun _ => True)
             (fun r : HRESULT * Div.state => fst r <> DISP_E_DIVBYZERO) body) in H;
      [exact H | auto | | exact I].
    intros s [hr0 s0] _ Hb. apply (Hbody s _ Hb).
  - intros Hs Hn.
    refine (iterate_inv (fun s => Div.iScale s <= 28)
              (fun r : HRESULT * Div.state =>
                 fst r = NOERROR -> 0 <= Div.iScale (snd r) <= 28) body
              _ _ fuel st (hr, st') Hs H Hn).
    + intros s s' Hi Hb. apply (Hbody s _ Hb Hi).
    + intros s [hr0 s0] Hi Hb. cbn. apply (Hbody s _ Hb); assumption.
Qed.

(** ** The end of DecimalDiv *)

Lemma try_unscale_scale ulDen power rgulQuo iScale :
  0 <= power <= iScale ->
  0 <= snd (Div.try_unscale ulDen power rgulQuo iScale) <= iScale.
Proof.
  intros H; unfold Div.try_unscale. cbv zeta.
  destruct (Div96By32_x64 _ _) as [remainder save].
  destruct (remainder =? 0); cbn; lia.
Qed.

Lemma unscale8_scale rounds rgulQuo iScale rgulQuo' iScale' :
  0 <= iScale <= 28 ->
  Div.unscale8 rounds rgulQuo iScale = Some (rgulQuo', iScale') -> 0 <= iScale' <= 28.
Proof.
  intros Hs H; unfold Div.unscale8 in H.
  refine (iterate_inv (fun s : list Z * Z => 0 <= snd s <= 28)
            (fun r : list Z * Z => 0 <= snd r <= 28) _ _ _
            rounds (rgulQuo, iScale) (rgulQuo', iScale') Hs H).
  - intros [q s] [q' s'] Hi. cbn in Hi.
    destruct (_ && _) eqn:E; [|discriminate].
    apply andb_prop in E; destruct E as [_ E].
    pose proof (try_unscale_scale 100000000 8 q s ltac:(lia)) as Ht.
    destruct (Div.try_unscale 100000000 8 q s) as [[kept q1] s1].
    destruct kept; intros Hb; inversion Hb; subst; cbn in *; lia.
  - intros [q s] [q' s'] Hi. cbn in Hi.
    destruct (_ && _) eqn:E.
    + apply andb_prop in E; destruct E as [_ E].
      pose proof (try_unscale_scale 100000000 8 q s ltac:(lia)) as Ht.
      destruct (Div.try_unscale 100000000 8 q s) as [[kept q1] s1].
      destruct kept; intros Hb; inversion Hb; subst; cbn in *; lia.
    + intros Hb; inversion Hb; subst; cbn; lia.
Qed.

Lemma unscale_scale rounds rgulQuo iScale rgulQuo' iScale' :
  0 <= iScale <= 28 ->
  Div.unscale rounds rgulQuo iScale = Some (rgulQuo', iScale') -> 0 <= iScale' <= 28.
Proof.
  intros Hs H; unfold Div.unscale in H.
  inv_bind H. destruct a as [q0 s0]. apply unscale8_scale in E; [|assumption].
  assert (Hstep : forall power q s,
            0 <= power -> 0 <= s <= 28 ->
            forall c : bool,
            0 <= snd (if c && (s >=? power)
                      then let '(_, q1, s1) := Div.try_unscale (10 ^ power) power q s in
                           (q1, s1)
                      else (q, s)) <= 28).
  { intros power q s Hp Hs0 c. destruct (c && (s >=? power)) eqn:Ec; [|cbn; lia].
    apply andb_prop in Ec; destruct Ec as [_ Ec].
    pose proof (try_unscale_scale (10 ^ power) power q s ltac:(lia)) as Ht.
    destruct (Div.try_unscale (10 ^ power) power q s) as [[kept q1] s1].
    cbn in *; lia. }
  pose proof (Hstep 4 q0 s0 ltac:(lia) E (Z.land (get64 q0 0) 15 =? 0)) as H4.
  change (10 ^ 4) with 10000 in H4.
  destruct (if (Z.land (get64 q0 0) 15 =? 0) && (s0 >=? 4)
            then let '(_, q1, s1) := Div.try_unscale 10000 4 q0 s0 in (q1, s1)
            else (q0, s0)) as [q4 s4]. cbn [snd] in H4.
  pose proof (Hstep 2 q4 s4 ltac:(lia) H4 (Z.land (get64 q4 0) 3 =? 0)) as H2.
  change (10 ^ 2) with 100 in H2.
  destruct (if (Z.land (get64 q4 0) 3 =? 0) && (s4 >=? 2)
            then let '(_, q1, s1) := Div.try_unscale 100 2 q4 s4 in (q1, s1)
            else (q4, s4)) as [q2 s2]. cbn [snd] in H2.
  pose proof (Hstep 1 q2 s2 ltac:(lia) H2 (Z.land (get64 q2 0) 1 =? 0)) as H1.
  change (10 ^ 1) with 10 in H1.
  destruct (if (Z.land (get64 q2 0) 1 =? 0) && (s2 >=? 1)
            then let '(_, q1, s1) := Div.try_unscale 10 1 q2 s2 in (q1, s1)
            else (q2, s2)) as [q1 s1]. cbn [snd] in H1.
  inversion H; subst; assumption.
Qed.

Lemma finish_code rounds pdecL pdecR pdecRes hr st hr' d :
  Div.finish rounds pdecL pdecR pdecRes (hr, st) = Some (hr', d) -> hr' = hr.
Proof.
  unfold Div.finish. destruct hr.
  - intros H; inv_bind H. destruct a; inversion H; reflexivity.
  - intros H; inversion H; reflexivity.
  - intros H; inversion H; reflexivity.
Qed.

Lemma finish_produced rounds L R res0 hr st r :
  operand L -> operand R ->
  (hr = NOERROR -> 0 <= Div.iScale st <= 28) ->
  Div.finish rounds L R res0 (hr, st) = Some (NOERROR, r) -> produced res0 r.
Proof.
  intros HL HR Hs; unfold Div.finish.
  destruct hr; try discriminate.
  specialize (Hs eq_refl).
  intros H; inv_bind H. destruct a as [q s].
  assert (Hs' : 0 <= s <= 28).
  { destruct (Div.fUnscale st).
    - eapply unscale_scale; eassumption.
    - inversion E; subst; assumption. }
  inversion H; subst; clear H.
  pose proof (operand_sign_lxor L R HL HR).
  apply produced_intro; unfold slot_ok, DEC_SCALE_MAX; unfold_setters;
    try word_range; auto.
  rewrite u8_small by (unfold two8; lia). auto.
Qed.

Lemma divisor_words x y :
  set (set64 [0; 0; 0; 0] 0 x) 2 y = [low32 x; hi32 x; y; 0].
Proof. reflexivity. Qed.

Lemma DecimalDiv_loops rounds L R res0 hr d :
  DecimalDiv rounds L R res0 = Some (hr, d) ->
  (hr = DISP_E_DIVBYZERO ->
   (Hi32 R =? 0) && FitsIn32Bit (low32 (Lo64 R) + two32 * hi32 (Lo64 R))
   && (low32 (Lo64 R) =? 0) = true)
  /\ (operand L -> operand R -> hr = NOERROR -> produced res0 d).
Proof.
  unfold DecimalDiv. cbv zeta. rewrite divisor_words.
  unfold get64. change (0 + 1) with 1.
  change (get [low32 (low64 R); hi32 (low64 R); DECIMAL_HI32 R; 0] 0)
    with (low32 (Lo64 R)).
  change (get [low32 (low64 R); hi32 (low64 R); DECIMAL_HI32 R; 0] 1)
    with (hi32 (Lo64 R)).
  change (get [low32 (low64 R); hi32 (low64 R); DECIMAL_HI32 R; 0] 2)
    with (Hi32 R).
  assert (Hfin : forall body st,
            (forall s r, body s = Some r -> round_ok s r) ->
            Div.iScale st = scale L - scale R ->
            (r <- iterate rounds body st ;; Div.finish rounds L R res0 r) = Some (hr, d) ->
            (hr = DISP_E_DIVBYZERO -> False)
            /\ (operand L -> operand R -> hr = NOERROR -> produced res0 d)).
  { intros body st Hbody Hst H. inv_bind H. destruct a as [hr0 st0].
    apply finish_code in H as Hc; subst hr0.
    destruct (div_loop_ok body _ _ _ _ Hbody E) as [Hnz Hsc].
    split; [intros ->; congruence|].
    intros HL HR ->.
    apply (finish_produced rounds L R res0 NOERROR st0); try assumption.
    intros _. apply Hsc; [|reflexivity].
    destruct HL as (_ & _ & HsL & _); destruct HR as (_ & _ & HsR & _).
    unfold DEC_SCALE_MAX in *; lia. }
  destruct ((Hi32 R =? 0) && FitsIn32Bit (low32 (Lo64 R) + two32 * hi32 (Lo64 R)))
    eqn:E32; cbn [andb].
  - destruct (low32 (Lo64 R) =? 0).
    + intros H; inversion H; subst; split; [reflexivity | discriminate].
    + destruct (Div96By32_x64 _ _) as [r0 quo]. intros H.
      apply Hfin in H; [| intros; eapply body32_step; eassumption | reflexivity].
      destruct H as [H1 H2]. split; [intros; exfalso; auto | assumption].
  - destruct (BitScanMsb32 _) as [found msb].
    destruct (Hi32 R =? 0).
    + intros H; inv_bind H. destruct a as [q rem].
      apply Hfin in H; [| intros; eapply body64_step; eassumption | reflexivity].
      destruct H as [H1 H2]. split; [intros; exfalso; auto | assumption].
    + intros H; inv_bind H. destruct a as [q rem].
      apply Hfin in H; [| intros; eapply body96_step; eassumption | reflexivity].
      destruct H as [H1 H2]. split; [intros; exfalso; auto | assumption].
Qed.

Lemma DecimalDiv_produced rounds L R res0 r :
  operand L -> operand R ->
  DecimalDiv rounds L R res0 = Some (NOERROR, r) -> produced res0 r.
Proof.
  intros HL HR H. apply DecimalDiv_loops in H. destruct H as [_ H]. auto.
Qed.

(** ** Error codes of the routines *)

Ltac break_match :=
  match goal with
  | |- context [match ?x with _ => _ end] => destruct x eqn:?
  end.

Ltac crush_code :=
  repeat (first [ progress cbv zeta | break_match ]);
  intros; try discriminate; try congruence.

Lemma AlignedAdd_code pdecL pdecR pdecRes bSign :
  fst (AddSub.AlignedAdd pdecL pdecR pdecRes bSign) <> DISP_E_DIVBYZERO.
Proof. unfold AddSub.AlignedAdd; crush_code; cbn; discriminate. Qed.

Lemma Unaligned_code rounds rgullNum iHiProd pdecR pdecRes bSign d :
  AddSub.Unaligned rounds rgullNum iHiProd pdecR pdecRes bSign <> Some (DISP_E_DIVBYZERO, d).
Proof. unfold AddSub.Unaligned, bind; crush_code. Qed.

Lemma ScaleUp_code rounds iScale pdecL pdecR pdecRes bSign d :
  AddSub.ScaleUp rounds iScale pdecL pdecR pdecRes bSign <> Some (DISP_E_DIVBYZERO, d).
Proof.
  unfold AddSub.ScaleUp.
  destruct (iScale <=? POWER10_MAX64).
  - destruct (Mul64By64 _ _) as [num0 hi]. destruct (Mul64By64 _ _) as [num1 num2].
    destruct (AddCarry64 _ _ _) as [c n1]. destruct (AddCarry64 _ _ _) as [c2 n2].
    cbv zeta. destruct (negb _); [apply Unaligned_code|].
    destruct (FitsIn32Bit _); [|apply Unaligned_code].
    intros H; inversion H as [H1].
    pose proof (AlignedAdd_code
                  (mkDECIMAL 0 0 0 (u32 (get [num0; n1; n2] 1)) (get [num0; n1; n2] 0))
                  pdecR pdecRes bSign) as Hc.
    rewrite H1 in Hc. apply Hc; reflexivity.
  - cbv zeta. destruct (_ && _); [discriminate|].
    destruct (AddSub.scale_loop _ _ _ _). apply Unaligned_code.
Qed.

Lemma DecimalAddSub_code rounds L R res0 bSign d :
  DecimalAddSub rounds L R res0 bSign <> Some (DISP_E_DIVBYZERO, d).
Proof.
  unfold DecimalAddSub. cbv zeta.
  destruct (scale R =? scale L).
  - intros H; inversion H as [H1].
    match type of H1 with
    | AddSub.AlignedAdd ?a ?b ?c ?e = _ =>
        pose proof (AlignedAdd_code a b c e) as Hc
    end.
    rewrite H1 in Hc. apply Hc; reflexivity.
  - destruct (_ <? 0); apply ScaleUp_code.
Qed.

Lemma DecimalMul_code rounds L R res0 d :
  DecimalMul rounds L R res0 <> Some (DISP_E_DIVBYZERO, d).
Proof.
  unfold DecimalMul, DecimalMul_finish, ReturnZero, bind; crush_code.
Qed.

(** ** The sign stored by DecimalMul and DecimalDiv *)

Lemma byte_lxor a b : 0 <= a < two8 -> 0 <= b < two8 -> u8 (Z.lxor a b) = Z.lxor a b.
Proof.
  intros Ha Hb. apply u8_small.
  assert (H0 : 0 <= Z.lxor a b) by (apply Z.lxor_nonneg; lia).
  split; [assumption|].
  destruct (Z.eq_dec (Z.lxor a b) 0) as [->|Hne]; [reflexivity|].
  apply (Z.log2_lt_pow2 _ 8); [lia|].
  pose proof (Z.log2_lxor a b ltac:(lia) ltac:(lia)) as Hl.
  assert (Hla : Z.log2 a < 8).
  { destruct (Z.eq_dec a 0) as [->|?]; [cbn; lia|]. apply Z.log2_lt_pow2; [lia|exact (proj2 Ha)]. }
  assert (Hlb : Z.log2 b < 8).
  { destruct (Z.eq_dec b 0) as [->|?]; [cbn; lia|]. apply Z.log2_lt_pow2; [lia|exact (proj2 Hb)]. }
  lia.
Qed.

Lemma DecimalMul_sign rounds L R res0 r :
  DecimalMul rounds L R res0 = Some (NOERROR, r) ->
  sign r = u8 (Z.lxor (sign L) (sign R)) \/ r = DECIMAL_SETZERO.
Proof.
  unfold DecimalMul, DecimalMul_finish, ReturnZero, bind.
  repeat (first [ progress cbv zeta | break_match ]);
    intros H; inversion H; subst; auto.
Qed.

Lemma finish_sign rounds L R res0 st r :
  Div.finish rounds L R res0 (NOERROR, st) = Some (NOERROR, r) ->
  sign r = u8 (Z.lxor (sign L) (sign R)).
Proof.
  unfold Div.finish. intros H; inv_bind H. destruct a as [q s].
  inversion H; subst; reflexivity.
Qed.

Lemma DecimalDiv_sign rounds L R res0 r :
  DecimalDiv rounds L R res0 = Some (NOERROR, r) ->
  sign r = u8 (Z.lxor (sign L) (sign R)).
Proof.
  assert (Hfin : forall (body : Div.state -> option Div.loop_step) st,
            (r0 <- iterate rounds body st ;; Div.finish rounds L R res0 r0)
            = Some (NOERROR, r) ->
            sign r = u8 (Z.lxor (sign L) (sign R))).
  { intros body st H. inv_bind H. destruct a as [hr0 st0].
    apply finish_code in H as Hc; subst hr0. eapply finish_sign; eassumption. }
  unfold DecimalDiv. cbv zeta.
  destruct (_ && _).
  - destruct (_ =? 0); [discriminate|].
    destruct (Div96By32_x64 _ _) as [r0 quo]. apply Hfin.
  - destruct (BitScanMsb32 _) as [found msb].
    destruct (_ =? 0); intros H; inv_bind H; destruct a as [q rem];
      eapply Hfin; eassumption.
Qed.

(** ** C1: invariants of the produced values *)

Lemma produced_fields res0 r :
  produced res0 r ->
  (0 <= scale r <= DEC_SCALE_MAX) /\ (0 <= mantissa r < two96)
  /\ Z.land (sign r) 127 = 0 /\ (wReserved r = wReserved res0 \/ wReserved r = 0).
Proof.
  intros ((Hs & Hhi & Hlo & Hg) & Hw).
  repeat split; try tauto; try (apply mantissa_range; assumption).
  destruct Hg as [-> | ->]; reflexivity.
Qed.

Lemma produced_cleared res0 r :
  produced res0 r -> value_invariants (set_wReserved r 0).
Proof.
  intros H. destruct (produced_fields _ _ H) as (Hs & Hm & Hg & _).
  unfold value_invariants, reserved_bits_zero, set_wReserved, mantissa in *.
  cbn [wReserved scale sign Hi32 Lo64]. repeat split; try tauto; lia.
Qed.

(** C1 fails as stated: DecimalMul never writes [wReserved], so 2 * 3
    computed into a slot whose reserved half holds 1 succeeds with that 1
    still in place. *)
Lemma DecimalMul_reserved_counterexample :
  operand (decimal_of 0 2 0) /\ operand (decimal_of 0 3 0)
  /\ exists r,
       (forall rounds,
           DecimalMul rounds (decimal_of 0 2 0) (decimal_of 0 3 0) (mkDECIMAL 1 0 0 0 0)
           = Some (NOERROR, r))
       /\ ~ value_invariants r.
Proof.
  split; [cbv; intuition discriminate|].
  split; [cbv; intuition discriminate|].
  exists (mkDECIMAL 1 0 0 0 6); split; [intros rounds; reflexivity|].
  intros (_ & _ & Hw & _). discriminate Hw.
Qed.

(** C1, amended: for operands with scale at most 28 and a sign byte of 0 or
    0x80, every value DecimalAddSub (add or subtract), DecimalMul or
    DecimalDiv stores on success, however many rounds its loops take, has its scale in 0..28, its mantissa below
    2^96 and no stray bit in the sign byte; its [wReserved] half is what
    the output slot held before (or zero), and it is the callers DoAddSub,
    DoMultiply and DoDivide that clear it, after which all the invariants
    hold. *)
Theorem arithmetic_results_invariants rounds L R res0 :
  operand L -> operand R ->
  (forall r,
      DecimalAddSub rounds L R res0 0 = Some (NOERROR, r)
      \/ DecimalAddSub rounds L R res0 DECIMAL_NEG = Some (NOERROR, r)
      \/ DecimalMul rounds L R res0 = Some (NOERROR, r)
      \/ DecimalDiv rounds L R res0 = Some (NOERROR, r) ->
      (0 <= scale r <= DEC_SCALE_MAX) /\ (0 <= mantissa r < two96)
      /\ Z.land (sign r) 127 = 0
      /\ (wReserved r = wReserved res0 \/ wReserved r = 0))
  /\ (forall d,
         DoAddSub rounds L R res0 0 = Some (Returned d false)
         \/ DoAddSub rounds L R res0 DECIMAL_NEG = Some (Returned d false)
         \/ DoMultiply rounds L R res0 = Some (Returned d false)
         \/ DoDivide rounds L R res0 = Some (Returned d false) ->
         value_invariants d).
Proof.
  intros HL HR.
  assert (Hcore : forall r,
            DecimalAddSub rounds L R res0 0 = Some (NOERROR, r)
            \/ DecimalAddSub rounds L R res0 DECIMAL_NEG = Some (NOERROR, r)
            \/ DecimalMul rounds L R res0 = Some (NOERROR, r)
            \/ DecimalDiv rounds L R res0 = Some (NOERROR, r) -> produced res0 r).
  { intros r [H | [H | [H | H]]].
    - apply (DecimalAddSub_produced rounds L R res0 0 r HL HR); [left; reflexivity | exact H].
    - apply (DecimalAddSub_produced rounds L R res0 DECIMAL_NEG r HL HR);
        [right; reflexivity | exact H].
    - apply (DecimalMul_produced rounds L R res0 r HL HR H).
    - apply (DecimalDiv_produced rounds L R res0 r HL HR H). }
  split.
  - intros r H. apply produced_fields, Hcore, H.
  - intros d [H | [H | [H | H]]].
    + unfold DoAddSub in H. inv_bind H. destruct a as [hr r].
      destruct hr; cbn in H; inversion H; subst.
      apply (produced_cleared res0), Hcore; auto.
    + unfold DoAddSub in H. inv_bind H. destruct a as [hr r].
      destruct hr; cbn in H; inversion H; subst.
      apply (produced_cleared res0), Hcore; auto.
    + unfold DoMultiply in H. inv_bind H. destruct a as [hr r].
      destruct hr; cbn in H; inversion H; subst.
      apply (produced_cleared res0), Hcore; auto.
    + unfold DoDivide in H. inv_bind H. destruct a as [hr r].
      destruct hr; cbn in H; inversion H; subst.
      apply (produced_cleared res0), Hcore; auto.
Qed.

Lemma arithmetic_results_invariants_witness :
  operand (decimal_of 0 2 0) /\ operand (decimal_of 0 3 0)
  /\ DecimalMul 64%nat (decimal_of 0 2 0) (decimal_of 0 3 0) (mkDECIMAL 1 0 0 0 0)
     = Some (NOERROR, mkDECIMAL 1 0 0 0 6)
  /\ Z.land (sign (mkDECIMAL 1 0 0 0 6)) 127 = 0
  /\ DoMultiply 64%nat (decimal_of 0 2 0) (decimal_of 0 3 0) (mkDECIMAL 1 0 0 0 0)
     = Some (Returned (mkDECIMAL 0 0 0 0 6) false)
  /\ value_invariants (mkDECIMAL 0 0 0 0 6).
Proof.
  assert (H2 : operand (decimal_of 0 2 0)) by (cbv; intuition discriminate).
  assert (H3 : operand (decimal_of 0 3 0)) by (cbv; intuition discriminate).
  assert (Hm : DecimalMul 64%nat (decimal_of 0 2 0) (decimal_of 0 3 0) (mkDECIMAL 1 0 0 0 0)
               = Some (NOERROR, mkDECIMAL 1 0 0 0 6)) by (vm_compute; reflexivity).
  assert (Hd : DoMultiply 64%nat (decimal_of 0 2 0) (decimal_of 0 3 0) (mkDECIMAL 1 0 0 0 0)
               = Some (Returned (mkDECIMAL 0 0 0 0 6) false)) by (vm_compute; reflexivity).
  destruct (arithmetic_results_invariants 64%nat _ _ (mkDECIMAL 1 0 0 0 0) H2 H3) as [Hc Hw].
  refine (conj H2 (conj H3 (conj Hm (conj _ (conj Hd _))))).
  - exact (proj1 (proj2 (proj2 (Hc _ (or_intror (or_intror (or_introl Hm))))))).
  - exact (Hw _ (or_intror (or_intror (or_introl Hd)))).
Defined.

(** ** C4: 1.0 / 1 *)

(** C4 fails as stated: 1.0 / 1 does not come out as mantissa 1 at scale
    0. *)
Lemma DecimalDiv_one_counterexample :
  ~ exists rounds r,
      DecimalDiv rounds (decimal_of 0 10 1) (decimal_of 0 1 0) DECIMAL_SETZERO
      = Some (NOERROR, r)
      /\ mantissa r = 1 /\ scale r = 0.
Proof.
  intros (rounds & r & H & Hm & Hs).
  destruct rounds as [|n]; vm_compute in H; [discriminate H|].
  inversion H; subst. discriminate Hm.
Qed.

(** C4, amended: dividing 1.0 (mantissa 10, scale 1) by 1 (mantissa 1,
    scale 0) returns mantissa 10 at scale 1, positive, as soon as the main
    loop is allowed one round: the first division leaves no remainder, so
    the trimming of trailing zeros, which runs only after a non-zero
    remainder, is not entered. *)
Theorem DecimalDiv_one_keeps_scale rounds res0 :
  DecimalDiv (S rounds) (decimal_of 0 10 1) (decimal_of 0 1 0) res0
  = Some (NOERROR, mkDECIMAL (wReserved res0) 1 0 0 10).
Proof. reflexivity. Qed.

(** ** C9: 0.5 - 0.5 *)

(** C9 fails as stated: the difference does not have scale 2. *)
Lemma DecimalSub_half_counterexample :
  ~ exists rounds r,
      DecimalAddSub rounds (decimal_of 0 5 1) (decimal_of 0 5 1) DECIMAL_SETZERO DECIMAL_NEG
      = Some (NOERROR, r)
      /\ mantissa r = 0 /\ scale r = 2 /\ sign r = 0.
Proof.
  intros (rounds & r & H & _ & Hs & _).
  vm_compute in H. inversion H; subst. discriminate Hs.
Qed.

(** C9, amended: subtracting 0.5 from 0.5 (mantissa 5, scale 1, sign clear)
    returns the value zero with the common scale 1 and the sign clear. *)
Theorem DecimalSub_half_half rounds res0 :
  DecimalAddSub rounds (decimal_of 0 5 1) (decimal_of 0 5 1) res0 DECIMAL_NEG
  = Some (NOERROR, mkDECIMAL (wReserved res0) 1 0 0 0).
Proof. reflexivity. Qed.

(** ** C10: subtracting a negative value from itself *)

(** C10: for a negative operand L (sign byte 0x80, scale a byte),
    DecimalAddSub L L in subtract mode succeeds and stores mantissa zero,
    the scale of L and the sign byte 0x80: a negative zero. *)
Theorem DecimalSub_self_negative_zero rounds L res0 :
  0 <= scale L < two8 -> sign L = DECIMAL_NEG ->
  exists r,
    DecimalAddSub rounds L L res0 DECIMAL_NEG = Some (NOERROR, r)
    /\ mantissa r = 0 /\ scale r = scale L /\ sign r = DECIMAL_NEG.
Proof.
  intros Hs Hg. unfold DecimalAddSub. cbv zeta.
  rewrite Z.eqb_refl, Hg.
  change (Z.lxor DECIMAL_NEG (Z.land (Z.lxor DECIMAL_NEG DECIMAL_NEG) DECIMAL_NEG))
    with 128.
  unfold AddSub.AlignedAdd. cbn [negb Z.eqb].
  unfold SubBorrow64, SubBorrow32.
  replace (low64 L - (low64 L + 0)) with 0 by lia.
  cbn [Z.ltb Z.compare]. cbv zeta.
  replace (DECIMAL_HI32 L - (DECIMAL_HI32 L + 0)) with 0 by lia.
  cbn [Z.ltb Z.compare negb Z.eqb].
  eexists; split; [reflexivity|].
  unfold mantissa, signscale; unfold_setters. rewrite Hg.
  repeat split.
  - unfold_words; dlia.
  - unfold_words; dlia.
Qed.

Lemma DecimalSub_self_negative_zero_witness :
  (0 <= scale (decimal_of 128 7 3) < two8) /\ sign (decimal_of 128 7 3) = DECIMAL_NEG
  /\ exists r,
       DecimalAddSub 64%nat (decimal_of 128 7 3) (decimal_of 128 7 3) DECIMAL_SETZERO DECIMAL_NEG
       = Some (NOERROR, r)
       /\ mantissa r = 0 /\ scale r = scale (decimal_of 128 7 3)
       /\ sign r = DECIMAL_NEG.
Proof.
  assert (H1 : 0 <= scale (decimal_of 128 7 3) < two8) by (cbn; unfold two8; lia).
  assert (H2 : sign (decimal_of 128 7 3) = DECIMAL_NEG) by reflexivity.
  split; [exact H1|]. split; [exact H2|].
  exact (DecimalSub_self_negative_zero 64%nat (decimal_of 128 7 3) DECIMAL_SETZERO H1 H2).
Defined.

(** ** C5: the sign of products and quotients *)

(** C5 fails as stated for DecimalMul: a product that is scaled down by
    more than 10^19 is stored by the return-zero exit, with the sign byte
    cleared whatever the signs of the operands. *)
Lemma DecimalMul_sign_counterexample :
  exists r,
    (forall rounds,
        DecimalMul rounds (decimal_of 128 1 24) (decimal_of 0 1 24) DECIMAL_SETZERO
        = Some (NOERROR, r))
    /\ sign r <> Z.lxor (sign (decimal_of 128 1 24)) (sign (decimal_of 0 1 24)).
Proof.
  exists DECIMAL_SETZERO; split; [intros rounds; reflexivity | discriminate].
Qed.

(** ** C6: division by zero *)

Lemma mantissa_zero R :
  0 <= Hi32 R < two32 -> 0 <= Lo64 R < two64 ->
  (mantissa R = 0 <-> Hi32 R = 0 /\ Lo64 R = 0).
Proof. unfold mantissa; unfold_words; lia. Qed.

Lemma DecimalDiv_zero_divisor rounds L R res0 :
  Hi32 R = 0 -> Lo64 R = 0 -> DecimalDiv rounds L R res0 = Some (DISP_E_DIVBYZERO, res0).
Proof.
  intros H1 H2.
  unfold DecimalDiv. cbv zeta. rewrite divisor_words.
  unfold low64, DECIMAL_HI32. rewrite H1, H2.
  match goal with
  | |- (if ?c then _ else _) = _ => replace c with true by (vm_compute; reflexivity)
  end.
  match goal with
  | |- (if ?c then _ else _) = _ => replace c with true by (vm_compute; reflexivity)
  end.
  reflexivity.
Qed.

Lemma DecimalDiv_divbyzero_divisor rounds L R res0 d :
  0 <= Lo64 R < two64 ->
  DecimalDiv rounds L R res0 = Some (DISP_E_DIVBYZERO, d) -> Hi32 R = 0 /\ Lo64 R = 0.
Proof.
  intros Hlo H. apply DecimalDiv_loops in H. destruct H as [H _].
  specialize (H eq_refl).
  apply andb_prop in H; destruct H as [H H3].
  apply andb_prop in H; destruct H as [H1 H2].
  apply Z.eqb_eq in H1, H3. apply Z.leb_le in H2.
  split; [exact H1|].
  unfold low32, hi32, two32, two64, UINT32_MAX in *.
  pose proof (Z.div_mod (Lo64 R) 4294967296 ltac:(lia)) as Hdm.
  assert (Hq : 0 <= Lo64 R / 4294967296 < 4294967296)
    by (split; [apply Z.div_pos; lia | apply Z.div_lt_upper_bound; lia]).
  rewrite (Z.mod_small (Lo64 R / 4294967296)) in H2 by assumption. lia.
Qed.

(** C6: for a divisor whose mantissa words are within their width,
    DecimalDiv reports DISP_E_DIVBYZERO exactly when the divisor's 96-bit
    mantissa is zero, whatever the dividend and the divisor's scale and
    sign; DecimalAddSub and DecimalMul never report it. *)
Theorem div_by_zero_exactly rounds L R res0 :
  0 <= Hi32 R < two32 -> 0 <= Lo64 R < two64 ->
  ((exists d, DecimalDiv rounds L R res0 = Some (DISP_E_DIVBYZERO, d)) <-> mantissa R = 0)
  /\ (forall bSign d, DecimalAddSub rounds L R res0 bSign <> Some (DISP_E_DIVBYZERO, d))
  /\ (forall d, DecimalMul rounds L R res0 <> Some (DISP_E_DIVBYZERO, d)).
Proof.
  intros Hhi Hlo.
  split; [|split; [intros; apply DecimalAddSub_code | intros; apply DecimalMul_code]].
  split.
  - intros (d & H). apply (mantissa_zero R Hhi Hlo).
    apply (DecimalDiv_divbyzero_divisor rounds L R res0 d Hlo H).
  - intros H. apply (mantissa_zero R Hhi Hlo) in H. destruct H as [H1 H2].
    exists res0. apply DecimalDiv_zero_divisor; assumption.
Qed.

Lemma div_by_zero_exactly_witness :
  (0 <= Hi32 (decimal_of 128 0 5) < two32) /\ (0 <= Lo64 (decimal_of 128 0 5) < two64)
  /\ ((exists d, DecimalDiv 64%nat (decimal_of 0 1 0) (decimal_of 128 0 5) DECIMAL_SETZERO
                 = Some (DISP_E_DIVBYZERO, d))
      <-> mantissa (decimal_of 128 0 5) = 0).
Proof.
  assert (H1 : 0 <= Hi32 (decimal_of 128 0 5) < two32) by (cbn; unfold two32; lia).
  assert (H2 : 0 <= Lo64 (decimal_of 128 0 5) < two64) by (cbn; unfold two64; lia).
  refine (conj H1 (conj H2 _)).
  exact (proj1 (div_by_zero_exactly 64%nat (decimal_of 0 1 0) _ DECIMAL_SETZERO H1 H2)).
Defined.

(** ** C7: NumberToDecimal on very small exponents *)

Lemma store_zero_fields P number d e :
  e <= 0 -> e <= - P ->
  exists r,
    NumberToDecimal_store P number d e = Some r
    /\ mantissa r = 0 /\ scale r = u8 (P - 1)
    /\ sign r = (if number_sign number then DECIMAL_NEG else 0)
    /\ wReserved r = wReserved d.
Proof.
  intros He HP. unfold NumberToDecimal_store.
  replace (e >? 0) with false by lia.
  replace (e <=? - P) with true by lia.
  eexists; split; [reflexivity|].
  unfold mantissa, set_sign, set_scale, set_mid32_dec, set_low32_dec, set_hi32_dec,
    set_signscale, set_low64. cbn [wReserved scale sign Hi32 Lo64].
  repeat split.
  - unfold set_hi32, set_low32. unfold_words. dlia.
  - destruct (number_sign number); reflexivity.
Qed.

Lemma store_keeps_mantissa P number d e :
  - P < e <= 0 ->
  exists r,
    NumberToDecimal_store P number d e = Some r
    /\ mantissa r = mantissa d /\ scale r = u8 (- e).
Proof.
  intros He. unfold NumberToDecimal_store.
  replace (e >? 0) with false by lia.
  replace (e <=? - P) with false by lia.
  eexists; split; [reflexivity|].
  unfold mantissa; cbn. split; reflexivity.
Qed.

(** C7 fails as stated, whatever DECIMAL_PRECISION is: for the digits "1"
    with exponent -27 the exponent is -28 after the digit is absorbed; the
    result then has either a scale other than 28 or the mantissa 1. *)
Lemma NumberToDecimal_exponent_counterexample :
  snd (Parse.scan (mkNUMBER (-27) false 0 [49]) (mkDECIMAL 0 0 0 0 0) 0 (-27)) = -28
  /\ ~ exists P d,
         NumberToDecimal P (mkNUMBER (-27) false 0 [49]) = Some d
         /\ mantissa d = 0 /\ scale d = 28.
Proof.
  split; [vm_compute; reflexivity|].
  intros (P & d & H & Hm & Hs).
  unfold NumberToDecimal in H. cbv zeta in H.
  change (Parse.deref (mkNUMBER (-27) false 0 [49]) 0 =? 0) with false in H.
  cbv iota in H. cbn [number_scale] in H.
  destruct (-27 >? P) eqn:E1; [discriminate|].
  replace (Parse.scan (mkNUMBER (-27) false 0 [49]) (mkDECIMAL 0 0 0 0 0) 0 (-27))
    with (mkDECIMAL 0 0 0 0 1, -28) in H by (vm_compute; reflexivity).
  unfold NumberToDecimal_store in H. cbn [Z.gtb Z.compare] in H.
  destruct (-28 <=? - P) eqn:E2; inversion H; subst; clear H.
  - cbn in Hs. unfold_words. dlia.
  - cbn in Hm. discriminate Hm.
Qed.

(** C7, amended: when NumberToDecimal is given non-zero digits, an
    exponent not above DECIMAL_PRECISION, and the exponent left by the
    digit loop and the rounding is at most -DECIMAL_PRECISION, it succeeds
    and returns mantissa zero with scale DECIMAL_PRECISION - 1 (and the
    sign of the input); when that exponent is above -DECIMAL_PRECISION
    (and not positive) it keeps the absorbed mantissa at scale minus the
    exponent.  The threshold and the stored scale differ by one: no value
    of DECIMAL_PRECISION gives "at most -28" and "scale 28" together. *)
Theorem NumberToDecimal_small_exponent P number d e :
  0 <= P ->
  Parse.deref number 0 <> 0 -> number_scale number <= P ->
  Parse.scan number (mkDECIMAL 0 0 0 0 0) 0 (number_scale number) = (d, e) ->
  (e <= - P ->
   exists r, NumberToDecimal P number = Some r
     /\ mantissa r = 0 /\ scale r = u8 (P - 1)
     /\ sign r = (if number_sign number then DECIMAL_NEG else 0))
  /\ (- P < e <= 0 ->
      exists r, NumberToDecimal P number = Some r
        /\ mantissa r = mantissa d /\ scale r = u8 (- e)).
Proof.
  intros HP Hd Hs Hscan.
  assert (E : NumberToDecimal P number = NumberToDecimal_store P number d e).
  { unfold NumberToDecimal. cbv zeta.
    replace (Parse.deref number 0 =? 0) with false by lia.
    replace (number_scale number >? P) with false by lia.
    rewrite Hscan. reflexivity. }
  rewrite E. split.
  - intros He. destruct (store_zero_fields P number d e ltac:(lia) He)
      as (r & H1 & H2 & H3 & H4 & _).
    exists r; auto.
  - intros He. apply store_keeps_mantissa; assumption.
Qed.

Lemma NumberToDecimal_small_exponent_witness :
  0 <= 29
  /\ Parse.deref (mkNUMBER (-40) true 0 [49]) 0 <> 0
  /\ number_scale (mkNUMBER (-40) true 0 [49]) <= 29
  /\ Parse.scan (mkNUMBER (-40) true 0 [49]) (mkDECIMAL 0 0 0 0 0) 0
       (number_scale (mkNUMBER (-40) true 0 [49]))
     = (mkDECIMAL 0 0 0 0 0, -40)
  /\ -40 <= - 29
  /\ exists r, NumberToDecimal 29 (mkNUMBER (-40) true 0 [49]) = Some r
       /\ mantissa r = 0 /\ scale r = u8 (29 - 1)
       /\ sign r = (if number_sign (mkNUMBER (-40) true 0 [49]) then DECIMAL_NEG else 0).
Proof.
  assert (H0 : 0 <= 29) by lia.
  assert (H1 : Parse.deref (mkNUMBER (-40) true 0 [49]) 0 <> 0) by (vm_compute; discriminate).
  assert (H2 : number_scale (mkNUMBER (-40) true 0 [49]) <= 29) by (cbn; lia).
  assert (H3 : Parse.scan (mkNUMBER (-40) true 0 [49]) (mkDECIMAL 0 0 0 0 0) 0
                 (number_scale (mkNUMBER (-40) true 0 [49]))
               = (mkDECIMAL 0 0 0 0 0, -40)) by (vm_compute; reflexivity).
  assert (H4 : -40 <= - 29) by lia.
  refine (conj H0 (conj H1 (conj H2 (conj H3 (conj H4 _))))).
  exact (proj1 (NumberToDecimal_small_exponent 29 _ _ _ H0 H1 H2 H3) H4).
Defined.

(** ** C8: the two orders of an addition *)

Lemma u64_idem x : u64 (u64 x) = u64 x.
Proof. unfold u64. apply Z.mod_mod. unfold two64; lia. Qed.

Lemma u32_idem x : u32 (u32 x) = u32 x.
Proof. unfold u32. apply Z.mod_mod. unfold two32; lia. Qed.

Lemma mod_wrap_neg t M : - M <= t < 0 -> t mod M = t + M.
Proof.
  intros H. symmetry. apply (Z.mod_unique t M (-1) (t + M)); lia.
Qed.

Ltac mod_norm :=
  repeat match goal with
         | |- context [?t mod ?M] =>
             first [ rewrite (Z.mod_small t M) by lia
                   | rewrite (mod_wrap_neg t M) by lia ]
         end.

(** Subtracting the smaller 96-bit value from the larger one and negating
    the wrapped difference of the other order give the same words. *)
Lemma flip_core a b x y :
  0 <= a < two64 -> 0 <= b < two64 -> 0 <= x < two32 -> 0 <= y < two32 ->
  y * two64 + b < x * two64 + a ->
  let c := if a - (b + 0) <? 0 then 1 else 0 in
  let c' := if b - (a + 0) <? 0 then 1 else 0 in
  let l' := u64 (b - (a + 0)) in
  let h' := u32 (y - (x + c')) in
  (x - (y + c) <? 0) = false /\ (y - (x + c') <? 0) = true
  /\ u64 (- l') = u64 (a - (b + 0))
  /\ (if u64 (- l') =? 0 then u32 (u32 (Z.lnot h') + 1) else u32 (Z.lnot h'))
     = u32 (x - (y + c)).
Proof.
  intros Ha Hb Hx Hy Hlt. unfold Z.lnot, Z.pred, u64, u32, two64, two32 in *. cbv zeta.
  rewrite !Z.add_0_r.
  destruct (Z_lt_ge_dec a b) as [Hab | Hab].
  - replace (a - b <? 0) with true by lia. replace (b - a <? 0) with false by lia.
    mod_norm.
    match goal with |- context [?e =? 0] => destruct (Z.eqb_spec e 0) end;
      mod_norm; repeat split; lia.
  - destruct (Z.eq_dec a b) as [-> | Hne].
    + replace (b - b <? 0) with false by lia.
      replace (b - b) with 0 by lia. cbn [Z.opp Z.modulo Z.div_eucl Z.eqb].
      rewrite !Z.add_0_r. mod_norm. repeat split; lia.
    + replace (a - b <? 0) with false by lia. replace (b - a <? 0) with true by lia.
      mod_norm.
      match goal with |- context [?e =? 0] => destruct (Z.eqb_spec e 0) end;
        mod_norm; repeat split; lia.
Qed.

Lemma AlignedAdd_sub_gt L R p q :
  0 <= Hi32 L < two32 -> 0 <= Lo64 L < two64 ->
  0 <= Hi32 R < two32 -> 0 <= Lo64 R < two64 ->
  mantissa R < mantissa L ->
  wReserved p = wReserved q -> scale p = scale q ->
  sign p = u8 (Z.lxor (sign q) DECIMAL_NEG) ->
  AddSub.AlignedAdd L R p DECIMAL_NEG = AddSub.AlignedAdd R L q DECIMAL_NEG.
Proof.
  intros HLh HLl HRh HRl Hlt Hw Hs Hg.
  unfold AddSub.AlignedAdd.
  change (negb (DECIMAL_NEG =? 0)) with true. cbv iota.
  unfold SubBorrow64, SubBorrow32, low64, DECIMAL_HI32. cbv zeta.
  destruct (flip_core (Lo64 L) (Lo64 R) (Hi32 L) (Hi32 R) HLl HRl HLh HRh Hlt)
    as (E1 & E2 & E3 & E4).
  cbv zeta in E1, E2, E3, E4.
  unfold set_low64, set_hi32_dec. cbn [wReserved scale sign Hi32 Lo64].
  rewrite E1, E2. cbn [negb Z.eqb]. f_equal.
  unfold AddSub.SignFlip, low64, DECIMAL_HI32, set_low64, set_hi32_dec, set_sign.
  cbv zeta. cbn [wReserved scale sign Hi32 Lo64].
  rewrite !u64_idem, !u32_idem in *.
  rewrite E3.
  rewrite <- E4. rewrite E3.
  destruct (u64 (Lo64 L - (Lo64 R + 0)) =? 0);
    cbn [wReserved scale sign Hi32 Lo64]; rewrite ?u32_idem;
    rewrite Hw, Hs, Hg; reflexivity.
Qed.

Lemma AddCarry64_comm c a b : AddCarry64 c a b = AddCarry64 c b a.
Proof. unfold AddCarry64. replace (c + a + b) with (c + b + a) by lia. reflexivity. Qed.

Lemma AddCarry32_comm c a b : AddCarry32 c a b = AddCarry32 c b a.
Proof. unfold AddCarry32. replace (c + a + b) with (c + b + a) by lia. reflexivity. Qed.

Lemma AlignedAdd_add_comm L R p :
  AddSub.AlignedAdd L R p 0 = AddSub.AlignedAdd R L p 0.
Proof.
  unfold AddSub.AlignedAdd. change (negb (0 =? 0)) with false. cbv iota.
  rewrite (AddCarry64_comm 0 (low64 L) (low64 R)).
  destruct (AddCarry64 0 (low64 R) (low64 L)) as [c lo].
  rewrite (AddCarry32_comm c (DECIMAL_HI32 L) (DECIMAL_HI32 R)).
  reflexivity.
Qed.

Lemma AlignedAdd_sub_eq L R p :
  mantissa L = mantissa R ->
  0 <= Hi32 L < two32 -> 0 <= Lo64 L < two64 ->
  0 <= Hi32 R < two32 -> 0 <= Lo64 R < two64 ->
  AddSub.AlignedAdd L R p DECIMAL_NEG
  = (NOERROR, mkDECIMAL (wReserved p) (scale p) (sign p) 0 0).
Proof.
  intros He HLh HLl HRh HRl.
  assert (E1 : Hi32 L = Hi32 R) by (unfold mantissa in He; unfold_words; lia).
  assert (E2 : Lo64 L = Lo64 R) by (unfold mantissa in He; unfold_words; lia).
  unfold AddSub.AlignedAdd.
  change (negb (DECIMAL_NEG =? 0)) with true. cbv iota.
  unfold SubBorrow64, SubBorrow32, low64, DECIMAL_HI32. rewrite E1, E2. cbv zeta.
  replace (Lo64 R - (Lo64 R + 0)) with 0 by lia.
  cbn [Z.ltb Z.compare].
  replace (Hi32 R - (Hi32 R + 0)) with 0 by lia.
  reflexivity.
Qed.

(** The operand whose scale is lower is the one scaled up, whichever is
    passed first. *)
Lemma DecimalAdd_unequal_scales rounds L R res0 :
  operand L -> operand R -> scale L < scale R ->
  DecimalAddSub rounds L R res0 0 = DecimalAddSub rounds R L res0 0.
Proof.
  intros HL HR Hlt.
  pose proof HL as (_ & _ & HsL & HgL). pose proof HR as (_ & _ & HsR & HgR).
  unfold DEC_SCALE_MAX in *.
  unfold DecimalAddSub. cbv zeta.
  replace (scale R =? scale L) with false by lia.
  replace (scale L =? scale R) with false by lia.
  unfold set_scale, set_sign. cbn [wReserved scale sign Hi32 Lo64].
  rewrite !(u8_small (scale R)), !(u8_small (scale L)) by (unfold two8; lia).
  replace (scale R - scale L <? 0) with false by lia.
  replace (scale L - scale R <? 0) with true by lia.
  replace (- (scale L - scale R)) with (scale R - scale L) by lia.
  rewrite (Z.lxor_comm (sign L) (sign R)).
  replace (u8 (Z.lxor (u8 (sign R))
                 (Z.lxor 0 (Z.land (Z.lxor (sign R) (sign L)) DECIMAL_NEG))))
    with (u8 (sign L));
    [reflexivity|].
  destruct HgL as [-> | ->]; destruct HgR as [-> | ->]; reflexivity.
Qed.

Lemma set_signscale_operand res0 L :
  operand L ->
  set_signscale res0 (signscale L)
  = mkDECIMAL (wReserved res0) (scale L) (sign L) (Hi32 res0) (Lo64 res0).
Proof.
  intros HL. destruct (signscale_operand L HL) as [E1 E2].
  unfold set_signscale. rewrite E1, E2. reflexivity.
Qed.

Lemma DecimalAdd_equal_scales rounds L R res0 :
  operand L -> operand R -> scale L = scale R ->
  (sign L = sign R \/ mantissa L <> mantissa R ->
   DecimalAddSub rounds L R res0 0 = DecimalAddSub rounds R L res0 0)
  /\ (sign L <> sign R -> mantissa L = mantissa R ->
      DecimalAddSub rounds L R res0 0
      = Some (NOERROR, mkDECIMAL (wReserved res0) (scale L) (sign L) 0 0)
      /\ DecimalAddSub rounds R L res0 0
         = Some (NOERROR, mkDECIMAL (wReserved res0) (scale L) (sign R) 0 0)).
Proof.
  intros HL HR Hs.
  pose proof HL as (HLh & HLl & _ & HgL). pose proof HR as (HRh & HRl & _ & HgR).
  unfold DecimalAddSub. cbv zeta.
  rewrite Hs, Z.eqb_refl.
  rewrite (set_signscale_operand res0 L HL), (set_signscale_operand res0 R HR).
  rewrite Hs.
  destruct (Z.eq_dec (sign L) (sign R)) as [Hg | Hg].
  - split; [|intros; contradiction].
    intros _. rewrite Hg, Z.lxor_nilpotent.
    change (Z.lxor 0 (Z.land 0 DECIMAL_NEG)) with 0.
    rewrite AlignedAdd_add_comm. reflexivity.
  - assert (Eb : Z.lxor 0 (Z.land (Z.lxor (sign R) (sign L)) DECIMAL_NEG) = DECIMAL_NEG).
    { destruct HgL as [E1 | E1]; destruct HgR as [E2 | E2]; rewrite E1, E2 in *;
        try reflexivity; contradiction. }
    rewrite (Z.lxor_comm (sign L) (sign R)), Eb.
    assert (EL : sign L = u8 (Z.lxor (sign R) DECIMAL_NEG)).
    { destruct HgL as [E1 | E1]; destruct HgR as [E2 | E2]; rewrite E1, E2 in *;
        try reflexivity; contradiction. }
    assert (ER : sign R = u8 (Z.lxor (sign L) DECIMAL_NEG)).
    { destruct HgL as [E1 | E1]; destruct HgR as [E2 | E2]; rewrite E1, E2 in *;
        try reflexivity; contradiction. }
    split.
    + intros [? | Hm]; [contradiction|]. f_equal.
      destruct (Z_lt_ge_dec (mantissa R) (mantissa L)) as [Hlt | Hge].
      * apply AlignedAdd_sub_gt; auto.
      * symmetry. apply AlignedAdd_sub_gt; auto. lia.
    + intros _ Hm. split.
      * rewrite (AlignedAdd_sub_eq L R) by auto. reflexivity.
      * rewrite (AlignedAdd_sub_eq R L) by auto. reflexivity.
Qed.

(** C8 fails as stated: 5 + (-5) and (-5) + 5 both succeed with mantissa
    zero, but the first result has the sign bit clear and the second has
    it set. *)
Lemma DecimalAdd_commutes_counterexample :
  operand (decimal_of 0 5 0) /\ operand (decimal_of 128 5 0)
  /\ exists r1 r2,
       (forall rounds,
           DecimalAddSub rounds (decimal_of 0 5 0) (decimal_of 128 5 0) DECIMAL_SETZERO 0
           = Some (NOERROR, r1))
       /\ (forall rounds,
              DecimalAddSub rounds (decimal_of 128 5 0) (decimal_of 0 5 0) DECIMAL_SETZERO 0
              = Some (NOERROR, r2))
       /\ sign r1 <> sign r2.
Proof.
  split; [cbv; intuition discriminate|].
  split; [cbv; intuition discriminate|].
  exists (mkDECIMAL 0 0 0 0 0), (mkDECIMAL 0 0 128 0 0).
  split; [intros rounds; reflexivity|].
  split; [intros rounds; reflexivity|]. discriminate.
Qed.

(** C8, amended: for operands L and R (scale at most 28, sign byte 0 or
    0x80), DecimalAddSub with bSign = 0 has the same outcome for (L, R) and
    (R, L) - the same error, or the same stored mantissa, scale and sign -
    except when the scales are equal, the signs differ and the mantissas
    are equal: then both orders succeed with mantissa zero at the common
    scale, each with the sign of its own first operand. *)
Theorem DecimalAdd_commutes rounds L R res0 :
  operand L -> operand R ->
  (~ (scale L = scale R /\ sign L <> sign R /\ mantissa L = mantissa R) ->
   DecimalAddSub rounds L R res0 0 = DecimalAddSub rounds R L res0 0)
  /\ (scale L = scale R -> sign L <> sign R -> mantissa L = mantissa R ->
      DecimalAddSub rounds L R res0 0
      = Some (NOERROR, mkDECIMAL (wReserved res0) (scale L) (sign L) 0 0)
      /\ DecimalAddSub rounds R L res0 0
         = Some (NOERROR, mkDECIMAL (wReserved res0) (scale L) (sign R) 0 0)).
Proof.
  intros HL HR. split.
  - intros Hn.
    destruct (Z_lt_ge_dec (scale L) (scale R)) as [Hlt | Hge].
    + apply DecimalAdd_unequal_scales; assumption.
    + destruct (Z.eq_dec (scale L) (scale R)) as [Hs | Hne].
      * apply (DecimalAdd_equal_scales rounds L R res0 HL HR Hs).
        destruct (Z.eq_dec (sign L) (sign R)); [left; assumption | right].
        intros Hm. apply Hn. auto.
      * symmetry. apply DecimalAdd_unequal_scales; [assumption | assumption | lia].
  - intros Hs Hg Hm. apply (DecimalAdd_equal_scales rounds L R res0 HL HR Hs); assumption.
Qed.

Lemma DecimalAdd_commutes_witness :
  operand (decimal_of 0 10 1) /\ operand (decimal_of 128 200 2)
  /\ ~ (scale (decimal_of 0 10 1) = scale (decimal_of 128 200 2)
        /\ sign (decimal_of 0 10 1) <> sign (decimal_of 128 200 2)
        /\ mantissa (decimal_of 0 10 1) = mantissa (decimal_of 128 200 2))
  /\ DecimalAddSub 64%nat (decimal_of 0 10 1) (decimal_of 128 200 2) DECIMAL_SETZERO 0
     = DecimalAddSub 64%nat (decimal_of 128 200 2) (decimal_of 0 10 1) DECIMAL_SETZERO 0.
Proof.
  assert (H1 : operand (decimal_of 0 10 1)) by (cbv; intuition discriminate).
  assert (H2 : operand (decimal_of 128 200 2)) by (cbv; intuition discriminate).
  assert (H3 : ~ (scale (decimal_of 0 10 1) = scale (decimal_of 128 200 2)
                  /\ sign (decimal_of 0 10 1) <> sign (decimal_of 128 200 2)
                  /\ mantissa (decimal_of 0 10 1) = mantissa (decimal_of 128 200 2)))
    by (intros (E & _); discriminate E).
  refine (conj H1 (conj H2 (conj H3 _))).
  exact (proj1 (DecimalAdd_commutes 64%nat _ _ DECIMAL_SETZERO H1 H2) H3).
Defined.

(** ** C2: the rounding at the end of ScaleResult *)

Lemma low_bit_odd w0 : Z.land (u32 w0) 1 = 0 <-> Z.odd w0 = false.
Proof.
  change 1 with (Z.ones 1). rewrite Z.land_ones by lia.
  unfold u32, two32. change (2 ^ 1) with 2.
  rewrite Zodd_mod. 
  assert (E : (w0 mod 4294967296) mod 2 = w0 mod 2).
  { apply Z.mod_mod_divide. exists 2147483648; reflexivity. }
  rewrite E. pose proof (Z.mod_pos_bound w0 2 ltac:(lia)).
  destruct (Z.eqb_spec (w0 mod 2) 1); split; intros; try lia; try discriminate;
    try reflexivity.
Qed.


Lemma get_0 a l : get (a :: l) 0 = a.
Proof. reflexivity. Qed.

Lemma get_1 a b l : get (a :: b :: l) 1 = b.
Proof. reflexivity. Qed.

Lemma set_0 a l x : set (a :: l) 0 x = x :: l.
Proof. reflexivity. Qed.

Lemma set_1 a b l x : set (a :: b :: l) 1 x = a :: x :: l.
Proof. reflexivity. Qed.







(** * The bound on the loops does not show in the results *)

Lemma le_result_refl {A : Type} (o : option A) : le_result o o.
Proof. intros x H; exact H. Qed.

Lemma le_result_iterate {S R : Type} (b1 b2 : S -> option (step S R)) n m s :
  (n <= m)%nat ->
  (forall s, le_result (b1 s) (b2 s)) ->
  le_result (iterate n b1 s) (iterate m b2 s).
Proof.
  intros Hle Hb; revert m s Hle.
  induction n as [|n IH]; intros m s Hle r H; simpl in H.
  - discriminate.
  - destruct m as [|m]; [lia|]. simpl.
    destruct (b1 s) as [[s'|r']|] eqn:E; try discriminate;
      rewrite (Hb _ _ E).
    + apply (IH m s'); [lia | assumption].
    + assumption.
Qed.

Lemma le_result_bind {A B : Type} (m1 m2 : option A) (k1 k2 : A -> option B) :
  le_result m1 m2 ->
  (forall a, le_result (k1 a) (k2 a)) ->
  le_result (bind m1 k1) (bind m2 k2).
Proof.
  intros Hm Hk b H. destruct m1 as [a|]; [|discriminate].
  rewrite (Hm a eq_refl). simpl in *. apply Hk; assumption.
Qed.

Create HintDb stable_db.

(** Both sides have the shape of the routine and differ in the bound only:
    the goal is taken apart along that shape. *)
Ltac mono :=
  repeat first
    [ match goal with
      | |- le_result ?a ?b => constr_eq a b; apply le_result_refl
      | |- le_result (bind _ _) (bind _ _) =>
          apply le_result_bind; [| intros ?]
      | |- le_result (iterate _ _ _) (iterate _ _ _) =>
          apply le_result_iterate; [lia | intros ?]
      | |- le_result (if ?c then _ else _) _ => destruct c
      | |- le_result (match ?e with pair _ _ => _ end) _ => destruct e
      | |- le_result (match ?e with Some _ => _ | None => _ end) _ => destruct e
      | |- le_result (match ?e with NOERROR => _ | _ => _ end) _ => destruct e
      end
    | solve [auto with stable_db]
    | progress cbv beta ].

Lemma ScaleResult_stable rgullRes iHiRes iScale :
  stable (fun n => ScaleResult n rgullRes iHiRes iScale).
Proof. intros n m Hle; unfold ScaleResult; cbv zeta; mono. Qed.
#[global] Hint Extern 1 (le_result (ScaleResult _ _ _ _) _) =>
  (apply ScaleResult_stable; lia) : stable_db.

Lemma DecimalMul_stable L R res0 :
  stable (fun n => DecimalMul n L R res0).
Proof. intros n m Hle; unfold DecimalMul; cbv zeta; mono. Qed.
#[global] Hint Extern 1 (le_result (DecimalMul _ _ _ _) _) =>
  (apply DecimalMul_stable; lia) : stable_db.

Lemma Unaligned_stable rgullNum iHiProd R res0 bSign :
  stable (fun n => AddSub.Unaligned n rgullNum iHiProd R res0 bSign).
Proof. intros n m Hle; unfold AddSub.Unaligned; cbv zeta; mono. Qed.
#[global] Hint Extern 1 (le_result (AddSub.Unaligned _ _ _ _ _ _) _) =>
  (apply Unaligned_stable; lia) : stable_db.

Lemma ScaleUp_stable iScale L R res0 bSign :
  stable (fun n => AddSub.ScaleUp n iScale L R res0 bSign).
Proof. intros n m Hle; unfold AddSub.ScaleUp; cbv zeta; mono. Qed.
#[global] Hint Extern 1 (le_result (AddSub.ScaleUp _ _ _ _ _ _) _) =>
  (apply ScaleUp_stable; lia) : stable_db.

Lemma DecimalAddSub_stable L R res0 bSign :
  stable (fun n => DecimalAddSub n L R res0 bSign).
Proof. intros n m Hle; unfold DecimalAddSub; cbv zeta; mono. Qed.
#[global] Hint Extern 1 (le_result (DecimalAddSub _ _ _ _ _) _) =>
  (apply DecimalAddSub_stable; lia) : stable_db.

Lemma Div128By96_x64_stable rgulNum o rgulDen :
  stable (fun n => Div128By96_x64 n rgulNum o rgulDen).
Proof. intros n m Hle; unfold Div128By96_x64; cbv zeta; mono. Qed.
#[global] Hint Extern 1 (le_result (Div128By96_x64 _ _ _ _) _) =>
  (apply Div128By96_x64_stable; lia) : stable_db.

Lemma Div160By96_x64_stable rgulNum rgulDen :
  stable (fun n => Div160By96_x64 n rgulNum rgulDen).
Proof. intros n m Hle; unfold Div160By96_x64; cbv zeta; mono. Qed.
#[global] Hint Extern 1 (le_result (Div160By96_x64 _ _ _) _) =>
  (apply Div160By96_x64_stable; lia) : stable_db.

Lemma NegRem_stable w ullDen quo sdlNum :
  stable (fun n => NegRem n w ullDen quo sdlNum).
Proof. intros n m Hle; unfold NegRem; cbv zeta; mono. Qed.
#[global] Hint Extern 1 (le_result (NegRem _ _ _ _ _) _) =>
  (apply NegRem_stable; lia) : stable_db.

Lemma Div96By64_x64_stable rgulNum ullDen :
  stable (fun n => Div96By64_x64 n rgulNum ullDen).
Proof. intros n m Hle; unfold Div96By64_x64; cbv zeta; mono. Qed.
#[global] Hint Extern 1 (le_result (Div96By64_x64 _ _ _) _) =>
  (apply Div96By64_x64_stable; lia) : stable_db.

Lemma Div128By64_x64_stable rgulNum ullDen :
  stable (fun n => Div128By64_x64 n rgulNum ullDen).
Proof. intros n m Hle; unfold Div128By64_x64; cbv zeta; mono. Qed.
#[global] Hint Extern 1 (le_result (Div128By64_x64 _ _ _) _) =>
  (apply Div128By64_x64_stable; lia) : stable_db.

Lemma HaveScale64_stable ullDivisor st iCurScale :
  stable (fun n => Div.HaveScale64 n ullDivisor st iCurScale).
Proof. intros n m Hle; unfold Div.HaveScale64; cbv zeta; mono. Qed.
#[global] Hint Extern 1 (le_result (Div.HaveScale64 _ _ _ _) _) =>
  (apply HaveScale64_stable; lia) : stable_db.

Lemma body64_stable ullDivisor st :
  stable (fun n => Div.body64 n ullDivisor st).
Proof. intros n m Hle; unfold Div.body64; cbv zeta; mono. Qed.
#[global] Hint Extern 1 (le_result (Div.body64 _ _ _) _) =>
  (apply body64_stable; lia) : stable_db.

Lemma HaveScale96_stable rgulDivisor st iCurScale :
  stable (fun n => Div.HaveScale96 n rgulDivisor st iCurScale).
Proof. intros n m Hle; unfold Div.HaveScale96; cbv zeta; mono. Qed.
#[global] Hint Extern 1 (le_result (Div.HaveScale96 _ _ _ _) _) =>
  (apply HaveScale96_stable; lia) : stable_db.

Lemma body96_stable rgulDivisor st :
  stable (fun n => Div.body96 n rgulDivisor st).
Proof. intros n m Hle; unfold Div.body96; cbv zeta; mono. Qed.
#[global] Hint Extern 1 (le_result (Div.body96 _ _ _) _) =>
  (apply body96_stable; lia) : stable_db.

Lemma unscale8_stable rgulQuo iScale :
  stable (fun n => Div.unscale8 n rgulQuo iScale).
Proof. intros n m Hle; unfold Div.unscale8; cbv zeta; mono. Qed.
#[global] Hint Extern 1 (le_result (Div.unscale8 _ _ _) _) =>
  (apply unscale8_stable; lia) : stable_db.

Lemma unscale_stable rgulQuo iScale :
  stable (fun n => Div.unscale n rgulQuo iScale).
Proof. intros n m Hle; unfold Div.unscale; cbv zeta; mono. Qed.
#[global] Hint Extern 1 (le_result (Div.unscale _ _ _) _) =>
  (apply unscale_stable; lia) : stable_db.

Lemma finish_stable L R res0 r :
  stable (fun n => Div.finish n L R res0 r).
Proof. intros n m Hle; unfold Div.finish; cbv zeta; mono. Qed.
#[global] Hint Extern 1 (le_result (Div.finish _ _ _ _ _) _) =>
  (apply finish_stable; lia) : stable_db.

Lemma DecimalDiv_stable L R res0 :
  stable (fun n => DecimalDiv n L R res0).
Proof. intros n m Hle; unfold DecimalDiv; cbv zeta; mono. Qed.
#[global] Hint Extern 1 (le_result (DecimalDiv _ _ _ _) _) =>
  (apply DecimalDiv_stable; lia) : stable_db.

Lemma DoMultiply_stable d1 d2 res0 :
  stable (fun n => DoMultiply n d1 d2 res0).
Proof. intros n m Hle; unfold DoMultiply; cbv zeta; mono. Qed.
#[global] Hint Extern 1 (le_result (DoMultiply _ _ _ _) _) =>
  (apply DoMultiply_stable; lia) : stable_db.

Lemma DoAddSub_stable L R res0 bSign :
  stable (fun n => DoAddSub n L R res0 bSign).
Proof. intros n m Hle; unfold DoAddSub; cbv zeta; mono. Qed.
#[global] Hint Extern 1 (le_result (DoAddSub _ _ _ _ _) _) =>
  (apply DoAddSub_stable; lia) : stable_db.

Lemma DoDivide_stable L R res0 :
  stable (fun n => DoDivide n L R res0).
Proof. intros n m Hle; unfold DoDivide; cbv zeta; mono. Qed.
#[global] Hint Extern 1 (le_result (DoDivide _ _ _ _) _) =>
  (apply DoDivide_stable; lia) : stable_db.

(** * The counted loops are run to their end *)

(** The digit loop of NumberToDecimal stops by itself within [e + 28]
    rounds: more rounds change nothing. *)
Lemma absorb_enough number n1 n2 d p e :
  (Z.to_nat (e + 28) <= n1)%nat -> (Z.to_nat (e + 28) <= n2)%nat ->
  Parse.absorb n1 number d p e = Parse.absorb n2 number d p e.
Proof.
  revert n2 d p e; induction n1 as [|n1 IH]; intros n2 d p e H1 H2.
  - assert (He : e <= -28) by lia.
    destruct n2 as [|n2]; [reflexivity|]. cbn [Parse.absorb].
    replace (e >? 0) with false by lia. replace (e >? -28) with false by lia.
    rewrite andb_false_r. reflexivity.
  - destruct n2 as [|n2].
    + assert (He : e <= -28) by lia. cbn [Parse.absorb].
      replace (e >? 0) with false by lia. replace (e >? -28) with false by lia.
      rewrite andb_false_r. reflexivity.
    + cbn [Parse.absorb].
      destruct (((e >? 0) || (negb (Parse.deref number p =? 0) && (e >? -28)))
                && Parse.can_absorb d (Parse.deref number p)) eqn:E; [|reflexivity].
      assert (He : -28 < e).
      { apply andb_prop in E; destruct E as [E _].
        apply orb_prop in E; destruct E as [E | E].
        - lia.
        - apply andb_prop in E; destruct E as [_ E]. lia. }
      destruct (negb (Parse.deref number p =? 0)); apply IH; lia.
Qed.

(** The scaling loop of DecimalAddSub lowers [iScale] by 19 each round and
    stops at zero: [iScale] rounds are more than it takes. *)
Lemma scale_loop_enough n1 n2 rgullNum iHiProd iScale :
  (Z.to_nat iScale <= n1)%nat -> (Z.to_nat iScale <= n2)%nat ->
  AddSub.scale_loop n1 rgullNum iHiProd iScale
  = AddSub.scale_loop n2 rgullNum iHiProd iScale.
Proof.
  revert n2 rgullNum iHiProd iScale; induction n1 as [|n1 IH];
    intros n2 rgullNum iHiProd iScale H1 H2.
  - assert (He : iScale <= 0) by lia.
    destruct n2 as [|n2]; [reflexivity|]. cbn [AddSub.scale_loop].
    replace (iScale >? 0) with false by lia. reflexivity.
  - destruct n2 as [|n2].
    + assert (He : iScale <= 0) by lia. cbn [AddSub.scale_loop].
      replace (iScale >? 0) with false by lia. reflexivity.
    + cbn [AddSub.scale_loop].
      destruct (iScale >? 0) eqn:E; [|reflexivity].
      destruct (Mul64By64 _ _) as [x mul_carry].
      destruct (AddSub.scale_words _ _ _ _ _ _) as [[w mc] ac].
      unfold POWER10_MAX64.
      destruct (negb (Z.lor mc ac =? 0)); apply IH; lia.
Qed.

(** * Arithmetic on the word arrays *)

Lemma get_2 a b c l : get (a :: b :: c :: l) 2 = c.
Proof. reflexivity. Qed.

Lemma get_3 a b c d l : get (a :: b :: c :: d :: l) 3 = d.
Proof. reflexivity. Qed.

Lemma set_2 a b c l x : set (a :: b :: c :: l) 2 x = a :: b :: x :: l.
Proof. reflexivity. Qed.

Lemma get64_0 a b l : get64 (a :: b :: l) 0 = a + two32 * b.
Proof. reflexivity. Qed.

Lemma set64_0 a b l x : set64 (a :: b :: l) 0 x = low32 x :: hi32 x :: l.
Proof. reflexivity. Qed.

Lemma value96_cons a b c l : value96 (a :: b :: c :: l) = a + two32 * b + two64 * c.
Proof. reflexivity. Qed.

Ltac list_norm :=
  repeat first
    [ rewrite get_0 | rewrite get_1 | rewrite get_2 | rewrite get_3
    | rewrite set_0 | rewrite set_1 | rewrite set_2
    | rewrite get64_0 | rewrite set64_0 | rewrite value96_cons ].

Lemma div_mod_intro a d q r :
  a = d * q + r -> 0 <= r < d -> a / d = q /\ a mod d = r.
Proof.
  intros E Hr. split.
  - symmetry. apply (Z.div_unique a d q r); [left; exact Hr | exact E].
  - symmetry. apply (Z.mod_unique a d q r); [left; exact Hr | exact E].
Qed.

(** The [div] instruction when the upper half is below the divisor: the
    quotient fits its 32 bits. *)
Lemma DivMod64By32_spec lo hi d :
  0 <= hi < d -> 0 <= lo < two32 ->
  exists q r, DivMod64By32 lo hi d = (q, r)
    /\ hi * two32 + lo = d * q + r /\ 0 <= r < d /\ 0 <= q < two32.
Proof.
  intros Hh Hl. unfold DivMod64By32. cbv zeta.
  set (n := hi * two32 + lo).
  assert (Hn : 0 <= n < d * two32) by (unfold n, two32 in *; nia).
  assert (Hq : 0 <= n / d < two32).
  { split; [apply Z.div_pos; lia | apply Z.div_lt_upper_bound; lia]. }
  exists (n / d), (n mod d).
  rewrite (u32_small _ Hq).
  split; [reflexivity|].
  pose proof (Z.div_mod n d ltac:(lia)).
  pose proof (Z.mod_pos_bound n d ltac:(lia)).
  repeat split; lia.
Qed.

Lemma Div96By32_x64_spec w0 w1 w2 tl d :
  0 <= w0 < two32 -> 0 <= w1 < two32 -> 0 <= w2 < two32 -> 0 < d < two32 ->
  exists q0 q1 q2,
    Div96By32_x64 (w0 :: w1 :: w2 :: tl) d
    = ((w0 + two32 * w1 + two64 * w2) mod d, q0 :: q1 :: q2 :: tl)
    /\ (0 <= q0 < two32) /\ (0 <= q1 < two32) /\ (0 <= q2 < two32)
    /\ q0 + two32 * q1 + two64 * q2 = (w0 + two32 * w1 + two64 * w2) / d.
Proof.
  intros H0 H1 H2 Hd.
  assert (Hfin : forall q0 q1 q2 r,
             w0 + two32 * w1 + two64 * w2 = d * (q0 + two32 * q1 + two64 * q2) + r ->
             0 <= r < d ->
             (r, q0 :: q1 :: q2 :: tl)
             = ((w0 + two32 * w1 + two64 * w2) mod d, q0 :: q1 :: q2 :: tl)
               /\ q0 + two32 * q1 + two64 * q2 = (w0 + two32 * w1 + two64 * w2) / d).
  { intros q0 q1 q2 r E Hr.
    destruct (div_mod_intro _ _ _ _ E Hr) as [Eq Em]. rewrite Eq, Em. split; reflexivity. }
  unfold Div96By32_x64. cbv zeta. list_norm.
  unfold DivMod64By32InPlace, DivMod32By32.
  destruct (w2 >=? d) eqn:E2.
  - (* Div3Word *)
    assert (Hq2 : 0 <= w2 / d < two32).
    { split; [apply Z.div_pos; lia | apply Z.div_lt_upper_bound; nia]. }
    pose proof (Z.div_mod w2 d ltac:(lia)) as D2.
    pose proof (Z.mod_pos_bound w2 d ltac:(lia)) as B2.
    list_norm.
    destruct (DivMod64By32_spec w1 (w2 mod d) d B2 H1) as (q1 & r1 & E1 & D1 & B1 & Hq1).
    rewrite E1. list_norm.
    destruct (DivMod64By32_spec w0 r1 d B1 H0) as (q0 & r0 & E0 & D0 & B0 & Hq0).
    rewrite E0. list_norm.
    exists q0, q1, (w2 / d).
    destruct (Hfin q0 q1 (w2 / d) r0) as [Ea Eb]; [unfold two32, two64 in *; nia | exact B0 |].
    rewrite Ea. repeat split; lia.
  - list_norm.
    destruct (negb (w2 =? 0) || (w1 >=? d)) eqn:E1'.
    + (* Div2Word *)
      assert (B2 : 0 <= w2 < d) by lia.
      destruct (DivMod64By32_spec w1 w2 d B2 H1) as (q1 & r1 & E1 & D1 & B1 & Hq1).
      rewrite E1. list_norm.
      destruct (DivMod64By32_spec w0 r1 d B1 H0) as (q0 & r0 & E0 & D0 & B0 & Hq0).
      rewrite E0. list_norm.
      exists q0, q1, 0.
      destruct (Hfin q0 q1 0 r0) as [Ea Eb]; [unfold two32, two64 in *; nia | exact B0 |].
      rewrite Ea. repeat split; lia.
    + (* Div1Word *)
      apply orb_false_elim in E1'. destruct E1' as [Ez E1'].
      assert (Hz : w2 = 0) by (destruct (w2 =? 0) eqn:Z; [lia | discriminate]).
      assert (B1 : 0 <= w1 < d) by lia.
      list_norm.
      destruct (DivMod64By32_spec w0 w1 d B1 H0) as (q0 & r0 & E0 & D0 & B0 & Hq0).
      rewrite E0. list_norm.
      exists q0, 0, 0.
      destruct (Hfin q0 0 0 r0) as [Ea Eb]; [unfold two32, two64 in *; nia | exact B0 |].
      rewrite Ea. repeat split; lia.
Qed.

Lemma split64 x :
  0 <= x < two64 ->
  0 <= low32 x < two32 /\ 0 <= hi32 x < two32 /\ low32 x + two32 * hi32 x = x.
Proof.
  intros Hx. unfold low32, hi32, two32, two64 in *.
  rewrite (Z.mod_small (x / 4294967296)).
  - pose proof (Z.div_mod x 4294967296 ltac:(lia)).
    pose proof (Z.mod_pos_bound x 4294967296 ltac:(lia)). lia.
  - split; [apply Z.div_pos; lia | apply Z.div_lt_upper_bound; lia].
Qed.

Lemma IncreaseScale96By32_spec w0 w1 w2 tl p :
  0 <= w0 < two32 -> 0 <= w1 < two32 -> 0 <= w2 < two32 -> 0 <= p < two32 ->
  exists ovf q0 q1 q2,
    IncreaseScale96By32 (w0 :: w1 :: w2 :: tl) p = (ovf, q0 :: q1 :: q2 :: tl)
    /\ (0 <= q0 < two32) /\ (0 <= q1 < two32) /\ (0 <= q2 < two32)
    /\ 0 <= ovf < two32
    /\ q0 + two32 * q1 + two64 * q2 + two96 * ovf
       = (w0 + two32 * w1 + two64 * w2) * p.
Proof.
  intros H0 H1 H2 Hp.
  unfold IncreaseScale96By32, Mul64By32, Mul32By32. cbv zeta. list_norm.
  set (P := (w0 + two32 * w1) * p).
  set (T := w2 * p).
  assert (HP : 0 <= P < two96) by (unfold P, two32, two96 in *; nia).
  assert (HT : 0 <= T <= 18446744065119617025) by (unfold T, two32 in *; nia).
  assert (Hhi : 0 <= P / two64 < two32).
  { unfold two64, two32, two96 in *.
    split; [apply Z.div_pos; lia | apply Z.div_lt_upper_bound; lia]. }
  rewrite (u32_small _ Hhi).
  assert (Hs : 0 <= T + P / two64 < two64) by (unfold two64, two32 in *; lia).
  rewrite (u64_small _ Hs).
  destruct (split64 (u64 P) (u64_range P)) as (A0 & A1 & A2).
  destruct (split64 _ Hs) as (C0 & C1 & C2).
  exists (hi32 (T + P / two64)), (low32 (u64 P)), (hi32 (u64 P)), (low32 (T + P / two64)).
  split; [reflexivity|].
  repeat split; try lia.
  replace ((w0 + two32 * w1 + two64 * w2) * p) with (P + two64 * T)
    by (unfold P, T; ring).
  assert (EP : P = two64 * (P / two64) + u64 P)
    by (unfold u64, two64; apply Z.div_mod; lia).
  unfold two32, two64, two96 in *. lia.
Qed.

Lemma IncreaseScale96By64_spec w0 w1 w2 tl p :
  0 <= w0 < two32 -> 0 <= w1 < two32 -> 0 <= w2 < two32 -> 0 <= p < two64 ->
  exists ovf q0 q1 q2,
    IncreaseScale96By64 (w0 :: w1 :: w2 :: tl) p = (ovf, q0 :: q1 :: q2 :: tl)
    /\ (0 <= q0 < two32) /\ (0 <= q1 < two32) /\ (0 <= q2 < two32)
    /\ 0 <= ovf < two64
    /\ q0 + two32 * q1 + two64 * q2 + two96 * ovf
       = (w0 + two32 * w1 + two64 * w2) * p.
Proof.
  intros H0 H1 H2 Hp.
  unfold IncreaseScale96By64, Mul64By64, AddCarry64. cbv zeta. list_norm.
  set (P := (w0 + two32 * w1) * p).
  set (T := w2 * p).
  assert (HP : 0 <= P < two64 * two64) by (unfold P, two32, two64 in *; nia).
  assert (HT : 0 <= T < two32 * two64) by (unfold T, two32, two64 in *; nia).
  assert (Hhi : 0 <= P / two64 < two64).
  { split; [apply Z.div_pos; unfold two64 in *; lia
           | apply Z.div_lt_upper_bound; unfold two64 in *; lia]. }
  assert (Hov : 0 <= T / two64 < two32).
  { split; [apply Z.div_pos; unfold two64 in *; lia
           | apply Z.div_lt_upper_bound; unfold two64, two32 in *; lia]. }
  rewrite (u64_small _ Hhi).
  rewrite (u64_small (T / two64)) by (unfold two32, two64 in *; lia).
  replace (0 + u64 T + P / two64) with (u64 T + P / two64) by lia.
  set (s := u64 T + P / two64).
  pose proof (u64_range T) as HuT.
  assert (Hs : 0 <= s < 2 * two64) by (unfold s; lia).
  assert (Hc : 0 <= s / two64 <= 1).
  { split; [apply Z.div_pos; unfold two64 in *; lia|].
    assert (s / two64 < 2); [|lia].
    apply Z.div_lt_upper_bound; unfold two64 in *; lia. }
  replace (s / two64 + T / two64 + 0) with (s / two64 + T / two64) by lia.
  assert (Ho : 0 <= s / two64 + T / two64 < two32).
  { split; [lia|].
    (* T + P / two64 < two32 * two64 *)
    assert (ET : T = two64 * (T / two64) + u64 T)
      by (unfold u64, two64; apply Z.div_mod; lia).
    assert (Es : s = two64 * (s / two64) + u64 s)
      by (unfold u64, two64; apply Z.div_mod; lia).
    pose proof (u64_range s).
    assert (T + P / two64 < two32 * two64).
    { unfold T, P, two32, two64 in *.
      assert ((w0 + 4294967296 * w1) * p / 18446744073709551616 <= p).
      { apply Z.div_le_upper_bound; nia. }
      nia. }
    unfold s in Es at 1. unfold two32, two64 in *. lia. }
  rewrite (u64_small (s / two64 + T / two64)) by (unfold two32, two64 in *; lia).
  rewrite (u32_small _ Ho).
  rewrite Z.shiftl_mul_pow2 by lia. change (2 ^ 32) with two32.
  destruct (split64 (u64 P) (u64_range P)) as (A0 & A1 & A2).
  destruct (split64 (u64 s) (u64_range s)) as (C0 & C1 & C2).
  rewrite (u64_small ((s / two64 + T / two64) * two32))
    by (unfold two32, two64 in *; lia).
  rewrite (u64_small ((s / two64 + T / two64) * two32 + hi32 (u64 s)))
    by (unfold two32, two64 in *; lia).
  exists ((s / two64 + T / two64) * two32 + hi32 (u64 s)),
    (low32 (u64 P)), (hi32 (u64 P)), (low32 (u64 s)).
  split; [reflexivity|].
  repeat split; try lia; try (unfold two32, two64 in *; lia).
  replace ((w0 + two32 * w1 + two64 * w2) * p) with (P + two64 * T)
    by (unfold P, T; ring).
  assert (EP : P = two64 * (P / two64) + u64 P)
    by (unfold u64, two64; apply Z.div_mod; lia).
  assert (ET : T = two64 * (T / two64) + u64 T)
    by (unfold u64, two64; apply Z.div_mod; lia).
  assert (Es : s = two64 * (s / two64) + u64 s)
    by (unfold u64, two64; apply Z.div_mod; lia).
  unfold s in Es at 1.
  unfold two32, two64, two96 in *. lia.
Qed.

Lemma div_small_carry x M :
  0 < M -> 0 <= x < 2 * M -> 0 <= x / M <= 1 /\ x = M * (x / M) + x mod M.
Proof.
  intros HM Hx. split.
  - split; [apply Z.div_pos; lia|].
    assert (x / M < 2); [apply Z.div_lt_upper_bound; lia | lia].
  - apply Z.div_mod; lia.
Qed.

Lemma Add96By32_u32_spec w0 w1 w2 tl v :
  0 <= w0 < two32 -> 0 <= w1 < two32 -> 0 <= w2 < two32 -> 0 <= v < two32 ->
  exists c q0 q1 q2,
    Add96By32_u32 (w0 :: w1 :: w2 :: tl) v = (c, q0 :: q1 :: q2 :: tl)
    /\ (0 <= q0 < two32) /\ (0 <= q1 < two32) /\ (0 <= q2 < two32)
    /\ (c = 0 \/ c = 1)
    /\ q0 + two32 * q1 + two64 * q2 + two96 * c
       = w0 + two32 * w1 + two64 * w2 + v.
Proof.
  intros H0 H1 H2 Hv.
  unfold Add96By32_u32, AddCarry32, u32. cbv zeta. list_norm.
  destruct (div_small_carry (0 + w0 + v) two32) as [Ca Ea]; [reflexivity | lia |].
  set (c0 := (0 + w0 + v) / two32) in *.
  destruct (div_small_carry (c0 + w1 + 0) two32) as [Cb Eb]; [reflexivity | lia |].
  set (c1 := (c0 + w1 + 0) / two32) in *.
  destruct (div_small_carry (c1 + w2 + 0) two32) as [Cc Ec]; [reflexivity | lia |].
  set (c2 := (c1 + w2 + 0) / two32) in *.
  pose proof (Z.mod_pos_bound (0 + w0 + v) two32 ltac:(reflexivity)).
  pose proof (Z.mod_pos_bound (c0 + w1 + 0) two32 ltac:(reflexivity)).
  pose proof (Z.mod_pos_bound (c1 + w2 + 0) two32 ltac:(reflexivity)).
  exists c2, ((0 + w0 + v) mod two32), ((c0 + w1 + 0) mod two32),
    ((c1 + w2 + 0) mod two32).
  split; [reflexivity|].
  repeat split; try lia.
  unfold two32, two64, two96 in *. lia.
Qed.

Lemma Add96By64_u32_spec w0 w1 w2 tl v :
  0 <= w0 < two32 -> 0 <= w1 < two32 -> 0 <= w2 < two32 -> 0 <= v < two64 ->
  exists c q0 q1 q2,
    Add96By64_u32 (w0 :: w1 :: w2 :: tl) v = (c, q0 :: q1 :: q2 :: tl)
    /\ (0 <= q0 < two32) /\ (0 <= q1 < two32) /\ (0 <= q2 < two32)
    /\ (c = 0 \/ c = 1)
    /\ q0 + two32 * q1 + two64 * q2 + two96 * c
       = w0 + two32 * w1 + two64 * w2 + v.
Proof.
  intros H0 H1 H2 Hv.
  unfold Add96By64_u32, AddCarry64, AddCarry32, u32, u64. cbv zeta. list_norm.
  assert (HL : 0 <= w0 + two32 * w1 < two64) by (unfold two32, two64 in *; lia).
  destruct (div_small_carry (0 + (w0 + two32 * w1) + v) two64) as [Ca Ea];
    [reflexivity | lia |].
  set (c0 := (0 + (w0 + two32 * w1) + v) / two64) in *.
  pose proof (Z.mod_pos_bound (0 + (w0 + two32 * w1) + v) two64 ltac:(reflexivity)) as Hx.
  set (x := (0 + (w0 + two32 * w1) + v) mod two64) in *.
  destruct (split64 x Hx) as (A0 & A1 & A2).
  destruct (div_small_carry (c0 + w2 + 0) two32) as [Cc Ec]; [reflexivity | lia |].
  pose proof (Z.mod_pos_bound (c0 + w2 + 0) two32 ltac:(reflexivity)).
  exists ((c0 + w2 + 0) / two32), (low32 x), (hi32 x), ((c0 + w2 + 0) mod two32).
  split; [reflexivity|].
  repeat split; try lia.
  unfold two32, two64, two96 in *. lia.
Qed.

Lemma Add96By64_dec_spec d v :
  0 <= Hi32 d < two32 -> 0 <= Lo64 d < two64 -> 0 <= v < two64 ->
  let '(c, d') := Add96By64_dec d v in
  (c = 0 \/ c = 1)
  /\ mantissa d' + two96 * c = mantissa d + v
  /\ (0 <= Hi32 d' < two32) /\ (0 <= Lo64 d' < two64)
  /\ scale d' = scale d /\ sign d' = sign d /\ wReserved d' = wReserved d.
Proof.
  intros Hh Hl Hv.
  unfold Add96By64_dec, AddCarry64, AddCarry32, low64, DECIMAL_HI32,
    set_hi32_dec, set_low64, mantissa, u32, u64.
  cbv zeta. cbn [Hi32 Lo64 scale sign wReserved].
  rewrite Zmod_mod. rewrite Zmod_mod.
  destruct (div_small_carry (0 + Lo64 d + v) two64) as [Ca Ea]; [reflexivity | lia |].
  set (c0 := (0 + Lo64 d + v) / two64) in *.
  destruct (div_small_carry (c0 + Hi32 d + 0) two32) as [Cc Ec]; [reflexivity | lia |].
  pose proof (Z.mod_pos_bound (0 + Lo64 d + v) two64 ltac:(reflexivity)).
  pose proof (Z.mod_pos_bound (c0 + Hi32 d + 0) two32 ltac:(reflexivity)).
  repeat split; try lia.
  unfold two32, two64, two96 in *. lia.
Qed.

(** * The 96-bit helpers of decimal.cpp *)

Lemma LO32_set_low32 d x : DECIMAL_LO32 (set_low32_dec d x) = u32 x.
Proof.
  unfold DECIMAL_LO32, set_low32_dec, set_low64, set_low32. cbn [Lo64].
  pose proof (u32_range x). pose proof (u32_range (Lo64 d / two32)).
  unfold hi32, low32, u64, u32, two32, two64 in *.
  rewrite (Z.mod_small (_ * _ + _) 18446744073709551616) by lia.
  rewrite Z.add_comm, Z.mod_add by lia. apply Z.mod_small; lia.
Qed.

Lemma MID32_set_low32 d x : DECIMAL_MID32 (set_low32_dec d x) = DECIMAL_MID32 d.
Proof.
  unfold DECIMAL_MID32, set_low32_dec, set_low64, set_low32. cbn [Lo64].
  pose proof (u32_range x). pose proof (u32_range (Lo64 d / two32)).
  unfold hi32, low32, u64, u32, two32, two64 in *.
  rewrite (Z.mod_small (_ * _ + _) 18446744073709551616) by lia.
  rewrite Z.add_comm, Z.div_add by lia.
  rewrite (Z.div_small (x mod 4294967296)) by lia.
  rewrite Z.add_0_l. apply Z.mod_small; lia.
Qed.

Lemma HI32_set_low32 d x : DECIMAL_HI32 (set_low32_dec d x) = DECIMAL_HI32 d.
Proof. reflexivity. Qed.

Lemma LO32_set_mid32 d x : DECIMAL_LO32 (set_mid32_dec d x) = DECIMAL_LO32 d.
Proof.
  unfold DECIMAL_LO32, set_mid32_dec, set_low64, set_hi32. cbn [Lo64].
  pose proof (u32_range x). pose proof (u32_range (Lo64 d)).
  unfold hi32, low32, u64, u32, two32, two64 in *.
  rewrite (Z.mod_small (_ * _ + _) 18446744073709551616) by lia.
  rewrite Z.add_comm, Z.mod_add by lia. apply Z.mod_small; lia.
Qed.

Lemma MID32_set_mid32 d x : DECIMAL_MID32 (set_mid32_dec d x) = u32 x.
Proof.
  unfold DECIMAL_MID32, set_mid32_dec, set_low64, set_hi32. cbn [Lo64].
  pose proof (u32_range x). pose proof (u32_range (Lo64 d)).
  unfold hi32, low32, u64, u32, two32, two64 in *.
  rewrite (Z.mod_small (_ * _ + _) 18446744073709551616) by lia.
  rewrite Z.add_comm, Z.div_add by lia.
  rewrite (Z.div_small (Lo64 d mod 4294967296)) by lia.
  rewrite Z.add_0_l. apply Z.mod_small; lia.
Qed.

Lemma HI32_set_mid32 d x : DECIMAL_HI32 (set_mid32_dec d x) = DECIMAL_HI32 d.
Proof. reflexivity. Qed.

Lemma LO32_set_hi32 d x : DECIMAL_LO32 (set_hi32_dec d x) = DECIMAL_LO32 d.
Proof. reflexivity. Qed.

Lemma MID32_set_hi32 d x : DECIMAL_MID32 (set_hi32_dec d x) = DECIMAL_MID32 d.
Proof. reflexivity. Qed.

Lemma HI32_set_hi32 d x : DECIMAL_HI32 (set_hi32_dec d x) = u32 x.
Proof. reflexivity. Qed.

Create Rewrite HintDb dec_words.
#[global] Hint Rewrite LO32_set_low32 MID32_set_low32 HI32_set_low32
  LO32_set_mid32 MID32_set_mid32 HI32_set_mid32
  LO32_set_hi32 MID32_set_hi32 HI32_set_hi32 : dec_words.

Lemma mantissa_words d :
  0 <= Lo64 d < two64 ->
  mantissa d = DECIMAL_LO32 d + two32 * DECIMAL_MID32 d + two64 * DECIMAL_HI32 d.
Proof.
  intros H. unfold mantissa, DECIMAL_LO32, DECIMAL_MID32, DECIMAL_HI32.
  destruct (split64 _ H) as (_ & _ & E). lia.
Qed.

Lemma words_range d :
  (0 <= DECIMAL_LO32 d < two32) /\ (0 <= DECIMAL_MID32 d < two32).
Proof.
  unfold DECIMAL_LO32, DECIMAL_MID32, low32, hi32.
  split; apply Z.mod_pos_bound; reflexivity.
Qed.

Lemma Lo64_set_low32 d x : 0 <= Lo64 (set_low32_dec d x) < two64.
Proof. unfold set_low32_dec, set_low64; cbn [Lo64]; apply u64_range. Qed.

Lemma Lo64_set_mid32 d x : 0 <= Lo64 (set_mid32_dec d x) < two64.
Proof. unfold set_mid32_dec, set_low64; cbn [Lo64]; apply u64_range. Qed.

Lemma Lo64_set_hi32 d x : Lo64 (set_hi32_dec d x) = Lo64 d.
Proof. reflexivity. Qed.

(** A value assembled from words within their width. *)
Lemma mod96_intro x s0 s1 s2 k :
  0 <= s0 < two32 -> 0 <= s1 < two32 -> 0 <= s2 < two32 ->
  s0 + two32 * s1 + two64 * s2 + two96 * k = x ->
  s0 + two32 * s1 + two64 * s2 = x mod two96.
Proof.
  intros H0 H1 H2 E.
  apply (Z.mod_unique x two96 k); [left; unfold two32, two64, two96 in *; lia | lia].
Qed.

Lemma land_bit31 a :
  0 <= a < two32 ->
  Z.land a 2147483648 = if a <? 2147483648 then 0 else 2147483648.
Proof.
  intros Ha. apply Z.bits_inj'. intros n Hn.
  rewrite Z.land_spec. change 2147483648 with (2 ^ 31) at 1.
  rewrite Z.pow2_bits_eqb by lia.
  destruct (Z.eqb_spec 31 n) as [<- | Hne].
  - rewrite andb_true_r.
    destruct (a <? 2147483648) eqn:E.
    + rewrite Z.bits_0. apply Z.testbit_false; [lia|].
      rewrite Z.div_small by (change (2 ^ 31) with 2147483648; lia). reflexivity.
    + change 2147483648 with (2 ^ 31). rewrite Z.pow2_bits_true by lia.
      apply Z.testbit_true; [lia|].
      assert (a / 2 ^ 31 = 1).
      { symmetry. apply (Z.div_unique a (2 ^ 31) 1 (a - 2 ^ 31));
          change (2 ^ 31) with 2147483648; unfold two32 in *; lia. }
      rewrite H. reflexivity.
  - rewrite andb_false_r.
    destruct (a <? 2147483648); [rewrite Z.bits_0; reflexivity|].
    change 2147483648 with (2 ^ 31). rewrite Z.pow2_bits_false by lia. reflexivity.
Qed.

Lemma lor_even_bit y c : 0 <= y -> (c = 0 \/ c = 1) -> Z.lor (2 * y) c = 2 * y + c.
Proof.
  intros Hy [-> | ->].
  - rewrite Z.lor_0_r. lia.
  - destruct y as [|p|p]; [reflexivity | reflexivity | lia].
Qed.

(** One word shifted left by one, with the bit that comes in from below:
    what the word becomes and the bit it pushes out. *)
Lemma shift_word a c :
  0 <= a < two32 -> (c = 0 \/ c = 1) ->
  let t := if negb (Z.land a 2147483648 =? 0) then 1 else 0 in
  (t = 0 \/ t = 1)
  /\ Z.lor (u32 (Z.shiftl a 1)) c + two32 * t = 2 * a + c
  /\ 0 <= Z.lor (u32 (Z.shiftl a 1)) c < two32.
Proof.
  intros Ha Hc. cbv zeta. rewrite (land_bit31 a Ha).
  rewrite Z.shiftl_mul_pow2 by lia. change (2 ^ 1) with 2.
  unfold u32, two32 in *.
  destruct (a <? 2147483648) eqn:E.
  - change (negb (0 =? 0)) with false. cbv iota.
    rewrite Z.mod_small by lia.
    rewrite (Z.mul_comm a 2), lor_even_bit by lia.
    repeat split; try lia; auto.
  - change (negb (2147483648 =? 0)) with true. cbv iota.
    replace (a * 2) with (2 * (a - 2147483648) + 1 * 4294967296) by lia.
    rewrite Z.mod_add by lia. rewrite Z.mod_small by lia.
    rewrite lor_even_bit by lia.
    repeat split; try lia; auto.
Qed.

Lemma DecShiftLeft_spec d :
  0 <= Hi32 d < two32 -> 0 <= Lo64 d < two64 ->
  mantissa (DecShiftLeft d) = (2 * mantissa d) mod two96
  /\ (0 <= Hi32 (DecShiftLeft d) < two32) /\ (0 <= Lo64 (DecShiftLeft d) < two64)
  /\ scale (DecShiftLeft d) = scale d /\ sign (DecShiftLeft d) = sign d
  /\ wReserved (DecShiftLeft d) = wReserved d.
Proof.
  intros Hh Hl.
  destruct (words_range d) as [Ha Hb].
  assert (Hc : 0 <= DECIMAL_HI32 d < two32) by exact Hh.
  rewrite (mantissa_words d Hl).
  set (e := DecShiftLeft d).
  assert (He : 0 <= Lo64 e < two64).
  { unfold e, DecShiftLeft. cbv zeta. rewrite Lo64_set_hi32. apply Lo64_set_mid32. }
  rewrite (mantissa_words e He).
  assert (E0 : DECIMAL_LO32 e = u32 (Z.shiftl (DECIMAL_LO32 d) 1)).
  { unfold e, DecShiftLeft. cbv zeta. autorewrite with dec_words. reflexivity. }
  assert (E1 : DECIMAL_MID32 e
               = u32 (Z.lor (u32 (Z.shiftl (DECIMAL_MID32 d) 1))
                        (if negb (Z.land (DECIMAL_LO32 d) 2147483648 =? 0) then 1 else 0))).
  { unfold e, DecShiftLeft. cbv zeta. autorewrite with dec_words. reflexivity. }
  assert (E2 : DECIMAL_HI32 e
               = u32 (Z.lor (u32 (Z.shiftl (DECIMAL_HI32 d) 1))
                        (if negb (Z.land (DECIMAL_MID32 d) 2147483648 =? 0) then 1 else 0))).
  { unfold e, DecShiftLeft. cbv zeta. autorewrite with dec_words. reflexivity. }
  destruct (shift_word (DECIMAL_LO32 d) 0 Ha (or_introl eq_refl)) as (T0 & S0 & R0).
  set (t0 := if negb (Z.land (DECIMAL_LO32 d) 2147483648 =? 0) then 1 else 0) in *.
  destruct (shift_word (DECIMAL_MID32 d) t0 Hb T0) as (T1 & S1 & R1).
  set (t1 := if negb (Z.land (DECIMAL_MID32 d) 2147483648 =? 0) then 1 else 0) in *.
  destruct (shift_word (DECIMAL_HI32 d) t1 Hc T1) as (T2 & S2 & R2).
  set (t2 := if negb (Z.land (DECIMAL_HI32 d) 2147483648 =? 0) then 1 else 0) in *.
  rewrite Z.lor_0_r in S0, R0.
  rewrite (u32_small _ R1) in E1. rewrite (u32_small _ R2) in E2.
  split.
  - rewrite E0, E1, E2.
    apply (mod96_intro _ _ _ _ t2); try assumption.
    unfold two32, two64, two96 in *. lia.
  - split; [|split; [exact He | repeat split]].
    change (Hi32 e) with (DECIMAL_HI32 e). rewrite E2. exact R2.
Qed.

Lemma D32AddCarry_spec v i :
  0 <= v < two32 -> 0 <= i < two32 ->
  exists c s, D32AddCarry v i = (c, s)
    /\ (c = 0 \/ c = 1) /\ s + two32 * c = v + i /\ 0 <= s < two32
    /\ negb (c =? 0) = (c =? 1).
Proof.
  intros Hv Hi. unfold D32AddCarry. cbv zeta.
  destruct (Z.lt_ge_cases (v + i) two32) as [Hlt | Hge].
  - rewrite (u32_small (v + i)) by lia.
    replace ((v + i <? v) || (v + i <? i)) with false by lia.
    exists 0, (v + i). repeat split; try lia; auto.
  - assert (E : u32 (v + i) = v + i - two32).
    { unfold u32. symmetry.
      apply (Z.mod_unique (v + i) two32 1); [left; lia | lia]. }
    rewrite E.
    replace ((v + i - two32 <? v) || (v + i - two32 <? i)) with true by lia.
    exists 1, (v + i - two32). repeat split; try lia; auto.
Qed.

Lemma scale_setters d x :
  scale (set_low32_dec d x) = scale d /\ scale (set_mid32_dec d x) = scale d
  /\ scale (set_hi32_dec d x) = scale d.
Proof. repeat split. Qed.

Lemma sign_setters d x :
  sign (set_low32_dec d x) = sign d /\ sign (set_mid32_dec d x) = sign d
  /\ sign (set_hi32_dec d x) = sign d.
Proof. repeat split. Qed.

Lemma wReserved_setters d x :
  wReserved (set_low32_dec d x) = wReserved d
  /\ wReserved (set_mid32_dec d x) = wReserved d
  /\ wReserved (set_hi32_dec d x) = wReserved d.
Proof. repeat split. Qed.

(** What is known of a value on the way through the helpers: its three
    words, with the other fields those of [d]. *)
Lemma dec_intro d e s0 s1 s2 x k :
  DECIMAL_LO32 e = s0 -> DECIMAL_MID32 e = s1 -> DECIMAL_HI32 e = s2 ->
  0 <= Lo64 e < two64 ->
  0 <= s0 < two32 -> 0 <= s1 < two32 -> 0 <= s2 < two32 ->
  s0 + two32 * s1 + two64 * s2 + two96 * k = x ->
  scale e = scale d -> sign e = sign d -> wReserved e = wReserved d ->
  mantissa e = x mod two96
  /\ (0 <= Hi32 e < two32) /\ (0 <= Lo64 e < two64)
  /\ scale e = scale d /\ sign e = sign d /\ wReserved e = wReserved d.
Proof.
  intros E0 E1 E2 Hl R0 R1 R2 E Hs Hg Hw.
  rewrite (mantissa_words e Hl), E0, E1, E2.
  rewrite (mod96_intro x s0 s1 s2 k R0 R1 R2 E).
  repeat split; try assumption; try lia.
  - change (Hi32 e) with (DECIMAL_HI32 e). lia.
  - change (Hi32 e) with (DECIMAL_HI32 e). lia.
Qed.

Ltac words_norm :=
  autorewrite with dec_words; rewrite ?u32_small by assumption.

Ltac add_step :=
  match goal with
  | |- context [D32AddCarry ?v ?i] =>
      lazymatch v with context [D32AddCarry] => fail | _ => idtac end;
      let c := fresh "c" in
      let s := fresh "s" in
      let E := fresh "E" in
      let C := fresh "C" in
      let S := fresh "S" in
      let R := fresh "R" in
      let N := fresh "N" in
      destruct (D32AddCarry_spec v i) as (c & s & E & C & S & R & N);
      [ words_norm; try assumption; unfold two32; lia
      | words_norm; try assumption; unfold two32; lia
      | rewrite E; try change (snd (c, s)) with s; rewrite ?N;
        autorewrite with dec_words in S; rewrite ?u32_small in S by assumption ]
  end.

Ltac dec_done d s0 s1 s2 k :=
  apply (dec_intro d _ s0 s1 s2 _ k);
  [ words_norm; reflexivity | words_norm; reflexivity | words_norm; reflexivity
  | rewrite ?Lo64_set_hi32;
    first [ apply Lo64_set_mid32 | apply Lo64_set_low32 | assumption ]
  | assumption | assumption | assumption
  | unfold two32, two64, two96 in *; lia
  | reflexivity | reflexivity | reflexivity ].

Lemma DecAddInt32_spec d i :
  0 <= Hi32 d < two32 -> 0 <= Lo64 d < two64 -> 0 <= i < two32 ->
  mantissa (DecAddInt32 d i) = (mantissa d + i) mod two96
  /\ (0 <= Hi32 (DecAddInt32 d i) < two32) /\ (0 <= Lo64 (DecAddInt32 d i) < two64)
  /\ scale (DecAddInt32 d i) = scale d /\ sign (DecAddInt32 d i) = sign d
  /\ wReserved (DecAddInt32 d i) = wReserved d.
Proof.
  intros Hh Hl Hi.
  destruct (words_range d) as [Ha Hb].
  assert (Hc : 0 <= DECIMAL_HI32 d < two32) by exact Hh.
  rewrite (mantissa_words d Hl).
  unfold DecAddInt32.
  add_step.
  destruct C as [-> | ->].
  - change (0 =? 1) with false. cbv iota.
    dec_done d s (DECIMAL_MID32 d) (DECIMAL_HI32 d) 0.
  - change (1 =? 1) with true. cbv iota.
    add_step.
    destruct C as [-> | ->].
    + change (0 =? 1) with false. cbv iota.
      dec_done d s s0 (DECIMAL_HI32 d) 0.
    + change (1 =? 1) with true. cbv iota.
      add_step.
      dec_done d s s0 s1 c.
Qed.

Lemma DecAdd_spec a b :
  0 <= Hi32 a < two32 -> 0 <= Lo64 a < two64 ->
  0 <= Hi32 b < two32 -> 0 <= Lo64 b < two64 ->
  mantissa (DecAdd a b) = (mantissa a + mantissa b) mod two96
  /\ (0 <= Hi32 (DecAdd a b) < two32) /\ (0 <= Lo64 (DecAdd a b) < two64)
  /\ scale (DecAdd a b) = scale a /\ sign (DecAdd a b) = sign a
  /\ wReserved (DecAdd a b) = wReserved a.
Proof.
  intros Hh Hl Hh' Hl'.
  destruct (words_range a) as [Ha0 Ha1].
  destruct (words_range b) as [Hb0 Hb1].
  assert (Ha2 : 0 <= DECIMAL_HI32 a < two32) by exact Hh.
  assert (Hb2 : 0 <= DECIMAL_HI32 b < two32) by exact Hh'.
  rewrite (mantissa_words a Hl), (mantissa_words b Hl').
  unfold DecAdd.
  add_step.
  destruct C as [-> | ->].
  - change (0 =? 1) with false. cbv iota.
    add_step.
    destruct C as [-> | ->].
    + change (0 =? 1) with false. cbv iota.
      add_step. dec_done a s s0 s1 c.
    + change (1 =? 1) with true. cbv iota.
      add_step. add_step. dec_done a s s0 s2 (c + c0).
  - change (1 =? 1) with true. cbv iota.
    add_step.
    destruct C as [-> | ->].
    + change (0 =? 1) with false. cbv iota.
      add_step.
      destruct C as [-> | ->].
      * change (0 =? 1) with false. cbv iota.
        add_step. dec_done a s s1 s2 c.
      * change (1 =? 1) with true. cbv iota.
        add_step. add_step. dec_done a s s1 s3 (c + c0).
    + change (1 =? 1) with true. cbv iota.
      add_step. add_step.
      destruct C0 as [-> | ->].
      * change (0 =? 1) with false. cbv iota.
        add_step. dec_done a s s2 s3 (c + c0).
      * change (1 =? 1) with true. cbv iota.
        add_step. add_step. dec_done a s s2 s4 (c + c0 + c1).
Qed.

Lemma DecMul10_spec d :
  0 <= Hi32 d < two32 -> 0 <= Lo64 d < two64 ->
  mantissa (DecMul10 d) = (10 * mantissa d) mod two96
  /\ (0 <= Hi32 (DecMul10 d) < two32) /\ (0 <= Lo64 (DecMul10 d) < two64)
  /\ scale (DecMul10 d) = scale d /\ sign (DecMul10 d) = sign d
  /\ wReserved (DecMul10 d) = wReserved d.
Proof.
  intros Hh Hl. unfold DecMul10. cbv zeta.
  destruct (DecShiftLeft_spec d Hh Hl) as (M1 & H1 & L1 & S1 & G1 & W1).
  destruct (DecShiftLeft_spec _ H1 L1) as (M2 & H2 & L2 & S2 & G2 & W2).
  destruct (DecAdd_spec _ d H2 L2 Hh Hl) as (M3 & H3 & L3 & S3 & G3 & W3).
  destruct (DecShiftLeft_spec _ H3 L3) as (M4 & H4 & L4 & S4 & G4 & W4).
  split; [|split; [exact H4 | split; [exact L4 | split; [|split]]]].
  2: rewrite S4, S3, S2, S1; reflexivity.
  2: rewrite G4, G3, G2, G1; reflexivity.
  2: rewrite W4, W3, W2, W1; reflexivity.
  rewrite M4, M3, M2, M1.
  repeat first [ rewrite Z.mul_mod_idemp_r by (unfold two96; lia)
               | rewrite Z.add_mod_idemp_l by (unfold two96; lia) ].
  pose proof (Z.div_mod (2 * (2 * mantissa d)) two96 ltac:(unfold two96; lia)) as D.
  replace (2 * ((2 * (2 * mantissa d)) mod two96 + mantissa d))
    with (10 * mantissa d + (- 2 * ((2 * (2 * mantissa d)) / two96)) * two96) by lia.
  apply Z.mod_add. unfold two96; lia.
Qed.

Lemma lor_high_low hi lo :
  0 <= hi -> 0 <= lo < two32 -> Z.lor (hi * two32) lo = hi * two32 + lo.
Proof.
  intros Hh Hl.
  assert (Hand : Z.land (hi * two32) lo = 0).
  { apply Z.bits_inj'. intros n Hn. rewrite Z.land_spec, Z.bits_0.
    change two32 with (2 ^ 32).
    destruct (Z.lt_ge_cases n 32) as [Hlt | Hge].
    - rewrite Z.mul_pow2_bits_low by lia. reflexivity.
    - rewrite andb_comm.
      destruct (Z.eq_dec lo 0) as [-> | Hnz]; [rewrite Z.bits_0; reflexivity|].
      rewrite Z.bits_above_log2; [reflexivity | lia |].
      apply Z.lt_le_trans with 32; [|exact Hge].
      apply Z.log2_lt_pow2; [lia | exact (proj2 Hl)]. }
  rewrite <- Z.lxor_lor by exact Hand.
  symmetry. apply Z.add_nocarry_lxor. exact Hand.
Qed.

Lemma D32DivMod1E9_spec hi lo :
  0 <= hi < 1000000000 -> 0 <= lo < two32 ->
  exists q r, D32DivMod1E9 hi lo = (q, r)
    /\ hi * two32 + lo = 1000000000 * q + r
    /\ 0 <= r < 1000000000 /\ 0 <= q < two32.
Proof.
  intros Hh Hl. unfold D32DivMod1E9. cbv zeta.
  rewrite Z.shiftl_mul_pow2 by lia. change (2 ^ 32) with two32.
  rewrite (u64_small (hi * two32)) by (unfold two32, two64 in *; lia).
  rewrite (lor_high_low hi lo) by lia.
  set (n := hi * two32 + lo).
  assert (Hn : 0 <= n < 1000000000 * two32) by (unfold n, two32 in *; lia).
  pose proof (Z.div_mod n 1000000000 ltac:(lia)) as D.
  pose proof (Z.mod_pos_bound n 1000000000 ltac:(lia)) as B.
  assert (Hq : 0 <= n / 1000000000 < two32).
  { split; [apply Z.div_pos; lia | apply Z.div_lt_upper_bound; lia]. }
  rewrite (u32_small _ Hq).
  rewrite (u32_small (n mod 1000000000)) by (unfold two32; lia).
  exists (n / 1000000000), (n mod 1000000000).
  repeat split; lia.
Qed.

Lemma DecDivMod1E9_spec d :
  0 <= Hi32 d < two32 -> 0 <= Lo64 d < two64 ->
  let '(r, d') := DecDivMod1E9 d in
  mantissa d' = mantissa d / 1000000000
  /\ r = mantissa d mod 1000000000
  /\ (0 <= Hi32 d' < two32) /\ (0 <= Lo64 d' < two64)
  /\ scale d' = scale d /\ sign d' = sign d /\ wReserved d' = wReserved d.
Proof.
  intros Hh Hl.
  destruct (words_range d) as [Ha Hb].
  assert (Hc : 0 <= DECIMAL_HI32 d < two32) by exact Hh.
  unfold DecDivMod1E9.
  destruct (D32DivMod1E9_spec 0 (DECIMAL_HI32 d)) as (q2 & r2 & E2 & D2 & B2 & Q2);
    [lia | exact Hc |].
  rewrite E2. words_norm.
  destruct (D32DivMod1E9_spec r2 (DECIMAL_MID32 d) B2 Hb) as (q1 & r1 & E1 & D1 & B1 & Q1).
  rewrite E1. words_norm.
  destruct (D32DivMod1E9_spec r1 (DECIMAL_LO32 d) B1 Ha) as (q0 & r0 & E0 & D0 & B0 & Q0).
  rewrite E0.
  set (e := set_low32_dec (set_mid32_dec (set_hi32_dec d q2) q1) q0).
  assert (Le : 0 <= Lo64 e < two64) by apply Lo64_set_low32.
  assert (W0 : DECIMAL_LO32 e = q0) by (unfold e; words_norm; reflexivity).
  assert (W1 : DECIMAL_MID32 e = q1) by (unfold e; words_norm; reflexivity).
  assert (W2 : DECIMAL_HI32 e = q2) by (unfold e; words_norm; reflexivity).
  rewrite (mantissa_words e Le), (mantissa_words d Hl), W0, W1, W2.
  destruct (div_mod_intro
              (DECIMAL_LO32 d + two32 * DECIMAL_MID32 d + two64 * DECIMAL_HI32 d)
              1000000000 (q0 + two32 * q1 + two64 * q2) r0) as [Eq Em].
  { unfold two32, two64 in *. lia. }
  { exact B0. }
  rewrite Eq, Em.
  repeat split; try lia.
  - change (Hi32 e) with (DECIMAL_HI32 e). lia.
  - change (Hi32 e) with (DECIMAL_HI32 e). lia.
Qed.

(** * NumberToDecimal on digit strings that fit *)

Lemma deref_middle sc sg bd pre c suf :
  Parse.deref (mkNUMBER sc sg bd (pre ++ c :: suf)) (Z.of_nat (length pre)) = c.
Proof.
  unfold Parse.deref. cbn [before_digits digits].
  destruct (Z.ltb_spec (Z.of_nat (length pre)) 0) as [Hneg | _]; [lia|].
  unfold get. rewrite Nat2Z.id. apply nth_middle.
Qed.

Lemma digits_value_bound ds acc k :
  all_digits ds -> 0 <= acc < 10 ^ k -> 0 <= k ->
  0 <= digits_value ds acc < 10 ^ (k + Z.of_nat (length ds)).
Proof.
  intros Hd; revert acc k; induction Hd as [|c t Hc Ht IH]; intros acc k Ha Hk.
  - cbn [digits_value length]. rewrite Z.add_0_r. exact Ha.
  - cbn [digits_value length].
    replace (k + Z.of_nat (S (length t))) with ((k + 1) + Z.of_nat (length t)) by lia.
    apply IH; [|lia].
    rewrite Z.pow_add_r by lia. change (10 ^ 1) with 10.
    unfold Parse.char_0. lia.
Qed.

Lemma pow10_le k k' : 0 <= k <= k' -> 10 ^ k <= 10 ^ k'.
Proof. intros H. apply Z.pow_le_mono_r; lia. Qed.

Lemma HI32_small d k :
  0 <= Lo64 d -> mantissa d < 10 ^ k -> 0 <= k <= 27 -> DECIMAL_HI32 d < 429496729.
Proof.
  intros Hl Hm Hk. unfold DECIMAL_HI32, mantissa in *.
  assert (10 ^ k <= 10 ^ 27) by (apply pow10_le; lia).
  change (10 ^ 27) with 1000000000000000000000000000 in *.
  unfold two64 in *. lia.
Qed.

(** One round of the digit loop that takes in the value [v] of a character
    (zero when the digits are used up). *)
Lemma append_digit d v k :
  0 <= Hi32 d < two32 -> 0 <= Lo64 d < two64 ->
  0 <= mantissa d < 10 ^ k -> 0 <= k <= 27 -> 0 <= v <= 9 ->
  let d' := DecAddInt32 (DecMul10 d) v in
  mantissa d' = 10 * mantissa d + v
  /\ mantissa (DecMul10 d) = 10 * mantissa d
  /\ (0 <= Hi32 d' < two32) /\ (0 <= Lo64 d' < two64)
  /\ (0 <= Hi32 (DecMul10 d) < two32) /\ (0 <= Lo64 (DecMul10 d) < two64)
  /\ scale d' = scale d /\ sign d' = sign d /\ wReserved d' = wReserved d
  /\ scale (DecMul10 d) = scale d /\ sign (DecMul10 d) = sign d
  /\ wReserved (DecMul10 d) = wReserved d.
Proof.
  intros Hh Hl Hm Hk Hv. cbv zeta.
  destruct (DecMul10_spec d Hh Hl) as (M1 & H1 & L1 & S1 & G1 & W1).
  destruct (DecAddInt32_spec (DecMul10 d) v H1 L1 ltac:(unfold two32; lia))
    as (M2 & H2 & L2 & S2 & G2 & W2).
  assert (Hp : 10 * 10 ^ k <= 10 ^ 28).
  { replace (10 * 10 ^ k) with (10 ^ (k + 1))
      by (rewrite Z.pow_add_r by lia; change (10 ^ 1) with 10; lia).
    apply pow10_le; lia. }
  change (10 ^ 28) with 10000000000000000000000000000 in Hp.
  assert (Ma : mantissa (DecMul10 d) = 10 * mantissa d).
  { rewrite M1. apply Z.mod_small. unfold two96; lia. }
  split.
  { rewrite M2, Ma. apply Z.mod_small. unfold two96; lia. }
  split; [exact Ma|].
  split; [exact H2|]. split; [exact L2|]. split; [exact H1|]. split; [exact L1|].
  split; [rewrite S2; exact S1|]. split; [rewrite G2; exact G1|].
  split; [rewrite W2; exact W1|].
  split; [exact S1|]. split; [exact G1 | exact W1].
Qed.

(** The digit loop on [suf], the digits that are left, when all of them
    fit: each is taken in, and the loop goes on from the character after
    them. *)
Lemma absorb_digits sc sg bd rest suf :
  all_digits suf ->
  forall pre fuel d e,
    Z.of_nat (length pre) + Z.of_nat (length suf) <= 28 ->
    Z.of_nat (length suf) - e <= 28 ->
    0 <= Hi32 d < two32 -> 0 <= Lo64 d < two64 ->
    0 <= mantissa d < 10 ^ Z.of_nat (length pre) ->
    exists d',
      Parse.absorb (length suf + fuel) (mkNUMBER sc sg bd (pre ++ suf ++ 0 :: rest)) d
        (Z.of_nat (length pre)) e
      = Parse.absorb fuel (mkNUMBER sc sg bd (pre ++ suf ++ 0 :: rest)) d'
          (Z.of_nat (length pre) + Z.of_nat (length suf))
          (e - Z.of_nat (length suf))
      /\ mantissa d' = digits_value suf (mantissa d)
      /\ (0 <= Hi32 d' < two32) /\ (0 <= Lo64 d' < two64)
      /\ scale d' = scale d /\ sign d' = sign d /\ wReserved d' = wReserved d.
Proof.
  intros Hd; induction Hd as [|c t Hc Ht IH];
    intros pre fuel d e Hlen He Hh Hl Hm.
  - cbn [length app Nat.add] in *. exists d.
    split; [|repeat split; try assumption; lia].
    f_equal; lia.
  - cbn [length] in *.
    cbn [Nat.add Parse.absorb].
    change ((c :: t) ++ 0 :: rest) with (c :: (t ++ 0 :: rest)).
    rewrite deref_middle.
    assert (Hcz : negb (c =? 0) = true) by (destruct (Z.eqb_spec c 0); [lia | reflexivity]).
    rewrite Hcz.
    replace (e >? -28) with true by lia.
    rewrite andb_true_l, orb_true_r, andb_true_l.
    assert (Hhi : DECIMAL_HI32 d < 429496729)
      by (apply (HI32_small d (Z.of_nat (length pre))); lia).
    assert (Hab : Parse.can_absorb d c = true).
    { unfold Parse.can_absorb. replace (DECIMAL_HI32 d <? 429496729) with true by lia.
      reflexivity. }
    rewrite Hab.
    assert (Hu : u32 (c - Parse.char_0) = c - 48).
    { unfold Parse.char_0. apply u32_small. unfold two32. lia. }
    rewrite Hu.
    destruct (append_digit d (c - 48) (Z.of_nat (length pre)) Hh Hl Hm)
      as (Mv & _ & H2 & L2 & _ & _ & S2 & G2 & W2 & _); [lia | lia |].
    specialize (IH (pre ++ [c]) fuel (DecAddInt32 (DecMul10 d) (c - 48)) (e - 1)).
    rewrite length_app in IH. cbn [length] in IH.
    replace (Z.of_nat (length pre + 1)) with (Z.of_nat (length pre) + 1) in IH by lia.
    destruct IH as (d' & Ea & Em & Hh' & Hl' & Hs' & Hg' & Hw');
      try assumption; try lia.
    { rewrite Mv. rewrite Z.pow_add_r by lia. change (10 ^ 1) with 10. lia. }
    exists d'.
    rewrite <- app_assoc in Ea. cbn [app] in Ea.
    rewrite Ea.
    split; [f_equal; lia|].
    split.
    { rewrite Em, Mv. cbn [digits_value]. reflexivity. }
    split; [exact Hh'|]. split; [exact Hl'|].
    split; [rewrite Hs'; exact S2|]. split; [rewrite Hg'; exact G2|].
    rewrite Hw'; exact W2.
Qed.

(** At the end of the digits with the exponent used up, the loop stops. *)
Lemma absorb_stop number fuel d p e :
  Parse.deref number p = 0 -> e <= 0 ->
  Parse.absorb fuel number d p e = (d, p, e).
Proof.
  intros Hz He. destruct fuel as [|fuel]; [reflexivity|].
  cbn [Parse.absorb]. rewrite Hz.
  replace (e >? 0) with false by lia.
  change (negb (0 =? 0)) with false. reflexivity.
Qed.

(** At the end of the digits with exponent left, every round multiplies
    by ten. *)
Lemma absorb_zeros number p :
  Parse.deref number p = 0 ->
  forall (n : nat) fuel d k,
    (n <= fuel)%nat ->
    0 <= Hi32 d < two32 -> 0 <= Lo64 d < two64 ->
    0 <= mantissa d < 10 ^ k -> 0 <= k -> k + Z.of_nat n <= 28 ->
    exists d',
      Parse.absorb fuel number d p (Z.of_nat n) = (d', p, 0)
      /\ mantissa d' = mantissa d * 10 ^ Z.of_nat n
      /\ (0 <= Hi32 d' < two32) /\ (0 <= Lo64 d' < two64)
      /\ scale d' = scale d /\ sign d' = sign d /\ wReserved d' = wReserved d.
Proof.
  intros Hz n; induction n as [|n IH]; intros fuel d k Hf Hh Hl Hm Hk Hkn.
  - exists d. rewrite (absorb_stop number fuel d p (Z.of_nat 0) Hz) by lia.
    split; [reflexivity|]. change (10 ^ Z.of_nat 0) with 1.
    repeat split; try assumption; lia.
  - destruct fuel as [|fuel]; [lia|].
    cbn [Parse.absorb]. rewrite Hz.
    assert (Hg : (Z.of_nat (S n) >? 0) = true) by (apply Z.gtb_lt; lia).
    rewrite Hg.
    change (negb (0 =? 0)) with false. cbv iota.
    rewrite orb_true_l, andb_true_l.
    assert (Hhi : DECIMAL_HI32 d < 429496729) by (apply (HI32_small d k); lia).
    assert (Hab : Parse.can_absorb d 0 = true).
    { unfold Parse.can_absorb. replace (DECIMAL_HI32 d <? 429496729) with true by lia.
      reflexivity. }
    rewrite Hab.
    destruct (append_digit d 0 k Hh Hl Hm)
      as (_ & Mv & _ & _ & H2 & L2 & _ & _ & _ & S2 & G2 & W2); [lia | lia |].
    replace (Z.of_nat (S n) - 1) with (Z.of_nat n) by lia.
    destruct (IH fuel (DecMul10 d) (k + 1)) as (d' & Ea & Em & Hh' & Hl' & Hs' & Hg' & Hw');
      try assumption; try lia.
    { rewrite Mv. rewrite Z.pow_add_r by lia. change (10 ^ 1) with 10. lia. }
    exists d'. rewrite Ea.
    split; [reflexivity|].
    split.
    { rewrite Em, Mv. rewrite Nat2Z.inj_succ, Z.pow_succ_r by lia. ring. }
    split; [exact Hh'|]. split; [exact Hl'|].
    split; [rewrite Hs'; exact S2|]. split; [rewrite Hg'; exact G2|].
    rewrite Hw'; exact W2.
Qed.

Lemma NumberToDecimal_exact_aux P sc sg bd ds rest :
  ds <> [] -> all_digits ds ->
  let n := Z.of_nat (length ds) in
  n <= 28 -> sc <= 28 -> n - sc <= 28 -> sc <= P -> n - sc < P ->
  exists r,
    NumberToDecimal P (mkNUMBER sc sg bd (ds ++ 0 :: rest)) = Some r
    /\ mantissa r = digits_value ds 0 * 10 ^ Z.max 0 (sc - n)
    /\ scale r = Z.max 0 (n - sc)
    /\ sign r = (if sg then DECIMAL_NEG else 0)
    /\ wReserved r = 0.
Proof.
  intros Hne Hd n Hn Hsc Hns HP HnP.
  set (number := mkNUMBER sc sg bd (ds ++ 0 :: rest)).
  assert (Hfirst : Parse.deref number 0 <> 0).
  { destruct ds as [|c t]; [congruence|].
    inversion Hd; subst. unfold number, Parse.deref, get. cbn. lia. }
  assert (Hend : Parse.deref number n = 0).
  { unfold number, n. apply (deref_middle sc sg bd ds 0 rest). }
  assert (Hn0 : 1 <= n).
  { unfold n. destruct ds; [congruence | cbn [length]; lia]. }
  unfold NumberToDecimal. cbv zeta.
  destruct (Z.eqb_spec (Parse.deref number 0) 0) as [Hz | _]; [contradiction|].
  change (number_scale number) with sc.
  replace (sc >? P) with false by lia.
  unfold Parse.scan.
  set (d0 := mkDECIMAL 0 0 0 0 0).
  destruct (Z.le_gt_cases sc n) as [Hle | Hgt].
  - (* the digits use up the exponent *)
    destruct (absorb_digits sc sg bd rest ds Hd [] (Z.to_nat (sc + 28) - length ds) d0 sc)
      as (d' & Ea & Em & Hh' & Hl' & Hs' & Hg' & Hw');
      try (cbn; unfold two32, two64; lia); try (fold n; lia).
    cbn [length app Z.of_nat] in Ea. fold number in Ea. fold n in Ea.
    replace (length ds + (Z.to_nat (sc + 28) - length ds))%nat
      with (Z.to_nat (sc + 28)) in Ea by (unfold n in *; lia).
    rewrite Ea. rewrite Z.add_0_l.
    rewrite (absorb_stop number _ d' n (sc - n) Hend) by lia.
    rewrite Hend. change (0 >=? Parse.char_5) with false. cbv iota.
    unfold NumberToDecimal_store.
    replace (sc - n >? 0) with false by lia.
    replace (sc - n <=? - P) with false by lia.
    eexists; split; [reflexivity|].
    unfold set_sign, set_scale, mantissa. cbn [Hi32 Lo64 scale sign wReserved].
    replace (Z.max 0 (sc - n)) with 0 by lia. change (10 ^ 0) with 1.
    replace (Z.max 0 (n - sc)) with (n - sc) by lia.
    split; [change (mantissa d0) with 0 in Em; unfold mantissa in Em; lia|].
    split; [rewrite u8_small by (unfold two8; lia); lia|].
    split; [unfold number; cbn [number_sign]; destruct sg; reflexivity|].
    rewrite Hw'. reflexivity.
  - (* exponent is left: the value is multiplied up *)
    destruct (absorb_digits sc sg bd rest ds Hd [] (Z.to_nat (sc + 28) - length ds) d0 sc)
      as (d' & Ea & Em & Hh' & Hl' & Hs' & Hg' & Hw');
      try (cbn; unfold two32, two64; lia); try (fold n; lia).
    cbn [length app Z.of_nat] in Ea. fold number in Ea. fold n in Ea.
    replace (length ds + (Z.to_nat (sc + 28) - length ds))%nat
      with (Z.to_nat (sc + 28)) in Ea by (unfold n in *; lia).
    rewrite Ea. rewrite Z.add_0_l.
    assert (Hb : 0 <= mantissa d' < 10 ^ n).
    { rewrite Em. change (mantissa d0) with 0.
      pose proof (digits_value_bound ds 0 0 Hd ltac:(cbn; lia) ltac:(lia)) as B.
      rewrite Z.add_0_l in B. exact B. }
    destruct (absorb_zeros number n Hend (Z.to_nat (sc - n))
                (Z.to_nat (sc + 28) - length ds) d' n)
      as (d'' & Eb & Em' & Hh'' & Hl'' & Hs'' & Hg'' & Hw'');
      try assumption; try (unfold n in *; lia).
    rewrite Z2Nat.id in Eb, Em' by lia.
    rewrite Eb. rewrite Hend. change (0 >=? Parse.char_5) with false. cbv iota.
    unfold NumberToDecimal_store.
    change (0 >? 0) with false. cbv iota.
    replace (0 <=? - P) with false by lia.
    eexists; split; [reflexivity|].
    unfold set_sign, set_scale, mantissa. cbn [Hi32 Lo64 scale sign wReserved].
    replace (Z.max 0 (sc - n)) with (sc - n) by lia.
    replace (Z.max 0 (n - sc)) with 0 by lia.
    split; [change (mantissa d0) with 0 in Em; rewrite <- Em, <- Em'; reflexivity|].
    split; [reflexivity|].
    split; [unfold number; cbn [number_sign]; destruct sg; reflexivity|].
    rewrite Hw'', Hw'. reflexivity.
Qed.

(** * Products that fit *)

(** No scaling is needed when the value is within 96 bits and the scale
    within 28: [ScaleResult] leaves both alone. *)
Lemma ScaleResult_fits rounds rgullRes iHiRes iScale :
  0 <= iScale <= 28 ->
  iHiRes * 64 + Z.log2 (get rgullRes iHiRes) - 96 < 0 ->
  ScaleResult rounds rgullRes iHiRes iScale = Some (iScale, rgullRes).
Proof.
  intros Hs Hb. unfold ScaleResult, BitScanMsb64, DEC_SCALE_MAX.
  replace (iHiRes * 64 + Z.log2 (get rgullRes iHiRes) - 96 >=? 0) with false by lia.
  replace (0 <? iScale - 28) with false by lia.
  reflexivity.
Qed.

Lemma log2_below x k : 0 <= x < 2 ^ k -> 0 < k -> Z.log2 x < k.
Proof.
  intros Hx Hk. destruct (Z.eq_dec x 0) as [-> | Hnz]; [cbn; lia|].
  apply Z.log2_lt_pow2; lia.
Qed.

Lemma lor_zero a b : 0 <= a -> 0 <= b -> (Z.lor a b =? 0) = true -> a = 0 /\ b = 0.
Proof.
  intros Ha Hb H. apply Z.eqb_eq in H. apply Z.lor_eq_0_iff in H. exact H.
Qed.

Lemma lor_nonzero a b : (Z.lor a b =? 0) = false -> a <> 0 \/ b <> 0.
Proof.
  intros H. apply Z.eqb_neq in H.
  destruct (Z.eq_dec a 0) as [-> | Ha]; [|left; exact Ha].
  right. intros ->. apply H. reflexivity.
Qed.

Lemma DecimalMul_exact_aux rounds L R res0 :
  0 <= Hi32 L < two32 -> 0 <= Lo64 L < two64 ->
  0 <= Hi32 R < two32 -> 0 <= Lo64 R < two64 ->
  0 <= scale L -> 0 <= scale R -> scale L + scale R <= 28 ->
  mantissa L * mantissa R < two96 ->
  exists r,
    DecimalMul rounds L R res0 = Some (NOERROR, r)
    /\ mantissa r = mantissa L * mantissa R
    /\ (mantissa L * mantissa R <> 0 \/ (Hi32 L = 0 /\ Hi32 R = 0) ->
        scale r = scale L + scale R
        /\ sign r = u8 (Z.lxor (sign L) (sign R))
        /\ wReserved r = wReserved res0)
    /\ (mantissa L * mantissa R = 0 -> Hi32 L <> 0 \/ Hi32 R <> 0 ->
        r = DECIMAL_SETZERO).
Proof.
  intros HhL HlL HhR HlR HsL HsR Hs HP.
  unfold DecimalMul, DECIMAL_HI32, low64, DEC_SCALE_MAX. cbv zeta.
  destruct (Z.lor (Hi32 L) (Hi32 R) =? 0) eqn:Ehi.
  - (* both operands within 64 bits *)
    destruct (lor_zero _ _ (proj1 HhL) (proj1 HhR) Ehi) as [EL ER].
    unfold mantissa in HP |- *. rewrite EL, ER in *.
    rewrite !Z.mul_0_l, !Z.add_0_l in *.
    unfold Mul64By64. cbv zeta.
    set (P := Lo64 L * Lo64 R) in *.
    assert (HP0 : 0 <= P) by (unfold P; nia).
    pose proof (Z.div_mod P two64 ltac:(unfold two64; lia)) as DP.
    pose proof (Z.mod_pos_bound P two64 ltac:(unfold two64; lia)) as BP.
    assert (Hq : 0 <= P / two64 < two32).
    { split; [apply Z.div_pos; unfold two64; lia
             | apply Z.div_lt_upper_bound; unfold two32, two64, two96 in *; lia]. }
    rewrite (u64_small (P / two64)) by (unfold two32, two64 in *; lia).
    destruct (P / two64 =? 0) eqn:Eq.
    + apply Z.eqb_eq in Eq.
      replace (scale L + scale R >? 28) with false by lia.
      unfold DecimalMul_finish. cbv zeta.
      eexists; split; [reflexivity|].
      unfold set_scale, set_sign, set_low64, set_hi32_dec.
      cbn [Hi32 Lo64 scale sign wReserved].
      rewrite u64_idem. unfold u64 at 1. fold (u64 P).
      split; [change (u32 0) with 0; unfold u64; lia|].
      split; [intros _|intros _ [H | H]; congruence].
      split; [apply u8_small; unfold two8; lia|].
      split; reflexivity.
    + apply Z.eqb_neq in Eq.
      rewrite ScaleResult_fits.
      * cbn [bind]. replace (scale L + scale R =? -1) with false by lia.
        unfold DecimalMul_finish. cbv zeta. list_norm.
        eexists; split; [reflexivity|].
        unfold set_scale, set_sign, set_low64, set_hi32_dec.
        cbn [Hi32 Lo64 scale sign wReserved].
        rewrite u64_idem. rewrite !(u32_small _ Hq).
        split; [unfold u64; lia|].
        split; [intros _|intros _ [H | H]; congruence].
        split; [apply u8_small; unfold two8; lia|].
        split; reflexivity.
      * lia.
      * list_norm.
        pose proof (log2_below (P / two64) 32 ltac:(exact Hq) ltac:(lia)). lia.
  - (* the general product *)
    pose proof (lor_nonzero _ _ Ehi) as Hnz.
    unfold Mul64By64, Mul64By32, Mul32By32, AddCarry64. cbv zeta.
    set (lL := Lo64 L) in *. set (lR := Lo64 R) in *.
    set (hL := Hi32 L) in *. set (hR := Hi32 R) in *.
    set (A := lL * lR). set (B := lL * hR). set (C := lR * hL). set (D := hL * hR).
    assert (HA : 0 <= A) by (unfold A; nia).
    assert (HB : 0 <= B) by (unfold B; nia).
    assert (HC : 0 <= C) by (unfold C; nia).
    assert (HD : 0 <= D) by (unfold D; nia).
    assert (EP : mantissa L * mantissa R = A + two64 * (B + C) + two64 * two64 * D).
    { unfold mantissa, A, B, C, D. fold lL lR hL hR. ring. }
    rewrite EP in *.
    assert (HD0 : D = 0) by (unfold two64, two96 in *; nia).
    assert (HBC : A + two64 * (B + C) < two96) by lia.
    pose proof (Z.div_mod A two64 ltac:(unfold two64; lia)) as DA.
    pose proof (Z.mod_pos_bound A two64 ltac:(unfold two64; lia)) as BA.
    assert (QA : 0 <= A / two64) by (apply Z.div_pos; unfold two64; lia).
    pose proof (Z.div_mod B two64 ltac:(unfold two64; lia)) as DB.
    pose proof (Z.mod_pos_bound B two64 ltac:(unfold two64; lia)) as BB.
    assert (QB : 0 <= B / two64) by (apply Z.div_pos; unfold two64; lia).
    pose proof (Z.div_mod C two64 ltac:(unfold two64; lia)) as DC.
    pose proof (Z.mod_pos_bound C two64 ltac:(unfold two64; lia)) as BC.
    assert (QC : 0 <= C / two64) by (apply Z.div_pos; unfold two64; lia).
    assert (ZB : B / two64 = 0) by (unfold two64, two96 in *; lia).
    assert (ZC : C / two64 = 0) by (unfold two64, two96 in *; lia).
    assert (UA : u64 A = A mod two64) by reflexivity.
    assert (UB : u64 B = B) by (unfold u64; unfold two64, two96 in *; lia).
    assert (UC : u64 C = C) by (unfold u64; unfold two64, two96 in *; lia).
    assert (QA' : A / two64 < two32) by (unfold two32, two64, two96 in *; lia).
    rewrite UB, UC, ZB, ZC, HD0.
    rewrite (u64_small (A / two64)) by (unfold two32, two64 in *; lia).
    change (u32 0) with 0.
    replace (0 + B + A / two64) with (B + A / two64) by lia.
    assert (S1 : 0 <= B + A / two64 < two32) by (unfold two32, two64, two96 in *; lia).
    rewrite (Z.div_small (B + A / two64) two64) by (unfold two32, two64 in *; lia).
    rewrite (u64_small (B + A / two64)) by (unfold two32, two64 in *; lia).
    change (u64 (0 + 0 + 0)) with 0.
    replace (0 + C + (B + A / two64)) with (B + C + A / two64) by lia.
    assert (S2 : 0 <= B + C + A / two64 < two32) by (unfold two32, two64, two96 in *; lia).
    rewrite (Z.div_small (B + C + A / two64) two64) by (unfold two32, two64 in *; lia).
    rewrite (u64_small (B + C + A / two64)) by (unfold two32, two64 in *; lia).
    change (u64 (0 + 0 + 0)) with 0.
    list_norm. change (negb (0 =? 0)) with false. cbv iota.
    destruct (B + C + A / two64 =? 0) eqn:E1.
    + apply Z.eqb_eq in E1. change (negb true) with false. cbv iota.
      destruct (u64 A =? 0) eqn:E0.
      * apply Z.eqb_eq in E0. change (negb true) with false. cbv iota.
        change (-1 <? 0) with true. cbv iota.
        exists DECIMAL_SETZERO. split; [reflexivity|].
        split; [unfold mantissa, DECIMAL_SETZERO; cbn [Hi32 Lo64]; lia|].
        split; [|intros; reflexivity].
        intros [H | [H1 H2]]; [lia | destruct Hnz; contradiction].
      * apply Z.eqb_neq in E0. change (negb false) with true. cbv iota.
        change (0 <? 0) with false. cbv iota.
        rewrite ScaleResult_fits.
        -- cbn [bind]. replace (scale L + scale R =? -1) with false by lia.
           unfold DecimalMul_finish. cbv zeta. list_norm.
           eexists; split; [reflexivity|].
           unfold set_scale, set_sign, set_low64, set_hi32_dec, mantissa.
           cbn [Hi32 Lo64 scale sign wReserved].
           rewrite u64_idem. rewrite E1. repeat change (u32 0) with 0.
           split; [lia|].
           split; [intros _|intros H0 _; unfold two64 in *; lia].
           split; [apply u8_small; unfold two8; lia|].
           split; reflexivity.
        -- lia.
        -- list_norm.
           pose proof (log2_below (u64 A) 64 ltac:(exact (u64_range A)) ltac:(lia)). lia.
    + apply Z.eqb_neq in E1. change (negb false) with true. cbv iota.
      change (1 <? 0) with false. cbv iota.
      rewrite ScaleResult_fits.
      * cbn [bind]. replace (scale L + scale R =? -1) with false by lia.
        unfold DecimalMul_finish. cbv zeta. list_norm.
        eexists; split; [reflexivity|].
        unfold set_scale, set_sign, set_low64, set_hi32_dec, mantissa.
        cbn [Hi32 Lo64 scale sign wReserved].
        rewrite u64_idem. rewrite !(u32_small _ S2).
        split; [lia|].
        split; [intros _|intros H0 _; unfold two64 in *; lia].
        split; [apply u8_small; unfold two8; lia|].
        split; reflexivity.
      * lia.
      * list_norm.
        pose proof (log2_below (B + C + A / two64) 32 ltac:(exact S2) ltac:(lia)). lia.
Qed.

(** * Sums and differences at equal scales *)

Lemma mantissa_mk w s g h l : mantissa (mkDECIMAL w s g h l) = h * two64 + l.
Proof. reflexivity. Qed.

(** Subtraction of the 96-bit values: the difference, and the sign turned
    when the right operand is the larger one. *)
Lemma AlignedAdd_sub_value L R p bSign :
  0 <= Hi32 L < two32 -> 0 <= Lo64 L < two64 ->
  0 <= Hi32 R < two32 -> 0 <= Lo64 R < two64 ->
  bSign <> 0 ->
  exists r,
    AddSub.AlignedAdd L R p bSign = (NOERROR, r)
    /\ mantissa r = Z.abs (mantissa L - mantissa R)
    /\ sign r = (if mantissa L <? mantissa R then u8 (Z.lxor (sign p) DECIMAL_NEG)
                 else sign p)
    /\ scale r = scale p /\ wReserved r = wReserved p.
Proof.
  intros HLh HLl HRh HRl Hb.
  unfold AddSub.AlignedAdd.
  replace (negb (bSign =? 0)) with true
    by (destruct (Z.eqb_spec bSign 0); [contradiction | reflexivity]).
  cbv iota.
  unfold SubBorrow64, SubBorrow32, low64, DECIMAL_HI32. cbv zeta.
  unfold set_low64, set_hi32_dec. cbn [wReserved scale sign Hi32 Lo64].
  rewrite !Z.add_0_r. rewrite u64_idem.
  unfold mantissa.
  set (a := Lo64 L) in *. set (b := Lo64 R) in *.
  set (x := Hi32 L) in *. set (y := Hi32 R) in *.
  destruct (Z.ltb_spec (a - b) 0) as [Hab | Hab].
  - (* borrow out of the low part *)
    destruct (Z.ltb_spec (x - (y + 1)) 0) as [Hxy | Hxy].
    + change (negb (1 =? 0)) with true. cbv iota.
      eexists; split; [reflexivity|].
      unfold AddSub.SignFlip, low64, DECIMAL_HI32, set_low64, set_hi32_dec, set_sign.
      cbv zeta. cbn [wReserved scale sign Hi32 Lo64].
      replace (x * two64 + a <? y * two64 + b) with true
        by (unfold two64 in *; lia).
      rewrite ?u64_idem, ?u32_idem.
      assert (E1 : u64 (a - b) = a - b + two64)
        by (unfold u64; apply mod_wrap_neg; lia).
      assert (E2 : u32 (x - (y + 1)) = x - (y + 1) + two32)
        by (unfold u32; apply mod_wrap_neg; unfold two32 in *; lia).
      rewrite E1, E2.
      assert (E3 : u64 (- (a - b + two64)) = b - a).
      { unfold u64. replace (- (a - b + two64)) with (b - a + (-1) * two64) by lia.
        rewrite Z.mod_add by (unfold two64; lia). apply Z.mod_small. lia. }
      rewrite E3.
      replace (b - a =? 0) with false by lia.
      cbn [wReserved scale sign Hi32 Lo64].
      unfold Z.lnot.
      assert (E4 : u32 (Z.pred (- (x - (y + 1) + two32))) = y - x).
      { unfold u32, Z.pred.
        replace (- (x - (y + 1) + two32) + -1) with (y - x + (-1) * two32) by lia.
        rewrite Z.mod_add by (unfold two32; lia). apply Z.mod_small.
        unfold two32 in *; lia. }
      rewrite E4.
      repeat split; unfold two64 in *; lia.
    + change (negb (0 =? 0)) with false. cbv iota.
      eexists; split; [reflexivity|].
      cbn [wReserved scale sign Hi32 Lo64].
      replace (x * two64 + a <? y * two64 + b) with false
        by (unfold two64 in *; lia).
      assert (E1 : u64 (a - b) = a - b + two64)
        by (unfold u64; apply mod_wrap_neg; lia).
      rewrite E1, !(u32_small (x - (y + 1))) by (unfold two32 in *; lia).
      repeat split; unfold two64 in *; lia.
  - (* no borrow out of the low part *)
    rewrite (u64_small (a - b)) by lia. rewrite Z.add_0_r.
    destruct (Z.ltb_spec (x - y) 0) as [Hxy | Hxy].
    + change (negb (1 =? 0)) with true. cbv iota.
      eexists; split; [reflexivity|].
      unfold AddSub.SignFlip, low64, DECIMAL_HI32, set_low64, set_hi32_dec, set_sign.
      cbv zeta. cbn [wReserved scale sign Hi32 Lo64].
      replace (x * two64 + a <? y * two64 + b) with true
        by (unfold two64 in *; lia).
      rewrite ?u64_idem, ?u32_idem.
      assert (E2 : u32 (x - y) = x - y + two32)
        by (unfold u32; apply mod_wrap_neg; unfold two32 in *; lia).
      rewrite E2. unfold Z.lnot, Z.pred.
      destruct (Z.eq_dec a b) as [Eab | Nab].
      * replace (a - b) with 0 by lia. change (u64 (- 0)) with 0.
        change (0 =? 0) with true. cbv iota.
        cbn [wReserved scale sign Hi32 Lo64]. rewrite ?u32_idem.
        assert (E4 : u32 (u32 (- (x - y + two32) + -1) + 1) = y - x).
        { assert (E5 : u32 (- (x - y + two32) + -1) = y - x - 1).
          { unfold u32.
            replace (- (x - y + two32) + -1) with (y - x - 1 + (-1) * two32) by lia.
            rewrite Z.mod_add by (unfold two32; lia). apply Z.mod_small.
            unfold two32 in *; lia. }
          rewrite E5. rewrite u32_small by (unfold two32 in *; lia). lia. }
        rewrite E4.
        repeat split; unfold two64 in *; lia.
      * assert (E3 : u64 (- (a - b)) = two64 - (a - b)).
        { unfold u64. replace (- (a - b)) with (two64 - (a - b) + (-1) * two64) by lia.
          rewrite Z.mod_add by (unfold two64; lia). apply Z.mod_small. lia. }
        rewrite E3.
        replace (two64 - (a - b) =? 0) with false by lia.
        cbn [wReserved scale sign Hi32 Lo64].
        assert (E4 : u32 (- (x - y + two32) + -1) = y - x - 1).
        { unfold u32.
          replace (- (x - y + two32) + -1) with (y - x - 1 + (-1) * two32) by lia.
          rewrite Z.mod_add by (unfold two32; lia). apply Z.mod_small.
          unfold two32 in *; lia. }
        rewrite E4.
        repeat split; unfold two64 in *; lia.
    + change (negb (0 =? 0)) with false. cbv iota.
      eexists; split; [reflexivity|].
      cbn [wReserved scale sign Hi32 Lo64].
      replace (x * two64 + a <? y * two64 + b) with false
        by (unfold two64 in *; lia).
      rewrite !(u32_small (x - y)) by (unfold two32 in *; lia).
      repeat split; unfold two64 in *; lia.
Qed.

Lemma words_set_scale d x :
  DECIMAL_LO32 (set_scale d x) = DECIMAL_LO32 d
  /\ DECIMAL_MID32 (set_scale d x) = DECIMAL_MID32 d
  /\ DECIMAL_HI32 (set_scale d x) = DECIMAL_HI32 d.
Proof. repeat split. Qed.

Lemma round_test_half_even r q0 q :
  0 <= r < 10 -> Z.odd q0 = Z.odd q ->
  ((r >=? 5) && ((r >? 5) || negb (Z.land (u32 q0) 1 =? 0)))
  = ((r >? 5) || ((r =? 5) && Z.odd q)).
Proof.
  intros Hr Ho.
  assert (Hb : negb (Z.land (u32 q0) 1 =? 0) = Z.odd q).
  { rewrite <- Ho. pose proof (low_bit_odd q0) as Hl.
    destruct (Z.odd q0).
    - destruct (Z.eqb_spec (Z.land (u32 q0) 1) 0) as [E | E]; [|reflexivity].
      apply Hl in E. discriminate.
    - destruct (Z.eqb_spec (Z.land (u32 q0) 1) 0) as [E | E]; [reflexivity|].
      exfalso. apply E, Hl. reflexivity. }
  rewrite Hb.
  destruct (Z.gtb_spec r 5), (Z.eqb_spec r 5), (Z.geb_spec r 5), (Z.odd q);
    try reflexivity; lia.
Qed.

Lemma odd_low_word q0 k : Z.odd (q0 + two32 * k) = Z.odd q0.
Proof.
  replace (q0 + two32 * k) with (q0 + 2 * (2147483648 * k)) by (unfold two32; lia).
  apply Z.odd_add_mul_2.
Qed.

(** Addition of the 96-bit values: the sum when it fits; beyond that an
    overflow at scale 0, and otherwise a tenth of the sum, rounded, at one
    scale less. *)
Lemma AlignedAdd_add_value L R p :
  0 <= Hi32 L < two32 -> 0 <= Lo64 L < two64 ->
  0 <= Hi32 R < two32 -> 0 <= Lo64 R < two64 ->
  0 <= scale p < two8 ->
  let v := mantissa L + mantissa R in
  (v < two96 ->
   exists r, AddSub.AlignedAdd L R p 0 = (NOERROR, r)
     /\ mantissa r = v /\ sign r = sign p /\ scale r = scale p
     /\ wReserved r = wReserved p)
  /\ (two96 <= v -> scale p = 0 ->
      fst (AddSub.AlignedAdd L R p 0) = DISP_E_OVERFLOW)
  /\ (two96 <= v -> scale p <> 0 ->
      exists r, AddSub.AlignedAdd L R p 0 = (NOERROR, r)
        /\ mantissa r = div10_half_even v /\ sign r = sign p
        /\ scale r = scale p - 1 /\ wReserved r = wReserved p).
Proof.
  intros HLh HLl HRh HRl Hsp v.
  unfold AddSub.AlignedAdd.
  change (negb (0 =? 0)) with false. cbv iota.
  unfold AddCarry64, AddCarry32, low64. cbv zeta.
  unfold DECIMAL_HI32.
  set (a := Lo64 L) in *. set (b := Lo64 R) in *.
  set (x := Hi32 L) in *. set (y := Hi32 R) in *.
  assert (Ev : v = (x + y) * two64 + (a + b)) by (unfold v, mantissa; fold a b x y; lia).
  destruct (div_small_carry (0 + a + b) two64) as [Ca Ea]; [reflexivity | lia |].
  set (c0 := (0 + a + b) / two64) in *.
  pose proof (Z.mod_pos_bound (0 + a + b) two64 ltac:(reflexivity)) as Blo.
  fold (u64 (0 + a + b)) in Ea, Blo. set (lo := u64 (0 + a + b)) in *.
  destruct (div_small_carry (c0 + x + y) two32) as [Cc Ec]; [reflexivity | lia |].
  set (c1 := (c0 + x + y) / two32) in *.
  pose proof (Z.mod_pos_bound (c0 + x + y) two32 ltac:(reflexivity)) as Bhi.
  fold (u32 (c0 + x + y)) in Ec, Bhi. set (hi := u32 (c0 + x + y)) in *.
  assert (Esum : v = c1 * two96 + hi * two64 + lo)
    by (unfold two32, two64, two96 in *; lia).
  set (p1 := set_hi32_dec (set_low64 p lo) hi).
  assert (Hp1 : mantissa p1 = hi * two64 + lo).
  { unfold p1, mantissa, set_hi32_dec, set_low64. cbn [Hi32 Lo64].
    rewrite (u32_small hi Bhi), (u64_small lo Blo). reflexivity. }
  assert (Hp1l : Lo64 p1 = lo).
  { unfold p1, set_hi32_dec, set_low64. cbn [Lo64]. apply u64_small, Blo. }
  assert (Hp1h : Hi32 p1 = hi).
  { unfold p1, set_hi32_dec, set_low64. cbn [Hi32]. apply u32_small, Bhi. }
  split; [|split].
  - intros Hv.
    assert (c1 = 0) by (unfold two64, two96 in *; lia).
    replace (negb (c1 =? 0)) with false by (subst c1; rewrite H; reflexivity).
    exists p1. split; [reflexivity|].
    split; [rewrite Hp1; unfold two96 in *; lia|].
    repeat split.
  - intros Hv Hs0.
    assert (c1 = 1) by (unfold two32, two64, two96 in *; lia).
    replace (negb (c1 =? 0)) with true by (subst c1; rewrite H; reflexivity).
    change (scale p1) with (scale p).
    replace (scale p =? 0) with true by lia. reflexivity.
  - intros Hv Hs0.
    assert (c1 = 1) by (unfold two32, two64, two96 in *; lia).
    replace (negb (c1 =? 0)) with true by (subst c1; rewrite H; reflexivity).
    change (scale p1) with (scale p).
    replace (scale p =? 0) with false by lia.
    set (p2 := set_scale p1 (scale p - 1)).
    destruct (split64 lo Blo) as (Rl0 & Rl1 & El).
    assert (W0 : DECIMAL_LO32 p2 = low32 lo) by (unfold DECIMAL_LO32; cbn [p2 set_scale Lo64]; rewrite Hp1l; reflexivity).
    assert (W1 : DECIMAL_MID32 p2 = hi32 lo) by (unfold DECIMAL_MID32; cbn [p2 set_scale Lo64]; rewrite Hp1l; reflexivity).
    assert (W2 : Hi32 p2 = hi) by (cbn [p2 set_scale Hi32]; exact Hp1h).
    unfold DivMod64By32InPlace.
    rewrite W2.
    destruct (DivMod64By32_spec hi 1 10 ltac:(lia) Bhi) as (q2 & r2 & E2 & D2 & B2 & Q2).
    rewrite E2. words_norm. rewrite W1.
    destruct (DivMod64By32_spec (hi32 lo) r2 10 B2 Rl1) as (q1 & r1 & E1 & D1 & B1 & Q1).
    rewrite E1. words_norm. rewrite W0.
    destruct (DivMod64By32_spec (low32 lo) r1 10 B1 Rl0) as (q0 & r0 & E0 & D0 & B0 & Q0).
    rewrite E0. words_norm.
    set (p3 := set_low32_dec (set_mid32_dec (set_hi32_dec p2 q2) q1) q0).
    assert (L3 : 0 <= Lo64 p3 < two64) by apply Lo64_set_low32.
    assert (V0 : DECIMAL_LO32 p3 = q0) by (unfold p3; words_norm; reflexivity).
    assert (V1 : DECIMAL_MID32 p3 = q1) by (unfold p3; words_norm; reflexivity).
    assert (V2 : DECIMAL_HI32 p3 = q2) by (unfold p3; words_norm; reflexivity).
    assert (M3 : mantissa p3 = q0 + two32 * q1 + two64 * q2)
      by (rewrite (mantissa_words p3 L3), V0, V1, V2; reflexivity).
    assert (Hv10 : v = 10 * (q0 + two32 * q1 + two64 * q2) + r0)
      by (unfold two32, two64, two96 in *; lia).
    destruct (div_mod_intro v 10 _ r0 Hv10 B0) as [Eq Em].
    assert (Hq : q0 + two32 * q1 + two64 * q2 < two96 - 1).
    { assert (v < 2 * two96) by (unfold two32, two64, two96 in *; lia).
      unfold two32, two64, two96 in *. lia. }
    replace (Z.land q0 1) with (Z.land (u32 q0) 1)
      by (rewrite (u32_small q0 Q0); reflexivity).
    rewrite (round_test_half_even r0 q0 (q0 + two32 * q1 + two64 * q2) B0)
      by (symmetry; replace (q0 + two32 * q1 + two64 * q2)
            with (q0 + two32 * (q1 + two32 * q2)) by (unfold two32, two64; lia);
          apply odd_low_word).
    assert (Hs3 : scale p3 = scale p - 1).
    { unfold p3, p2. cbn. apply u8_small. lia. }
    unfold div10_half_even. rewrite Eq, Em.
    destruct ((r0 >? 5) || ((r0 =? 5) && Z.odd (q0 + two32 * q1 + two64 * q2))).
    + pose proof (Add96By64_dec_spec p3 1) as HA.
      destruct (Add96By64_dec p3 1) as [c d'] eqn:EA.
      destruct HA as (Cd & Md & Hd & Ld & Sd & Gd & Wd).
      { change (Hi32 p3) with (DECIMAL_HI32 p3). rewrite V2. lia. }
      { exact L3. }
      { unfold two64; lia. }
      exists d'. split; [reflexivity|].
      split; [unfold mantissa, two32, two64, two96 in *; lia|].
      split; [rewrite Gd; reflexivity|].
      split; [rewrite Sd; exact Hs3|].
      rewrite Wd; reflexivity.
    + exists p3. split; [reflexivity|].
      split; [lia|].
      split; [reflexivity|].
      split; [exact Hs3 | reflexivity].
Qed.

(** * DecimalAddSub at equal scales *)

Lemma DecimalAddSub_aligned rounds L R res0 bSign :
  operand L -> operand R -> scale L = scale R ->
  (bSign = 0 \/ bSign = DECIMAL_NEG) ->
  DecimalAddSub rounds L R res0 bSign
  = Some (AddSub.AlignedAdd L R
            (mkDECIMAL (wReserved res0) (scale L) (sign L) (Hi32 res0) (Lo64 res0))
            (effective_sign L R bSign))
  /\ (effective_sign L R bSign = 0 \/ effective_sign L R bSign = DECIMAL_NEG).
Proof.
  intros HL HR Hs Hb.
  pose proof HL as (_ & _ & _ & HgL). pose proof HR as (_ & _ & _ & HgR).
  unfold DecimalAddSub. cbv zeta.
  rewrite Hs, Z.eqb_refl. rewrite <- Hs.
  rewrite (set_signscale_operand res0 L HL).
  assert (E : Z.lxor bSign (Z.land (Z.lxor (sign R) (sign L)) DECIMAL_NEG)
              = effective_sign L R bSign).
  { unfold effective_sign.
    destruct Hb as [-> | ->]; destruct HgL as [-> | ->]; destruct HgR as [-> | ->];
      reflexivity. }
  rewrite E. split; [reflexivity|].
  unfold effective_sign.
  destruct Hb as [-> | ->]; destruct HgL as [-> | ->]; destruct HgR as [-> | ->];
    cbn; auto.
Qed.

Lemma DecimalAddSub_difference_aux rounds L R res0 bSign :
  operand L -> operand R -> scale L = scale R ->
  (bSign = 0 \/ bSign = DECIMAL_NEG) ->
  effective_sign L R bSign <> 0 ->
  exists r,
    DecimalAddSub rounds L R res0 bSign = Some (NOERROR, r)
    /\ mantissa r = Z.abs (mantissa L - mantissa R)
    /\ sign r = (if mantissa L <? mantissa R then Z.lxor (sign L) DECIMAL_NEG
                 else sign L)
    /\ scale r = scale L /\ wReserved r = wReserved res0.
Proof.
  intros HL HR Hs Hb He.
  pose proof HL as (HLh & HLl & _ & HgL). pose proof HR as (HRh & HRl & _ & HgR).
  destruct (DecimalAddSub_aligned rounds L R res0 bSign HL HR Hs Hb) as [E _].
  rewrite E.
  destruct (AlignedAdd_sub_value L R
              (mkDECIMAL (wReserved res0) (scale L) (sign L) (Hi32 res0) (Lo64 res0))
              (effective_sign L R bSign) HLh HLl HRh HRl He)
    as (r & Er & Mr & Gr & Sr & Wr).
  exists r. rewrite Er. split; [reflexivity|].
  split; [exact Mr|].
  cbn [sign scale wReserved] in Gr, Sr, Wr.
  split; [|split; assumption].
  rewrite Gr. destruct (mantissa L <? mantissa R); [|reflexivity].
  destruct HgL as [-> | ->]; reflexivity.
Qed.

Lemma DecimalAddSub_sum_aux rounds L R res0 bSign :
  operand L -> operand R -> scale L = scale R ->
  (bSign = 0 \/ bSign = DECIMAL_NEG) ->
  effective_sign L R bSign = 0 ->
  let v := mantissa L + mantissa R in
  (v < two96 ->
   exists r, DecimalAddSub rounds L R res0 bSign = Some (NOERROR, r)
     /\ mantissa r = v /\ sign r = sign L /\ scale r = scale L
     /\ wReserved r = wReserved res0)
  /\ (two96 <= v -> scale L = 0 ->
      exists d, DecimalAddSub rounds L R res0 bSign = Some (DISP_E_OVERFLOW, d))
  /\ (two96 <= v -> scale L <> 0 ->
      exists r, DecimalAddSub rounds L R res0 bSign = Some (NOERROR, r)
        /\ mantissa r = div10_half_even v /\ sign r = sign L
        /\ scale r = scale L - 1 /\ wReserved r = wReserved res0).
Proof.
  intros HL HR Hs Hb He v.
  pose proof HL as (HLh & HLl & HsL & HgL). pose proof HR as (HRh & HRl & _ & HgR).
  destruct (DecimalAddSub_aligned rounds L R res0 bSign HL HR Hs Hb) as [E _].
  rewrite E, He.
  set (p := mkDECIMAL (wReserved res0) (scale L) (sign L) (Hi32 res0) (Lo64 res0)).
  destruct (AlignedAdd_add_value L R p HLh HLl HRh HRl) as (A1 & A2 & A3).
  { cbn [p scale]. unfold DEC_SCALE_MAX, two8 in *. lia. }
  split; [|split].
  - intros Hv. destruct (A1 Hv) as (r & Er & Mr & Gr & Sr & Wr).
    exists r. rewrite Er. repeat split; assumption.
  - intros Hv H0. specialize (A2 Hv H0).
    destruct (AddSub.AlignedAdd L R p 0) as [hr d]. cbn [fst] in A2. subst hr.
    exists d. reflexivity.
  - intros Hv H0. destruct (A3 Hv H0) as (r & Er & Mr & Gr & Sr & Wr).
    exists r. rewrite Er. repeat split; assumption.
Qed.

(** * Products that do not fit at scale 0 *)

Lemma ScaleResult_overflow rounds rgullRes iHiRes iScale :
  0 <= iHiRes * 64 + Z.log2 (get rgullRes iHiRes) - 96 ->
  iScale <= 0 ->
  ScaleResult rounds rgullRes iHiRes iScale = Some (-1, rgullRes).
Proof.
  intros Hb Hs. unfold ScaleResult, BitScanMsb64.
  set (n := iHiRes * 64 + Z.log2 (get rgullRes iHiRes) - 96) in *.
  replace (n >=? 0) with true by lia.
  assert (0 <= Z.shiftr (n * 77) 8) by (apply Z.shiftr_nonneg; lia).
  replace (Z.shiftr (n * 77) 8 + 1 >? iScale) with true by lia.
  reflexivity.
Qed.

Lemma log2_at_least x k : 0 <= k -> 2 ^ k <= x -> k <= Z.log2 x.
Proof. intros Hk Hx. apply Z.log2_le_pow2; lia. Qed.

Lemma DecimalMul_overflow_aux rounds L R res0 :
  0 <= Hi32 L < two32 -> 0 <= Lo64 L < two64 ->
  0 <= Hi32 R < two32 -> 0 <= Lo64 R < two64 ->
  scale L = 0 -> scale R = 0 ->
  two96 <= mantissa L * mantissa R ->
  DecimalMul rounds L R res0 = Some (DISP_E_OVERFLOW, res0).
Proof.
  intros HhL HlL HhR HlR HsL HsR HP.
  unfold DecimalMul, DECIMAL_HI32, low64, DEC_SCALE_MAX. cbv zeta.
  rewrite HsL, HsR. change (0 + 0) with 0.
  destruct (Z.lor (Hi32 L) (Hi32 R) =? 0) eqn:Ehi.
  - destruct (lor_zero _ _ (proj1 HhL) (proj1 HhR) Ehi) as [EL ER].
    unfold mantissa in HP. rewrite EL, ER in HP.
    rewrite !Z.mul_0_l, !Z.add_0_l in HP.
    unfold Mul64By64. cbv zeta.
    set (P := Lo64 L * Lo64 R) in *.
    assert (HP1 : P < two64 * two64) by (unfold P, two64 in *; nia).
    pose proof (Z.div_mod P two64 ltac:(unfold two64; lia)) as DP.
    pose proof (Z.mod_pos_bound P two64 ltac:(unfold two64; lia)) as BP.
    assert (Hq : two32 <= P / two64 < two64) by (unfold two32, two64, two96 in *; lia).
    rewrite (u64_small (P / two64)) by lia.
    replace (P / two64 =? 0) with false by (unfold two32 in *; lia).
    rewrite ScaleResult_overflow.
    + reflexivity.
    + list_norm.
      pose proof (log2_at_least (P / two64) 32 ltac:(lia) ltac:(exact (proj1 Hq))). lia.
    + lia.
  - unfold Mul64By64, Mul64By32, Mul32By32, AddCarry64. cbv zeta.
    set (lL := Lo64 L) in *. set (lR := Lo64 R) in *.
    set (hL := Hi32 L) in *. set (hR := Hi32 R) in *.
    set (A := lL * lR). set (B := lL * hR). set (C := lR * hL). set (D := hL * hR).
    assert (HA : 0 <= A < two64 * two64) by (unfold A, two64 in *; nia).
    assert (HB : 0 <= B < two32 * two64) by (unfold B, two32, two64 in *; nia).
    assert (HC : 0 <= C < two32 * two64) by (unfold C, two32, two64 in *; nia).
    assert (HD : 0 <= D <= (two32 - 1) * (two32 - 1)) by (unfold D, two32 in *; nia).
    assert (EP : mantissa L * mantissa R = A + two64 * (B + C) + two64 * two64 * D).
    { unfold mantissa, A, B, C, D. fold lL lR hL hR. ring. }
    assert (HPb : mantissa L * mantissa R < two96 * two96).
    { pose proof (mantissa_range L HhL HlL). pose proof (mantissa_range R HhR HlR).
      unfold two96 in *. nia. }
    rewrite EP in HP, HPb.
    pose proof (Z.div_mod A two64 ltac:(unfold two64; lia)) as DA.
    pose proof (Z.mod_pos_bound A two64 ltac:(unfold two64; lia)) as BA.
    pose proof (Z.div_mod B two64 ltac:(unfold two64; lia)) as DB.
    pose proof (Z.mod_pos_bound B two64 ltac:(unfold two64; lia)) as BB.
    pose proof (Z.div_mod C two64 ltac:(unfold two64; lia)) as DC.
    pose proof (Z.mod_pos_bound C two64 ltac:(unfold two64; lia)) as BC.
    fold (u64 A) in DA, BA. fold (u64 B) in DB, BB. fold (u64 C) in DC, BC.
    assert (QA : 0 <= A / two64 < two64) by (unfold two64 in *; lia).
    assert (QB : 0 <= B / two64 < two32) by (unfold two32, two64 in *; lia).
    assert (QC : 0 <= C / two64 < two32) by (unfold two32, two64 in *; lia).
    rewrite (u64_small (A / two64)) by lia.
    rewrite (u32_small (B / two64)) by lia.
    rewrite (u32_small (C / two64)) by lia.
    replace (0 + u64 B + A / two64) with (u64 B + A / two64) by lia.
    set (s1 := u64 B + A / two64).
    destruct (div_small_carry s1 two64) as [C1 E1]; [reflexivity | unfold s1; lia |].
    pose proof (Z.mod_pos_bound s1 two64 ltac:(reflexivity)) as B1.
    fold (u64 s1) in E1, B1.
    set (c1 := s1 / two64) in *.
    rewrite (u64_small (c1 + B / two64 + D)) by (unfold two32, two64 in *; lia).
    replace (0 + u64 C + u64 s1) with (u64 C + u64 s1) by lia.
    set (s2 := u64 C + u64 s1).
    destruct (div_small_carry s2 two64) as [C2 E2]; [reflexivity | unfold s2; lia |].
    pose proof (Z.mod_pos_bound s2 two64 ltac:(reflexivity)) as B2.
    fold (u64 s2) in E2, B2.
    set (c2 := s2 / two64) in *.
    rewrite (u64_small (c2 + C / two64 + (c1 + B / two64 + D)))
      by (unfold s2, s1, two32, two64, two96 in *; lia).
    set (top := c2 + C / two64 + (c1 + B / two64 + D)).
    assert (Erepr : A + two64 * (B + C) + two64 * two64 * D
                    = u64 A + two64 * u64 s2 + two64 * two64 * top).
    { unfold top, s2, s1 in *. unfold two64 in *. lia. }
    list_norm.
    destruct (top =? 0) eqn:Et.
    + apply Z.eqb_eq in Et. change (negb true) with false. cbv iota.
      assert (Hs2 : two32 <= u64 s2) by (unfold two32, two64, two96 in *; lia).
      replace (u64 s2 =? 0) with false by (unfold two32 in *; lia).
      change (negb false) with true. cbv iota.
      change (1 <? 0) with false. cbv iota.
      rewrite ScaleResult_overflow.
      * reflexivity.
      * list_norm.
        pose proof (log2_at_least (u64 s2) 32 ltac:(lia) ltac:(exact Hs2)). lia.
      * lia.
    + apply Z.eqb_neq in Et. change (negb false) with true. cbv iota.
      change (2 <? 0) with false. cbv iota.
      rewrite ScaleResult_overflow.
      * reflexivity.
      * list_norm.
        assert (1 <= top) by (unfold top; unfold two32, two64 in *; lia).
        pose proof (Z.log2_nonneg top). lia.
      * lia.
Qed.

(** * Quotients without remainder *)

Lemma get64_2 a b c d l : get64 (a :: b :: c :: d :: l) 2 = c + two32 * d.
Proof. reflexivity. Qed.

(** * The trimming of trailing zeros at the end of DecimalDiv *)

Lemma low32_word_pair c d : 0 <= c < two32 -> low32 (c + two32 * d) = c.
Proof.
  intros Hc. unfold low32. replace (c + two32 * d) with (c + d * two32) by lia.
  rewrite Z.mod_add by (unfold two32; lia). apply Z.mod_small. exact Hc.
Qed.

Lemma hi32_word_pair c d :
  0 <= c < two32 -> 0 <= d < two32 -> hi32 (c + two32 * d) = d.
Proof.
  intros Hc Hd. unfold hi32. replace (c + two32 * d) with (d * two32 + c) by lia.
  rewrite Z.div_add_l by (unfold two32; lia).
  rewrite (Z.div_small c) by lia. rewrite Z.add_0_r. apply Z.mod_small. exact Hd.
Qed.

(** One attempt: either the quotient is replaced by its exact quotient by
    [ulDen] and the scale lowered, or nothing changes. *)
Lemma try_unscale_value ulDen power q0 q1 q2 q3 tl iScale :
  0 <= q0 < two32 -> 0 <= q1 < two32 -> 0 <= q2 < two32 -> 0 < ulDen < two32 ->
  exists (kept : bool) r0 r1 r2,
    Div.try_unscale ulDen power (q0 :: q1 :: q2 :: q3 :: tl) iScale
    = (kept, r0 :: r1 :: r2 :: q3 :: tl, if kept then iScale - power else iScale)
    /\ (0 <= r0 < two32) /\ (0 <= r1 < two32) /\ (0 <= r2 < two32)
    /\ (r0 + two32 * r1 + two64 * r2) * (if kept then ulDen else 1)
       = q0 + two32 * q1 + two64 * q2
    /\ (kept = false -> (q0 + two32 * q1 + two64 * q2) mod ulDen <> 0).
Proof.
  intros H0 H1 H2 Hd. unfold Div.try_unscale. cbv zeta.
  rewrite get64_0, get64_2. rewrite (low32_word_pair q2 q3 H2).
  change (set64 [0; 0; 0; 0] 0 (q0 + two32 * q1))
    with [low32 (q0 + two32 * q1); hi32 (q0 + two32 * q1); 0; 0].
  rewrite (low32_word_pair q0 q1 H0), (hi32_word_pair q0 q1 H0 H1).
  rewrite set_2.
  destruct (Div96By32_x64_spec q0 q1 q2 [0] ulDen H0 H1 H2 Hd)
    as (r0 & r1 & r2 & Ed & R0 & R1 & R2 & Eq).
  rewrite Ed.
  set (v := q0 + two32 * q1 + two64 * q2) in *.
  pose proof (Z.div_mod v ulDen ltac:(lia)) as Dv.
  destruct (Z.eqb_spec (v mod ulDen) 0) as [Ez | Enz].
  - exists true, r0, r1, r2.
    rewrite get64_0, get64_2.
    rewrite (low32_word_pair r2 0 R2).
    rewrite set64_0, set_2.
    rewrite (low32_word_pair r0 r1 R0), (hi32_word_pair r0 r1 R0 R1).
    split; [reflexivity|].
    repeat split; try lia; try discriminate.
  - exists false, q0, q1, q2.
    split; [reflexivity|].
    repeat split; try lia.
Qed.

Lemma low_bits_of_multiple a b c l m d :
  (a + two32 * b + two64 * c) mod d = 0 ->
  (d = 100000000 /\ m = 255) \/ (d = 10000 /\ m = 15) \/ (d = 100 /\ m = 3)
  \/ (d = 10 /\ m = 1) ->
  Z.land (get64 (a :: b :: l) 0) m = 0.
Proof.
  intros Hv Hd. rewrite get64_0.
  destruct Hd as [[-> ->] | [[-> ->] | [[-> ->] | [-> ->]]]].
  - change 255 with (Z.ones 8). rewrite Z.land_ones by lia.
    change (2 ^ 8) with 256. unfold two32, two64 in *.
    Z.to_euclidean_division_equations. lia.
  - change 15 with (Z.ones 4). rewrite Z.land_ones by lia.
    change (2 ^ 4) with 16. unfold two32, two64 in *.
    Z.to_euclidean_division_equations. lia.
  - change 3 with (Z.ones 2). rewrite Z.land_ones by lia.
    change (2 ^ 2) with 4. unfold two32, two64 in *.
    Z.to_euclidean_division_equations. lia.
  - change (Z.land (a + two32 * b) 1) with (Z.land (a + two32 * b) (Z.ones 1)).
    rewrite Z.land_ones by lia.
    change (2 ^ 1) with 2. unfold two32, two64 in *.
    Z.to_euclidean_division_equations. lia.
Qed.

Lemma multiple_of_square v k p :
  0 < p -> v = k * 10 ^ p -> k mod 10 ^ p = 0 -> v mod 10 ^ (2 * p) = 0.
Proof.
  intros Hp Ev Hk.
  apply Z.mod_divide in Hk; [|apply Z.pow_nonzero; lia].
  destruct Hk as [j Hj]. subst k v.
  replace (2 * p) with (p + p) by lia. rewrite Z.pow_add_r by lia.
  replace (j * 10 ^ p * 10 ^ p) with (j * (10 ^ p * 10 ^ p)) by ring.
  apply Z.mod_mul.
  assert (0 < 10 ^ p) by (apply Z.pow_pos_nonneg; lia). nia.
Qed.

(** What the trimming keeps: the words stay within their width and the
    value times the power of ten of the scale stays the same; and what it
    reaches: no factor of ten is left unless the scale is used up. *)
Lemma unscale_spec_aux rounds a b c d tl iScale q' s' :
  0 <= a < two32 -> 0 <= b < two32 -> 0 <= c < two32 -> 0 <= iScale ->
  Div.unscale rounds (a :: b :: c :: d :: tl) iScale = Some (q', s') ->
  exists a' b' c',
    q' = a' :: b' :: c' :: d :: tl
    /\ (0 <= a' < two32) /\ (0 <= b' < two32) /\ (0 <= c' < two32)
    /\ (a' + two32 * b' + two64 * c') * 10 ^ (iScale - s')
       = a + two32 * b + two64 * c
    /\ 0 <= s' <= iScale
    /\ (s' = 0 \/ (a' + two32 * b' + two64 * c') mod 10 <> 0).
Proof.
  intros Ha Hb Hc Hs H.
  set (V := a + two32 * b + two64 * c).
  (* [Inv p x]: words in range, value kept, and no factor [10^p] left
     that the scale allows to take out ([p = 0]: nothing known). *)
  set (Inv := fun (p : Z) (x : list Z * Z) =>
                exists a1 b1 c1, fst x = a1 :: b1 :: c1 :: d :: tl
                   /\ (0 <= a1 < two32) /\ (0 <= b1 < two32) /\ (0 <= c1 < two32)
                   /\ (a1 + two32 * b1 + two64 * c1) * 10 ^ (iScale - snd x) = V
                   /\ 0 <= snd x <= iScale
                   /\ (p = 0 \/ snd x < p
                       \/ (a1 + two32 * b1 + two64 * c1) mod 10 ^ p <> 0)).
  assert (Hstep : forall ulDen power m p2 q s,
             (ulDen = 100000000 /\ m = 255 /\ power = 8)
             \/ (ulDen = 10000 /\ m = 15 /\ power = 4)
             \/ (ulDen = 100 /\ m = 3 /\ power = 2)
             \/ (ulDen = 10 /\ m = 1 /\ power = 1) ->
             p2 = 0 \/ p2 = 2 * power ->
             Inv p2 (q, s) ->
             forall (kept : bool) qn sn,
               (if (Z.land (get64 q 0) m =? 0) && (s >=? power)
                then Div.try_unscale ulDen power q s
                else (false, q, s)) = (kept, qn, sn) ->
               Inv (if kept then (if p2 =? 0 then 0 else power) else power) (qn, sn)).
  { intros ulDen power m p2 q s Hk Hp2 (a1 & b1 & c1 & Eq & A1 & B1 & C1 & HV & Hs1 & HP)
      kept qn sn Hr.
    cbn [fst snd] in *. subst q.
    assert (Hd : 0 < ulDen < two32 /\ ulDen = 10 ^ power /\ 0 < power).
    { unfold two32.
      destruct Hk as [(-> & _ & ->) | [(-> & _ & ->) | [(-> & _ & ->) | (-> & _ & ->)]]];
        repeat split; try lia; reflexivity. }
    destruct Hd as (Hd & Ed & Hpw).
    assert (Hm : (a1 + two32 * b1 + two64 * c1) mod ulDen = 0 ->
                 Z.land (get64 (a1 :: b1 :: c1 :: d :: tl) 0) m = 0).
    { intros Hz. apply (low_bits_of_multiple a1 b1 c1 _ m ulDen Hz).
      destruct Hk as [(-> & -> & _) | [(-> & -> & _) | [(-> & -> & _) | (-> & -> & _)]]];
        auto. }
    destruct ((Z.land (get64 (a1 :: b1 :: c1 :: d :: tl) 0) m =? 0) && (s >=? power))
      eqn:Ec.
    - apply andb_prop in Ec; destruct Ec as [_ Ec].
      destruct (try_unscale_value ulDen power a1 b1 c1 d tl s A1 B1 C1 Hd)
        as (k & r0 & r1 & r2 & Et & R0 & R1 & R2 & Ev & Hnk).
      rewrite Et in Hr. inversion Hr; subst kept qn sn. clear Hr.
      unfold Inv. cbn [fst snd].
      exists r0, r1, r2.
      destruct k.
      + split; [reflexivity|]. split; [exact R0|]. split; [exact R1|].
        split; [exact R2|].
        split.
        { etransitivity; [|exact HV]. rewrite <- Ev, Ed.
          replace (iScale - (s - power)) with (power + (iScale - s)) by lia.
          rewrite Z.pow_add_r by lia. ring. }
        split; [lia|].
        destruct Hp2 as [-> | ->]; [left; reflexivity|].
        replace (2 * power =? 0) with false by lia.
        destruct HP as [HP | [HP | HP]]; [lia | right; left; lia |].
        right; right. intros Hz. apply HP.
        apply (multiple_of_square _ (r0 + two32 * r1 + two64 * r2) power Hpw);
          [rewrite <- Ev, Ed; reflexivity | exact Hz].
      + assert (E3 : r0 + two32 * r1 + two64 * r2 = a1 + two32 * b1 + two64 * c1) by lia.
        split; [reflexivity|]. split; [exact R0|]. split; [exact R1|].
        split; [exact R2|].
        split; [rewrite E3; exact HV|].
        split; [lia|].
        right; right. rewrite E3, <- Ed. apply Hnk. reflexivity.
    - inversion Hr; subst kept qn sn. clear Hr.
      unfold Inv. cbn [fst snd].
      exists a1, b1, c1.
      split; [reflexivity|]. split; [exact A1|]. split; [exact B1|].
      split; [exact C1|]. split; [exact HV|]. split; [lia|].
      apply andb_false_elim in Ec. destruct Ec as [Ec | Ec].
      + right; right. rewrite <- Ed. intros Hz. apply Hm in Hz.
        rewrite Hz in Ec. discriminate.
      + right; left. lia. }
  assert (H0 : Inv 0 (a :: b :: c :: d :: tl, iScale)).
  { unfold Inv. cbn [fst snd]. exists a, b, c.
    split; [reflexivity|]. split; [exact Ha|]. split; [exact Hb|]. split; [exact Hc|].
    split; [rewrite Z.sub_diag; change (10 ^ 0) with 1; unfold V; lia|].
    split; [lia | left; reflexivity]. }
  unfold Div.unscale in H. inv_bind H. destruct a0 as [q8 s8].
  assert (H8 : Inv 8 (q8, s8)).
  { unfold Div.unscale8 in E.
    refine (iterate_inv (Inv 0) (Inv 8) _ _ _ rounds _ _ H0 E).
    - intros [q s] [q1 s1] Hi Hbody.
      pose proof (Hstep 100000000 8 255 0 q s ltac:(auto) ltac:(auto) Hi) as Hn.
      destruct ((Z.land (get64 q 0) 255 =? 0) && (s >=? 8)); [|discriminate].
      destruct (Div.try_unscale 100000000 8 q s) as [[kept qn] sn].
      destruct kept; inversion Hbody; subst.
      exact (Hn true q1 s1 eq_refl).
    - intros [q s] [q1 s1] Hi Hbody.
      pose proof (Hstep 100000000 8 255 0 q s ltac:(auto) ltac:(auto) Hi) as Hn.
      destruct ((Z.land (get64 q 0) 255 =? 0) && (s >=? 8)).
      + destruct (Div.try_unscale 100000000 8 q s) as [[kept qn] sn].
        destruct kept; inversion Hbody; subst.
        exact (Hn false q1 s1 eq_refl).
      + inversion Hbody; subst. exact (Hn false q1 s1 eq_refl). }
  assert (Hnext : forall ulDen power m q s,
             (ulDen = 100000000 /\ m = 255 /\ power = 8)
             \/ (ulDen = 10000 /\ m = 15 /\ power = 4)
             \/ (ulDen = 100 /\ m = 3 /\ power = 2)
             \/ (ulDen = 10 /\ m = 1 /\ power = 1) ->
             Inv (2 * power) (q, s) ->
             Inv power
               (if (Z.land (get64 q 0) m =? 0) && (s >=? power)
                then let '(_, q1, s1) := Div.try_unscale ulDen power q s in (q1, s1)
                else (q, s))).
  { intros ulDen power m q s Hk Hi.
    assert (Hpw : 0 < power)
      by (destruct Hk as [(_ & _ & ->) | [(_ & _ & ->) | [(_ & _ & ->) | (_ & _ & ->)]]];
          lia).
    pose proof (Hstep ulDen power m (2 * power) q s Hk ltac:(auto) Hi) as Hn.
    destruct ((Z.land (get64 q 0) m =? 0) && (s >=? power)).
    - destruct (Div.try_unscale ulDen power q s) as [[kept qn] sn].
      specialize (Hn kept qn sn eq_refl).
      replace (2 * power =? 0) with false in Hn by lia.
      destruct kept; exact Hn.
    - exact (Hn false q s eq_refl). }
  pose proof (Hnext 10000 4 15 q8 s8 ltac:(auto) H8) as H4.
  destruct (if (Z.land (get64 q8 0) 15 =? 0) && (s8 >=? 4)
            then let '(_, q1, s1) := Div.try_unscale 10000 4 q8 s8 in (q1, s1)
            else (q8, s8)) as [q4 s4].
  pose proof (Hnext 100 2 3 q4 s4 ltac:(auto 6) H4) as H2.
  destruct (if (Z.land (get64 q4 0) 3 =? 0) && (s4 >=? 2)
            then let '(_, q1, s1) := Div.try_unscale 100 2 q4 s4 in (q1, s1)
            else (q4, s4)) as [q2 s2].
  pose proof (Hnext 10 1 1 q2 s2 ltac:(auto 6) H2) as H1.
  destruct (if (Z.land (get64 q2 0) 1 =? 0) && (s2 >=? 1)
            then let '(_, q1, s1) := Div.try_unscale 10 1 q2 s2 in (q1, s1)
            else (q2, s2)) as [q1 s1].
  inversion H; subst.
  destruct H1 as (a1 & b1 & c1 & Eq & A1 & B1 & C1 & HV & Hs1 & HP).
  cbn [fst snd] in *.
  exists a1, b1, c1.
  split; [exact Eq|]. split; [exact A1|]. split; [exact B1|]. split; [exact C1|].
  split; [exact HV|]. split; [exact Hs1|].
  change (10 ^ 1) with 10 in HP.
  destruct HP as [HP | [HP | HP]]; [lia | left; lia | right; exact HP].
Qed.

(** * The callers in decimal.cpp *)

Lemma callers_agree_aux rounds L R res0 bSign :
  (forall d,
      (DoMultiplyThrow rounds L R res0 = Some (Stored d)
       <-> DoMultiply rounds L R res0 = Some (Returned d false))
      /\ (DoAddSubThrow rounds L R res0 bSign = Some (Stored d)
          <-> DoAddSub rounds L R res0 bSign = Some (Returned d false))
      /\ (DoDivideThrow rounds L R res0 = Some (Stored d)
          <-> DoDivide rounds L R res0 = Some (Returned d false)))
  /\ (DoMultiplyThrow rounds L R res0 = Some Throw_Overflow
      <-> DoMultiply rounds L R res0 = Some (Returned L true))
  /\ (DoAddSubThrow rounds L R res0 bSign = Some Throw_Overflow
      <-> DoAddSub rounds L R res0 bSign = Some (Returned L true))
  /\ (DoDivideThrow rounds L R res0 = Some Throw_Overflow
      <-> DoDivide rounds L R res0 = Some (Returned L true))
  /\ (DoDivideThrow rounds L R res0 = Some Throw_DivideByZero
      <-> DoDivide rounds L R res0 = Some Thrown_DivideByZero)
  /\ (forall d, DoMultiply rounds L R res0 = Some (Returned d true) -> d = L)
  /\ (forall d, DoAddSub rounds L R res0 bSign = Some (Returned d true) -> d = L)
  /\ (forall d, DoDivide rounds L R res0 = Some (Returned d true) -> d = L).
Proof.
  unfold DoMultiplyThrow, DoMultiply, DoAddSubThrow, DoAddSub, DoDivideThrow, DoDivide.
  destruct (DecimalMul rounds L R res0) as [[hm dm]|];
    destruct (DecimalAddSub rounds L R res0 bSign) as [[ha da]|];
    destruct (DecimalDiv rounds L R res0) as [[hd dd]|];
    cbn [bind FAILED];
    try destruct hm; try destruct ha; try destruct hd; cbn [FAILED];
    repeat split; intros; try discriminate; try congruence;
    try (match goal with H : Some _ = Some _ |- _ => inversion H; subst end;
         reflexivity).
Qed.

(** * DecimalMul: the order of the operands *)

Lemma sum_words_comm x y t :
  u64 (0 + x + u64 (0 + y + t)) = u64 (0 + y + u64 (0 + x + t)).
Proof.
  unfold u64. rewrite !Z.add_0_l.
  rewrite Zplus_mod_idemp_r, (Zplus_mod_idemp_r (x + t)). f_equal. lia.
Qed.

Lemma carries_comm x y t :
  (0 + x + u64 (0 + y + t)) / two64 + (0 + y + t) / two64
  = (x + y + t) / two64.
Proof.
  unfold u64. rewrite !Z.add_0_l.
  pose proof (Z.div_mod (y + t) two64 ltac:(discriminate)) as E.
  set (q := (y + t) / two64) in *. set (r := (y + t) mod two64) in *.
  replace (x + y + t) with (q * two64 + (x + r)) by lia.
  rewrite Z.div_add_l by discriminate. lia.
Qed.

Lemma top_word_comm x y t h1 h2 p :
  u64 ((0 + x + u64 (0 + y + t)) / two64 + h1
       + u64 ((0 + y + t) / two64 + h2 + p))
  = u64 ((0 + y + u64 (0 + x + t)) / two64 + h2
         + u64 ((0 + x + t) / two64 + h1 + p)).
Proof.
  pose proof (carries_comm x y t) as E1. pose proof (carries_comm y x t) as E2.
  replace (y + x + t) with (x + y + t) in E2 by lia.
  unfold u64 in *. rewrite Zplus_mod_idemp_r, (Zplus_mod_idemp_r _ (_ + h2)).
  f_equal. lia.
Qed.

Lemma DecimalMul_comm_aux rounds L R res0 :
  DecimalMul rounds L R res0 = DecimalMul rounds R L res0.
Proof.
  unfold DecimalMul, DecimalMul_finish, Mul64By64, Mul64By32, Mul32By32, AddCarry64.
  cbv zeta.
  rewrite (Z.lor_comm (DECIMAL_HI32 R) (DECIMAL_HI32 L)).
  rewrite (Z.add_comm (scale R) (scale L)).
  rewrite (Z.mul_comm (low64 R) (low64 L)).
  rewrite (Z.mul_comm (DECIMAL_HI32 R) (DECIMAL_HI32 L)).
  rewrite (Z.lxor_comm (sign R) (sign L)).
  rewrite (sum_words_comm (u64 (low64 R * DECIMAL_HI32 L))
             (u64 (low64 L * DECIMAL_HI32 R))).
  rewrite (top_word_comm (u64 (low64 R * DECIMAL_HI32 L))
             (u64 (low64 L * DECIMAL_HI32 R))).
  reflexivity.
Qed.

(** * The exits of DecimalMul *)

Lemma finish_sign_mul L R pRes iScale r :
  DecimalMul_finish L R pRes iScale = Some (NOERROR, r) ->
  sign r = u8 (Z.lxor (sign L) (sign R)).
Proof.
  unfold DecimalMul_finish. cbv zeta. intros H. inversion H; subst. reflexivity.
Qed.

(** DecimalMul either leaves through [ReturnZero], exactly on the inputs of
    [ReturnZero_exit], or every result it reports carries the exclusive or
    of the signs. *)
Lemma DecimalMul_exits rounds L R res0 :
  0 <= Hi32 L < two32 -> 0 <= Lo64 L < two64 ->
  0 <= Hi32 R < two32 -> 0 <= Lo64 R < two64 ->
  (ReturnZero_exit L R
   /\ DecimalMul rounds L R res0 = Some (NOERROR, DECIMAL_SETZERO))
  \/ (~ ReturnZero_exit L R
      /\ forall r, DecimalMul rounds L R res0 = Some (NOERROR, r) ->
                   sign r = u8 (Z.lxor (sign L) (sign R))).
Proof.
  intros HhL HlL HhR HlR.
  unfold ReturnZero_exit, DecimalMul, DECIMAL_HI32, low64, DEC_SCALE_MAX. cbv zeta.
  destruct (Z.lor (Hi32 L) (Hi32 R) =? 0) eqn:Ehi.
  - (* both operands within 64 bits *)
    destruct (lor_zero _ _ (proj1 HhL) (proj1 HhR) Ehi) as [EL ER].
    unfold Mul64By64. cbv zeta.
    set (P := Lo64 L * Lo64 R) in *.
    assert (HP : 0 <= P < two64 * two64) by (unfold P, two64 in *; nia).
    pose proof (Z.div_mod P two64 ltac:(unfold two64; lia)) as DP.
    pose proof (Z.mod_pos_bound P two64 ltac:(unfold two64; lia)) as BP.
    assert (Hq : 0 <= P / two64 < two64) by (unfold two64 in *; lia).
    rewrite (u64_small (P / two64)) by lia.
    destruct (P / two64 =? 0) eqn:Eq.
    + apply Z.eqb_eq in Eq.
      destruct (Z.gtb_spec (scale L + scale R) 28) as [C28 | C28].
      * destruct (Z.gtb_spec (scale L + scale R - 28) 19) as [C19 | C19].
        -- left. split; [|reflexivity].
           left. repeat split; try assumption; unfold two64 in *; lia.
        -- right. split.
           ++ intros [(_ & _ & _ & H) | ([H | H] & _)]; [lia | contradiction | contradiction].
           ++ intros r. unfold DivMod64By64. cbv zeta. apply finish_sign_mul.
      * right. split.
        -- intros [(_ & _ & _ & H) | ([H | H] & _)]; [lia | contradiction | contradiction].
        -- intros r. apply finish_sign_mul.
    + apply Z.eqb_neq in Eq. right. split.
      * intros [(_ & _ & H & _) | ([H | H] & _)]; [|contradiction | contradiction].
        apply Eq. apply Z.div_small. lia.
      * intros r H. inv_bind H. destruct a as [sc arr].
        destruct (sc =? -1); [discriminate|].
        eapply finish_sign_mul; eassumption.
  - (* the general product *)
    pose proof (lor_nonzero _ _ Ehi) as Hnz.
    unfold Mul64By64, Mul64By32, Mul32By32, AddCarry64. cbv zeta.
    set (lL := Lo64 L) in *. set (lR := Lo64 R) in *.
    set (hL := Hi32 L) in *. set (hR := Hi32 R) in *.
    set (A := lL * lR). set (B := lL * hR). set (C := lR * hL). set (D := hL * hR).
    assert (HA : 0 <= A < two64 * two64) by (unfold A, two64 in *; nia).
    assert (HB : 0 <= B < two32 * two64) by (unfold B, two32, two64 in *; nia).
    assert (HC : 0 <= C < two32 * two64) by (unfold C, two32, two64 in *; nia).
    assert (HD : 0 <= D <= (two32 - 1) * (two32 - 1)) by (unfold D, two32 in *; nia).
    assert (EP : mantissa L * mantissa R = A + two64 * (B + C) + two64 * two64 * D).
    { unfold mantissa, A, B, C, D. fold lL lR hL hR. ring. }
    assert (HPb : mantissa L * mantissa R < two96 * two96).
    { pose proof (mantissa_range L HhL HlL). pose proof (mantissa_range R HhR HlR).
      unfold two96 in *. nia. }
    rewrite EP in HPb |- *.
    pose proof (Z.div_mod A two64 ltac:(unfold two64; lia)) as DA.
    pose proof (Z.mod_pos_bound A two64 ltac:(unfold two64; lia)) as BA.
    pose proof (Z.div_mod B two64 ltac:(unfold two64; lia)) as DB.
    pose proof (Z.mod_pos_bound B two64 ltac:(unfold two64; lia)) as BB.
    pose proof (Z.div_mod C two64 ltac:(unfold two64; lia)) as DC.
    pose proof (Z.mod_pos_bound C two64 ltac:(unfold two64; lia)) as BC.
    fold (u64 A) in DA, BA. fold (u64 B) in DB, BB. fold (u64 C) in DC, BC.
    assert (QA : 0 <= A / two64 < two64) by (unfold two64 in *; lia).
    assert (QB : 0 <= B / two64 < two32) by (unfold two32, two64 in *; lia).
    assert (QC : 0 <= C / two64 < two32) by (unfold two32, two64 in *; lia).
    rewrite (u64_small (A / two64)) by lia.
    rewrite (u32_small (B / two64)) by lia.
    rewrite (u32_small (C / two64)) by lia.
    replace (0 + u64 B + A / two64) with (u64 B + A / two64) by lia.
    set (s1 := u64 B + A / two64).
    destruct (div_small_carry s1 two64) as [C1 E1]; [reflexivity | unfold s1; lia |].
    pose proof (Z.mod_pos_bound s1 two64 ltac:(reflexivity)) as B1.
    fold (u64 s1) in E1, B1.
    set (c1 := s1 / two64) in *.
    rewrite (u64_small (c1 + B / two64 + D)) by (unfold two32, two64 in *; lia).
    replace (0 + u64 C + u64 s1) with (u64 C + u64 s1) by lia.
    set (s2 := u64 C + u64 s1).
    destruct (div_small_carry s2 two64) as [C2 E2]; [reflexivity | unfold s2; lia |].
    pose proof (Z.mod_pos_bound s2 two64 ltac:(reflexivity)) as B2.
    fold (u64 s2) in E2, B2.
    set (c2 := s2 / two64) in *.
    assert (Htop : 0 <= c2 + C / two64 + (c1 + B / two64 + D) < two64)
      by (unfold s2, s1, two32, two64, two96 in *; lia).
    rewrite (u64_small (c2 + C / two64 + (c1 + B / two64 + D))) by exact Htop.
    set (top := c2 + C / two64 + (c1 + B / two64 + D)) in *.
    assert (Erepr : A + two64 * (B + C) + two64 * two64 * D
                    = u64 A + two64 * u64 s2 + two64 * two64 * top).
    { unfold top, s2, s1 in *. unfold two64 in *. lia. }
    rewrite Erepr.
    assert (Hsum : forall r,
               (' (iScale, rgulProd) <-
                  ScaleResult rounds [u64 A; u64 s2; top]
                    (if negb (top =? 0) then 2
                     else if negb (u64 s2 =? 0) then 1
                     else if negb (u64 A =? 0) then 0 else -1)
                    (scale L + scale R) ;;
                if iScale =? -1 then Some (DISP_E_OVERFLOW, res0)
                else
                  DecimalMul_finish L R
                    (set_hi32_dec (set_low64 res0 (get rgulProd 0)) (u32 (get rgulProd 1)))
                    iScale)
               = Some (NOERROR, r) ->
               sign r = u8 (Z.lxor (sign L) (sign R))).
    { intros r H. inv_bind H. destruct a as [sc arr].
      destruct (sc =? -1); [discriminate|].
      eapply finish_sign_mul; eassumption. }
    list_norm.
    destruct (top =? 0) eqn:Et; [apply Z.eqb_eq in Et | apply Z.eqb_neq in Et].
    + destruct (u64 s2 =? 0) eqn:E5; [apply Z.eqb_eq in E5 | apply Z.eqb_neq in E5].
      * destruct (u64 A =? 0) eqn:E0; [apply Z.eqb_eq in E0 | apply Z.eqb_neq in E0].
        -- left. cbn [negb]. change (-1 <? 0) with true. cbv iota.
           split; [|reflexivity]. right. split; [exact Hnz | lia].
        -- right. cbn [negb] in *. change (0 <? 0) with false. cbv iota.
           split; [|exact Hsum].
           intros [(H1 & H2 & _) | (_ & H)];
             [destruct Hnz; contradiction | unfold two64 in *; lia].
      * right. cbn [negb] in *. change (1 <? 0) with false. cbv iota.
        split; [|exact Hsum].
        intros [(H1 & H2 & _) | (_ & H)];
          [destruct Hnz; contradiction | unfold two64 in *; lia].
    + right. cbn [negb] in *. change (2 <? 0) with false. cbv iota.
      split; [|exact Hsum].
      intros [(H1 & H2 & _) | (_ & H)];
        [destruct Hnz; contradiction | unfold two64 in *; lia].
Qed.

(** ** C5, amended: the sign of products and quotients *)

(** C5, amended: whenever DecimalDiv succeeds the sign byte it stores is
    sign(L) XOR sign(R).  DecimalMul leaves through its return-zero exit
    exactly when both operands and their product are within 64 bits and
    the product would have to be divided by more than 10^19, or when an
    operand is wider than 64 bits and the product is zero; it then stores
    the all-zero value (sign clear).  On every other input, whenever
    DecimalMul succeeds the sign byte it stores is sign(L) XOR sign(R). *)
Theorem sign_of_quotient_and_product rounds L R res0 r :
  0 <= sign L < two8 -> 0 <= sign R < two8 ->
  (DecimalDiv rounds L R res0 = Some (NOERROR, r) -> sign r = Z.lxor (sign L) (sign R))
  /\ (0 <= Hi32 L < two32 -> 0 <= Lo64 L < two64 ->
      0 <= Hi32 R < two32 -> 0 <= Lo64 R < two64 ->
      (ReturnZero_exit L R ->
       DecimalMul rounds L R res0 = Some (NOERROR, DECIMAL_SETZERO))
      /\ (~ ReturnZero_exit L R ->
          DecimalMul rounds L R res0 = Some (NOERROR, r) ->
          sign r = Z.lxor (sign L) (sign R))).
Proof.
  intros HL HR. rewrite <- (byte_lxor _ _ HL HR).
  split; [apply DecimalDiv_sign|].
  intros HhL HlL HhR HlR.
  destruct (DecimalMul_exits rounds L R res0 HhL HlL HhR HlR) as [[Hc E] | [Hn Hs]].
  - split; [intros _; exact E | intros Hn; contradiction].
  - split; [intros Hc; contradiction | intros _ H; exact (Hs r H)].
Qed.

Lemma sign_of_quotient_and_product_witness :
  (0 <= sign (decimal_of 128 6 0) < two8) /\ (0 <= sign (decimal_of 0 3 1) < two8)
  /\ DecimalDiv 64%nat (decimal_of 128 6 0) (decimal_of 0 3 1) DECIMAL_SETZERO
     = Some (NOERROR, mkDECIMAL 0 0 128 0 20)
  /\ sign (mkDECIMAL 0 0 128 0 20)
     = Z.lxor (sign (decimal_of 128 6 0)) (sign (decimal_of 0 3 1))
  /\ (0 <= Hi32 (decimal_of 128 6 0) < two32) /\ (0 <= Lo64 (decimal_of 128 6 0) < two64)
  /\ (0 <= Hi32 (decimal_of 0 3 1) < two32) /\ (0 <= Lo64 (decimal_of 0 3 1) < two64)
  /\ ~ ReturnZero_exit (decimal_of 128 6 0) (decimal_of 0 3 1)
  /\ DecimalMul 64%nat (decimal_of 128 6 0) (decimal_of 0 3 1) DECIMAL_SETZERO
     = Some (NOERROR, mkDECIMAL 0 1 128 0 18)
  /\ sign (mkDECIMAL 0 1 128 0 18)
     = Z.lxor (sign (decimal_of 128 6 0)) (sign (decimal_of 0 3 1)).
Proof.
  assert (H1 : 0 <= sign (decimal_of 128 6 0) < two8) by (cbn; unfold two8; lia).
  assert (H2 : 0 <= sign (decimal_of 0 3 1) < two8) by (cbn; unfold two8; lia).
  assert (Hd : DecimalDiv 64%nat (decimal_of 128 6 0) (decimal_of 0 3 1) DECIMAL_SETZERO
               = Some (NOERROR, mkDECIMAL 0 0 128 0 20)) by (vm_compute; reflexivity).
  assert (W1 : 0 <= Hi32 (decimal_of 128 6 0) < two32) by (vm_compute; split; discriminate || reflexivity).
  assert (W2 : 0 <= Lo64 (decimal_of 128 6 0) < two64) by (vm_compute; split; discriminate || reflexivity).
  assert (W3 : 0 <= Hi32 (decimal_of 0 3 1) < two32) by (vm_compute; split; discriminate || reflexivity).
  assert (W4 : 0 <= Lo64 (decimal_of 0 3 1) < two64) by (vm_compute; split; discriminate || reflexivity).
  assert (Hn : ~ ReturnZero_exit (decimal_of 128 6 0) (decimal_of 0 3 1)).
  { intros [(_ & _ & _ & H) | (_ & H)]; vm_compute in H; discriminate. }
  assert (Hm : DecimalMul 64%nat (decimal_of 128 6 0) (decimal_of 0 3 1) DECIMAL_SETZERO
               = Some (NOERROR, mkDECIMAL 0 1 128 0 18)) by (vm_compute; reflexivity).
  refine (conj H1 (conj H2 (conj Hd (conj _ (conj W1 (conj W2 (conj W3 (conj W4
            (conj Hn (conj Hm _)))))))))).
  - exact (proj1 (sign_of_quotient_and_product 64%nat _ _ _ _ H1 H2) Hd).
  - exact (proj2 (proj2 (sign_of_quotient_and_product 64%nat _ _ DECIMAL_SETZERO _ H1 H2)
                    W1 W2 W3 W4) Hn Hm).
Defined.

(** * DecimalAddSub at unequal scales *)

Lemma power10_table k : 0 <= k <= 19 -> get rgulPower10_64 k = 10 ^ k.
Proof.
  intros Hk.
  pose proof (forall_below_spec 20 (fun k => get rgulPower10_64 k =? 10 ^ k)
                ltac:(vm_compute; reflexivity) k ltac:(cbn; lia)) as H.
  cbv beta in H. lia.
Qed.

Lemma pow10_range k : 0 <= k <= 19 -> 1 <= 10 ^ k < two64.
Proof.
  intros Hk. split.
  - pose proof (Z.pow_pos_nonneg 10 k). lia.
  - apply Z.le_lt_trans with (10 ^ 19); [|reflexivity].
    apply Z.pow_le_mono_r; lia.
Qed.

(** The operand scaled up by [10^k] still fits in 96 bits: the sum is
    made by [AlignedAdd] on the scaled operand. *)
Lemma ScaleUp_fits rounds k A B p bSign :
  0 <= Hi32 A < two32 -> 0 <= Lo64 A < two64 -> 0 <= k <= 19 ->
  mantissa A * 10 ^ k < two96 ->
  exists T,
    AddSub.ScaleUp rounds k A B p bSign = Some (AddSub.AlignedAdd T B p bSign)
    /\ mantissa T = mantissa A * 10 ^ k
    /\ (0 <= Hi32 T < two32) /\ (0 <= Lo64 T < two64).
Proof.
  intros Hh Hl Hk Hfit.
  pose proof (pow10_range k Hk) as HP.
  unfold AddSub.ScaleUp, POWER10_MAX64.
  replace (k <=? 19) with true by lia.
  rewrite (power10_table k Hk).
  set (P := 10 ^ k) in *.
  unfold Mul64By64, AddCarry64, low64, DECIMAL_HI32. cbv zeta.
  unfold mantissa in Hfit.
  set (h := Hi32 A) in *. set (l := Lo64 A) in *.
  assert (HhP : 0 <= h * P < two32) by (unfold two32, two64, two96 in *; nia).
  assert (HlP : 0 <= l * P < two64 * two64) by (unfold two64 in *; nia).
  pose proof (Z.div_mod (l * P) two64 ltac:(discriminate)) as E.
  pose proof (Z.mod_pos_bound (l * P) two64 ltac:(reflexivity)) as Hr.
  assert (Hq : 0 <= l * P / two64 < two64).
  { split; [apply Z.div_pos; lia | apply Z.div_lt_upper_bound; lia]. }
  set (q := l * P / two64) in *. set (r := (l * P) mod two64) in *.
  assert (Hsum : 0 <= h * P + q < two32) by (unfold two32, two64, two96 in *; nia).
  rewrite (u64_small q) by lia.
  rewrite (u64_small (h * P)) by (unfold two32, two64 in *; lia).
  replace (h * P / two64) with 0
    by (symmetry; apply Z.div_small; unfold two32, two64 in *; lia).
  change (u64 0) with 0.
  replace (0 + h * P + q) with (h * P + q) by lia.
  replace ((h * P + q) / two64) with 0
    by (symmetry; apply Z.div_small; unfold two32, two64 in *; lia).
  change (u64 (0 + 0 + 0)) with 0.
  rewrite (u64_small (h * P + q)) by (unfold two32, two64 in *; lia).
  list_norm. change (get [u64 (l * P); h * P + q; 0] 2) with 0.
  cbn [negb Z.eqb].
  unfold FitsIn32Bit, UINT32_MAX.
  replace (h * P + q <=? 4294967295) with true by (unfold two32 in *; lia).
  rewrite (u32_small (h * P + q)) by lia.
  eexists. split; [reflexivity|].
  unfold mantissa, u64. cbn [Hi32 Lo64]. fold r.
  repeat split; try lia.
Qed.

Lemma effective_sign_cases L R bSign :
  operand L -> operand R -> (bSign = 0 \/ bSign = DECIMAL_NEG) ->
  Z.lxor bSign (Z.land (Z.lxor (sign R) (sign L)) DECIMAL_NEG)
  = effective_sign L R bSign
  /\ (effective_sign L R bSign = 0 \/ effective_sign L R bSign = DECIMAL_NEG).
Proof.
  intros (_ & _ & _ & HgL) (_ & _ & _ & HgR) Hb. unfold effective_sign.
  destruct Hb as [-> | ->]; destruct HgL as [-> | ->]; destruct HgR as [-> | ->];
    cbn; auto.
Qed.

(** The left operand has the smaller scale: it is the one scaled up. *)
Lemma DecimalAddSub_scale_left rounds L R res0 bSign :
  operand L -> operand R -> scale L < scale R -> scale R - scale L <= 19 ->
  (bSign = 0 \/ bSign = DECIMAL_NEG) ->
  mantissa L * 10 ^ (scale R - scale L) < two96 ->
  exists T,
    DecimalAddSub rounds L R res0 bSign
    = Some (AddSub.AlignedAdd T R
              (mkDECIMAL (wReserved res0) (scale R) (sign L) (Hi32 res0) (Lo64 res0))
              (effective_sign L R bSign))
    /\ mantissa T = mantissa L * 10 ^ (scale R - scale L)
    /\ (0 <= Hi32 T < two32) /\ (0 <= Lo64 T < two64).
Proof.
  intros HL HR Hlt Hk Hb Hfit.
  pose proof HL as (HLh & HLl & HsL & HgL). pose proof HR as (HRh & HRl & HsR & HgR).
  destruct (effective_sign_cases L R bSign HL HR Hb) as [E _].
  unfold DEC_SCALE_MAX in *.
  unfold DecimalAddSub. cbv zeta. rewrite E.
  replace (scale R =? scale L) with false by lia.
  unfold set_scale, set_sign. cbn [wReserved scale sign Hi32 Lo64].
  rewrite !(u8_small (scale R)) by (unfold two8; lia).
  replace (scale R - scale L <? 0) with false by lia.
  replace (u8 (sign L)) with (sign L) by (destruct HgL as [-> | ->]; reflexivity).
  apply ScaleUp_fits; try assumption; lia.
Qed.

(** The right operand has the smaller scale: the operands are swapped. *)
Lemma DecimalAddSub_scale_right rounds L R res0 bSign :
  operand L -> operand R -> scale R < scale L -> scale L - scale R <= 19 ->
  (bSign = 0 \/ bSign = DECIMAL_NEG) ->
  mantissa R * 10 ^ (scale L - scale R) < two96 ->
  exists T,
    DecimalAddSub rounds L R res0 bSign
    = Some (AddSub.AlignedAdd T L
              (mkDECIMAL (wReserved res0) (scale L)
                 (Z.lxor (sign L) (effective_sign L R bSign))
                 (Hi32 res0) (Lo64 res0))
              (effective_sign L R bSign))
    /\ mantissa T = mantissa R * 10 ^ (scale L - scale R)
    /\ (0 <= Hi32 T < two32) /\ (0 <= Lo64 T < two64).
Proof.
  intros HL HR Hlt Hk Hb Hfit.
  pose proof HL as (HLh & HLl & HsL & HgL). pose proof HR as (HRh & HRl & HsR & HgR).
  destruct (effective_sign_cases L R bSign HL HR Hb) as [E He].
  unfold DEC_SCALE_MAX in *.
  unfold DecimalAddSub. cbv zeta. rewrite E.
  replace (scale R =? scale L) with false by lia.
  unfold set_scale, set_sign. cbn [wReserved scale sign Hi32 Lo64].
  rewrite !(u8_small (scale R)), !(u8_small (scale L)) by (unfold two8; lia).
  replace (scale R - scale L <? 0) with true by lia.
  replace (- (scale R - scale L)) with (scale L - scale R) by lia.
  replace (u8 (Z.lxor (u8 (sign L)) (effective_sign L R bSign)))
    with (Z.lxor (sign L) (effective_sign L R bSign))
    by (destruct HgL as [-> | ->]; destruct He as [-> | ->]; reflexivity).
  apply ScaleUp_fits; try assumption; lia.
Qed.

(** The two operands brought to the larger scale. *)
Lemma DecimalAddSub_unequal_difference_aux rounds L R res0 bSign :
  operand L -> operand R -> scale L <> scale R ->
  Z.abs (scale L - scale R) <= 19 ->
  (bSign = 0 \/ bSign = DECIMAL_NEG) ->
  effective_sign L R bSign <> 0 ->
  let a := mantissa L * 10 ^ (Z.max (scale L) (scale R) - scale L) in
  let b := mantissa R * 10 ^ (Z.max (scale L) (scale R) - scale R) in
  a < two96 -> b < two96 ->
  exists r,
    DecimalAddSub rounds L R res0 bSign = Some (NOERROR, r)
    /\ mantissa r = Z.abs (a - b)
    /\ scale r = Z.max (scale L) (scale R)
    /\ sign r = (if (a <? b) || ((a =? b) && (scale R <? scale L))
                 then Z.lxor (sign L) DECIMAL_NEG else sign L)
    /\ wReserved r = wReserved res0.
Proof.
  intros HL HR Hne Hk Hb He a b Ha Hb'.
  pose proof HL as (HLh & HLl & HsL & HgL). pose proof HR as (HRh & HRl & HsR & HgR).
  destruct (effective_sign_cases L R bSign HL HR Hb) as [_ Hcases].
  destruct Hcases as [Hz | Hn]; [contradiction|].
  unfold DEC_SCALE_MAX in *.
  destruct (Z.lt_ge_cases (scale L) (scale R)) as [Hlt | Hge].
  - assert (Em : Z.max (scale L) (scale R) = scale R) by lia.
    subst a b. rewrite Em in *. rewrite Z.sub_diag, Z.mul_1_r in *.
    destruct (DecimalAddSub_scale_left rounds L R res0 bSign HL HR Hlt
                ltac:(lia) Hb Ha) as (T & ET & MT & HTh & HTl).
    rewrite ET.
    destruct (AlignedAdd_sub_value T R
                (mkDECIMAL (wReserved res0) (scale R) (sign L) (Hi32 res0) (Lo64 res0))
                (effective_sign L R bSign) HTh HTl HRh HRl He)
      as (r & Er & Mr & Gr & Sr & Wr).
    exists r. rewrite Er. cbn [sign scale wReserved] in Gr, Sr, Wr.
    rewrite MT in Mr, Gr.
    repeat split; try assumption.
    rewrite Gr. replace (scale R <? scale L) with false by lia.
    rewrite andb_false_r, orb_false_r.
    destruct (_ <? _); [|reflexivity].
    destruct HgL as [-> | ->]; reflexivity.
  - assert (Hlt : scale R < scale L) by lia.
    assert (Em : Z.max (scale L) (scale R) = scale L) by lia.
    subst a b. rewrite Em in *. rewrite Z.sub_diag, Z.mul_1_r in *.
    destruct (DecimalAddSub_scale_right rounds L R res0 bSign HL HR Hlt
                ltac:(lia) Hb Hb') as (T & ET & MT & HTh & HTl).
    rewrite ET.
    destruct (AlignedAdd_sub_value T L
                (mkDECIMAL (wReserved res0) (scale L)
                   (Z.lxor (sign L) (effective_sign L R bSign))
                   (Hi32 res0) (Lo64 res0))
                (effective_sign L R bSign) HTh HTl HLh HLl He)
      as (r & Er & Mr & Gr & Sr & Wr).
    exists r. rewrite Er. cbn [sign scale wReserved] in Gr, Sr, Wr.
    rewrite MT in Mr, Gr.
    split; [reflexivity|]. split; [rewrite Mr; lia|].
    split; [assumption|]. split; [|assumption].
    rewrite Gr, Hn. replace (scale R <? scale L) with true by lia.
    rewrite andb_true_r.
    destruct (Z.ltb_spec (mantissa R * 10 ^ (scale L - scale R)) (mantissa L)) as [C|C].
    + replace (mantissa L <? mantissa R * 10 ^ (scale L - scale R)) with false by lia.
      replace (mantissa L =? mantissa R * 10 ^ (scale L - scale R)) with false by lia.
      destruct HgL as [-> | ->]; reflexivity.
    + replace ((mantissa L <? mantissa R * 10 ^ (scale L - scale R))
               || (mantissa L =? mantissa R * 10 ^ (scale L - scale R))) with true
        by lia.
      reflexivity.
Qed.

Lemma DecimalAddSub_unequal_sum_aux rounds L R res0 bSign :
  operand L -> operand R -> scale L <> scale R ->
  Z.abs (scale L - scale R) <= 19 ->
  (bSign = 0 \/ bSign = DECIMAL_NEG) ->
  effective_sign L R bSign = 0 ->
  let a := mantissa L * 10 ^ (Z.max (scale L) (scale R) - scale L) in
  let b := mantissa R * 10 ^ (Z.max (scale L) (scale R) - scale R) in
  a < two96 -> b < two96 ->
  exists r,
    DecimalAddSub rounds L R res0 bSign = Some (NOERROR, r)
    /\ (if a + b <? two96
        then mantissa r = a + b /\ scale r = Z.max (scale L) (scale R)
        else mantissa r = div10_half_even (a + b)
             /\ scale r = Z.max (scale L) (scale R) - 1)
    /\ sign r = sign L /\ wReserved r = wReserved res0.
Proof.
  intros HL HR Hne Hk Hb He a b Ha Hb'.
  pose proof HL as (HLh & HLl & HsL & HgL). pose proof HR as (HRh & HRl & HsR & HgR).
  unfold DEC_SCALE_MAX in *.
  assert (Hfin : forall T U sc,
             0 <= Hi32 T < two32 -> 0 <= Lo64 T < two64 ->
             0 <= Hi32 U < two32 -> 0 <= Lo64 U < two64 ->
             0 < sc < two8 ->
             exists r,
               AddSub.AlignedAdd T U
                 (mkDECIMAL (wReserved res0) sc (sign L) (Hi32 res0) (Lo64 res0)) 0
               = (NOERROR, r)
               /\ (if mantissa T + mantissa U <? two96
                   then mantissa r = mantissa T + mantissa U /\ scale r = sc
                   else mantissa r = div10_half_even (mantissa T + mantissa U)
                        /\ scale r = sc - 1)
               /\ sign r = sign L /\ wReserved r = wReserved res0).
  { intros T U sc HTh HTl HUh HUl Hsc.
    destruct (AlignedAdd_add_value T U
                (mkDECIMAL (wReserved res0) sc (sign L) (Hi32 res0) (Lo64 res0))
                HTh HTl HUh HUl ltac:(cbn [scale]; lia)) as (C1 & _ & C3).
    cbn [scale sign wReserved] in C1, C3.
    destruct (Z.ltb_spec (mantissa T + mantissa U) two96) as [C|C].
    - destruct (C1 C) as (r & Er & Mr & Gr & Sr & Wr).
      exists r. repeat split; assumption.
    - destruct (C3 C ltac:(lia)) as (r & Er & Mr & Gr & Sr & Wr).
      exists r. repeat split; assumption. }
  destruct (Z.lt_ge_cases (scale L) (scale R)) as [Hlt | Hge].
  - assert (Em : Z.max (scale L) (scale R) = scale R) by lia.
    subst a b. rewrite Em in *. rewrite Z.sub_diag, Z.mul_1_r in *.
    destruct (DecimalAddSub_scale_left rounds L R res0 bSign HL HR Hlt
                ltac:(lia) Hb Ha) as (T & ET & MT & HTh & HTl).
    rewrite ET, He.
    destruct (Hfin T R (scale R) HTh HTl HRh HRl ltac:(unfold two8; lia))
      as (r & Er & Mr & Gr & Wr).
    exists r. rewrite Er, MT in *. repeat split; assumption.
  - assert (Hlt : scale R < scale L) by lia.
    assert (Em : Z.max (scale L) (scale R) = scale L) by lia.
    subst a b. rewrite Em in *. rewrite Z.sub_diag, Z.mul_1_r in *.
    destruct (DecimalAddSub_scale_right rounds L R res0 bSign HL HR Hlt
                ltac:(lia) Hb Hb') as (T & ET & MT & HTh & HTl).
    rewrite ET, He. rewrite Z.lxor_0_r.
    destruct (Hfin T L (scale L) HTh HTl HLh HLl ltac:(unfold two8; lia))
      as (r & Er & Mr & Gr & Wr).
    exists r. rewrite Er, MT in *.
    rewrite (Z.add_comm (mantissa L)).
    repeat split; assumption.
Qed.

(** * Round trips *)

Lemma add_then_subtract_aux rounds L R res0 res1 :
  operand L -> operand R -> scale L = scale R ->
  (sign L = sign R -> mantissa L + mantissa R < two96) ->
  exists r r',
    DecimalAdd rounds L R res0 = Some (NOERROR, r)
    /\ DecimalSub rounds r R res1 = Some (NOERROR, r')
    /\ mantissa r' = mantissa L /\ scale r' = scale L
    /\ (mantissa L <> 0 \/ sign L = sign R -> sign r' = sign L).
Proof.
  intros HL HR Hs Hfit. unfold DecimalAdd, DecimalSub.
  pose proof HL as (HLh & HLl & HsL & HgL). pose proof HR as (HRh & HRl & HsR & HgR).
  pose proof (mantissa_range L HLh HLl) as HmL.
  pose proof (mantissa_range R HRh HRl) as HmR.
  assert (H0 : 0 = 0 \/ 0 = DECIMAL_NEG) by (left; reflexivity).
  assert (HN : DECIMAL_NEG = 0 \/ DECIMAL_NEG = DECIMAL_NEG) by (right; reflexivity).
  assert (Hop : forall r, DecimalAddSub rounds L R res0 0 = Some (NOERROR, r) ->
                          scale r = scale L -> operand r).
  { intros r Er Sr.
    destruct (DecimalAddSub_produced rounds L R res0 0 r HL HR H0 Er)
      as ((P1 & P2 & P3 & P4) & _).
    repeat split; try lia; assumption. }
  destruct (Z.eq_dec (sign L) (sign R)) as [Eg | Ng].
  - (* equal signs: the magnitudes are added, then subtracted *)
    assert (He : effective_sign L R 0 = 0).
    { unfold effective_sign. rewrite Eg, Z.lxor_nilpotent. reflexivity. }
    destruct (DecimalAddSub_sum_aux rounds L R res0 0 HL HR Hs H0 He) as (S1 & _).
    destruct (S1 (Hfit Eg)) as (r & Er & Mr & Gr & Sr & Wr).
    pose proof (Hop r Er Sr) as Hr.
    assert (He' : effective_sign r R DECIMAL_NEG <> 0).
    { unfold effective_sign. rewrite Gr, Eg, Z.lxor_nilpotent. discriminate. }
    destruct (DecimalAddSub_difference_aux rounds r R res1 DECIMAL_NEG Hr HR
                ltac:(congruence) HN He') as (r' & Er' & Mr' & Gr' & Sr' & Wr').
    exists r, r'. split; [exact Er|]. split; [exact Er'|].
    split; [rewrite Mr', Mr; lia|]. split; [congruence|].
    intros _. rewrite Gr'. replace (mantissa r <? mantissa R) with false by lia.
    exact Gr.
  - (* unequal signs: the magnitudes are subtracted *)
    assert (He : effective_sign L R 0 <> 0).
    { unfold effective_sign.
      destruct HgL as [E1 | E1]; destruct HgR as [E2 | E2]; rewrite E1, E2 in *;
        try congruence; discriminate. }
    destruct (DecimalAddSub_difference_aux rounds L R res0 0 HL HR Hs H0 He)
      as (r & Er & Mr & Gr & Sr & Wr).
    pose proof (Hop r Er Sr) as Hr.
    destruct (Z.ltb_spec (mantissa L) (mantissa R)) as [C | C].
    + (* the sum took the sign of R: R is subtracted from its magnitude *)
      assert (Gr2 : sign r = sign R).
      { rewrite Gr.
        destruct HgL as [E1 | E1]; destruct HgR as [E2 | E2]; rewrite E1, E2 in *;
          try congruence; reflexivity. }
      assert (He' : effective_sign r R DECIMAL_NEG <> 0).
      { unfold effective_sign. rewrite Gr2, Z.lxor_nilpotent. discriminate. }
      destruct (DecimalAddSub_difference_aux rounds r R res1 DECIMAL_NEG Hr HR
                  ltac:(congruence) HN He') as (r' & Er' & Mr' & Gr' & Sr' & Wr').
      exists r, r'. split; [exact Er|]. split; [exact Er'|].
      split; [rewrite Mr', Mr; lia|]. split; [congruence|].
      intros [Hnz | Heq]; [|contradiction].
      rewrite Gr'. replace (mantissa r <? mantissa R) with true by lia.
      rewrite Gr2.
      destruct HgL as [E1 | E1]; destruct HgR as [E2 | E2]; rewrite E1, E2 in *;
        try congruence; reflexivity.
    + (* the sum kept the sign of L: the magnitude of R is added back *)
      assert (He' : effective_sign r R DECIMAL_NEG = 0).
      { unfold effective_sign. rewrite Gr.
        destruct HgL as [E1 | E1]; destruct HgR as [E2 | E2]; rewrite E1, E2 in *;
          try congruence; reflexivity. }
      destruct (DecimalAddSub_sum_aux rounds r R res1 DECIMAL_NEG Hr HR
                  ltac:(congruence) HN He') as (S1 & _).
      destruct (S1 ltac:(rewrite Mr; lia)) as (r' & Er' & Mr' & Gr' & Sr' & Wr').
      exists r, r'. split; [exact Er|]. split; [exact Er'|].
      split; [rewrite Mr', Mr; lia|]. split; [congruence|].
      intros _. congruence.
Qed.

(** * ReduceScale: a long division by a power of ten *)

Lemma set_nat_length a : forall i x, length (set_nat a i x) = length a.
Proof.
  induction a as [|h t IH]; intros [|j] x; cbn; try reflexivity.
  rewrite IH. reflexivity.
Qed.

Lemma nth_set_nat_same a : forall i x,
  (i < length a)%nat -> nth i (set_nat a i x) 0 = x.
Proof.
  induction a as [|h t IH]; intros [|j] x Hi; cbn in *; try lia; try reflexivity.
  apply IH. lia.
Qed.

Lemma nth_set_nat_other a : forall i j x,
  i <> j -> nth j (set_nat a i x) 0 = nth j a 0.
Proof.
  induction a as [|h t IH]; intros [|i] [|j] x Hne; cbn; try reflexivity;
    try congruence.
  apply IH. congruence.
Qed.

Lemma set_length a i x : length (set a i x) = length a.
Proof. unfold set. destruct (i <? 0); [reflexivity | apply set_nat_length]. Qed.

Lemma get_set_same a i x :
  0 <= i < Z.of_nat (length a) -> get (set a i x) i = x.
Proof.
  intros Hi. unfold get, set. replace (i <? 0) with false by lia.
  apply nth_set_nat_same. lia.
Qed.

Lemma get_set_other a i j x :
  0 <= j -> i <> j -> get (set a i x) j = get a j.
Proof.
  intros Hj Hne. unfold get, set. destruct (Z.ltb_spec i 0); [reflexivity|].
  apply nth_set_nat_other. lia.
Qed.

Lemma words64_value_ext n : forall a b,
  (forall i, 0 <= i < Z.of_nat n -> get a i = get b i) ->
  words64_value n a = words64_value n b.
Proof.
  induction n as [|m IH]; intros a b H; [reflexivity|].
  cbn [words64_value]. rewrite (IH a b), (H (Z.of_nat m)); [reflexivity|lia|].
  intros i Hi. apply H. lia.
Qed.

Lemma words64_value_nonneg n : forall a,
  (forall i, 0 <= i < Z.of_nat n -> 0 <= get a i) -> 0 <= words64_value n a.
Proof.
  induction n as [|m IH]; intros a H; [reflexivity|].
  cbn [words64_value].
  assert (0 <= words64_value m a) by (apply IH; intros i Hi; apply H; lia).
  assert (0 <= get a (Z.of_nat m)) by (apply H; lia).
  assert (0 < two64 ^ Z.of_nat m) by (apply Z.pow_pos_nonneg; [reflexivity|lia]).
  nia.
Qed.

(** One 64-bit word of the long division: its two halves, upper first. *)
Lemma reduce_word w r d :
  0 <= w < two64 -> 0 < d < two32 -> 0 <= r < d ->
  exists w' r',
    (let '(q, r1) := DivMod64By32InPlace (hi32 w) r d in
     let w1 := set_hi32 w q in
     let '(q2, r2) := DivMod64By32InPlace (low32 w1) r1 d in
     (set_low32 w1 q2, r2)) = (w', r')
    /\ r * two64 + w = d * w' + r' /\ 0 <= r' < d /\ 0 <= w' < two64.
Proof.
  intros Hw Hd Hr. unfold DivMod64By32InPlace.
  destruct (split64 w Hw) as (Hlo & Hhi & Ew).
  destruct (DivMod64By32_spec (hi32 w) r d Hr Hhi) as (q1 & r1 & E1 & V1 & Hr1 & Hq1).
  rewrite E1.
  assert (Elow : low32 (set_hi32 w q1) = low32 w).
  { unfold set_hi32. rewrite (u32_small q1 Hq1).
    replace (q1 * two32 + low32 w) with (low32 w + two32 * q1) by lia.
    apply low32_word_pair. exact Hlo. }
  assert (Ehi : hi32 (set_hi32 w q1) = q1).
  { unfold set_hi32. rewrite (u32_small q1 Hq1).
    replace (q1 * two32 + low32 w) with (low32 w + two32 * q1) by lia.
    apply hi32_word_pair; assumption. }
  cbv zeta. rewrite Elow.
  destruct (DivMod64By32_spec (low32 w) r1 d Hr1 Hlo) as (q2 & r2 & E2 & V2 & Hr2 & Hq2).
  rewrite E2. unfold set_low32. rewrite Ehi, (u32_small q2 Hq2).
  exists (q1 * two32 + q2), r2. split; [reflexivity|].
  unfold two32, two64 in *. repeat split; lia.
Qed.

Lemma ReduceScale_words_spec n : forall a r d,
  (n <= length a)%nat ->
  (forall i, 0 <= i < Z.of_nat n -> 0 <= get a i < two64) ->
  0 < d < two32 -> 0 <= r < d ->
  exists a' r',
    ReduceScale_words n a r d = (a', r')
    /\ r * two64 ^ Z.of_nat n + words64_value n a = d * words64_value n a' + r'
    /\ 0 <= r' < d
    /\ length a' = length a
    /\ (forall i, Z.of_nat n <= i -> get a' i = get a i)
    /\ (forall i, 0 <= i < Z.of_nat n -> 0 <= get a' i < two64).
Proof.
  induction n as [|m IH]; intros a r d Hlen Hw Hd Hr.
  - exists a, r. cbn [ReduceScale_words words64_value].
    repeat split; try lia.
  - cbn [ReduceScale_words].
    destruct (reduce_word (get a (Z.of_nat m)) r d ltac:(apply Hw; lia) Hd Hr)
      as (w' & r1 & E1 & V1 & Hr1 & Hw').
    cbv zeta in E1.
    destruct (DivMod64By32InPlace (hi32 (get a (Z.of_nat m))) r d) as [q ra].
    destruct (DivMod64By32InPlace (low32 (set_hi32 (get a (Z.of_nat m)) q)) ra d)
      as [q2 rb].
    inversion E1; subst w' r1; clear E1.
    set (w' := set_low32 (set_hi32 (get a (Z.of_nat m)) q) q2) in *.
    destruct (IH (set a (Z.of_nat m) w') rb d) as (a' & r' & E & V & Hr' & L & K & G).
    + rewrite set_length. lia.
    + intros i Hi. rewrite get_set_other by lia. apply Hw. lia.
    + exact Hd.
    + exact Hr1.
    + exists a', r'. split; [exact E|].
      rewrite set_length in L.
      assert (Ev : words64_value m (set a (Z.of_nat m) w') = words64_value m a).
      { apply words64_value_ext. intros i Hi. apply get_set_other; lia. }
      rewrite Ev in V.
      assert (Et : get a' (Z.of_nat m) = w').
      { rewrite K by lia. apply get_set_same. lia. }
      cbn [words64_value]. rewrite Et.
      replace (Z.of_nat (S m)) with (Z.of_nat m + 1) by lia.
      rewrite Z.pow_add_r by lia. rewrite Z.pow_1_r.
      set (B := two64 ^ Z.of_nat m) in *.
      split; [nia|]. split; [exact Hr'|]. split; [exact L|]. split.
      * intros i Hi. rewrite K by lia. apply get_set_other; lia.
      * intros i Hi. destruct (Z.eq_dec i (Z.of_nat m)) as [-> | Hne].
        -- rewrite Et. exact Hw'.
        -- apply G. lia.
Qed.

Lemma ReduceScale_den iNewScale :
  0 <= iNewScale ->
  (if iNewScale <? POWER10_MAX32 then u32 (get rgulPower10_64 iNewScale)
   else POWER10_MAX_VALUE32) = 10 ^ Z.min iNewScale 9.
Proof.
  intros H. unfold POWER10_MAX32. destruct (Z.ltb_spec iNewScale 9) as [C | C].
  - rewrite Z.min_l by lia. rewrite power10_table by lia.
    apply u32_small. split.
    + pose proof (Z.pow_pos_nonneg 10 iNewScale). lia.
    + apply Z.le_lt_trans with (10 ^ 9); [|reflexivity].
      apply Z.pow_le_mono_r; lia.
  - rewrite Z.min_r by lia. reflexivity.
Qed.

Lemma ReduceScale_spec_aux a iHiRes iNewScale :
  0 <= iHiRes < Z.of_nat (length a) ->
  (forall i, 0 <= i <= iHiRes -> 0 <= get a i < two64) ->
  0 <= iNewScale ->
  let n := Z.to_nat (iHiRes + 1) in
  let rs := ReduceScale a iHiRes iNewScale in
  rs_ulDen rs = 10 ^ Z.min iNewScale 9
  /\ rs_iNewScale rs = iNewScale - 9
  /\ words64_value n (rs_rgullRes rs) = words64_value n a / rs_ulDen rs
  /\ rs_remainder rs = words64_value n a mod rs_ulDen rs
  /\ (rs_iHiRes rs = iHiRes
      \/ (rs_iHiRes rs = iHiRes - 1 /\ get (rs_rgullRes rs) iHiRes = 0))
  /\ (forall i, 0 <= i <= iHiRes -> 0 <= get (rs_rgullRes rs) i < two64)
  /\ (forall i, iHiRes < i -> get (rs_rgullRes rs) i = get a i)
  /\ length (rs_rgullRes rs) = length a.
Proof.
  intros Hi Hw Hs n rs.
  assert (Hd : 0 < 10 ^ Z.min iNewScale 9 < two32).
  { split; [apply Z.pow_pos_nonneg; lia|].
    apply Z.le_lt_trans with (10 ^ 9); [|reflexivity].
    apply Z.pow_le_mono_r; lia. }
  subst rs. unfold ReduceScale. cbv zeta.
  rewrite (ReduceScale_den iNewScale Hs).
  set (d := 10 ^ Z.min iNewScale 9) in *.
  assert (En : n = S (Z.to_nat iHiRes)) by lia.
  assert (Em : Z.of_nat (Z.to_nat iHiRes) = iHiRes) by lia.
  pose proof (Hw iHiRes ltac:(lia)) as Hw0.
  destruct (split64 (get a iHiRes) Hw0) as (Hlo & Hhi & Ew).
  set (w := get a iHiRes) in *.
  set (B := two64 ^ iHiRes).
  assert (HB : 0 < B) by (apply Z.pow_pos_nonneg; [reflexivity|lia]).
  assert (EV : words64_value n a = words64_value (Z.to_nat iHiRes) a + B * w).
  { rewrite En. cbn [words64_value]. rewrite Em. reflexivity. }
  assert (Hfin : forall a1 w1 r1 hi',
             w = d * w1 + r1 -> 0 <= r1 < d -> 0 <= w1 < two64 ->
             (hi' = iHiRes \/ (hi' = iHiRes - 1 /\ w1 = 0)) ->
             a1 = set a iHiRes w1 ->
             let '(res, rem) :=
               ReduceScale_words (Z.to_nat (iHiRes - 1 + 1)) a1 r1 d in
             rs_ulDen (mkReduceScale res hi' d (iNewScale - POWER10_MAX32) rem) = d
             /\ iNewScale - POWER10_MAX32 = iNewScale - 9
             /\ words64_value n res = words64_value n a / d
             /\ rem = words64_value n a mod d
             /\ (hi' = iHiRes \/ (hi' = iHiRes - 1 /\ get res iHiRes = 0))
             /\ (forall i, 0 <= i <= iHiRes -> 0 <= get res i < two64)
             /\ (forall i, iHiRes < i -> get res i = get a i)
             /\ length res = length a).
  { intros a1 w1 r1 hi' Ew1 Hr1 Hw1 Hhi' Ea1.
    replace (iHiRes - 1 + 1) with iHiRes by lia.
    destruct (ReduceScale_words_spec (Z.to_nat iHiRes) a1 r1 d)
      as (a' & r' & E & V & Hr' & L & K & G).
    - subst a1. rewrite set_length. lia.
    - intros i Hi'. subst a1. rewrite get_set_other by lia. apply Hw. lia.
    - exact Hd.
    - exact Hr1.
    - rewrite E. rewrite Em in *.
      assert (Ev : words64_value (Z.to_nat iHiRes) a1 = words64_value (Z.to_nat iHiRes) a).
      { apply words64_value_ext. intros i Hi'. subst a1. apply get_set_other; lia. }
      rewrite Ev in V.
      assert (Et : get a' iHiRes = w1).
      { rewrite K by lia. subst a1. apply get_set_same. lia. }
      assert (EV' : words64_value n a' = words64_value (Z.to_nat iHiRes) a' + B * w1).
      { rewrite En. cbn [words64_value]. rewrite Em, Et. reflexivity. }
      fold B in V.
      destruct (div_mod_intro (words64_value n a) d (words64_value n a') r')
        as [Q R]; [rewrite EV, EV'; nia | exact Hr' |].
      cbn [rs_ulDen]. unfold POWER10_MAX32.
      split; [reflexivity|]. split; [reflexivity|].
      split; [symmetry; exact Q|]. split; [symmetry; exact R|].
      split; [destruct Hhi' as [-> | [-> ->]]; [left; reflexivity | right; auto]|].
      split.
      + intros i Hi'. destruct (Z.eq_dec i iHiRes) as [-> | Hne].
        * rewrite Et. exact Hw1.
        * apply G. lia.
      + split.
        * intros i Hi'. rewrite K by lia. subst a1. apply get_set_other; lia.
        * rewrite L. subst a1. apply set_length. }
  destruct (Z.ltb_spec (hi32 w) d) as [C | C].
  - destruct ((hi32 w =? 0) && (low32 w <? d)) eqn:Ez.
    + apply andb_prop in Ez. destruct Ez as [Ez1 Ez2].
      apply Z.eqb_eq in Ez1. apply Z.ltb_lt in Ez2.
      pose proof (Hfin (set a iHiRes (set_low32 w 0)) (set_low32 w 0) (low32 w)
                    (if iHiRes >? 0 then iHiRes - 1 else iHiRes)) as F.
      assert (E0 : set_low32 w 0 = 0) by (unfold set_low32; rewrite Ez1; reflexivity).
      rewrite E0 in *.
      specialize (F ltac:(lia) ltac:(lia) ltac:(unfold two64; lia)
                    ltac:(destruct (iHiRes >? 0); auto) eq_refl).
      destruct (ReduceScale_words _ _ _ _) as [res rem].
      cbn [rs_ulDen rs_iNewScale rs_rgullRes rs_remainder rs_iHiRes] in *. exact F.
    + destruct (DivMod64By32_spec (low32 w) (hi32 w) d ltac:(lia) Hlo)
        as (q & r & E & V & Hr & Hq).
      unfold DivMod64By32InPlace. rewrite E.
      assert (E0 : set_hi32 (set_low32 w q) 0 = q).
      { unfold set_hi32, set_low32. rewrite (u32_small q Hq).
        change (u32 0) with 0.
        replace (hi32 w * two32 + q) with (q + two32 * hi32 w) by lia.
        rewrite low32_word_pair by exact Hq. lia. }
      rewrite E0.
      pose proof (Hfin (set a iHiRes q) q r iHiRes) as F.
      specialize (F ltac:(lia) Hr ltac:(unfold two32, two64 in *; lia)
                    ltac:(left; reflexivity) eq_refl).
      destruct (ReduceScale_words _ _ _ _) as [res rem].
      cbn [rs_ulDen rs_iNewScale rs_rgullRes rs_remainder rs_iHiRes] in *. exact F.
  - destruct (ReduceScale_words_spec n a 0 d)
      as (a' & r' & E & V & Hr' & L & K & G).
    + lia.
    + intros i Hi'. apply Hw. lia.
    + exact Hd.
    + lia.
    + replace (Z.to_nat (iHiRes + 1)) with n by reflexivity.
      rewrite E.
      cbn [rs_ulDen rs_iNewScale rs_rgullRes rs_remainder rs_iHiRes].
      destruct (div_mod_intro (words64_value n a) d (words64_value n a') r')
        as [Q R]; [lia | exact Hr' |].
      unfold POWER10_MAX32.
      split; [reflexivity|]. split; [reflexivity|].
      split; [symmetry; exact Q|]. split; [symmetry; exact R|].
      split; [left; reflexivity|].
      split; [intros i Hi'; apply G; lia|].
      split; [intros i Hi'; apply K; lia | exact L].
Qed.

(** * The partial divisions by a 64-bit divisor *)

Lemma quotient_nonneg N D q r :
  0 <= N -> 0 < D -> N = D * q + r -> r < D -> 0 <= q.
Proof. intros HN HD E Hr. nia. Qed.

(** The loop that adds the divisor back to a negative remainder [r], held
    modulo 2^64: it runs [k] times, where [k] is the least count that makes
    the remainder non-negative. *)
Lemma NegRem_spec k : forall rounds w D quo r,
  (1 <= k)%nat -> (k <= rounds)%nat -> 0 < w -> 0 < D < two64 ->
  - two64 <= r ->
  r + (Z.of_nat k - 1) * D < 0 <= r + Z.of_nat k * D ->
  NegRem rounds w D quo (r + two64)
  = Some ((quo - Z.of_nat k) mod w, r + Z.of_nat k * D).
Proof.
  induction k as [|k IH]; intros rounds w D quo r Hk Hr Hw HD Hlow Hrange; [lia|].
  destruct rounds as [|rounds]; [lia|].
  unfold NegRem in *. cbn [iterate]. cbv zeta.
  destruct (Z.le_gt_cases 0 (r + D)) as [C | C].
  - (* one addition is enough *)
    assert (k = 0%nat) by nia. subst k.
    assert (E : u64 (r + two64 + D) = r + D).
    { unfold u64. replace (r + two64 + D) with (r + D + 1 * two64) by lia.
      rewrite Z.mod_add by discriminate. apply Z.mod_small. lia. }
    rewrite E. replace (r + D >=? D) with false by lia.
    f_equal. f_equal. lia.
  - assert (1 <= k)%nat by nia.
    assert (E : u64 (r + two64 + D) = r + D + two64).
    { unfold u64. rewrite Z.mod_small by lia. lia. }
    rewrite E. replace (r + D + two64 >=? D) with true by lia.
    rewrite (IH rounds w D ((quo - 1) mod w) (r + D)); try lia.
    f_equal. f_equal.
    + rewrite Zminus_mod_idemp_l. f_equal. lia.
    + lia.
Qed.

(** With a divisor of at least 2^63, a remainder above [-2^64] needs one
    or two additions. *)
Lemma NegRem_normalized rounds w D quo r :
  (2 <= rounds)%nat -> 0 < w -> two64 <= 2 * D -> D < two64 ->
  - two64 <= r < 0 ->
  exists k, (k = 1 \/ k = 2)
    /\ NegRem rounds w D quo (r + two64) = Some ((quo - k) mod w, r + k * D)
    /\ 0 <= r + k * D < D.
Proof.
  intros Hr Hw HD HD' Hneg.
  destruct (Z.le_gt_cases 0 (r + D)) as [C | C].
  - exists 1. split; [left; reflexivity|]. split; [|lia].
    apply (NegRem_spec 1 rounds w D quo r); lia.
  - exists 2. split; [right; reflexivity|]. split; [|lia].
    apply (NegRem_spec 2 rounds w D quo r); lia.
Qed.

Lemma Div96By64_x64_spec rounds n0 n1 n2 tl D :
  (2 <= rounds)%nat ->
  0 <= n0 < two32 -> 0 <= n1 < two32 -> 0 <= n2 < two32 ->
  two64 <= 2 * D -> D < two64 ->
  n1 + two32 * n2 < D ->
  let N := n0 + two32 * n1 + two64 * n2 in
  Div96By64_x64 rounds (n0 :: n1 :: n2 :: tl) D
  = Some (N / D, low32 (N mod D) :: hi32 (N mod D) :: n2 :: tl)
  /\ 0 <= N / D < two32.
Proof.
  intros Hr H0 H1 H2 HD HD' Hpre N.
  assert (HDr : 0 <= D < two64) by (unfold two64 in *; lia).
  destruct (split64 D HDr) as (Hdl & Hdh & ED).
  set (dl := low32 D) in *. set (dh := hi32 D) in *.
  assert (Hfin : forall q r, N = D * q + r -> 0 <= r < D -> 0 <= q ->
             Some (q, set64 (n0 :: n1 :: n2 :: tl) 0 r)
             = Some (N / D, low32 (N mod D) :: hi32 (N mod D) :: n2 :: tl)
               /\ 0 <= N / D < two32).
  { intros q r E Hrr Hq.
    destruct (div_mod_intro N D q r E Hrr) as [Q R].
    rewrite Q, R. rewrite set64_0. split; [reflexivity|].
    subst N. unfold two32, two64 in *. nia. }
  unfold Div96By64_x64. cbv zeta. list_norm. fold dl dh.
  destruct (Z.geb_spec n2 dh) as [C | C].
  - (* the quotient is taken to be 2^32 and reduced *)
    assert (n2 = dh) by (unfold two32 in *; nia). subst n2.
    assert (Hn1 : n1 < dl) by (unfold two32 in *; nia).
    set (r := (n1 - dl) * two32 + n0).
    assert (Es : set_hi32 n0 (n1 - dl) = r + two64).
    { unfold set_hi32, low32, u32. rewrite (Z.mod_small n0) by lia.
      rewrite (mod_wrap_neg (n1 - dl) two32) by lia.
      subst r. unfold two32, two64. lia. }
    rewrite Es.
    destruct (NegRem_normalized rounds two32 D 0 r Hr ltac:(reflexivity) HD HD')
      as (k & Hk & E & Hrk).
    { subst r. unfold two32, two64 in *. nia. }
    rewrite E. cbn [bind].
    replace ((0 - k) mod two32) with (two32 - k)
      by (destruct Hk as [-> | ->]; reflexivity).
    apply Hfin; [|exact Hrk | destruct Hk as [-> | ->]; unfold two32; lia].
    subst N r. unfold two32, two64 in *. nia.
  - destruct ((n2 =? 0) && (n0 + two32 * n1 <? D)) eqn:Ez.
    + (* the dividend is below the divisor *)
      apply andb_prop in Ez. destruct Ez as [Ez1 Ez2].
      apply Z.eqb_eq in Ez1. apply Z.ltb_lt in Ez2.
      subst n2.
      assert (EN : N = n0 + two32 * n1) by (subst N; lia).
      destruct (div_mod_intro N D 0 N ltac:(lia) ltac:(lia)) as [Q R].
      rewrite Q, R, EN.
      rewrite low32_word_pair by exact H0.
      rewrite hi32_word_pair by assumption.
      split; [reflexivity | unfold two32; lia].
    + (* the hardware division of the upper words, then the correction *)
      destruct (DivMod64By32_spec n1 n2 dh ltac:(lia) H1)
        as (q & h & E & V & Hh & Hq).
      rewrite E. unfold Mul32By32, SubBorrow64. cbv zeta.
      assert (Es : set_hi32 n0 h = h * two32 + n0).
      { unfold set_hi32, low32. rewrite (u32_small h) by lia.
        rewrite (Z.mod_small n0) by lia. reflexivity. }
      rewrite Es. replace (q * dl + 0) with (q * dl) by lia.
      set (r := h * two32 + n0 - q * dl).
      assert (Hrup : r < D) by (subst r; unfold two32, two64 in *; nia).
      assert (Hrlow : - two64 < r) by (subst r; unfold two32, two64 in *; nia).
      assert (EN : N = D * q + r) by (subst N r; unfold two32, two64 in *; nia).
      destruct (Z.ltb_spec r 0) as [Cn | Cn].
      * cbn [negb Z.eqb].
        assert (Eu : u64 r = r + two64).
        { unfold u64. apply mod_wrap_neg. lia. }
        rewrite Eu.
        destruct (NegRem_normalized rounds two32 D q r Hr ltac:(reflexivity) HD HD')
          as (k & Hk & E' & Hrk); [lia|].
        rewrite E'. cbn [bind].
        assert (HN0 : 0 <= N) by (subst N; unfold two32, two64 in *; lia).
        assert (ENk : N = D * (q - k) + (r + k * D))
          by (destruct Hk as [-> | ->]; lia).
        assert (Hqk : 0 <= q - k)
          by (apply (quotient_nonneg N D (q - k) (r + k * D)); lia).
        rewrite (Z.mod_small (q - k)) by lia.
        apply Hfin; [exact ENk | exact Hrk | exact Hqk].
      * cbn [negb Z.eqb bind].
        rewrite (u64_small r) by lia.
        apply Hfin; [exact EN | lia | lia].
Qed.

(** [Div128By64_x64] when the upper 64 bits of the dividend are below the
    divisor. *)
Lemma Div128By64_x64_spec rounds n0 n1 n2 n3 tl D :
  0 <= n0 < two32 -> 0 <= n1 < two32 -> 0 <= n2 < two32 -> 0 <= n3 < two32 ->
  0 < D -> n2 + two32 * n3 < D -> D <= two64 ->
  let N := (n0 + two32 * n1) + two64 * (n2 + two32 * n3) in
  Div128By64_x64 rounds (n0 :: n1 :: n2 :: n3 :: tl) D
  = Some (N / D, low32 (N mod D) :: hi32 (N mod D) :: n2 :: n3 :: tl)
  /\ 0 <= N / D < two64.
Proof.
  intros H0 H1 H2 H3 HD Hpre HD' N.
  unfold Div128By64_x64. cbv zeta. rewrite get64_2, get64_0.
  replace (n2 + two32 * n3 >=? D) with false by lia.
  assert (Hq : 0 <= N / D < two64).
  { split; [apply Z.div_pos; subst N; unfold two32, two64 in *; lia|].
    apply Z.div_lt_upper_bound; [lia|]. subst N. unfold two32, two64 in *. nia. }
  destruct ((n2 + two32 * n3 =? 0) && (n0 + two32 * n1 <? D)) eqn:Ez.
  - apply andb_prop in Ez. destruct Ez as [Ez1 Ez2].
    apply Z.eqb_eq in Ez1. apply Z.ltb_lt in Ez2.
    assert (n2 = 0 /\ n3 = 0) as [-> ->] by (unfold two32 in *; lia).
    assert (EN : N = n0 + two32 * n1) by (subst N; lia).
    destruct (div_mod_intro N D 0 N ltac:(lia) ltac:(lia)) as [Q R].
    rewrite Q, R, EN.
    rewrite low32_word_pair by exact H0.
    rewrite hi32_word_pair by assumption.
    split; [reflexivity | unfold two64; lia].
  - unfold DivMod128By64. cbv zeta.
    replace ((n2 + two32 * n3) * two64 + (n0 + two32 * n1)) with N by (subst N; lia).
    rewrite (u64_small (N / D)) by exact Hq.
    rewrite set64_0. split; [reflexivity | exact Hq].
Qed.

(** * The partial division by a 96-bit divisor *)

Lemma get_at pre l k :
  0 <= k -> get (pre ++ l) (Z.of_nat (length pre) + k) = get l k.
Proof.
  intros Hk. unfold get.
  replace (Z.to_nat (Z.of_nat (length pre) + k)) with (length pre + Z.to_nat k)%nat
    by lia.
  rewrite app_nth2 by lia. f_equal. lia.
Qed.

Lemma get_at0 pre l : get (pre ++ l) (Z.of_nat (length pre)) = get l 0.
Proof.
  pose proof (get_at pre l 0 ltac:(lia)) as H. rewrite Z.add_0_r in H. exact H.
Qed.

Lemma set_nat_app pre l : forall k x,
  set_nat (pre ++ l) (length pre + k) x = pre ++ set_nat l k x.
Proof.
  induction pre as [|h t IH]; intros k x; cbn; [reflexivity|].
  rewrite IH. reflexivity.
Qed.

Lemma set_at pre l k x :
  0 <= k -> set (pre ++ l) (Z.of_nat (length pre) + k) x = pre ++ set l k x.
Proof.
  intros Hk. unfold set.
  destruct (Z.ltb_spec (Z.of_nat (length pre) + k) 0); [lia|].
  destruct (Z.ltb_spec k 0); [lia|].
  replace (Z.to_nat (Z.of_nat (length pre) + k)) with (length pre + Z.to_nat k)%nat
    by lia.
  apply set_nat_app.
Qed.

Lemma set_at0 pre l x :
  set (pre ++ l) (Z.of_nat (length pre)) x = pre ++ set l 0 x.
Proof.
  pose proof (set_at pre l 0 x ltac:(lia)) as H. rewrite Z.add_0_r in H. exact H.
Qed.

(** The loop that adds the divisor back to a negative remainder [r], held
    modulo 2^96 in the 64-bit [s] and the 32-bit word [x2]. *)
Lemma AddBack96_spec k : forall rounds pre n0 n1 n3 tl d0 d1 d2 dtl quo s x2 r,
  (1 <= k)%nat -> (k <= rounds)%nat ->
  0 <= d0 < two32 -> 0 <= d1 < two32 -> 0 <= d2 < two32 ->
  0 < d0 + two32 * d1 + two64 * d2 ->
  0 <= s < two64 -> 0 <= x2 < two32 ->
  s + two64 * x2 = r + two96 ->
  r + (Z.of_nat k - 1) * (d0 + two32 * d1 + two64 * d2) < 0
    <= r + Z.of_nat k * (d0 + two32 * d1 + two64 * d2) ->
  exists s' x2',
    iterate rounds
      (fun '(quo, sdlNum, rgulNum) =>
         let quo := u32 (quo - 1) in
         let '(carry, sdlNum) :=
           AddCarry64 0 sdlNum (get64 (d0 :: d1 :: d2 :: dtl) 0) in
         let '(carry, x) :=
           AddCarry32 carry (get rgulNum (Z.of_nat (length pre) + 2))
             (get (d0 :: d1 :: d2 :: dtl) 2) in
         let rgulNum := set rgulNum (Z.of_nat (length pre) + 2) x in
         if carry =? 0 then Some (Continue (quo, sdlNum, rgulNum))
         else Some (Break (quo, sdlNum, rgulNum)))
      (quo, s, pre ++ n0 :: n1 :: x2 :: n3 :: tl)
    = Some ((quo - Z.of_nat k) mod two32, s', pre ++ n0 :: n1 :: x2' :: n3 :: tl)
    /\ (0 <= s' < two64) /\ (0 <= x2' < two32)
    /\ s' + two64 * x2' = r + Z.of_nat k * (d0 + two32 * d1 + two64 * d2).
Proof.
  induction k as [|k IH];
    intros rounds pre n0 n1 n3 tl d0 d1 d2 dtl quo s x2 r Hk Hr Hd0 Hd1 Hd2 HD Hs Hx2
      Er Hrange;
    [lia|].
  destruct rounds as [|rounds]; [lia|].
  match goal with |- context [iterate _ ?b _] => set (body := b) end.
  cbn [iterate]. unfold body at 1. cbv beta iota zeta.
  change (get64 (d0 :: d1 :: d2 :: dtl) 0) with (d0 + two32 * d1).
  change (get (d0 :: d1 :: d2 :: dtl) 2) with d2.
  rewrite get_at by lia. rewrite get_2.
  unfold AddCarry64, AddCarry32. cbv beta iota zeta.
  rewrite set_at by lia. rewrite set_2.
  set (den01 := d0 + two32 * d1) in *.
  assert (Hden : 0 <= den01 < two64) by (subst den01; unfold two32, two64 in *; lia).
  replace (d0 + two32 * d1 + two64 * d2) with (den01 + two64 * d2) in * by (subst den01; lia).
  set (D := den01 + two64 * d2) in *.
  replace (0 + s + den01) with (s + den01) by lia.
  pose proof (Z.div_mod (s + den01) two64 ltac:(discriminate)) as E1.
  pose proof (Z.mod_pos_bound (s + den01) two64 ltac:(reflexivity)) as B1.
  assert (C1 : 0 <= (s + den01) / two64 <= 1).
  { destruct (div_small_carry (s + den01) two64 ltac:(reflexivity) ltac:(lia)) as [H _].
    exact H. }
  unfold u64. set (c1 := (s + den01) / two64) in *.
  set (s1 := (s + den01) mod two64) in *.
  pose proof (Z.div_mod (c1 + x2 + d2) two32 ltac:(discriminate)) as E2.
  pose proof (Z.mod_pos_bound (c1 + x2 + d2) two32 ltac:(reflexivity)) as B2.
  assert (C2 : 0 <= (c1 + x2 + d2) / two32 <= 1).
  { destruct (div_small_carry (c1 + x2 + d2) two32 ltac:(reflexivity)
                ltac:(unfold two32 in *; lia)) as [H _].
    exact H. }
  unfold u32. set (c2 := (c1 + x2 + d2) / two32) in *.
  set (x := (c1 + x2 + d2) mod two32) in *.
  assert (Etot : s1 + two64 * x + two96 * c2 = r + two96 + D).
  { subst D. unfold two32, two64, two96 in *. lia. }
  destruct (Z.le_gt_cases 0 (r + D)) as [C | C].
  - (* one addition is enough *)
    assert (k = 0%nat) by nia. subst k.
    assert (c2 = 1) by (unfold two32, two64, two96 in *; nia).
    replace (c2 =? 0) with false by lia.
    exists s1, x. split; [f_equal; f_equal; f_equal; f_equal; lia|].
    split; [lia|]. split; [lia|]. unfold two32, two64, two96 in *. lia.
  - assert (1 <= k)%nat by nia.
    assert (c2 = 0) by (unfold two32, two64, two96 in *; nia).
    replace (c2 =? 0) with true by lia.
    destruct (IH rounds pre n0 n1 n3 tl d0 d1 d2 dtl ((quo - 1) mod two32) s1 x (r + D))
      as (s' & x2' & E & Hs' & Hx' & V); try lia.
    exists s', x2'. subst body. rewrite E. split.
    + f_equal. f_equal. f_equal. rewrite Zminus_mod_idemp_l. f_equal. lia.
    + split; [exact Hs'|]. split; [exact Hx'|]. subst D den01. lia.
Qed.

Lemma Div128By96_x64_spec rounds pre n0 n1 n2 n3 tl d0 d1 d2 dtl :
  (2 <= rounds)%nat ->
  0 <= n0 < two32 -> 0 <= n1 < two32 -> 0 <= n2 < two32 -> 0 <= n3 < two32 ->
  0 <= d0 < two32 -> 0 <= d1 < two32 -> 0 <= d2 < two32 ->
  two32 <= 2 * d2 -> n3 < d2 ->
  let N := n0 + two32 * n1 + two64 * n2 + two96 * n3 in
  let D := d0 + two32 * d1 + two64 * d2 in
  exists r0 r1 r2,
    Div128By96_x64 rounds (pre ++ n0 :: n1 :: n2 :: n3 :: tl)
      (Z.of_nat (length pre)) (d0 :: d1 :: d2 :: dtl)
    = Some (N / D, pre ++ r0 :: r1 :: r2 :: n3 :: tl)
    /\ (0 <= r0 < two32) /\ (0 <= r1 < two32) /\ (0 <= r2 < two32)
    /\ r0 + two32 * r1 + two64 * r2 = N mod D
    /\ 0 <= N / D < two32.
Proof.
  intros Hr H0 H1 H2 H3 Hd0 Hd1 Hd2 Hnorm Hpre N D.
  set (den01 := d0 + two32 * d1).
  assert (Hden : 0 <= den01 < two64) by (subst den01; unfold two32, two64 in *; lia).
  assert (ED : D = den01 + two64 * d2) by (subst D den01; lia).
  assert (HD : two96 <= 2 * D) by (unfold two32, two64, two96 in *; lia).
  assert (Hfin : forall q s x, N = D * q + (s + two64 * x) ->
             0 <= s < two64 -> 0 <= x < two32 -> s + two64 * x < D -> 0 <= q ->
             exists r0 r1 r2,
               Some (q, set64 (pre ++ n0 :: n1 :: x :: n3 :: tl)
                          (Z.of_nat (length pre)) s)
               = Some (N / D, pre ++ r0 :: r1 :: r2 :: n3 :: tl)
               /\ (0 <= r0 < two32) /\ (0 <= r1 < two32) /\ (0 <= r2 < two32)
               /\ r0 + two32 * r1 + two64 * r2 = N mod D
               /\ 0 <= N / D < two32).
  { intros q s x E Hs Hx Hlt Hq.
    destruct (div_mod_intro N D q (s + two64 * x) E
                ltac:(unfold two32, two64 in *; lia)) as [Q R].
    destruct (split64 s Hs) as (Hlo & Hhi & Es).
    exists (low32 s), (hi32 s), x.
    unfold set64.
    rewrite set_at0, set_0. rewrite set_at by lia. rewrite set_1.
    rewrite Q, R. split; [reflexivity|].
    repeat split; try lia.
    subst N. unfold two32, two64, two96 in *. nia. }
  unfold Div128By96_x64.
  match goal with |- context [iterate _ ?b _] => set (body := b) end.
  cbv zeta. unfold get64.
  rewrite !get_at by lia. rewrite !get_at0.
  rewrite !get_0, !get_1, !get_2, !get_3.
  change (get (d0 :: d1 :: d2 :: dtl) (0 + 1)) with d1.
  fold den01.
  destruct ((n3 =? 0) && (n2 <? d2)) eqn:Ez.
  - (* the dividend is below the divisor *)
    apply andb_prop in Ez. destruct Ez as [Ez1 Ez2].
    apply Z.eqb_eq in Ez1. apply Z.ltb_lt in Ez2. subst n3.
    assert (HN : 0 <= N < D) by (subst N D; unfold two32, two64, two96 in *; lia).
    destruct (div_mod_intro N D 0 N ltac:(lia) HN) as [Q R].
    exists n0, n1, n2. rewrite Q, R.
    split; [reflexivity|]. repeat split; try lia; subst N; unfold two32; lia.
  - destruct (DivMod64By32_spec n2 n3 d2 ltac:(lia) H2) as (q & rem & E & V & Hrem & Hq).
    rewrite E. unfold Mul64By32, SubBorrow64, SubBorrow32. cbv zeta.
    rewrite set_at by lia. rewrite set_2.
    set (P := den01 * q).
    assert (HP : 0 <= P < two64 * two32) by (subst P; unfold two32, two64 in *; nia).
    pose proof (Z.div_mod P two64 ltac:(discriminate)) as EP.
    pose proof (Z.mod_pos_bound P two64 ltac:(reflexivity)) as BP.
    assert (Hhi : 0 <= P / two64 < two32).
    { split; [apply Z.div_pos; [lia | reflexivity] | apply Z.div_lt_upper_bound; [reflexivity | lia]]. }
    rewrite (u32_small (P / two64)) by exact Hhi.
    change (u64 P) with (P mod two64).
    set (pl := P mod two64) in *. set (ph := P / two64) in *.
    replace (pl + 0) with pl by lia.
    set (num01 := n0 + two32 * n1).
    assert (Hnum : 0 <= num01 < two64) by (subst num01; unfold two32, two64 in *; lia).
    set (c := if num01 - pl <? 0 then 1 else 0).
    assert (Es : u64 (num01 - pl) = num01 - pl + two64 * c).
    { subst c. unfold u64. destruct (Z.ltb_spec (num01 - pl) 0).
      - rewrite mod_wrap_neg by lia. lia.
      - rewrite Z.mod_small by lia. lia. }
    assert (Hc : 0 <= c <= 1) by (unfold c; destruct (num01 - pl <? 0); lia).
    assert (Hsr : 0 <= u64 (num01 - pl) < two64) by apply u64_range.
    set (s := u64 (num01 - pl)) in *.
    set (t := rem - (ph + c)).
    assert (Hph : ph + c < two32).
    { assert (ph < q \/ (q = 0 /\ ph = 0 /\ pl = 0)) as [Hlt | (Hq0 & Hp0 & Hl0)].
      { destruct (Z.eq_dec q 0) as [-> | Hnz].
        - right. subst ph pl P. rewrite Z.mul_0_r. auto.
        - left. subst ph. apply Z.div_lt_upper_bound; [reflexivity|].
          subst P. unfold two64 in *. nia. }
      - lia.
      - unfold c. rewrite Hl0. replace (num01 - 0 <? 0) with false by lia.
        unfold two32. lia. }
    assert (Ht : - two32 < t < two32) by (subst t; unfold two32 in *; lia).
    set (r := s + two64 * t).
    assert (EN : N = D * q + r).
    { subst N r t num01. rewrite ED. unfold two32, two64, two96 in *. nia. }
    assert (Hrup : r < D).
    { assert (r <= rem * two64 + num01) by (subst r t; unfold two32, two64 in *; nia).
      rewrite ED. unfold two32, two64 in *. nia. }
    assert (HN0 : 0 <= N) by (subst N; unfold two32, two64, two96 in *; lia).
    destruct (Z.ltb_spec t 0) as [Cn | Cn].
    + cbn [negb Z.eqb].
      assert (Ex : u32 t = t + two32) by (unfold u32; apply mod_wrap_neg; lia).
      rewrite Ex.
      assert (Hrneg : r < 0) by (subst r; unfold two32, two64 in *; nia).
      assert (Hrlow : - two96 <= r) by (subst r; unfold two32, two64, two96 in *; nia).
      assert (Er : s + two64 * (t + two32) = r + two96)
        by (subst r; unfold two32, two64, two96; lia).
      assert (EDD : d0 + two32 * d1 + two64 * d2 = D) by reflexivity.
      assert (HDpos : 0 < d0 + two32 * d1 + two64 * d2)
        by (rewrite EDD; unfold two96 in *; lia).
      destruct (Z.le_gt_cases 0 (r + D)) as [C1 | C1].
      * destruct (AddBack96_spec 1 rounds pre n0 n1 n3 tl d0 d1 d2 dtl q s
                    (t + two32) r ltac:(lia) ltac:(lia) Hd0 Hd1 Hd2 HDpos Hsr
                    ltac:(lia) Er
                    ltac:(rewrite EDD; change (Z.of_nat 1) with 1; lia))
          as (s' & x2' & E' & Hs' & Hx' & V').
        change (Z.of_nat 1) with 1 in *.
        rewrite (E' : iterate rounds body
                        (q, s, pre ++ n0 :: n1 :: t + two32 :: n3 :: tl)
                      = Some ((q - 1) mod two32, s',
                              pre ++ n0 :: n1 :: x2' :: n3 :: tl)).
        cbn [bind]. rewrite EDD in V'.
        assert (ENk : N = D * (q - 1) + (s' + two64 * x2')) by (rewrite V'; lia).
        assert (Hq1 : 0 <= q - 1)
          by (apply (quotient_nonneg N D (q - 1) (s' + two64 * x2')); lia).
        rewrite (Z.mod_small (q - 1)) by lia.
        apply Hfin; [exact ENk | exact Hs' | exact Hx' | lia | exact Hq1].
      * destruct (AddBack96_spec 2 rounds pre n0 n1 n3 tl d0 d1 d2 dtl q s
                    (t + two32) r ltac:(lia) ltac:(lia) Hd0 Hd1 Hd2 HDpos Hsr
                    ltac:(lia) Er
                    ltac:(rewrite EDD; change (Z.of_nat 2) with 2; lia))
          as (s' & x2' & E' & Hs' & Hx' & V').
        change (Z.of_nat 2) with 2 in *.
        rewrite (E' : iterate rounds body
                        (q, s, pre ++ n0 :: n1 :: t + two32 :: n3 :: tl)
                      = Some ((q - 2) mod two32, s',
                              pre ++ n0 :: n1 :: x2' :: n3 :: tl)).
        cbn [bind]. rewrite EDD in V'.
        assert (ENk : N = D * (q - 2) + (s' + two64 * x2')) by (rewrite V'; lia).
        assert (Hq1 : 0 <= q - 2)
          by (apply (quotient_nonneg N D (q - 2) (s' + two64 * x2')); lia).
        rewrite (Z.mod_small (q - 2)) by lia.
        apply Hfin; [exact ENk | exact Hs' | exact Hx' | lia | exact Hq1].
    + cbn [negb Z.eqb bind].
      rewrite (u32_small t) by lia.
      apply Hfin; try lia; subst r; lia.
Qed.

(** * DecimalMul: a 64-bit product with more than 28 decimals *)

Lemma pow10_half k : 1 <= k -> Z.shiftr (10 ^ k) 1 * 2 = 10 ^ k.
Proof.
  intros Hk. rewrite Z.shiftr_div_pow2 by lia. change (2 ^ 1) with 2.
  replace k with (1 + (k - 1)) by lia. rewrite Z.pow_add_r by lia.
  change (10 ^ 1) with (5 * 2). rewrite <- Z.mul_assoc, (Z.mul_comm 2), Z.mul_assoc.
  rewrite Z.div_mul by lia. lia.
Qed.

Lemma DecimalMul_small_aux rounds L R res0 :
  Hi32 L = 0 -> Hi32 R = 0 -> 0 <= Lo64 L < two64 -> 0 <= Lo64 R < two64 ->
  Lo64 L * Lo64 R < two64 ->
  DEC_SCALE_MAX < scale L + scale R ->
  let k := scale L + scale R - DEC_SCALE_MAX in
  (k <= 19 ->
   exists r,
     DecimalMul rounds L R res0 = Some (NOERROR, r)
     /\ mantissa r = div_half_even (mantissa L * mantissa R) (10 ^ k)
     /\ scale r = DEC_SCALE_MAX
     /\ sign r = u8 (Z.lxor (sign L) (sign R))
     /\ wReserved r = wReserved res0)
  /\ (19 < k -> DecimalMul rounds L R res0 = Some (NOERROR, DECIMAL_SETZERO)).
Proof.
  intros HLh HRh HLl HRl Hp Hs k.
  assert (EmL : mantissa L = Lo64 L) by (unfold mantissa; rewrite HLh; lia).
  assert (EmR : mantissa R = Lo64 R) by (unfold mantissa; rewrite HRh; lia).
  rewrite EmL, EmR.
  set (p := Lo64 L * Lo64 R) in *.
  assert (Hp0 : 0 <= p) by (subst p; nia).
  unfold DecimalMul, DECIMAL_HI32, low64, Mul64By64. cbv zeta.
  rewrite HLh, HRh. change (Z.lor 0 0 =? 0) with true. cbv iota.
  fold p. rewrite (u64_small p) by lia.
  replace (p / two64) with 0 by (symmetry; apply Z.div_small; lia).
  change (u64 0 =? 0) with true. cbv iota.
  destruct (Z.gtb_spec (scale L + scale R) DEC_SCALE_MAX) as [_ | C]; [|lia].
  fold k. split.
  - intros Hk.
    destruct (Z.gtb_spec k 19) as [C | _]; [lia|].
    assert (Hk1 : 1 <= k) by (subst k; lia).
    rewrite power10_table by lia.
    pose proof (pow10_range k ltac:(lia)) as HP.
    pose proof (pow10_half k Hk1) as Hhalf.
    set (P := 10 ^ k) in *. set (h := Z.shiftr P 1) in *.
    unfold DivMod64By64. cbv zeta.
    pose proof (Z.div_mod p P ltac:(lia)) as E.
    pose proof (Z.mod_pos_bound p P ltac:(lia)) as Hr.
    assert (Hq : 0 <= p / P < two64).
    { split; [apply Z.div_pos; lia | apply Z.div_lt_upper_bound; nia]. }
    assert (Hq10 : p / P * 10 <= p).
    { assert (10 <= P).
      { subst P. replace k with (1 + (k - 1)) by lia.
        rewrite Z.pow_add_r by lia.
        pose proof (Z.pow_pos_nonneg 10 (k - 1) ltac:(lia) ltac:(lia)). lia. }
      nia. }
    set (q := p / P) in *. set (r := p mod P) in *.
    assert (Eodd : negb (Z.land q 1 =? 0) = Z.odd q).
    { change 1 with (Z.ones 1). rewrite Z.land_ones by lia. change (2 ^ 1) with 2.
      rewrite Zodd_mod. destruct (Z.eqb_spec (q mod 2) 0) as [-> | Hn].
      - reflexivity.
      - pose proof (Z.mod_pos_bound q 2 ltac:(lia)).
        replace (q mod 2) with 1 by lia. reflexivity. }
    rewrite Eodd.
    assert (Etest : (r >? h) || ((r =? h) && Z.odd q)
                    = (2 * r >? P) || ((2 * r =? P) && Z.odd q)).
    { f_equal; [|f_equal].
      - destruct (Z.gtb_spec r h), (Z.gtb_spec (2 * r) P); try reflexivity; lia.
      - destruct (Z.eqb_spec r h), (Z.eqb_spec (2 * r) P); try reflexivity; lia. }
    rewrite Etest.
    unfold DecimalMul_finish, div_half_even. fold q r.
    eexists. split; [reflexivity|].
    unfold mantissa, set_scale, set_sign, set_low64, set_hi32_dec.
    cbn [Hi32 Lo64 scale sign wReserved].
    change (u32 0) with 0. change (u8 DEC_SCALE_MAX) with DEC_SCALE_MAX.
    split; [|repeat split; reflexivity].
    destruct ((2 * r >? P) || ((2 * r =? P) && Z.odd q)).
    + rewrite (u64_small (q + 1)) by (unfold two64 in *; lia).
      rewrite (u64_small (q + 1)) by (unfold two64 in *; lia). lia.
    + rewrite (u64_small q) by lia. lia.
  - intros Hk. destruct (Z.gtb_spec k 19) as [_ | C]; [reflexivity | lia].
Qed.

(** * Quotients without remainder *)

Lemma lor_disjoint a b s :
  0 <= a -> 0 <= s -> 0 <= b < 2 ^ s -> Z.lor (a * 2 ^ s) b = a * 2 ^ s + b.
Proof.
  intros Ha Hs Hb.
  assert (Hand : Z.land (a * 2 ^ s) b = 0).
  { apply Z.bits_inj'. intros n Hn. rewrite Z.land_spec, Z.bits_0.
    destruct (Z.lt_ge_cases n s) as [Hlt | Hge].
    - rewrite Z.mul_pow2_bits_low by lia. reflexivity.
    - rewrite andb_comm.
      destruct (Z.eq_dec b 0) as [-> | Hnz]; [rewrite Z.bits_0; reflexivity|].
      rewrite Z.bits_above_log2; [reflexivity | lia |].
      apply Z.lt_le_trans with s; [|exact Hge].
      apply Z.log2_lt_pow2; lia. }
  rewrite <- Z.lxor_lor by exact Hand.
  symmetry. apply Z.add_nocarry_lxor. exact Hand.
Qed.

(** The 96-bit number [lo + 2^64 * hi] shifted left by [s] bits, as the
    code computes its two 64-bit halves; the shift must not be zero. *)
Lemma shift_left_halves lo hi s :
  0 <= lo < two64 -> 0 <= hi < two32 -> 1 <= s <= 31 ->
  u64 (Z.shiftl lo s) + two64 * ShiftLeft128 lo hi (u8 s)
  = (lo + two64 * hi) * 2 ^ s
  /\ 0 <= ShiftLeft128 lo hi (u8 s) < two32 * 2 ^ s.
Proof.
  intros Hlo Hhi Hs.
  assert (Hp : 0 < 2 ^ s) by (apply Z.pow_pos_nonneg; lia).
  assert (Hp31 : 2 ^ s <= 2 ^ 31) by (apply Z.pow_le_mono_r; lia).
  assert (Hq : 0 < 2 ^ (64 - s)) by (apply Z.pow_pos_nonneg; lia).
  assert (E64 : two64 = 2 ^ (64 - s) * 2 ^ s).
  { rewrite <- Z.pow_add_r by lia. replace (64 - s + s) with 64 by lia. reflexivity. }
  unfold ShiftLeft128. rewrite (u8_small s) by (unfold two8; lia).
  rewrite (Z.mod_small s 64) by lia. rewrite (Z.mod_small (64 - s) 64) by lia.
  rewrite !Z.shiftl_mul_pow2 by lia. rewrite Z.shiftr_div_pow2 by lia.
  rewrite (u64_small (hi * 2 ^ s)) by (unfold two32, two64 in *; nia).
  assert (Hlow : 0 <= lo / 2 ^ (64 - s) < 2 ^ s).
  { split; [apply Z.div_pos; lia|]. apply Z.div_lt_upper_bound; [lia|].
    rewrite <- E64. lia. }
  rewrite lor_disjoint by lia.
  assert (Ediv : lo * 2 ^ s / two64 = lo / 2 ^ (64 - s)).
  { rewrite E64. apply Z.div_mul_cancel_r; lia. }
  pose proof (Z.div_mod (lo * 2 ^ s) two64 ltac:(discriminate)) as E.
  rewrite Ediv in E. unfold u64. split; [lia|].
  unfold two32 in *. nia.
Qed.

(** The shift that brings the top bit of a 32-bit word to bit 31. *)
Lemma normalizing_shift t :
  0 < t < two32 ->
  0 <= 31 - Z.log2 t <= 31
  /\ 2147483648 <= t * 2 ^ (31 - Z.log2 t)
  /\ (t + 1) * 2 ^ (31 - Z.log2 t) <= two32.
Proof.
  intros Ht.
  destruct (Z.log2_spec t ltac:(lia)) as [Hl Hu].
  assert (H0 : 0 <= Z.log2 t) by apply Z.log2_nonneg.
  assert (H31 : Z.log2 t < 32).
  { apply Z.log2_lt_pow2; [lia|]. exact (proj2 Ht). }
  split; [lia|].
  assert (E : 2 ^ Z.log2 t * 2 ^ (31 - Z.log2 t) = 2147483648).
  { rewrite <- Z.pow_add_r by lia. replace (Z.log2 t + (31 - Z.log2 t)) with 31 by lia.
    reflexivity. }
  assert (Hp : 0 < 2 ^ (31 - Z.log2 t)) by (apply Z.pow_pos_nonneg; lia).
  replace (2 ^ Z.succ (Z.log2 t)) with (2 * 2 ^ Z.log2 t) in Hu
    by (rewrite Z.pow_succ_r by lia; reflexivity).
  unfold two32. nia.
Qed.

Lemma normalizing_shift_pos t : 0 < t < 2 ^ 31 -> 1 <= 31 - Z.log2 t.
Proof.
  intros Ht. assert (Z.log2 t < 31) by (apply Z.log2_lt_pow2; lia). lia.
Qed.

Lemma rem_words a b :
  set64 (set64 [0; 0; 0; 0; 0; 0] 0 a) 2 b
  = [low32 a; hi32 a; low32 b; hi32 b; 0; 0].
Proof. reflexivity. Qed.

Lemma exact_mod_scaled a b c : 0 < b -> 0 < c -> a mod b = 0 ->
  (a * c) / (b * c) = a / b /\ (a * c) mod (b * c) = 0.
Proof.
  intros Hb Hc H. split.
  - apply Z.div_mul_cancel_r; lia.
  - rewrite Zmult_mod_distr_r. rewrite H. reflexivity.
Qed.

Lemma den_words a b c d x y :
  set64 (set64 [a; b; c; d] 2 x) 0 y = [low32 y; hi32 y; low32 x; hi32 x].
Proof. reflexivity. Qed.


Lemma words96_unique a b c a' b' c' :
  0 <= a < two32 -> 0 <= b < two32 -> 0 <= c < two32 ->
  0 <= a' < two32 -> 0 <= b' < two32 -> 0 <= c' < two32 ->
  a + two32 * b + two64 * c = a' + two32 * b' + two64 * c' ->
  a = a' /\ b = b' /\ c = c'.
Proof. unfold two32, two64. lia. Qed.

Lemma Add96By32_zero w0 w1 w2 tl :
  0 <= w0 < two32 -> 0 <= w1 < two32 -> 0 <= w2 < two32 ->
  snd (Add96By32_u32 (w0 :: w1 :: w2 :: tl) 0) = w0 :: w1 :: w2 :: tl.
Proof.
  intros H0 H1 H2.
  destruct (Add96By32_u32_spec w0 w1 w2 tl 0 H0 H1 H2 ltac:(unfold two32; lia))
    as (c & q0 & q1 & q2 & E & Q0 & Q1 & Q2 & Hc & V).
  rewrite E. cbn [snd].
  assert (c = 0) by (unfold two32, two64, two96 in *; lia). subst c.
  destruct (words96_unique q0 q1 q2 w0 w1 w2 Q0 Q1 Q2 H0 H1 H2 ltac:(lia))
    as (-> & -> & ->).
  reflexivity.
Qed.

Lemma Add96By64_zero w0 w1 w2 tl :
  0 <= w0 < two32 -> 0 <= w1 < two32 -> 0 <= w2 < two32 ->
  snd (Add96By64_u32 (w0 :: w1 :: w2 :: tl) 0) = w0 :: w1 :: w2 :: tl.
Proof.
  intros H0 H1 H2.
  destruct (Add96By64_u32_spec w0 w1 w2 tl 0 H0 H1 H2 ltac:(unfold two64; lia))
    as (c & q0 & q1 & q2 & E & Q0 & Q1 & Q2 & Hc & V).
  rewrite E. cbn [snd].
  assert (c = 0) by (unfold two32, two64, two96 in *; lia). subst c.
  destruct (words96_unique q0 q1 q2 w0 w1 w2 Q0 Q1 Q2 H0 H1 H2 ltac:(lia))
    as (-> & -> & ->).
  reflexivity.
Qed.

Lemma scale_up_loop body Z0 (H : scales_up body Z0) m :
  forall rounds st q0 q1 q2 qt,
    (m < rounds)%nat -> Z0 st -> Div.rgulQuo st = q0 :: q1 :: q2 :: qt ->
    0 <= q0 < two32 -> 0 <= q1 < two32 -> 0 <= q2 < two32 ->
    Div.iScale st <= 0 -> - Div.iScale st <= 9 * Z.of_nat m ->
    let Q := q0 + two32 * q1 + two64 * q2 in
    (Q * 10 ^ (- Div.iScale st) < two96 ->
     exists q0' q1' q2' st',
       iterate rounds body st = Some (NOERROR, st')
       /\ Div.iScale st' = 0 /\ Div.fUnscale st' = Div.fUnscale st
       /\ Div.rgulQuo st' = q0' :: q1' :: q2' :: qt
       /\ (0 <= q0' < two32) /\ (0 <= q1' < two32) /\ (0 <= q2' < two32)
       /\ q0' + two32 * q1' + two64 * q2' = Q * 10 ^ (- Div.iScale st))
    /\ (two96 <= Q * 10 ^ (- Div.iScale st) ->
        exists st', iterate rounds body st = Some (DISP_E_OVERFLOW, st')).
Proof.
  destruct H as [Hstop Hstep].
  induction m as [|m IH]; intros rounds st q0 q1 q2 qt Hr HZ EQ H0 H1 H2 Hs Hm Q.
  - assert (E0 : Div.iScale st = 0) by lia.
    destruct rounds as [|rounds]; [lia|].
    cbn [iterate]. rewrite (Hstop st HZ ltac:(lia)). rewrite E0. cbn [Z.opp].
    rewrite Z.pow_0_r, Z.mul_1_r. split.
    + intros _. exists q0, q1, q2, st. repeat split; try assumption; lia.
    + intros C. subst Q. unfold two32, two64, two96 in *. lia.
  - destruct rounds as [|rounds]; [lia|].
    destruct (Z.eq_dec (Div.iScale st) 0) as [E0 | Hnz].
    + cbn [iterate]. rewrite (Hstop st HZ ltac:(lia)). rewrite E0. cbn [Z.opp].
      rewrite Z.pow_0_r, Z.mul_1_r. split.
      * intros _. exists q0, q1, q2, st. repeat split; try assumption; lia.
      * intros C. subst Q. unfold two32, two64, two96 in *. lia.
    + destruct (Hstep st q0 q1 q2 qt HZ EQ H0 H1 H2 ltac:(lia))
        as (k & Hk & Hfit & Hovf).
      fold Q in Hfit, Hovf.
      assert (HQ : 0 <= Q) by (subst Q; unfold two32, two64 in *; lia).
      assert (Epow : 10 ^ (- Div.iScale st) = 10 ^ k * 10 ^ (- Div.iScale st - k)).
      { rewrite <- Z.pow_add_r by lia. f_equal. lia. }
      assert (Hpk : 0 < 10 ^ k) by (apply Z.pow_pos_nonneg; lia).
      assert (Hpr : 0 < 10 ^ (- Div.iScale st - k)) by (apply Z.pow_pos_nonneg; lia).
      cbn [iterate].
      destruct (Z.lt_ge_cases (Q * 10 ^ k) two96) as [C | C].
      * destruct (Hfit C) as (q0' & q1' & q2' & st' & Eb & HZ' & Es' & Ef' & EQ'
                              & R0 & R1 & R2 & V).
        rewrite Eb.
        destruct (IH rounds st' q0' q1' q2' qt ltac:(lia) HZ' EQ' R0 R1 R2
                    ltac:(lia) ltac:(lia)) as [IHfit IHovf].
        cbv zeta in IHfit, IHovf. rewrite V, Es' in IHfit, IHovf.
        replace (- (Div.iScale st + k)) with (- Div.iScale st - k) in IHfit, IHovf
          by lia.
        rewrite <- Z.mul_assoc, <- Epow in IHfit, IHovf.
        split.
        -- intros Cf. destruct (IHfit Cf) as (a & b & c & st'' & E & E1 & E2 & E3 & R).
           exists a, b, c, st''. rewrite E. split; [reflexivity|].
           split; [exact E1|]. split; [congruence|]. split; [exact E3 | exact R].
        -- intros Co. exact (IHovf Co).
      * destruct (Hovf C) as (st' & Eb). rewrite Eb. split.
        -- intros Cf. rewrite Epow in Cf. nia.
        -- intros _. exists st'. reflexivity.
Qed.

Lemma pow10_32 k : 0 <= k <= 9 -> u32 (get rgulPower10_64 k) = 10 ^ k
                                   /\ 0 < 10 ^ k < two32.
Proof.
  intros Hk. rewrite power10_table by lia.
  assert (H : 0 < 10 ^ k < two32).
  { split; [apply Z.pow_pos_nonneg; lia|].
    apply Z.le_lt_trans with (10 ^ 9); [|reflexivity].
    apply Z.pow_le_mono_r; lia. }
  split; [apply u32_small; lia | exact H].
Qed.

Lemma body32_scales_up d dtl :
  0 < d ->
  scales_up (Div.body32 (d :: dtl)) (fun st => exists tl, Div.rgulRem st = 0 :: tl).
Proof.
  intros Hd. split.
  - intros st (tl & Er) E0. unfold Div.body32. rewrite Er. list_norm.
    change (0 =? 0) with true. cbv iota.
    destruct (Z.ltb_spec (Div.iScale st) 0); [lia | reflexivity].
  - intros st q0 q1 q2 qt (tl & Er) EQ H0 H1 H2 Hs.
    exists (Z.min 9 (- Div.iScale st)). split; [lia|].
    set (k := Z.min 9 (- Div.iScale st)).
    destruct (pow10_32 k ltac:(lia)) as (Ep & Hp).
    destruct (IncreaseScale96By32_spec q0 q1 q2 qt (10 ^ k) H0 H1 H2 ltac:(lia))
      as (ovf & a & b & c & E & Ra & Rb & Rc & Ro & V).
    assert (Eb : Div.body32 (d :: dtl) st
                 = Div.HaveScale32 (d :: dtl) st k).
    { unfold Div.body32. rewrite Er. list_norm. change (0 =? 0) with true. cbv iota.
      replace (Div.iScale st <? 0) with true by lia. reflexivity. }
    rewrite Eb. unfold Div.HaveScale32. cbv zeta. rewrite Ep, EQ, E.
    split.
    + intros C. assert (ovf = 0) by (unfold two32, two64, two96 in *; lia). subst ovf.
      change (negb (0 =? 0)) with false. cbv iota.
      rewrite Er. list_norm. unfold Mul32By32. rewrite Z.mul_0_l.
      change (low32 0) with 0. change (hi32 0) with 0.
      unfold DivMod64By32. cbv zeta.
      change (0 * two32 + 0) with 0. rewrite Zdiv_0_l, Zmod_0_l.
      change (u32 0) with 0.
      rewrite (Add96By32_zero a b c qt Ra Rb Rc).
      exists a, b, c. eexists. split; [reflexivity|].
      cbn [Div.rgulRem Div.iScale Div.rgulQuo Div.fUnscale].
      split; [exists tl; reflexivity|].
      repeat split; try assumption; try lia.
    + intros C. assert (ovf <> 0) by (unfold two32, two64, two96 in *; lia).
      replace (ovf =? 0) with false by lia. cbn [negb].
      eexists. reflexivity.
Qed.

Lemma body64_scales_up rounds D :
  0 < D -> 0 < hi32 D ->
  scales_up (Div.body64 rounds D)
    (fun st => exists a tl, Div.rgulRem st = 0 :: 0 :: a :: tl).
Proof.
  intros HD Hh. split.
  - intros st (x & tl & Er) E0. unfold Div.body64. rewrite Er, get64_0.
    change (0 + two32 * 0 =? 0) with true. cbv iota.
    destruct (Z.ltb_spec (Div.iScale st) 0); [lia | reflexivity].
  - intros st q0 q1 q2 qt (x & tl & Er) EQ H0 H1 H2 Hs.
    exists (Z.min 9 (- Div.iScale st)). split; [lia|].
    set (k := Z.min 9 (- Div.iScale st)).
    destruct (pow10_32 k ltac:(lia)) as (Ep & Hp).
    destruct (IncreaseScale96By32_spec q0 q1 q2 qt (10 ^ k) H0 H1 H2 ltac:(lia))
      as (ovf & a & b & c & E & Ra & Rb & Rc & Ro & V).
    assert (Eb : Div.body64 rounds D st
                 = Div.HaveScale64 rounds D st (Z.min POWER10_MAX64 (- Div.iScale st))).
    { unfold Div.body64. rewrite Er. rewrite get64_0.
      change (0 + two32 * 0 =? 0) with true. cbv iota.
      replace (Div.iScale st <? 0) with true by lia. reflexivity. }
    rewrite Eb. unfold Div.HaveScale64, POWER10_MAX64, POWER10_MAX32. cbv zeta.
    replace (Z.min (Z.min 19 (- Div.iScale st)) 9) with k by lia.
    rewrite Ep, EQ, E.
    split.
    + intros C. assert (ovf = 0) by (unfold two32, two64, two96 in *; lia). subst ovf.
      change (negb (0 =? 0)) with false. cbv iota.
      rewrite Er. rewrite get64_0. unfold Mul64By32. cbv zeta.
      change ((0 + two32 * 0) * 10 ^ k) with 0.
      change (u64 0) with 0. change (u32 (0 / two64)) with 0.
      rewrite set64_0. change (low32 0) with 0. change (hi32 0) with 0.
      rewrite set_2.
      assert (E96 : Div96By64_x64 rounds (0 :: 0 :: 0 :: tl) D
                    = Some (0, 0 :: 0 :: 0 :: tl)).
      { unfold Div96By64_x64. cbv zeta. list_norm.
        replace (0 >=? hi32 D) with false by lia.
        replace (0 + two32 * 0 <? D) with true by lia. reflexivity. }
      rewrite E96. cbn [bind].
      rewrite (Add96By32_zero a b c qt Ra Rb Rc).
      exists a, b, c. eexists. split; [reflexivity|].
      cbn [Div.rgulRem Div.iScale Div.rgulQuo Div.fUnscale].
      split; [exists 0, tl; reflexivity|].
      repeat split; try assumption; try lia.
    + intros C. assert (ovf <> 0) by (unfold two32, two64, two96 in *; lia).
      replace (ovf =? 0) with false by lia. cbn [negb].
      eexists. reflexivity.
Qed.

Lemma body96_scales_up rounds d0 d1 d2 dtl :
  0 < d2 ->
  scales_up (Div.body96 rounds (d0 :: d1 :: d2 :: dtl))
    (fun st => exists a b tl, Div.rgulRem st = 0 :: 0 :: 0 :: a :: b :: tl).
Proof.
  intros Hd. split.
  - intros st (x & y & tl & Er) E0. unfold Div.body96. rewrite Er, get64_0, get_2.
    change (Z.lor (0 + two32 * 0) 0 =? 0) with true. cbv iota.
    destruct (Z.ltb_spec (Div.iScale st) 0); [lia | reflexivity].
  - intros st q0 q1 q2 qt (x & y & tl & Er) EQ H0 H1 H2 Hs.
    exists (Z.min 19 (- Div.iScale st)). split; [lia|].
    set (k := Z.min 19 (- Div.iScale st)).
    pose proof (power10_table k ltac:(lia)) as Ep.
    pose proof (pow10_range k ltac:(lia)) as Hp.
    destruct (IncreaseScale96By64_spec q0 q1 q2 qt (10 ^ k) H0 H1 H2 ltac:(lia))
      as (ovf & a & b & c & E & Ra & Rb & Rc & Ro & V).
    assert (Eb : Div.body96 rounds (d0 :: d1 :: d2 :: dtl) st
                 = Div.HaveScale96 rounds (d0 :: d1 :: d2 :: dtl) st k).
    { unfold Div.body96. rewrite Er. rewrite get64_0, get_2.
      change (Z.lor (0 + two32 * 0) 0 =? 0) with true. cbv iota.
      replace (Div.iScale st <? 0) with true by lia. reflexivity. }
    rewrite Eb. unfold Div.HaveScale96. cbv zeta. rewrite Ep, EQ, E.
    split.
    + intros C. assert (ovf = 0) by (unfold two32, two64, two96 in *; lia). subst ovf.
      change (negb (0 =? 0)) with false. cbv iota.
      rewrite Er.
      assert (Z32 : 0 <= 0 < two32) by (unfold two32; lia).
      destruct (IncreaseScale96By64_spec 0 0 0 (x :: y :: tl) (10 ^ k) Z32 Z32 Z32
                  ltac:(lia)) as (o' & r0 & r1 & r2 & E' & R0 & R1 & R2 & Ro' & V').
      rewrite E'.
      assert (o' = 0 /\ r0 = 0 /\ r1 = 0 /\ r2 = 0) as (-> & -> & -> & ->)
        by (unfold two32, two64, two96 in *; lia).
      assert (E3 : set64 (0 :: 0 :: 0 :: x :: y :: tl) 3 0 = 0 :: 0 :: 0 :: 0 :: 0 :: tl)
        by reflexivity.
      rewrite E3.
      assert (E160 : Div160By96_x64 rounds (0 :: 0 :: 0 :: 0 :: 0 :: tl)
                       (d0 :: d1 :: d2 :: dtl)
                     = Some (0, 0 :: 0 :: 0 :: 0 :: 0 :: tl)).
      { unfold Div160By96_x64. cbv zeta.
        change (get64 (0 :: 0 :: 0 :: 0 :: 0 :: tl) 3) with (0 + two32 * 0).
        change (get (d0 :: d1 :: d2 :: dtl) 2) with d2.
        replace (0 + two32 * 0 >=? d2) with false by lia.
        cbn [bind]. cbv beta iota.
        unfold Div128By96_x64. cbv zeta.
        change (get (0 :: 0 :: 0 :: 0 :: 0 :: tl) (0 + 3)) with 0.
        change (get (0 :: 0 :: 0 :: 0 :: 0 :: tl) (0 + 2)) with 0.
        change (get (d0 :: d1 :: d2 :: dtl) 2) with d2.
        change (0 =? 0) with true.
        replace (0 <? d2) with true by lia. reflexivity. }
      rewrite E160. cbn [bind].
      rewrite (Add96By64_zero a b c qt Ra Rb Rc).
      exists a, b, c. eexists. split; [reflexivity|].
      cbn [Div.rgulRem Div.iScale Div.rgulQuo Div.fUnscale].
      split; [exists 0, 0, tl; reflexivity|].
      repeat split; try assumption; try lia.
    + intros C. assert (ovf <> 0) by (unfold two32, two64, two96 in *; lia).
      replace (ovf =? 0) with false by lia. cbn [negb].
      eexists. reflexivity.
Qed.

(** The run of [DecimalDiv] up to its loop, for a divisor that divides
    the dividend: the quotient is complete and the remainder is zero. *)
Lemma DecimalDiv_start32 rounds L R res0 :
  0 <= Hi32 L < two32 -> 0 <= Lo64 L < two64 ->
  Hi32 R = 0 -> 0 < Lo64 R < two32 ->
  mantissa L mod mantissa R = 0 ->
  exists rd st0,
    DecimalDiv rounds L R res0
    = (r <- iterate rounds (Div.body32 rd) st0 ;; Div.finish rounds L R res0 r)
    /\ (exists d dtl, rd = d :: dtl /\ 0 < d)
    /\ (exists tl, Div.rgulRem st0 = 0 :: tl)
    /\ Div.iScale st0 = scale L - scale R /\ Div.fUnscale st0 = false
    /\ exists q0 q1 q2,
         Div.rgulQuo st0 = [q0; q1; q2; 0]
         /\ (0 <= q0 < two32) /\ (0 <= q1 < two32) /\ (0 <= q2 < two32)
         /\ q0 + two32 * q1 + two64 * q2 = mantissa L / mantissa R.
Proof.
  intros HhL HlL HhR HlR Hdiv.
  assert (EmR : mantissa R = Lo64 R) by (unfold mantissa; rewrite HhR; lia).
  rewrite EmR in *.
  assert (ElR : low32 (Lo64 R) = Lo64 R) by (unfold low32; apply Z.mod_small; lia).
  assert (EhR : hi32 (Lo64 R) = 0).
  { unfold hi32. rewrite Z.div_small by lia. reflexivity. }
  destruct (split64 (Lo64 L) HlL) as (Rl0 & Rl1 & El).
  unfold DecimalDiv. cbv zeta. rewrite !divisor_words.
  unfold low64, DECIMAL_HI32. rewrite ElR, EhR, HhR.
  list_norm.
  change (0 =? 0) with true.
  replace (FitsIn32Bit (Lo64 R + two32 * 0)) with true
    by (unfold FitsIn32Bit, UINT32_MAX, two32 in *; lia).
  cbn [andb].
  replace (Lo64 R =? 0) with false by lia.
  destruct (Div96By32_x64_spec (low32 (Lo64 L)) (hi32 (Lo64 L)) (Hi32 L) [0] (Lo64 R)
              Rl0 Rl1 HhL ltac:(lia)) as (q0 & q1 & q2 & Ed & Q0 & Q1 & Q2 & Eq).
  rewrite Ed.
  assert (Ev : low32 (Lo64 L) + two32 * hi32 (Lo64 L) + two64 * Hi32 L = mantissa L)
    by (unfold mantissa; lia).
  rewrite Ev in *. rewrite Hdiv.
  do 2 eexists. split; [reflexivity|].
  cbn [Div.rgulRem Div.iScale Div.rgulQuo Div.fUnscale].
  split; [exists (Lo64 R); eexists; split; [reflexivity | lia]|].
  split; [eexists; reflexivity|].
  split; [reflexivity|]. split; [reflexivity|].
  exists q0, q1, q2. repeat split; try assumption; try lia.
Qed.

Lemma DecimalDiv_start64 rounds L R res0 :
  0 <= Hi32 L < two32 -> 0 <= Lo64 L < two64 ->
  Hi32 R = 0 -> two32 <= Lo64 R < 2 ^ 63 ->
  mantissa L mod mantissa R = 0 ->
  exists D st0,
    DecimalDiv rounds L R res0
    = (r <- iterate rounds (Div.body64 rounds D) st0 ;; Div.finish rounds L R res0 r)
    /\ 0 < D /\ 0 < hi32 D
    /\ (exists a tl, Div.rgulRem st0 = 0 :: 0 :: a :: tl)
    /\ Div.iScale st0 = scale L - scale R /\ Div.fUnscale st0 = false
    /\ exists q0 q1 q2,
         Div.rgulQuo st0 = [q0; q1; q2; 0]
         /\ (0 <= q0 < two32) /\ (0 <= q1 < two32) /\ (0 <= q2 < two32)
         /\ q0 + two32 * q1 + two64 * q2 = mantissa L / mantissa R.
Proof.
  intros HhL HlL HhR HlR Hdiv.
  assert (EmR : mantissa R = Lo64 R) by (unfold mantissa; rewrite HhR; lia).
  rewrite EmR in *.
  destruct (split64 (Lo64 R) ltac:(unfold two32, two64 in *; lia)) as (Hdl & Hdh & ER).
  set (dl := low32 (Lo64 R)) in *. set (dh := hi32 (Lo64 R)) in *.
  assert (Hdh1 : 0 < dh < two32) by (unfold two32 in *; lia).
  assert (Hdh2 : 0 < dh < 2 ^ 31) by (unfold two32 in *; lia).
  destruct (normalizing_shift dh Hdh1) as (Hsh0 & Hnorm & Hnorm').
  pose proof (normalizing_shift_pos dh Hdh2) as Hsh1.
  set (s := 31 - Z.log2 dh) in *.
  assert (Hsh : 1 <= s <= 31) by lia.
  assert (Hp : 0 < 2 ^ s) by (apply Z.pow_pos_nonneg; lia).
  destruct (shift_left_halves (Lo64 L) (Hi32 L) s HlL HhL Hsh) as (EN & HB).
  set (A := u64 (Z.shiftl (Lo64 L) s)) in *.
  set (B := ShiftLeft128 (Lo64 L) (Hi32 L) (u8 s)) in *.
  assert (HA : 0 <= A < two64) by apply u64_range.
  assert (HB64 : 0 <= B < two64).
  { assert (2 ^ s <= 2 ^ 31) by (apply Z.pow_le_mono_r; lia).
    unfold two32, two64 in *. lia. }
  destruct (split64 A HA) as (Ha0 & Ha1 & EA).
  destruct (split64 B HB64) as (Hb0 & Hb1 & EB).
  set (D := Lo64 R * 2 ^ s).
  assert (HD : two64 <= 2 * D /\ D < two64).
  { subst D. rewrite <- ER.
    assert (0 <= dl * 2 ^ s < two32 * 2 ^ s)
      by (split; [apply Z.mul_nonneg_nonneg | apply Z.mul_lt_mono_pos_r]; lia).
    unfold two32, two64 in *. lia. }
  assert (ED : u64 (Z.shiftl (dl + two32 * dh) s) = D).
  { rewrite Z.shiftl_mul_pow2 by lia. rewrite ER. apply u64_small. fold D. lia. }
  change (mantissa L) with (Hi32 L * two64 + Lo64 L) in *.
  replace ((Lo64 L + two64 * Hi32 L) * 2 ^ s)
    with ((Hi32 L * two64 + Lo64 L) * 2 ^ s) in EN by lia.
  set (m := Hi32 L * two64 + Lo64 L) in *.
  assert (Hm : 0 <= m < two96) by (subst m; unfold two32, two64, two96 in *; lia).
  destruct (exact_mod_scaled m (Lo64 R) (2 ^ s) ltac:(unfold two32 in *; lia) Hp Hdiv)
    as (Eq & Er).
  fold D in Eq, Er.
  assert (Hq : 0 <= m / Lo64 R < two64).
  { split; [apply Z.div_pos; unfold two32 in *; lia|].
    apply Z.div_lt_upper_bound; unfold two32, two64, two96 in *; nia. }
  unfold DecimalDiv. cbv zeta. rewrite !divisor_words.
  unfold low64, DECIMAL_HI32. rewrite HhR. fold dl dh.
  list_norm.
  change (0 =? 0) with true. cbv iota.
  replace (FitsIn32Bit (dl + two32 * dh)) with false
    by (unfold FitsIn32Bit, UINT32_MAX, two32 in *; lia).
  cbn [andb]. unfold BitScanMsb32. cbv beta iota. fold s.
  rewrite rem_words. rewrite ED. fold A B.
  destruct (Div128By64_x64_spec rounds (low32 A) (hi32 A) (low32 B) (hi32 B)
              [0; 0] D Ha0 Ha1 Hb0 Hb1 ltac:(lia)
              ltac:(assert (2 ^ s <= 2 ^ 31) by (apply Z.pow_le_mono_r; lia);
                    unfold two32, two64 in *; lia)
              ltac:(lia)) as (E128 & _).
  cbv zeta in E128. rewrite EA, EB, EN, Eq, Er in E128.
  rewrite E128. cbn [bind]. cbv beta iota. rewrite set64_0.
  change (low32 0) with 0. change (hi32 0) with 0.
  destruct (split64 (m / Lo64 R) Hq) as (Hq0 & Hq1 & EQ).
  do 2 eexists. split; [reflexivity|].
  cbn [Div.rgulRem Div.iScale Div.rgulQuo Div.fUnscale].
  split; [lia|].
  split.
  { unfold hi32. rewrite Z.mod_small.
    - apply Z.div_str_pos. unfold two32, two64 in *. lia.
    - split; [apply Z.div_pos; unfold two32; lia|].
      apply Z.div_lt_upper_bound; unfold two32, two64 in *; lia. }
  split; [do 2 eexists; reflexivity|].
  split; [reflexivity|]. split; [reflexivity|].
  exists (low32 (m / Lo64 R)), (hi32 (m / Lo64 R)), 0.
  repeat split; try assumption; try lia; unfold two32; lia.
Qed.

Lemma DecimalDiv_start96 rounds L R res0 :
  (2 <= rounds)%nat ->
  0 <= Hi32 L < two32 -> 0 <= Lo64 L < two64 ->
  0 < Hi32 R < 2 ^ 31 -> 0 <= Lo64 R < two64 ->
  mantissa L mod mantissa R = 0 ->
  exists d0 d1 d2 st0,
    DecimalDiv rounds L R res0
    = (r <- iterate rounds (Div.body96 rounds [d0; d1; d2; 0]) st0 ;;
       Div.finish rounds L R res0 r)
    /\ 0 < d2
    /\ (exists a b tl, Div.rgulRem st0 = 0 :: 0 :: 0 :: a :: b :: tl)
    /\ Div.iScale st0 = scale L - scale R /\ Div.fUnscale st0 = false
    /\ exists q0 q1 q2,
         Div.rgulQuo st0 = [q0; q1; q2; 0]
         /\ (0 <= q0 < two32) /\ (0 <= q1 < two32) /\ (0 <= q2 < two32)
         /\ q0 + two32 * q1 + two64 * q2 = mantissa L / mantissa R.
Proof.
  intros Hrounds HhL HlL HhR HlR Hdiv.
  destruct (split64 (Lo64 R) HlR) as (Hdl & Hdh & ER).
  set (dl := low32 (Lo64 R)) in *. set (dh := hi32 (Lo64 R)) in *.
  pose proof (normalizing_shift_pos (Hi32 R) HhR) as Hsh1.
  assert (HhR' : 0 < Hi32 R < two32) by (unfold two32; lia).
  clear HhR. rename HhR' into HhR.
  set (d2 := Hi32 R) in *.
  destruct (normalizing_shift d2 HhR) as (Hsh0 & Hnorm & Hnorm').
  set (s := 31 - Z.log2 d2) in *.
  assert (Hsh : 1 <= s <= 31) by lia.
  assert (Hp : 0 < 2 ^ s) by (apply Z.pow_pos_nonneg; lia).
  assert (Hp31 : 2 ^ s <= 2 ^ 31) by (apply Z.pow_le_mono_r; lia).
  destruct (shift_left_halves (Lo64 L) (Hi32 L) s HlL HhL Hsh) as (EN & HB).
  set (A := u64 (Z.shiftl (Lo64 L) s)) in *.
  set (B := ShiftLeft128 (Lo64 L) (Hi32 L) (u8 s)) in *.
  assert (HA : 0 <= A < two64) by apply u64_range.
  assert (HB64 : 0 <= B < two64) by (unfold two32, two64 in *; lia).
  destruct (split64 A HA) as (Ha0 & Ha1 & EA).
  destruct (split64 B HB64) as (Hb0 & Hb1 & EB).
  assert (Hb1' : hi32 B < 2 ^ s) by (unfold two32 in *; nia).
  destruct (shift_left_halves (Lo64 R) d2 s HlR ltac:(lia) Hsh) as (ED & HDH).
  set (DL := u64 (Z.shiftl (Lo64 R) s)) in *.
  set (DH := ShiftLeft128 (Lo64 R) d2 (u8 s)) in *.
  assert (HDL : 0 <= DL < two64) by apply u64_range.
  assert (HDH32 : 2147483648 <= DH < two32).
  { assert (0 <= Lo64 R * 2 ^ s < two64 * 2 ^ s)
      by (split; [apply Z.mul_nonneg_nonneg | apply Z.mul_lt_mono_pos_r]; lia).
    clear - H HDH ED Hnorm Hnorm' HDL Hp.
    unfold two32, two64 in *. nia. }
  destruct (split64 DL HDL) as (Hd0 & Hd1 & EDL).
  assert (EDH : low32 DH = DH /\ hi32 DH = 0).
  { unfold low32, hi32. rewrite Z.mod_small by lia.
    rewrite Z.div_small by lia. auto. }
  destruct EDH as (EDH0 & EDH1).
  change (mantissa L) with (Hi32 L * two64 + Lo64 L) in *.
  change (mantissa R) with (d2 * two64 + Lo64 R) in *.
  replace ((Lo64 L + two64 * Hi32 L) * 2 ^ s)
    with ((Hi32 L * two64 + Lo64 L) * 2 ^ s) in EN by lia.
  replace ((Lo64 R + two64 * d2) * 2 ^ s)
    with ((d2 * two64 + Lo64 R) * 2 ^ s) in ED by lia.
  set (m := Hi32 L * two64 + Lo64 L) in *.
  set (mR := d2 * two64 + Lo64 R) in *.
  assert (Hm : 0 <= m < two96) by (subst m; unfold two32, two64, two96 in *; lia).
  assert (HmR : two64 <= mR) by (subst mR; unfold two64 in *; lia).
  destruct (exact_mod_scaled m mR (2 ^ s) ltac:(unfold two64 in *; lia) Hp Hdiv)
    as (Eq & Er).
  assert (Hq : 0 <= m / mR < two32).
  { split; [apply Z.div_pos; unfold two64 in *; lia|].
    apply Z.div_lt_upper_bound; unfold two32, two64, two96 in *; nia. }
  unfold DecimalDiv. cbv zeta. rewrite !divisor_words.
  unfold low64, DECIMAL_HI32. fold dl dh d2.
  list_norm.
  replace (d2 =? 0) with false by lia. cbn [andb]. cbv iota.
  unfold BitScanMsb32. cbv beta iota. fold s.
  rewrite rem_words. rewrite get64_2. rewrite ER.
  replace (d2 + two32 * 0) with d2 by lia.
  fold A B DL DH.
  rewrite den_words. rewrite EDH0, EDH1.
  pose proof (Div128By96_x64_spec rounds [] (low32 A) (hi32 A) (low32 B)
                (hi32 B) [0; 0] (low32 DL) (hi32 DL) DH [0] Hrounds
                Ha0 Ha1 Hb0 Hb1 Hd0 Hd1 ltac:(lia) ltac:(unfold two32; lia)
                ltac:(lia)) as H128.
  cbv zeta in H128. destruct H128 as (r0 & r1 & r2 & E128 & Hr0 & Hr1 & Hr2 & EV & _).
  replace (low32 A + two32 * hi32 A + two64 * low32 B + two96 * hi32 B)
    with (m * 2 ^ s) in E128, EV by (unfold two32, two64, two96 in *; lia).
  replace (low32 DL + two32 * hi32 DL + two64 * DH) with (mR * 2 ^ s) in E128, EV
    by lia.
  rewrite Eq in E128. rewrite Er in EV.
  assert (r0 = 0 /\ r1 = 0 /\ r2 = 0) as (-> & -> & ->)
    by (unfold two32, two64 in *; lia).
  cbn [app length Z.of_nat] in E128.
  rewrite E128. cbn [bind]. cbv beta iota. rewrite set64_0.
  destruct (split64 (m / mR) ltac:(unfold two32, two64 in *; lia)) as (Hq0 & Hq1 & EQ).
  do 4 eexists. split; [reflexivity|].
  cbn [Div.rgulRem Div.iScale Div.rgulQuo Div.fUnscale].
  split; [lia|].
  split; [do 3 eexists; reflexivity|].
  split; [reflexivity|]. split; [reflexivity|].
  exists (low32 (m / mR)), (hi32 (m / mR)), 0.
  repeat split; try assumption; try lia; unfold two32; lia.
Qed.

Lemma finish_stored rounds L R res0 st q0 q1 q2 :
  Div.fUnscale st = false -> Div.rgulQuo st = [q0; q1; q2; 0] ->
  0 <= q0 < two32 -> 0 <= q1 < two32 -> 0 <= q2 < two32 ->
  exists r,
    Div.finish rounds L R res0 (NOERROR, st) = Some (NOERROR, r)
    /\ mantissa r = q0 + two32 * q1 + two64 * q2
    /\ scale r = u8 (Div.iScale st)
    /\ sign r = u8 (Z.lxor (sign L) (sign R))
    /\ wReserved r = wReserved res0.
Proof.
  intros Ef EQ H0 H1 H2. unfold Div.finish. rewrite Ef, EQ. cbn [bind].
  rewrite get64_2, get64_0.
  eexists. split; [reflexivity|].
  unfold set_low64, set_sign, set_scale, set_hi32_dec, mantissa.
  cbn [Hi32 Lo64 scale sign wReserved].
  rewrite !(u32_small (q2 + two32 * 0)) by lia.
  rewrite (u64_small (q0 + two32 * q1)) by (unfold two32, two64 in *; lia).
  split; [unfold two32, two64; lia|].
  repeat split; reflexivity.
Qed.

Lemma exact_unscaled_core rounds L R res0 body Z0 st0 q0 q1 q2 :
  scales_up body Z0 -> Z0 st0 ->
  Div.iScale st0 = scale L - scale R -> Div.fUnscale st0 = false ->
  Div.rgulQuo st0 = [q0; q1; q2; 0] ->
  0 <= q0 < two32 -> 0 <= q1 < two32 -> 0 <= q2 < two32 ->
  (0 < rounds)%nat -> 0 <= scale L - scale R < two8 ->
  exists r,
    (r <- iterate rounds body st0 ;; Div.finish rounds L R res0 r)
    = Some (NOERROR, r)
    /\ mantissa r = q0 + two32 * q1 + two64 * q2
    /\ scale r = scale L - scale R
    /\ sign r = u8 (Z.lxor (sign L) (sign R))
    /\ wReserved r = wReserved res0.
Proof.
  intros [Hstop _] HZ Es Ef EQ H0 H1 H2 Hr Hsc.
  destruct rounds as [|rounds]; [lia|].
  cbn [iterate]. rewrite (Hstop st0 HZ ltac:(lia)). cbn [bind].
  destruct (finish_stored (S rounds) L R res0 st0 q0 q1 q2 Ef EQ H0 H1 H2)
    as (r & Er & Mr & Sr & Gr & Wr).
  exists r. split; [exact Er|]. split; [exact Mr|].
  split; [rewrite Sr, Es; apply u8_small; lia|]. split; assumption.
Qed.

(** A divisor of 32, 64 or 96 bits whose normalising shift is not zero, of a
    scale that is not the larger one. *)
Lemma DecimalDiv_exact_any_aux rounds L R res0 :
  0 <= Hi32 L < two32 -> 0 <= Lo64 L < two64 ->
  0 <= Hi32 R < 2 ^ 31 -> 0 <= Lo64 R < two64 ->
  (Hi32 R = 0 -> Lo64 R < 2 ^ 63) ->
  mantissa R <> 0 ->
  mantissa L mod mantissa R = 0 ->
  0 <= scale R <= scale L -> scale L < two8 ->
  exists r,
    DecimalDiv (S (S rounds)) L R res0 = Some (NOERROR, r)
    /\ mantissa r = mantissa L / mantissa R
    /\ scale r = scale L - scale R
    /\ sign r = u8 (Z.lxor (sign L) (sign R))
    /\ wReserved r = wReserved res0.
Proof.
  intros HhL HlL HhR HlR Htop Hnz Hdiv Hs Hs8.
  destruct (Z.eq_dec (Hi32 R) 0) as [Ez | Enz].
  - assert (Lo64 R <> 0) by (unfold mantissa in Hnz; rewrite Ez in Hnz; lia).
    destruct (Z.lt_ge_cases (Lo64 R) two32) as [C | C].
    + destruct (DecimalDiv_start32 (S (S rounds)) L R res0 HhL HlL Ez ltac:(lia) Hdiv)
        as (rd & st0 & E & (d & dtl & -> & Hd) & HZ & Es & Ef
            & q0 & q1 & q2 & EQ & H0 & H1 & H2 & V).
      rewrite E, <- V.
      apply (exact_unscaled_core (S (S rounds)) L R res0 _ _ st0 q0 q1 q2
               (body32_scales_up d dtl Hd) HZ Es Ef EQ H0 H1 H2); lia.
    + destruct (DecimalDiv_start64 (S (S rounds)) L R res0 HhL HlL Ez
                  ltac:(specialize (Htop Ez); lia) Hdiv)
        as (D & st0 & E & HD & HDh & HZ & Es & Ef
            & q0 & q1 & q2 & EQ & H0 & H1 & H2 & V).
      rewrite E, <- V.
      apply (exact_unscaled_core (S (S rounds)) L R res0 _ _ st0 q0 q1 q2
               (body64_scales_up (S (S rounds)) D HD HDh) HZ Es Ef EQ H0 H1 H2); lia.
  - destruct (DecimalDiv_start96 (S (S rounds)) L R res0 ltac:(lia) HhL HlL
                ltac:(lia) HlR Hdiv)
      as (d0 & d1 & d2 & st0 & E & Hd2 & HZ & Es & Ef
          & q0 & q1 & q2 & EQ & H0 & H1 & H2 & V).
    rewrite E, <- V.
    apply (exact_unscaled_core (S (S rounds)) L R res0 _ _ st0 q0 q1 q2
             (body96_scales_up (S (S rounds)) d0 d1 d2 [0] Hd2) HZ Es Ef EQ H0 H1 H2);
      lia.
Qed.

Lemma exact_scaled_core rounds L R res0 body Z0 st0 q0 q1 q2 :
  scales_up body Z0 -> Z0 st0 ->
  Div.iScale st0 = scale L - scale R -> Div.fUnscale st0 = false ->
  Div.rgulQuo st0 = [q0; q1; q2; 0] ->
  0 <= q0 < two32 -> 0 <= q1 < two32 -> 0 <= q2 < two32 ->
  (4 < rounds)%nat -> 0 <= scale R - scale L <= 28 ->
  let v := (q0 + two32 * q1 + two64 * q2) * 10 ^ (scale R - scale L) in
  (v < two96 ->
   exists r,
     (r <- iterate rounds body st0 ;; Div.finish rounds L R res0 r)
     = Some (NOERROR, r)
     /\ mantissa r = v /\ scale r = 0
     /\ sign r = u8 (Z.lxor (sign L) (sign R))
     /\ wReserved r = wReserved res0)
  /\ (two96 <= v ->
      (r <- iterate rounds body st0 ;; Div.finish rounds L R res0 r)
      = Some (DISP_E_OVERFLOW, res0)).
Proof.
  intros Hup HZ Es Ef EQ H0 H1 H2 Hr Hsc v.
  destruct (scale_up_loop body Z0 Hup 4 rounds st0 q0 q1 q2 [0] Hr HZ EQ H0 H1 H2
              ltac:(lia) ltac:(lia)) as [Hfit Hovf].
  cbv zeta in Hfit, Hovf. rewrite Es in Hfit, Hovf.
  replace (- (scale L - scale R)) with (scale R - scale L) in Hfit, Hovf by lia.
  fold v in Hfit, Hovf. split.
  - intros C. destruct (Hfit C) as (a & b & c & st' & E & E1 & E2 & E3 & Ra & Rb & Rc & V).
    rewrite E. cbn [bind].
    destruct (finish_stored rounds L R res0 st' a b c ltac:(congruence) E3 Ra Rb Rc)
      as (r & Er & Mr & Sr & Gr & Wr).
    exists r. split; [exact Er|]. split; [lia|].
    split; [rewrite Sr, E1; reflexivity|]. split; assumption.
  - intros C. destruct (Hovf C) as (st' & E). rewrite E. reflexivity.
Qed.

Lemma DecimalDiv_exact_scaled_aux rounds L R res0 :
  0 <= Hi32 L < two32 -> 0 <= Lo64 L < two64 ->
  0 <= Hi32 R < 2 ^ 31 -> 0 <= Lo64 R < two64 ->
  (Hi32 R = 0 -> Lo64 R < 2 ^ 63) ->
  mantissa R <> 0 ->
  mantissa L mod mantissa R = 0 ->
  0 <= scale R - scale L <= 28 ->
  let v := mantissa L / mantissa R * 10 ^ (scale R - scale L) in
  (v < two96 ->
   exists r,
     DecimalDiv (5 + rounds) L R res0 = Some (NOERROR, r)
     /\ mantissa r = v /\ scale r = 0
     /\ sign r = u8 (Z.lxor (sign L) (sign R))
     /\ wReserved r = wReserved res0)
  /\ (two96 <= v -> DecimalDiv (5 + rounds) L R res0 = Some (DISP_E_OVERFLOW, res0)).
Proof.
  intros HhL HlL HhR HlR Htop Hnz Hdiv Hsc v.
  destruct (Z.eq_dec (Hi32 R) 0) as [Ez | Enz].
  - assert (Lo64 R <> 0) by (unfold mantissa in Hnz; rewrite Ez in Hnz; lia).
    destruct (Z.lt_ge_cases (Lo64 R) two32) as [C | C].
    + destruct (DecimalDiv_start32 (5 + rounds) L R res0 HhL HlL Ez ltac:(lia) Hdiv)
        as (rd & st0 & E & (d & dtl & -> & Hd) & HZ & Es & Ef
            & q0 & q1 & q2 & EQ & H0 & H1 & H2 & V).
      rewrite E. subst v. rewrite <- V.
      apply (exact_scaled_core (5 + rounds) L R res0 _ _ st0 q0 q1 q2
               (body32_scales_up d dtl Hd) HZ Es Ef EQ H0 H1 H2 ltac:(lia) Hsc).
    + destruct (DecimalDiv_start64 (5 + rounds) L R res0 HhL HlL Ez
                  ltac:(specialize (Htop Ez); lia) Hdiv)
        as (D & st0 & E & HD & HDh & HZ & Es & Ef
            & q0 & q1 & q2 & EQ & H0 & H1 & H2 & V).
      rewrite E. subst v. rewrite <- V.
      apply (exact_scaled_core (5 + rounds) L R res0 _ _ st0 q0 q1 q2
               (body64_scales_up (5 + rounds) D HD HDh) HZ Es Ef EQ H0 H1 H2
               ltac:(lia) Hsc).
  - destruct (DecimalDiv_start96 (5 + rounds) L R res0 ltac:(lia) HhL HlL
                ltac:(lia) HlR Hdiv)
      as (d0 & d1 & d2 & st0 & E & Hd2 & HZ & Es & Ef
          & q0 & q1 & q2 & EQ & H0 & H1 & H2 & V).
    rewrite E. subst v. rewrite <- V.
    apply (exact_scaled_core (5 + rounds) L R res0 _ _ st0 q0 q1 q2
             (body96_scales_up (5 + rounds) d0 d1 d2 [0] Hd2) HZ Es Ef EQ H0 H1 H2
             ltac:(lia) Hsc).
Qed.

(** * Multiplying, then dividing by the same value *)

Lemma multiply_then_divide_aux rounds L R res0 res1 :
  operand L -> operand R ->
  Hi32 R < 2 ^ 31 -> (Hi32 R = 0 -> Lo64 R < 2 ^ 63) ->
  mantissa L <> 0 -> mantissa R <> 0 ->
  scale L + scale R <= 28 ->
  mantissa L * mantissa R < two96 ->
  exists r r',
    DecimalMul rounds L R res0 = Some (NOERROR, r)
    /\ DecimalDiv (S (S rounds)) r R res1 = Some (NOERROR, r')
    /\ mantissa r' = mantissa L /\ scale r' = scale L /\ sign r' = sign L.
Proof.
  intros HL HR Htop1 Htop2 HLnz HRnz Hsc Hfit.
  pose proof HL as (HLh & HLl & HsL & HgL). pose proof HR as (HRh & HRl & HsR & HgR).
  pose proof (mantissa_range L HLh HLl) as HmL.
  pose proof (mantissa_range R HRh HRl) as HmR.
  unfold DEC_SCALE_MAX in *.
  destruct (DecimalMul_exact_aux rounds L R res0 HLh HLl HRh HRl
              ltac:(lia) ltac:(lia) Hsc Hfit) as (r & Er & Mr & Fr & _).
  destruct (Fr ltac:(left; nia)) as (Sr & Gr & Wr).
  destruct (DecimalMul_produced rounds L R res0 r HL HR Er)
    as ((P1 & P2 & P3 & P4) & _).
  destruct (DecimalDiv_exact_any_aux rounds r R res1 P2 P3
              (conj (proj1 HRh) Htop1) HRl Htop2 HRnz)
    as (r' & Er' & Mr' & Sr' & Gr' & Wr').
  - rewrite Mr. apply Z.mod_mul. exact HRnz.
  - lia.
  - unfold two8. lia.
  - exists r, r'. split; [exact Er|]. split; [exact Er'|].
    split; [rewrite Mr', Mr; apply Z.div_mul; exact HRnz|].
    split; [lia|].
    rewrite Gr', Gr.
    destruct HgL as [-> | ->]; destruct HgR as [-> | ->]; reflexivity.
Qed.

(** * Subtraction as the addition of the negated operand *)

Lemma DecimalSub_negated_aux rounds L R res0 :
  (sign L = 0 \/ sign L = DECIMAL_NEG) -> (sign R = 0 \/ sign R = DECIMAL_NEG) ->
  DecimalSub rounds L R res0
  = DecimalAdd rounds L (set_sign R (Z.lxor (sign R) DECIMAL_NEG)) res0.
Proof.
  intros HgL HgR. unfold DecimalSub, DecimalAdd, DecimalAddSub. cbv zeta.
  assert (E : Z.lxor DECIMAL_NEG (Z.land (Z.lxor (sign R) (sign L)) DECIMAL_NEG)
              = Z.lxor 0
                  (Z.land (Z.lxor (sign (set_sign R (Z.lxor (sign R) DECIMAL_NEG)))
                             (sign L)) DECIMAL_NEG)).
  { unfold set_sign. cbn [sign].
    destruct HgL as [-> | ->]; destruct HgR as [-> | ->]; reflexivity. }
  rewrite <- E. reflexivity.
Qed.

(** * Further properties: the 96-bit helpers *)

Ltac by_eval := vm_compute; intuition (discriminate || reflexivity).

(** X1: [Div96By32_x64] divides the 96-bit number held by the first three
    words of the buffer by a non-zero 32-bit divisor: it returns the
    remainder and leaves the quotient in those three words, every other
    word of the buffer as it was. *)
Theorem Div96By32_x64_divides w0 w1 w2 tl d :
  0 <= w0 < two32 -> 0 <= w1 < two32 -> 0 <= w2 < two32 -> 0 < d < two32 ->
  let n := w0 + two32 * w1 + two64 * w2 in
  exists q0 q1 q2,
    Div96By32_x64 (w0 :: w1 :: w2 :: tl) d = (n mod d, q0 :: q1 :: q2 :: tl)
    /\ (0 <= q0 < two32) /\ (0 <= q1 < two32) /\ (0 <= q2 < two32)
    /\ q0 + two32 * q1 + two64 * q2 = n / d.
Proof.
  intros H0 H1 H2 Hd n. exact (Div96By32_x64_spec w0 w1 w2 tl d H0 H1 H2 Hd).
Qed.

Lemma Div96By32_x64_divides_witness :
  (0 <= 5 < two32) /\ (0 <= 4000000000 < two32) /\ (0 <= 9 < two32)
  /\ (0 < 1000000000 < two32)
  /\ exists q0 q1 q2,
       Div96By32_x64 [5; 4000000000; 9; 77] 1000000000
       = ((5 + two32 * 4000000000 + two64 * 9) mod 1000000000, [q0; q1; q2; 77])
       /\ (0 <= q0 < two32) /\ (0 <= q1 < two32) /\ (0 <= q2 < two32)
       /\ q0 + two32 * q1 + two64 * q2
          = (5 + two32 * 4000000000 + two64 * 9) / 1000000000.
Proof.
  assert (H0 : 0 <= 5 < two32) by by_eval.
  assert (H1 : 0 <= 4000000000 < two32) by by_eval.
  assert (H2 : 0 <= 9 < two32) by by_eval.
  assert (Hd : 0 < 1000000000 < two32) by by_eval.
  refine (conj H0 (conj H1 (conj H2 (conj Hd _)))).
  exact (Div96By32_x64_divides 5 4000000000 9 [77] 1000000000 H0 H1 H2 Hd).
Defined.

(** X2: [IncreaseScale96By32] and [IncreaseScale96By64] multiply the 96-bit
    number in the first three words of the buffer by the given power: the
    low 96 bits of the product are left in those words and the bits above
    them are returned, so a return of zero means the product still fits. *)
Theorem IncreaseScale96_multiplies w0 w1 w2 tl p :
  0 <= w0 < two32 -> 0 <= w1 < two32 -> 0 <= w2 < two32 -> 0 <= p < two64 ->
  let n := w0 + two32 * w1 + two64 * w2 in
  (exists ovf q0 q1 q2,
      IncreaseScale96By64 (w0 :: w1 :: w2 :: tl) p = (ovf, q0 :: q1 :: q2 :: tl)
      /\ (0 <= q0 < two32) /\ (0 <= q1 < two32) /\ (0 <= q2 < two32)
      /\ 0 <= ovf < two64
      /\ q0 + two32 * q1 + two64 * q2 + two96 * ovf = n * p)
  /\ (p < two32 ->
      exists ovf q0 q1 q2,
        IncreaseScale96By32 (w0 :: w1 :: w2 :: tl) p = (ovf, q0 :: q1 :: q2 :: tl)
        /\ (0 <= q0 < two32) /\ (0 <= q1 < two32) /\ (0 <= q2 < two32)
        /\ 0 <= ovf < two32
        /\ q0 + two32 * q1 + two64 * q2 + two96 * ovf = n * p).
Proof.
  intros H0 H1 H2 Hp n. split.
  - exact (IncreaseScale96By64_spec w0 w1 w2 tl p H0 H1 H2 Hp).
  - intros Hp'. apply (IncreaseScale96By32_spec w0 w1 w2 tl p H0 H1 H2). lia.
Qed.

Lemma IncreaseScale96_multiplies_witness :
  (0 <= 4294967295 < two32) /\ (0 <= 4294967295 < two32) /\ (0 <= 7 < two32)
  /\ (0 <= 1000000000 < two64)
  /\ (exists ovf q0 q1 q2,
         IncreaseScale96By64 [4294967295; 4294967295; 7] 1000000000
         = (ovf, [q0; q1; q2])
         /\ (0 <= q0 < two32) /\ (0 <= q1 < two32) /\ (0 <= q2 < two32)
         /\ 0 <= ovf < two64
         /\ q0 + two32 * q1 + two64 * q2 + two96 * ovf
            = (4294967295 + two32 * 4294967295 + two64 * 7) * 1000000000)
  /\ (1000000000 < two32 ->
      exists ovf q0 q1 q2,
        IncreaseScale96By32 [4294967295; 4294967295; 7] 1000000000
        = (ovf, [q0; q1; q2])
        /\ (0 <= q0 < two32) /\ (0 <= q1 < two32) /\ (0 <= q2 < two32)
        /\ 0 <= ovf < two32
        /\ q0 + two32 * q1 + two64 * q2 + two96 * ovf
           = (4294967295 + two32 * 4294967295 + two64 * 7) * 1000000000).
Proof.
  assert (H0 : 0 <= 4294967295 < two32) by by_eval.
  assert (H2 : 0 <= 7 < two32) by by_eval.
  assert (Hp : 0 <= 1000000000 < two64) by by_eval.
  refine (conj H0 (conj H0 (conj H2 (conj Hp _)))).
  exact (IncreaseScale96_multiplies 4294967295 4294967295 7 [] 1000000000 H0 H0 H2 Hp).
Defined.

(** X3: the three 96-bit additions ([Add96By64] on a DECIMAL, [Add96By64]
    and [Add96By32] on three 32-bit words) add the given value to the
    96-bit number and return the carry out of bit 95, which is 0 or 1;
    nothing but the 96 bits is changed. *)
Theorem Add96_adds_with_carry w0 w1 w2 tl d v :
  0 <= w0 < two32 -> 0 <= w1 < two32 -> 0 <= w2 < two32 ->
  0 <= Hi32 d < two32 -> 0 <= Lo64 d < two64 -> 0 <= v < two64 ->
  let n := w0 + two32 * w1 + two64 * w2 in
  (exists c q0 q1 q2,
      Add96By64_u32 (w0 :: w1 :: w2 :: tl) v = (c, q0 :: q1 :: q2 :: tl)
      /\ (0 <= q0 < two32) /\ (0 <= q1 < two32) /\ (0 <= q2 < two32)
      /\ (c = 0 \/ c = 1)
      /\ q0 + two32 * q1 + two64 * q2 + two96 * c = n + v)
  /\ (v < two32 ->
      exists c q0 q1 q2,
        Add96By32_u32 (w0 :: w1 :: w2 :: tl) v = (c, q0 :: q1 :: q2 :: tl)
        /\ (0 <= q0 < two32) /\ (0 <= q1 < two32) /\ (0 <= q2 < two32)
        /\ (c = 0 \/ c = 1)
        /\ q0 + two32 * q1 + two64 * q2 + two96 * c = n + v)
  /\ (let '(c, d') := Add96By64_dec d v in
      (c = 0 \/ c = 1)
      /\ mantissa d' + two96 * c = mantissa d + v
      /\ (0 <= Hi32 d' < two32) /\ (0 <= Lo64 d' < two64)
      /\ scale d' = scale d /\ sign d' = sign d /\ wReserved d' = wReserved d).
Proof.
  intros H0 H1 H2 Hh Hl Hv n. split; [|split].
  - exact (Add96By64_u32_spec w0 w1 w2 tl v H0 H1 H2 Hv).
  - intros Hv'. apply (Add96By32_u32_spec w0 w1 w2 tl v H0 H1 H2). lia.
  - exact (Add96By64_dec_spec d v Hh Hl Hv).
Qed.

Lemma Add96_adds_with_carry_witness :
  (0 <= 4294967295 < two32) /\ (0 <= 4294967295 < two32)
  /\ (0 <= 4294967295 < two32)
  /\ (0 <= Hi32 (mkDECIMAL 3 4 128 4294967295 18446744073709551615) < two32)
  /\ (0 <= Lo64 (mkDECIMAL 3 4 128 4294967295 18446744073709551615) < two64)
  /\ (0 <= 1 < two64)
  /\ (exists c q0 q1 q2,
         Add96By64_u32 [4294967295; 4294967295; 4294967295; 9] 1
         = (c, [q0; q1; q2; 9])
         /\ (0 <= q0 < two32) /\ (0 <= q1 < two32) /\ (0 <= q2 < two32)
         /\ (c = 0 \/ c = 1)
         /\ q0 + two32 * q1 + two64 * q2 + two96 * c
            = 4294967295 + two32 * 4294967295 + two64 * 4294967295 + 1)
  /\ (1 < two32 ->
      exists c q0 q1 q2,
        Add96By32_u32 [4294967295; 4294967295; 4294967295; 9] 1
        = (c, [q0; q1; q2; 9])
        /\ (0 <= q0 < two32) /\ (0 <= q1 < two32) /\ (0 <= q2 < two32)
        /\ (c = 0 \/ c = 1)
        /\ q0 + two32 * q1 + two64 * q2 + two96 * c
           = 4294967295 + two32 * 4294967295 + two64 * 4294967295 + 1)
  /\ (let '(c, d') :=
        Add96By64_dec (mkDECIMAL 3 4 128 4294967295 18446744073709551615) 1 in
      (c = 0 \/ c = 1)
      /\ mantissa d' + two96 * c
         = mantissa (mkDECIMAL 3 4 128 4294967295 18446744073709551615) + 1
      /\ (0 <= Hi32 d' < two32) /\ (0 <= Lo64 d' < two64)
      /\ scale d' = scale (mkDECIMAL 3 4 128 4294967295 18446744073709551615)
      /\ sign d' = sign (mkDECIMAL 3 4 128 4294967295 18446744073709551615)
      /\ wReserved d'
         = wReserved (mkDECIMAL 3 4 128 4294967295 18446744073709551615)).
Proof.
  assert (H0 : 0 <= 4294967295 < two32) by by_eval.
  assert (Hh : 0 <= Hi32 (mkDECIMAL 3 4 128 4294967295 18446744073709551615) < two32)
    by by_eval.
  assert (Hl : 0 <= Lo64 (mkDECIMAL 3 4 128 4294967295 18446744073709551615) < two64)
    by by_eval.
  assert (Hv : 0 <= 1 < two64) by by_eval.
  refine (conj H0 (conj H0 (conj H0 (conj Hh (conj Hl (conj Hv _)))))).
  exact (Add96_adds_with_carry 4294967295 4294967295 4294967295 [9]
           (mkDECIMAL 3 4 128 4294967295 18446744073709551615) 1
           H0 H0 H0 Hh Hl Hv).
Defined.

(** * Further properties: the parser's arithmetic (decimal.cpp) *)

(** X4: [DecMul10] multiplies the 96-bit mantissa by ten, modulo 2^96,
    through [DecShiftLeft] (a doubling) and [DecAdd] (an addition, both
    modulo 2^96); scale, sign and [wReserved] are left alone. *)
Theorem DecMul10_times_ten d e :
  0 <= Hi32 d < two32 -> 0 <= Lo64 d < two64 ->
  0 <= Hi32 e < two32 -> 0 <= Lo64 e < two64 ->
  (mantissa (DecMul10 d) = (10 * mantissa d) mod two96
   /\ scale (DecMul10 d) = scale d /\ sign (DecMul10 d) = sign d
   /\ wReserved (DecMul10 d) = wReserved d)
  /\ (mantissa (DecShiftLeft d) = (2 * mantissa d) mod two96
      /\ scale (DecShiftLeft d) = scale d /\ sign (DecShiftLeft d) = sign d
      /\ wReserved (DecShiftLeft d) = wReserved d)
  /\ (mantissa (DecAdd d e) = (mantissa d + mantissa e) mod two96
      /\ scale (DecAdd d e) = scale d /\ sign (DecAdd d e) = sign d
      /\ wReserved (DecAdd d e) = wReserved d).
Proof.
  intros Hh Hl Hh' Hl'.
  destruct (DecMul10_spec d Hh Hl) as (M1 & _ & _ & M2 & M3 & M4).
  destruct (DecShiftLeft_spec d Hh Hl) as (S1 & _ & _ & S2 & S3 & S4).
  destruct (DecAdd_spec d e Hh Hl Hh' Hl') as (A1 & _ & _ & A2 & A3 & A4).
  repeat split; assumption.
Qed.

Lemma DecMul10_times_ten_witness :
  (0 <= Hi32 (mkDECIMAL 0 3 128 4000000000 1234567890123456789) < two32)
  /\ (0 <= Lo64 (mkDECIMAL 0 3 128 4000000000 1234567890123456789) < two64)
  /\ (0 <= Hi32 (mkDECIMAL 0 0 0 500000000 18000000000000000000) < two32)
  /\ (0 <= Lo64 (mkDECIMAL 0 0 0 500000000 18000000000000000000) < two64)
  /\ (mantissa (DecMul10 (mkDECIMAL 0 3 128 4000000000 1234567890123456789))
      = (10 * mantissa (mkDECIMAL 0 3 128 4000000000 1234567890123456789)) mod two96
      /\ scale (DecMul10 (mkDECIMAL 0 3 128 4000000000 1234567890123456789))
         = scale (mkDECIMAL 0 3 128 4000000000 1234567890123456789)
      /\ sign (DecMul10 (mkDECIMAL 0 3 128 4000000000 1234567890123456789))
         = sign (mkDECIMAL 0 3 128 4000000000 1234567890123456789)
      /\ wReserved (DecMul10 (mkDECIMAL 0 3 128 4000000000 1234567890123456789))
         = wReserved (mkDECIMAL 0 3 128 4000000000 1234567890123456789))
  /\ (mantissa (DecShiftLeft (mkDECIMAL 0 3 128 4000000000 1234567890123456789))
      = (2 * mantissa (mkDECIMAL 0 3 128 4000000000 1234567890123456789)) mod two96
      /\ scale (DecShiftLeft (mkDECIMAL 0 3 128 4000000000 1234567890123456789))
         = scale (mkDECIMAL 0 3 128 4000000000 1234567890123456789)
      /\ sign (DecShiftLeft (mkDECIMAL 0 3 128 4000000000 1234567890123456789))
         = sign (mkDECIMAL 0 3 128 4000000000 1234567890123456789)
      /\ wReserved (DecShiftLeft (mkDECIMAL 0 3 128 4000000000 1234567890123456789))
         = wReserved (mkDECIMAL 0 3 128 4000000000 1234567890123456789))
  /\ (mantissa (DecAdd (mkDECIMAL 0 3 128 4000000000 1234567890123456789)
                  (mkDECIMAL 0 0 0 500000000 18000000000000000000))
      = (mantissa (mkDECIMAL 0 3 128 4000000000 1234567890123456789)
         + mantissa (mkDECIMAL 0 0 0 500000000 18000000000000000000)) mod two96
      /\ scale (DecAdd (mkDECIMAL 0 3 128 4000000000 1234567890123456789)
                  (mkDECIMAL 0 0 0 500000000 18000000000000000000))
         = scale (mkDECIMAL 0 3 128 4000000000 1234567890123456789)
      /\ sign (DecAdd (mkDECIMAL 0 3 128 4000000000 1234567890123456789)
                 (mkDECIMAL 0 0 0 500000000 18000000000000000000))
         = sign (mkDECIMAL 0 3 128 4000000000 1234567890123456789)
      /\ wReserved (DecAdd (mkDECIMAL 0 3 128 4000000000 1234567890123456789)
                      (mkDECIMAL 0 0 0 500000000 18000000000000000000))
         = wReserved (mkDECIMAL 0 3 128 4000000000 1234567890123456789)).
Proof.
  assert (H1 : 0 <= Hi32 (mkDECIMAL 0 3 128 4000000000 1234567890123456789) < two32)
    by by_eval.
  assert (H2 : 0 <= Lo64 (mkDECIMAL 0 3 128 4000000000 1234567890123456789) < two64)
    by by_eval.
  assert (H3 : 0 <= Hi32 (mkDECIMAL 0 0 0 500000000 18000000000000000000) < two32)
    by by_eval.
  assert (H4 : 0 <= Lo64 (mkDECIMAL 0 0 0 500000000 18000000000000000000) < two64)
    by by_eval.
  refine (conj H1 (conj H2 (conj H3 (conj H4 _)))).
  exact (DecMul10_times_ten _ _ H1 H2 H3 H4).
Defined.

(** X5: [DecAddInt32] adds a 32-bit number to the 96-bit mantissa, modulo
    2^96, the carries running through all three words; scale, sign and
    [wReserved] are left alone. *)
Theorem DecAddInt32_adds d i :
  0 <= Hi32 d < two32 -> 0 <= Lo64 d < two64 -> 0 <= i < two32 ->
  mantissa (DecAddInt32 d i) = (mantissa d + i) mod two96
  /\ scale (DecAddInt32 d i) = scale d /\ sign (DecAddInt32 d i) = sign d
  /\ wReserved (DecAddInt32 d i) = wReserved d.
Proof.
  intros Hh Hl Hi.
  destruct (DecAddInt32_spec d i Hh Hl Hi) as (M1 & _ & _ & M2 & M3 & M4).
  repeat split; assumption.
Qed.

Lemma DecAddInt32_adds_witness :
  (0 <= Hi32 (mkDECIMAL 0 2 0 7 18446744073709551615) < two32)
  /\ (0 <= Lo64 (mkDECIMAL 0 2 0 7 18446744073709551615) < two64)
  /\ (0 <= 9 < two32)
  /\ mantissa (DecAddInt32 (mkDECIMAL 0 2 0 7 18446744073709551615) 9)
     = (mantissa (mkDECIMAL 0 2 0 7 18446744073709551615) + 9) mod two96
  /\ scale (DecAddInt32 (mkDECIMAL 0 2 0 7 18446744073709551615) 9)
     = scale (mkDECIMAL 0 2 0 7 18446744073709551615)
  /\ sign (DecAddInt32 (mkDECIMAL 0 2 0 7 18446744073709551615) 9)
     = sign (mkDECIMAL 0 2 0 7 18446744073709551615)
  /\ wReserved (DecAddInt32 (mkDECIMAL 0 2 0 7 18446744073709551615) 9)
     = wReserved (mkDECIMAL 0 2 0 7 18446744073709551615).
Proof.
  assert (H1 : 0 <= Hi32 (mkDECIMAL 0 2 0 7 18446744073709551615) < two32) by by_eval.
  assert (H2 : 0 <= Lo64 (mkDECIMAL 0 2 0 7 18446744073709551615) < two64) by by_eval.
  assert (H3 : 0 <= 9 < two32) by by_eval.
  refine (conj H1 (conj H2 (conj H3 _))).
  exact (DecAddInt32_adds _ 9 H1 H2 H3).
Defined.

(** X6: [DecDivMod1E9] divides the 96-bit mantissa by 10^9: the quotient is
    left in the mantissa and the remainder is returned; scale, sign and
    [wReserved] are left alone. *)
Theorem DecDivMod1E9_divides d :
  0 <= Hi32 d < two32 -> 0 <= Lo64 d < two64 ->
  mantissa (snd (DecDivMod1E9 d)) = mantissa d / 1000000000
  /\ fst (DecDivMod1E9 d) = mantissa d mod 1000000000
  /\ scale (snd (DecDivMod1E9 d)) = scale d
  /\ sign (snd (DecDivMod1E9 d)) = sign d
  /\ wReserved (snd (DecDivMod1E9 d)) = wReserved d.
Proof.
  intros Hh Hl. pose proof (DecDivMod1E9_spec d Hh Hl) as S.
  destruct (DecDivMod1E9 d) as [r d'].
  destruct S as (S1 & S2 & _ & _ & S3 & S4 & S5).
  cbn [fst snd]. repeat split; assumption.
Qed.

Lemma DecDivMod1E9_divides_witness :
  (0 <= Hi32 (mkDECIMAL 0 5 128 4294967295 18446744073709551615) < two32)
  /\ (0 <= Lo64 (mkDECIMAL 0 5 128 4294967295 18446744073709551615) < two64)
  /\ mantissa (snd (DecDivMod1E9 (mkDECIMAL 0 5 128 4294967295 18446744073709551615)))
     = mantissa (mkDECIMAL 0 5 128 4294967295 18446744073709551615) / 1000000000
  /\ fst (DecDivMod1E9 (mkDECIMAL 0 5 128 4294967295 18446744073709551615))
     = mantissa (mkDECIMAL 0 5 128 4294967295 18446744073709551615) mod 1000000000
  /\ scale (snd (DecDivMod1E9 (mkDECIMAL 0 5 128 4294967295 18446744073709551615)))
     = scale (mkDECIMAL 0 5 128 4294967295 18446744073709551615)
  /\ sign (snd (DecDivMod1E9 (mkDECIMAL 0 5 128 4294967295 18446744073709551615)))
     = sign (mkDECIMAL 0 5 128 4294967295 18446744073709551615)
  /\ wReserved (snd (DecDivMod1E9 (mkDECIMAL 0 5 128 4294967295 18446744073709551615)))
     = wReserved (mkDECIMAL 0 5 128 4294967295 18446744073709551615).
Proof.
  assert (H1 : 0 <= Hi32 (mkDECIMAL 0 5 128 4294967295 18446744073709551615) < two32)
    by by_eval.
  assert (H2 : 0 <= Lo64 (mkDECIMAL 0 5 128 4294967295 18446744073709551615) < two64)
    by by_eval.
  refine (conj H1 (conj H2 _)).
  exact (DecDivMod1E9_divides _ H1 H2).
Defined.

(** X7: [NumberToDecimal] converts a number of at most 28 digits exactly:
    with [sc] the position of the decimal point among the [n] digits, the
    mantissa is the digits' value (times 10^(sc - n) when the point lies
    beyond the last digit), the scale is the count of digits after the
    point, the sign follows the number's flag and [wReserved] is zero. *)
Theorem NumberToDecimal_exact P sc sg bd ds rest :
  ds <> [] -> all_digits ds ->
  Z.of_nat (length ds) <= 28 -> sc <= 28 -> Z.of_nat (length ds) - sc <= 28 ->
  sc <= P -> Z.of_nat (length ds) - sc < P ->
  exists r,
    NumberToDecimal P (mkNUMBER sc sg bd (ds ++ 0 :: rest)) = Some r
    /\ mantissa r = digits_value ds 0 * 10 ^ Z.max 0 (sc - Z.of_nat (length ds))
    /\ scale r = Z.max 0 (Z.of_nat (length ds) - sc)
    /\ sign r = (if sg then DECIMAL_NEG else 0) /\ wReserved r = 0.
Proof.
  intros H1 H2 H3 H4 H5 H6 H7.
  exact (NumberToDecimal_exact_aux P sc sg bd ds rest H1 H2 H3 H4 H5 H6 H7).
Qed.

Lemma NumberToDecimal_exact_witness :
  [49; 50; 51; 52; 53] <> [] /\ all_digits [49; 50; 51; 52; 53]
  /\ Z.of_nat (length [49; 50; 51; 52; 53]) <= 28 /\ 2 <= 28
  /\ Z.of_nat (length [49; 50; 51; 52; 53]) - 2 <= 28
  /\ 2 <= 29 /\ Z.of_nat (length [49; 50; 51; 52; 53]) - 2 < 29
  /\ exists r,
       NumberToDecimal 29 (mkNUMBER 2 true 0 ([49; 50; 51; 52; 53] ++ 0 :: [55]))
       = Some r
       /\ mantissa r
          = digits_value [49; 50; 51; 52; 53] 0
            * 10 ^ Z.max 0 (2 - Z.of_nat (length [49; 50; 51; 52; 53]))
       /\ scale r = Z.max 0 (Z.of_nat (length [49; 50; 51; 52; 53]) - 2)
       /\ sign r = (if true then DECIMAL_NEG else 0) /\ wReserved r = 0.
Proof.
  assert (H1 : [49; 50; 51; 52; 53] <> []) by discriminate.
  assert (H2 : all_digits [49; 50; 51; 52; 53])
    by (repeat constructor; vm_compute; discriminate).
  assert (H3 : Z.of_nat (length [49; 50; 51; 52; 53]) <= 28) by by_eval.
  assert (H4 : 2 <= 28) by by_eval.
  assert (H5 : Z.of_nat (length [49; 50; 51; 52; 53]) - 2 <= 28) by by_eval.
  assert (H6 : 2 <= 29) by by_eval.
  assert (H7 : Z.of_nat (length [49; 50; 51; 52; 53]) - 2 < 29) by by_eval.
  refine (conj H1 (conj H2 (conj H3 (conj H4 (conj H5 (conj H6 (conj H7 _))))))).
  exact (NumberToDecimal_exact 29 2 true 0 _ [55] H1 H2 H3 H4 H5 H6 H7).
Defined.

(** * Further properties: the arithmetic routines on exact inputs *)

(** X8: when the scales sum to at most 28 and the product of the mantissas
    fits in 96 bits, [DecimalMul] returns that product exactly, with the sum
    of the scales and the exclusive or of the signs; only a zero product
    computed on the 96-bit path (an operand with a non-zero high word)
    comes back as the all-zero decimal instead. *)
Theorem DecimalMul_exact rounds L R res0 :
  0 <= Hi32 L < two32 -> 0 <= Lo64 L < two64 ->
  0 <= Hi32 R < two32 -> 0 <= Lo64 R < two64 ->
  0 <= scale L -> 0 <= scale R -> scale L + scale R <= 28 ->
  mantissa L * mantissa R < two96 ->
  exists r,
    DecimalMul rounds L R res0 = Some (NOERROR, r)
    /\ mantissa r = mantissa L * mantissa R
    /\ (mantissa L * mantissa R <> 0 \/ (Hi32 L = 0 /\ Hi32 R = 0) ->
        scale r = scale L + scale R
        /\ sign r = u8 (Z.lxor (sign L) (sign R))
        /\ wReserved r = wReserved res0)
    /\ (mantissa L * mantissa R = 0 -> Hi32 L <> 0 \/ Hi32 R <> 0 ->
        r = DECIMAL_SETZERO).
Proof.
  intros H1 H2 H3 H4 H5 H6 H7 H8.
  exact (DecimalMul_exact_aux rounds L R res0 H1 H2 H3 H4 H5 H6 H7 H8).
Qed.

Lemma DecimalMul_exact_witness :
  (0 <= Hi32 (mkDECIMAL 9 3 128 2 5) < two32) /\ (0 <= Lo64 (mkDECIMAL 9 3 128 2 5) < two64)
  /\ (0 <= Hi32 (mkDECIMAL 0 2 0 0 1000) < two32) /\ (0 <= Lo64 (mkDECIMAL 0 2 0 0 1000) < two64)
  /\ 0 <= scale (mkDECIMAL 9 3 128 2 5) /\ 0 <= scale (mkDECIMAL 0 2 0 0 1000)
  /\ scale (mkDECIMAL 9 3 128 2 5) + scale (mkDECIMAL 0 2 0 0 1000) <= 28
  /\ mantissa (mkDECIMAL 9 3 128 2 5) * mantissa (mkDECIMAL 0 2 0 0 1000) < two96
  /\ exists r,
       DecimalMul 64%nat (mkDECIMAL 9 3 128 2 5) (mkDECIMAL 0 2 0 0 1000) (mkDECIMAL 7 0 0 0 0) = Some (NOERROR, r)
       /\ mantissa r = mantissa (mkDECIMAL 9 3 128 2 5) * mantissa (mkDECIMAL 0 2 0 0 1000)
       /\ (mantissa (mkDECIMAL 9 3 128 2 5) * mantissa (mkDECIMAL 0 2 0 0 1000) <> 0
           \/ (Hi32 (mkDECIMAL 9 3 128 2 5) = 0 /\ Hi32 (mkDECIMAL 0 2 0 0 1000) = 0) ->
           scale r = scale (mkDECIMAL 9 3 128 2 5) + scale (mkDECIMAL 0 2 0 0 1000)
           /\ sign r = u8 (Z.lxor (sign (mkDECIMAL 9 3 128 2 5)) (sign (mkDECIMAL 0 2 0 0 1000)))
           /\ wReserved r = wReserved (mkDECIMAL 7 0 0 0 0))
       /\ (mantissa (mkDECIMAL 9 3 128 2 5) * mantissa (mkDECIMAL 0 2 0 0 1000) = 0 ->
           Hi32 (mkDECIMAL 9 3 128 2 5) <> 0 \/ Hi32 (mkDECIMAL 0 2 0 0 1000) <> 0 ->
           r = DECIMAL_SETZERO).
Proof.
  assert (H1 : 0 <= Hi32 (mkDECIMAL 9 3 128 2 5) < two32) by by_eval.
  assert (H2 : 0 <= Lo64 (mkDECIMAL 9 3 128 2 5) < two64) by by_eval.
  assert (H3 : 0 <= Hi32 (mkDECIMAL 0 2 0 0 1000) < two32) by by_eval.
  assert (H4 : 0 <= Lo64 (mkDECIMAL 0 2 0 0 1000) < two64) by by_eval.
  assert (H5 : 0 <= scale (mkDECIMAL 9 3 128 2 5)) by by_eval.
  assert (H6 : 0 <= scale (mkDECIMAL 0 2 0 0 1000)) by by_eval.
  assert (H7 : scale (mkDECIMAL 9 3 128 2 5) + scale (mkDECIMAL 0 2 0 0 1000) <= 28) by by_eval.
  assert (H8 : mantissa (mkDECIMAL 9 3 128 2 5) * mantissa (mkDECIMAL 0 2 0 0 1000) < two96) by by_eval.
  refine (conj H1 (conj H2 (conj H3 (conj H4 (conj H5 (conj H6 (conj H7 (conj H8 _)))))))).
  exact (DecimalMul_exact 64%nat _ _ (mkDECIMAL 7 0 0 0 0) H1 H2 H3 H4 H5 H6 H7 H8).
Defined.

(** X9: at scale zero a product of the mantissas that needs more than 96
    bits cannot be scaled down: [DecimalMul] returns [DISP_E_OVERFLOW] and
    leaves the result slot as it was. *)
Theorem DecimalMul_overflow rounds L R res0 :
  0 <= Hi32 L < two32 -> 0 <= Lo64 L < two64 ->
  0 <= Hi32 R < two32 -> 0 <= Lo64 R < two64 ->
  scale L = 0 -> scale R = 0 ->
  two96 <= mantissa L * mantissa R ->
  DecimalMul rounds L R res0 = Some (DISP_E_OVERFLOW, res0).
Proof.
  intros H1 H2 H3 H4 H5 H6 H7.
  exact (DecimalMul_overflow_aux rounds L R res0 H1 H2 H3 H4 H5 H6 H7).
Qed.

Lemma DecimalMul_overflow_witness :
  (0 <= Hi32 (mkDECIMAL 9 0 128 1 0) < two32) /\ (0 <= Lo64 (mkDECIMAL 9 0 128 1 0) < two64)
  /\ (0 <= Hi32 (mkDECIMAL 0 0 0 0 4294967296) < two32) /\ (0 <= Lo64 (mkDECIMAL 0 0 0 0 4294967296) < two64)
  /\ scale (mkDECIMAL 9 0 128 1 0) = 0 /\ scale (mkDECIMAL 0 0 0 0 4294967296) = 0
  /\ two96 <= mantissa (mkDECIMAL 9 0 128 1 0) * mantissa (mkDECIMAL 0 0 0 0 4294967296)
  /\ DecimalMul 64%nat (mkDECIMAL 9 0 128 1 0) (mkDECIMAL 0 0 0 0 4294967296) (mkDECIMAL 7 0 0 0 0) = Some (DISP_E_OVERFLOW, (mkDECIMAL 7 0 0 0 0)).
Proof.
  assert (H1 : 0 <= Hi32 (mkDECIMAL 9 0 128 1 0) < two32) by by_eval.
  assert (H2 : 0 <= Lo64 (mkDECIMAL 9 0 128 1 0) < two64) by by_eval.
  assert (H3 : 0 <= Hi32 (mkDECIMAL 0 0 0 0 4294967296) < two32) by by_eval.
  assert (H4 : 0 <= Lo64 (mkDECIMAL 0 0 0 0 4294967296) < two64) by by_eval.
  assert (H5 : scale (mkDECIMAL 9 0 128 1 0) = 0) by reflexivity.
  assert (H6 : scale (mkDECIMAL 0 0 0 0 4294967296) = 0) by reflexivity.
  assert (H7 : two96 <= mantissa (mkDECIMAL 9 0 128 1 0) * mantissa (mkDECIMAL 0 0 0 0 4294967296)) by by_eval.
  refine (conj H1 (conj H2 (conj H3 (conj H4 (conj H5 (conj H6 (conj H7 _))))))).
  exact (DecimalMul_overflow 64%nat _ _ (mkDECIMAL 7 0 0 0 0) H1 H2 H3 H4 H5 H6 H7).
Defined.

(** X10: at equal scales, when [DecimalAddSub] has to subtract the
    magnitudes (a subtraction of equal signs, an addition of unequal
    ones), the result is the absolute difference of the mantissas at the
    same scale; its sign is the left operand's, flipped when the left
    mantissa is the smaller one. *)
Theorem DecimalAddSub_difference rounds L R res0 bSign :
  operand L -> operand R -> scale L = scale R ->
  (bSign = 0 \/ bSign = DECIMAL_NEG) ->
  effective_sign L R bSign <> 0 ->
  exists r,
    DecimalAddSub rounds L R res0 bSign = Some (NOERROR, r)
    /\ mantissa r = Z.abs (mantissa L - mantissa R)
    /\ sign r = (if mantissa L <? mantissa R then Z.lxor (sign L) DECIMAL_NEG
                 else sign L)
    /\ scale r = scale L /\ wReserved r = wReserved res0.
Proof.
  intros H1 H2 H3 H4 H5.
  exact (DecimalAddSub_difference_aux rounds L R res0 bSign H1 H2 H3 H4 H5).
Qed.

Lemma DecimalAddSub_difference_witness :
  operand (decimal_of 0 5 1) /\ operand (decimal_of 0 7 1) /\ scale (decimal_of 0 5 1) = scale (decimal_of 0 7 1)
  /\ (DECIMAL_NEG = 0 \/ DECIMAL_NEG = DECIMAL_NEG)
  /\ effective_sign (decimal_of 0 5 1) (decimal_of 0 7 1) DECIMAL_NEG <> 0
  /\ exists r,
       DecimalAddSub 64%nat (decimal_of 0 5 1) (decimal_of 0 7 1) (mkDECIMAL 7 0 0 0 0) DECIMAL_NEG = Some (NOERROR, r)
       /\ mantissa r = Z.abs (mantissa (decimal_of 0 5 1) - mantissa (decimal_of 0 7 1))
       /\ sign r = (if mantissa (decimal_of 0 5 1) <? mantissa (decimal_of 0 7 1)
                    then Z.lxor (sign (decimal_of 0 5 1)) DECIMAL_NEG else sign (decimal_of 0 5 1))
       /\ scale r = scale (decimal_of 0 5 1) /\ wReserved r = wReserved (mkDECIMAL 7 0 0 0 0).
Proof.
  assert (H1 : operand (decimal_of 0 5 1)) by by_eval.
  assert (H2 : operand (decimal_of 0 7 1)) by by_eval.
  assert (H3 : scale (decimal_of 0 5 1) = scale (decimal_of 0 7 1)) by reflexivity.
  assert (H4 : DECIMAL_NEG = 0 \/ DECIMAL_NEG = DECIMAL_NEG) by (right; reflexivity).
  assert (H5 : effective_sign (decimal_of 0 5 1) (decimal_of 0 7 1) DECIMAL_NEG <> 0) by by_eval.
  refine (conj H1 (conj H2 (conj H3 (conj H4 (conj H5 _))))).
  exact (DecimalAddSub_difference 64%nat _ _ (mkDECIMAL 7 0 0 0 0) DECIMAL_NEG H1 H2 H3 H4 H5).
Defined.

(** X11: at equal scales, when [DecimalAddSub] has to add the magnitudes,
    a sum that fits in 96 bits is returned exactly, with the scale and the
    sign of the left operand; a sum that does not fit is an overflow when
    the scale is zero. *)
Theorem DecimalAddSub_sum rounds L R res0 bSign :
  operand L -> operand R -> scale L = scale R ->
  (bSign = 0 \/ bSign = DECIMAL_NEG) ->
  effective_sign L R bSign = 0 ->
  (mantissa L + mantissa R < two96 ->
   exists r, DecimalAddSub rounds L R res0 bSign = Some (NOERROR, r)
     /\ mantissa r = mantissa L + mantissa R /\ sign r = sign L
     /\ scale r = scale L /\ wReserved r = wReserved res0)
  /\ (two96 <= mantissa L + mantissa R -> scale L = 0 ->
      exists d, DecimalAddSub rounds L R res0 bSign = Some (DISP_E_OVERFLOW, d)).
Proof.
  intros H1 H2 H3 H4 H5.
  destruct (DecimalAddSub_sum_aux rounds L R res0 bSign H1 H2 H3 H4 H5)
    as (S1 & S2 & _).
  split; assumption.
Qed.

Lemma DecimalAddSub_sum_witness :
  operand (mkDECIMAL 0 0 0 4294967295 18446744073709551615) /\ operand (decimal_of 0 6 0) /\ scale (mkDECIMAL 0 0 0 4294967295 18446744073709551615) = scale (decimal_of 0 6 0)
  /\ (0 = 0 \/ 0 = DECIMAL_NEG)
  /\ effective_sign (mkDECIMAL 0 0 0 4294967295 18446744073709551615) (decimal_of 0 6 0) 0 = 0
  /\ (mantissa (mkDECIMAL 0 0 0 4294967295 18446744073709551615) + mantissa (decimal_of 0 6 0) < two96 ->
      exists r, DecimalAddSub 64%nat (mkDECIMAL 0 0 0 4294967295 18446744073709551615) (decimal_of 0 6 0) (mkDECIMAL 7 0 0 0 0) 0 = Some (NOERROR, r)
        /\ mantissa r = mantissa (mkDECIMAL 0 0 0 4294967295 18446744073709551615) + mantissa (decimal_of 0 6 0) /\ sign r = sign (mkDECIMAL 0 0 0 4294967295 18446744073709551615)
        /\ scale r = scale (mkDECIMAL 0 0 0 4294967295 18446744073709551615) /\ wReserved r = wReserved (mkDECIMAL 7 0 0 0 0))
  /\ (two96 <= mantissa (mkDECIMAL 0 0 0 4294967295 18446744073709551615) + mantissa (decimal_of 0 6 0) -> scale (mkDECIMAL 0 0 0 4294967295 18446744073709551615) = 0 ->
      exists d, DecimalAddSub 64%nat (mkDECIMAL 0 0 0 4294967295 18446744073709551615) (decimal_of 0 6 0) (mkDECIMAL 7 0 0 0 0) 0 = Some (DISP_E_OVERFLOW, d)).
Proof.
  assert (H1 : operand (mkDECIMAL 0 0 0 4294967295 18446744073709551615)) by by_eval.
  assert (H2 : operand (decimal_of 0 6 0)) by by_eval.
  assert (H3 : scale (mkDECIMAL 0 0 0 4294967295 18446744073709551615) = scale (decimal_of 0 6 0)) by reflexivity.
  assert (H4 : 0 = 0 \/ 0 = DECIMAL_NEG) by (left; reflexivity).
  assert (H5 : effective_sign (mkDECIMAL 0 0 0 4294967295 18446744073709551615) (decimal_of 0 6 0) 0 = 0) by reflexivity.
  refine (conj H1 (conj H2 (conj H3 (conj H4 (conj H5 _))))).
  exact (DecimalAddSub_sum 64%nat _ _ (mkDECIMAL 7 0 0 0 0) 0 H1 H2 H3 H4 H5).
Defined.

(** X12: at equal non-zero scales, a sum of the magnitudes that needs a
    97th bit is divided by ten, rounded to the nearest with a tie going to
    the even quotient, and returned at the scale lowered by one. *)
Theorem DecimalAddSub_sum_rounded rounds L R res0 bSign :
  operand L -> operand R -> scale L = scale R ->
  (bSign = 0 \/ bSign = DECIMAL_NEG) ->
  effective_sign L R bSign = 0 ->
  two96 <= mantissa L + mantissa R -> scale L <> 0 ->
  exists r,
    DecimalAddSub rounds L R res0 bSign = Some (NOERROR, r)
    /\ mantissa r = div10_half_even (mantissa L + mantissa R)
    /\ sign r = sign L /\ scale r = scale L - 1
    /\ wReserved r = wReserved res0.
Proof.
  intros H1 H2 H3 H4 H5 H6 H7.
  destruct (DecimalAddSub_sum_aux rounds L R res0 bSign H1 H2 H3 H4 H5)
    as (_ & _ & S3).
  exact (S3 H6 H7).
Qed.

Lemma DecimalAddSub_sum_rounded_witness :
  operand (mkDECIMAL 0 1 0 4294967295 18446744073709551615) /\ operand (decimal_of 0 6 1) /\ scale (mkDECIMAL 0 1 0 4294967295 18446744073709551615) = scale (decimal_of 0 6 1)
  /\ (0 = 0 \/ 0 = DECIMAL_NEG)
  /\ effective_sign (mkDECIMAL 0 1 0 4294967295 18446744073709551615) (decimal_of 0 6 1) 0 = 0
  /\ two96 <= mantissa (mkDECIMAL 0 1 0 4294967295 18446744073709551615) + mantissa (decimal_of 0 6 1) /\ scale (mkDECIMAL 0 1 0 4294967295 18446744073709551615) <> 0
  /\ exists r,
       DecimalAddSub 64%nat (mkDECIMAL 0 1 0 4294967295 18446744073709551615) (decimal_of 0 6 1) (mkDECIMAL 7 0 0 0 0) 0 = Some (NOERROR, r)
       /\ mantissa r = div10_half_even (mantissa (mkDECIMAL 0 1 0 4294967295 18446744073709551615) + mantissa (decimal_of 0 6 1))
       /\ sign r = sign (mkDECIMAL 0 1 0 4294967295 18446744073709551615) /\ scale r = scale (mkDECIMAL 0 1 0 4294967295 18446744073709551615) - 1
       /\ wReserved r = wReserved (mkDECIMAL 7 0 0 0 0).
Proof.
  assert (H1 : operand (mkDECIMAL 0 1 0 4294967295 18446744073709551615)) by by_eval.
  assert (H2 : operand (decimal_of 0 6 1)) by by_eval.
  assert (H3 : scale (mkDECIMAL 0 1 0 4294967295 18446744073709551615) = scale (decimal_of 0 6 1)) by reflexivity.
  assert (H4 : 0 = 0 \/ 0 = DECIMAL_NEG) by (left; reflexivity).
  assert (H5 : effective_sign (mkDECIMAL 0 1 0 4294967295 18446744073709551615) (decimal_of 0 6 1) 0 = 0) by reflexivity.
  assert (H6 : two96 <= mantissa (mkDECIMAL 0 1 0 4294967295 18446744073709551615) + mantissa (decimal_of 0 6 1)) by by_eval.
  assert (H7 : scale (mkDECIMAL 0 1 0 4294967295 18446744073709551615) <> 0) by discriminate.
  refine (conj H1 (conj H2 (conj H3 (conj H4 (conj H5 (conj H6 (conj H7 _))))))).
  exact (DecimalAddSub_sum_rounded 64%nat _ _ (mkDECIMAL 7 0 0 0 0) 0 H1 H2 H3 H4 H5 H6 H7).
Defined.

(** X13: when the divisor's mantissa is not zero and divides the
    dividend's mantissa without remainder, and the divisor's scale is not
    the larger one, [DecimalDiv] returns the exact quotient of the mantissas
    at the difference of the scales, with the exclusive or of the signs,
    whether the divisor takes 32, 64 or 96 bits, provided that a divisor of
    more than 32 bits has the top bit of its highest non-zero 32-bit word
    clear (below 2^63 within 64 bits, below 2^95 otherwise), so that the
    shift that normalises it is not zero. *)
Theorem DecimalDiv_exact rounds L R res0 :
  0 <= Hi32 L < two32 -> 0 <= Lo64 L < two64 ->
  0 <= Hi32 R < 2 ^ 31 -> 0 <= Lo64 R < two64 ->
  (Hi32 R = 0 -> Lo64 R < 2 ^ 63) ->
  mantissa R <> 0 ->
  mantissa L mod mantissa R = 0 ->
  0 <= scale R <= scale L -> scale L < two8 ->
  exists r,
    DecimalDiv (S (S rounds)) L R res0 = Some (NOERROR, r)
    /\ mantissa r = mantissa L / mantissa R
    /\ scale r = scale L - scale R
    /\ sign r = u8 (Z.lxor (sign L) (sign R))
    /\ wReserved r = wReserved res0.
Proof.
  intros H1 H2 H3 H4 H4' H5 H6 H7 H8.
  exact (DecimalDiv_exact_any_aux rounds L R res0 H1 H2 H3 H4 H4' H5 H6 H7 H8).
Qed.

Lemma DecimalDiv_exact_witness :
  (0 <= Hi32 (decimal_of 128 (3 * 18446744073709551621) 3) < two32) /\ (0 <= Lo64 (decimal_of 128 (3 * 18446744073709551621) 3) < two64)
  /\ (0 <= Hi32 (mkDECIMAL 0 1 0 1 5) < 2 ^ 31) /\ (0 <= Lo64 (mkDECIMAL 0 1 0 1 5) < two64)
  /\ (Hi32 (mkDECIMAL 0 1 0 1 5) = 0 -> Lo64 (mkDECIMAL 0 1 0 1 5) < 2 ^ 63)
  /\ mantissa (mkDECIMAL 0 1 0 1 5) <> 0
  /\ mantissa (decimal_of 128 (3 * 18446744073709551621) 3) mod mantissa (mkDECIMAL 0 1 0 1 5) = 0
  /\ 0 <= scale (mkDECIMAL 0 1 0 1 5) <= scale (decimal_of 128 (3 * 18446744073709551621) 3) /\ scale (decimal_of 128 (3 * 18446744073709551621) 3) < two8
  /\ exists r,
       DecimalDiv 2%nat (decimal_of 128 (3 * 18446744073709551621) 3) (mkDECIMAL 0 1 0 1 5) (mkDECIMAL 7 0 0 0 0) = Some (NOERROR, r)
       /\ mantissa r = mantissa (decimal_of 128 (3 * 18446744073709551621) 3) / mantissa (mkDECIMAL 0 1 0 1 5)
       /\ scale r = scale (decimal_of 128 (3 * 18446744073709551621) 3) - scale (mkDECIMAL 0 1 0 1 5)
       /\ sign r = u8 (Z.lxor (sign (decimal_of 128 (3 * 18446744073709551621) 3)) (sign (mkDECIMAL 0 1 0 1 5)))
       /\ wReserved r = wReserved (mkDECIMAL 7 0 0 0 0).
Proof.
  assert (H1 : 0 <= Hi32 (decimal_of 128 (3 * 18446744073709551621) 3) < two32) by by_eval.
  assert (H2 : 0 <= Lo64 (decimal_of 128 (3 * 18446744073709551621) 3) < two64) by by_eval.
  assert (H3 : 0 <= Hi32 (mkDECIMAL 0 1 0 1 5) < 2 ^ 31) by by_eval.
  assert (H4 : 0 <= Lo64 (mkDECIMAL 0 1 0 1 5) < two64) by by_eval.
  assert (H4' : Hi32 (mkDECIMAL 0 1 0 1 5) = 0 -> Lo64 (mkDECIMAL 0 1 0 1 5) < 2 ^ 63)
    by (intros _; reflexivity).
  assert (H5 : mantissa (mkDECIMAL 0 1 0 1 5) <> 0) by by_eval.
  assert (H6 : mantissa (decimal_of 128 (3 * 18446744073709551621) 3) mod mantissa (mkDECIMAL 0 1 0 1 5) = 0) by (vm_compute; reflexivity).
  assert (H7 : 0 <= scale (mkDECIMAL 0 1 0 1 5) <= scale (decimal_of 128 (3 * 18446744073709551621) 3)) by by_eval.
  assert (H8 : scale (decimal_of 128 (3 * 18446744073709551621) 3) < two8) by by_eval.
  refine (conj H1 (conj H2 (conj H3 (conj H4 (conj H4' (conj H5 (conj H6 (conj H7 (conj H8 _))))))))).
  exact (DecimalDiv_exact 0%nat _ _ (mkDECIMAL 7 0 0 0 0) H1 H2 H3 H4 H4' H5 H6 H7 H8).
Defined.

(** X14: the loop that removes trailing zeros from an inexact quotient
    ([DecimalDiv], from "Try extracting any extra powers of 10") keeps the
    value: the quotient it leaves, times ten to the number of scale steps
    taken off, is the quotient it was given.  It stops only when the scale
    is zero or the quotient no longer ends in a zero digit. *)
Theorem unscale_keeps_value rounds a b c d tl iScale q' s' :
  0 <= a < two32 -> 0 <= b < two32 -> 0 <= c < two32 -> 0 <= iScale ->
  Div.unscale rounds (a :: b :: c :: d :: tl) iScale = Some (q', s') ->
  exists a' b' c',
    q' = a' :: b' :: c' :: d :: tl
    /\ (0 <= a' < two32) /\ (0 <= b' < two32) /\ (0 <= c' < two32)
    /\ (a' + two32 * b' + two64 * c') * 10 ^ (iScale - s')
       = a + two32 * b + two64 * c
    /\ 0 <= s' <= iScale
    /\ (s' = 0 \/ (a' + two32 * b' + two64 * c') mod 10 <> 0).
Proof.
  intros H1 H2 H3 H4 H5.
  exact (unscale_spec_aux rounds a b c d tl iScale q' s' H1 H2 H3 H4 H5).
Qed.

Lemma unscale_keeps_value_witness :
  (0 <= 1200000 < two32) /\ (0 <= 0 < two32) /\ (0 <= 0 < two32) /\ 0 <= 7
  /\ Div.unscale 64%nat [1200000; 0; 0; 0] 7 = Some ([12; 0; 0; 0], 2)
  /\ exists a' b' c',
       [12; 0; 0; 0] = [a'; b'; c'; 0]
       /\ (0 <= a' < two32) /\ (0 <= b' < two32) /\ (0 <= c' < two32)
       /\ (a' + two32 * b' + two64 * c') * 10 ^ (7 - 2)
          = 1200000 + two32 * 0 + two64 * 0
       /\ 0 <= 2 <= 7
       /\ (2 = 0 \/ (a' + two32 * b' + two64 * c') mod 10 <> 0).
Proof.
  assert (H1 : 0 <= 1200000 < two32) by by_eval.
  assert (H2 : 0 <= 0 < two32) by by_eval.
  assert (H4 : 0 <= 7) by by_eval.
  assert (H5 : Div.unscale 64%nat [1200000; 0; 0; 0] 7 = Some ([12; 0; 0; 0], 2))
    by (vm_compute; reflexivity).
  refine (conj H1 (conj H2 (conj H2 (conj H4 (conj H5 _))))).
  exact (unscale_keeps_value 64%nat 1200000 0 0 0 [] 7 _ _ H1 H2 H2 H4 H5).
Defined.

(** X15: the callers that throw and the callers that report overflow in a
    flag agree.  [DoMultiplyThrow], [DoAddSubThrow] and [DoDivideThrow]
    store a value exactly when [DoMultiply], [DoAddSub] and [DoDivide]
    return it with the flag clear, and throw an overflow exactly when the
    flag is set, in which case the first operand is left untouched;
    both kinds of divide throw the division by zero together. *)
Theorem callers_agree rounds L R res0 bSign :
  (forall d,
      (DoMultiplyThrow rounds L R res0 = Some (Stored d)
       <-> DoMultiply rounds L R res0 = Some (Returned d false))
      /\ (DoAddSubThrow rounds L R res0 bSign = Some (Stored d)
          <-> DoAddSub rounds L R res0 bSign = Some (Returned d false))
      /\ (DoDivideThrow rounds L R res0 = Some (Stored d)
          <-> DoDivide rounds L R res0 = Some (Returned d false)))
  /\ (DoMultiplyThrow rounds L R res0 = Some Throw_Overflow
      <-> DoMultiply rounds L R res0 = Some (Returned L true))
  /\ (DoAddSubThrow rounds L R res0 bSign = Some Throw_Overflow
      <-> DoAddSub rounds L R res0 bSign = Some (Returned L true))
  /\ (DoDivideThrow rounds L R res0 = Some Throw_Overflow
      <-> DoDivide rounds L R res0 = Some (Returned L true))
  /\ (DoDivideThrow rounds L R res0 = Some Throw_DivideByZero
      <-> DoDivide rounds L R res0 = Some Thrown_DivideByZero)
  /\ (forall d, DoMultiply rounds L R res0 = Some (Returned d true) -> d = L)
  /\ (forall d, DoAddSub rounds L R res0 bSign = Some (Returned d true) -> d = L)
  /\ (forall d, DoDivide rounds L R res0 = Some (Returned d true) -> d = L).
Proof.
  exact (callers_agree_aux rounds L R res0 bSign).
Qed.

(** * Further properties: how the operations relate *)

(** X16: [DecimalMul] is commutative: for all operands, loop bound and
    result slot, exchanging the two operands gives the same return code
    and the same stored value. *)
Theorem DecimalMul_commutes rounds L R res0 :
  DecimalMul rounds L R res0 = DecimalMul rounds R L res0.
Proof. exact (DecimalMul_comm_aux rounds L R res0). Qed.

(** X17: at unequal scales (at most 19 apart), when the operand of the
    smaller scale still fits in 96 bits once multiplied up to the larger
    scale and [DecimalAddSub] has to subtract the magnitudes, the result is
    the exact absolute difference at the larger scale.  Its sign is the
    left operand's, flipped when the left magnitude is the smaller one and
    also when the magnitudes are equal and the right operand was the one
    scaled up. *)
Theorem DecimalAddSub_unequal_difference rounds L R res0 bSign :
  operand L -> operand R -> scale L <> scale R ->
  Z.abs (scale L - scale R) <= 19 ->
  (bSign = 0 \/ bSign = DECIMAL_NEG) ->
  effective_sign L R bSign <> 0 ->
  let a := mantissa L * 10 ^ (Z.max (scale L) (scale R) - scale L) in
  let b := mantissa R * 10 ^ (Z.max (scale L) (scale R) - scale R) in
  a < two96 -> b < two96 ->
  exists r,
    DecimalAddSub rounds L R res0 bSign = Some (NOERROR, r)
    /\ mantissa r = Z.abs (a - b)
    /\ scale r = Z.max (scale L) (scale R)
    /\ sign r = (if (a <? b) || ((a =? b) && (scale R <? scale L))
                 then Z.lxor (sign L) DECIMAL_NEG else sign L)
    /\ wReserved r = wReserved res0.
Proof.
  intros H1 H2 H3 H4 H5 H6 a b H7 H8.
  exact (DecimalAddSub_unequal_difference_aux rounds L R res0 bSign
           H1 H2 H3 H4 H5 H6 H7 H8).
Qed.

Lemma DecimalAddSub_unequal_difference_witness :
  operand (decimal_of 0 5 1) /\ operand (decimal_of 0 123 3) /\ scale (decimal_of 0 5 1) <> scale (decimal_of 0 123 3)
  /\ Z.abs (scale (decimal_of 0 5 1) - scale (decimal_of 0 123 3)) <= 19
  /\ (DECIMAL_NEG = 0 \/ DECIMAL_NEG = DECIMAL_NEG)
  /\ effective_sign (decimal_of 0 5 1) (decimal_of 0 123 3) DECIMAL_NEG <> 0
  /\ mantissa (decimal_of 0 5 1) * 10 ^ (Z.max (scale (decimal_of 0 5 1)) (scale (decimal_of 0 123 3)) - scale (decimal_of 0 5 1)) < two96
  /\ mantissa (decimal_of 0 123 3) * 10 ^ (Z.max (scale (decimal_of 0 5 1)) (scale (decimal_of 0 123 3)) - scale (decimal_of 0 123 3)) < two96
  /\ exists r,
       DecimalAddSub 64%nat (decimal_of 0 5 1) (decimal_of 0 123 3) (mkDECIMAL 7 0 0 0 0) DECIMAL_NEG = Some (NOERROR, r)
       /\ mantissa r
          = Z.abs (mantissa (decimal_of 0 5 1) * 10 ^ (Z.max (scale (decimal_of 0 5 1)) (scale (decimal_of 0 123 3)) - scale (decimal_of 0 5 1))
                   - mantissa (decimal_of 0 123 3) * 10 ^ (Z.max (scale (decimal_of 0 5 1)) (scale (decimal_of 0 123 3)) - scale (decimal_of 0 123 3)))
       /\ scale r = Z.max (scale (decimal_of 0 5 1)) (scale (decimal_of 0 123 3))
       /\ sign r
          = (if (mantissa (decimal_of 0 5 1) * 10 ^ (Z.max (scale (decimal_of 0 5 1)) (scale (decimal_of 0 123 3)) - scale (decimal_of 0 5 1))
                 <? mantissa (decimal_of 0 123 3) * 10 ^ (Z.max (scale (decimal_of 0 5 1)) (scale (decimal_of 0 123 3)) - scale (decimal_of 0 123 3)))
                || ((mantissa (decimal_of 0 5 1) * 10 ^ (Z.max (scale (decimal_of 0 5 1)) (scale (decimal_of 0 123 3)) - scale (decimal_of 0 5 1))
                     =? mantissa (decimal_of 0 123 3) * 10 ^ (Z.max (scale (decimal_of 0 5 1)) (scale (decimal_of 0 123 3)) - scale (decimal_of 0 123 3)))
                    && (scale (decimal_of 0 123 3) <? scale (decimal_of 0 5 1)))
             then Z.lxor (sign (decimal_of 0 5 1)) DECIMAL_NEG else sign (decimal_of 0 5 1))
       /\ wReserved r = wReserved (mkDECIMAL 7 0 0 0 0).
Proof.
  assert (H1 : operand (decimal_of 0 5 1)) by by_eval.
  assert (H2 : operand (decimal_of 0 123 3)) by by_eval.
  assert (H3 : scale (decimal_of 0 5 1) <> scale (decimal_of 0 123 3)) by by_eval.
  assert (H4 : Z.abs (scale (decimal_of 0 5 1) - scale (decimal_of 0 123 3)) <= 19) by by_eval.
  assert (H5 : DECIMAL_NEG = 0 \/ DECIMAL_NEG = DECIMAL_NEG) by (right; reflexivity).
  assert (H6 : effective_sign (decimal_of 0 5 1) (decimal_of 0 123 3) DECIMAL_NEG <> 0) by by_eval.
  assert (H7 : mantissa (decimal_of 0 5 1) * 10 ^ (Z.max (scale (decimal_of 0 5 1)) (scale (decimal_of 0 123 3)) - scale (decimal_of 0 5 1)) < two96)
    by by_eval.
  assert (H8 : mantissa (decimal_of 0 123 3) * 10 ^ (Z.max (scale (decimal_of 0 5 1)) (scale (decimal_of 0 123 3)) - scale (decimal_of 0 123 3)) < two96)
    by by_eval.
  refine (conj H1 (conj H2 (conj H3 (conj H4 (conj H5 (conj H6 (conj H7 (conj H8 _)))))))).
  exact (DecimalAddSub_unequal_difference 64%nat _ _ (mkDECIMAL 7 0 0 0 0) DECIMAL_NEG
           H1 H2 H3 H4 H5 H6 H7 H8).
Defined.

(** X18: at unequal scales (at most 19 apart), when the operand of the
    smaller scale still fits in 96 bits once multiplied up to the larger
    scale and [DecimalAddSub] has to add the magnitudes, the result has the
    left operand's sign; it is the exact sum at the larger scale when that
    fits in 96 bits, and otherwise the sum divided by ten, rounded to
    nearest with ties to even, at the larger scale less one. *)
Theorem DecimalAddSub_unequal_sum rounds L R res0 bSign :
  operand L -> operand R -> scale L <> scale R ->
  Z.abs (scale L - scale R) <= 19 ->
  (bSign = 0 \/ bSign = DECIMAL_NEG) ->
  effective_sign L R bSign = 0 ->
  let a := mantissa L * 10 ^ (Z.max (scale L) (scale R) - scale L) in
  let b := mantissa R * 10 ^ (Z.max (scale L) (scale R) - scale R) in
  a < two96 -> b < two96 ->
  exists r,
    DecimalAddSub rounds L R res0 bSign = Some (NOERROR, r)
    /\ (if a + b <? two96
        then mantissa r = a + b /\ scale r = Z.max (scale L) (scale R)
        else mantissa r = div10_half_even (a + b)
             /\ scale r = Z.max (scale L) (scale R) - 1)
    /\ sign r = sign L /\ wReserved r = wReserved res0.
Proof.
  intros H1 H2 H3 H4 H5 H6 a b H7 H8.
  exact (DecimalAddSub_unequal_sum_aux rounds L R res0 bSign H1 H2 H3 H4 H5 H6 H7 H8).
Qed.

Lemma DecimalAddSub_unequal_sum_witness :
  operand (decimal_of 0 5 1) /\ operand (decimal_of 0 123 3) /\ scale (decimal_of 0 5 1) <> scale (decimal_of 0 123 3)
  /\ Z.abs (scale (decimal_of 0 5 1) - scale (decimal_of 0 123 3)) <= 19
  /\ (0 = 0 \/ 0 = DECIMAL_NEG)
  /\ effective_sign (decimal_of 0 5 1) (decimal_of 0 123 3) 0 = 0
  /\ mantissa (decimal_of 0 5 1) * 10 ^ (Z.max (scale (decimal_of 0 5 1)) (scale (decimal_of 0 123 3)) - scale (decimal_of 0 5 1)) < two96
  /\ mantissa (decimal_of 0 123 3) * 10 ^ (Z.max (scale (decimal_of 0 5 1)) (scale (decimal_of 0 123 3)) - scale (decimal_of 0 123 3)) < two96
  /\ exists r,
       DecimalAddSub 64%nat (decimal_of 0 5 1) (decimal_of 0 123 3) (mkDECIMAL 7 0 0 0 0) 0 = Some (NOERROR, r)
       /\ (if mantissa (decimal_of 0 5 1) * 10 ^ (Z.max (scale (decimal_of 0 5 1)) (scale (decimal_of 0 123 3)) - scale (decimal_of 0 5 1))
              + mantissa (decimal_of 0 123 3) * 10 ^ (Z.max (scale (decimal_of 0 5 1)) (scale (decimal_of 0 123 3)) - scale (decimal_of 0 123 3))
              <? two96
           then mantissa r
                = mantissa (decimal_of 0 5 1) * 10 ^ (Z.max (scale (decimal_of 0 5 1)) (scale (decimal_of 0 123 3)) - scale (decimal_of 0 5 1))
                  + mantissa (decimal_of 0 123 3) * 10 ^ (Z.max (scale (decimal_of 0 5 1)) (scale (decimal_of 0 123 3)) - scale (decimal_of 0 123 3))
                /\ scale r = Z.max (scale (decimal_of 0 5 1)) (scale (decimal_of 0 123 3))
           else mantissa r
                = div10_half_even
                    (mantissa (decimal_of 0 5 1) * 10 ^ (Z.max (scale (decimal_of 0 5 1)) (scale (decimal_of 0 123 3)) - scale (decimal_of 0 5 1))
                     + mantissa (decimal_of 0 123 3) * 10 ^ (Z.max (scale (decimal_of 0 5 1)) (scale (decimal_of 0 123 3)) - scale (decimal_of 0 123 3)))
                /\ scale r = Z.max (scale (decimal_of 0 5 1)) (scale (decimal_of 0 123 3)) - 1)
       /\ sign r = sign (decimal_of 0 5 1) /\ wReserved r = wReserved (mkDECIMAL 7 0 0 0 0).
Proof.
  assert (H1 : operand (decimal_of 0 5 1)) by by_eval.
  assert (H2 : operand (decimal_of 0 123 3)) by by_eval.
  assert (H3 : scale (decimal_of 0 5 1) <> scale (decimal_of 0 123 3)) by by_eval.
  assert (H4 : Z.abs (scale (decimal_of 0 5 1) - scale (decimal_of 0 123 3)) <= 19) by by_eval.
  assert (H5 : 0 = 0 \/ 0 = DECIMAL_NEG) by (left; reflexivity).
  assert (H6 : effective_sign (decimal_of 0 5 1) (decimal_of 0 123 3) 0 = 0) by reflexivity.
  assert (H7 : mantissa (decimal_of 0 5 1) * 10 ^ (Z.max (scale (decimal_of 0 5 1)) (scale (decimal_of 0 123 3)) - scale (decimal_of 0 5 1)) < two96)
    by by_eval.
  assert (H8 : mantissa (decimal_of 0 123 3) * 10 ^ (Z.max (scale (decimal_of 0 5 1)) (scale (decimal_of 0 123 3)) - scale (decimal_of 0 123 3)) < two96)
    by by_eval.
  refine (conj H1 (conj H2 (conj H3 (conj H4 (conj H5 (conj H6 (conj H7 (conj H8 _)))))))).
  exact (DecimalAddSub_unequal_sum 64%nat _ _ (mkDECIMAL 7 0 0 0 0) 0 H1 H2 H3 H4 H5 H6 H7 H8).
Defined.

(** X19: adding a value and subtracting it again gives the first operand
    back: for operands of equal scale (the sum of the mantissas fitting in
    96 bits when the signs agree), [DecimalSub (DecimalAdd L R) R] succeeds
    with the mantissa and scale of [L], and with its sign unless [L] is a
    zero of the sign opposite to [R]. *)
Theorem add_then_subtract rounds L R res0 res1 :
  operand L -> operand R -> scale L = scale R ->
  (sign L = sign R -> mantissa L + mantissa R < two96) ->
  exists r r',
    DecimalAdd rounds L R res0 = Some (NOERROR, r)
    /\ DecimalSub rounds r R res1 = Some (NOERROR, r')
    /\ mantissa r' = mantissa L /\ scale r' = scale L
    /\ (mantissa L <> 0 \/ sign L = sign R -> sign r' = sign L).
Proof.
  intros H1 H2 H3 H4.
  exact (add_then_subtract_aux rounds L R res0 res1 H1 H2 H3 H4).
Qed.

Lemma add_then_subtract_witness :
  operand (decimal_of 0 5 1) /\ operand (decimal_of 128 7 1) /\ scale (decimal_of 0 5 1) = scale (decimal_of 128 7 1)
  /\ (sign (decimal_of 0 5 1) = sign (decimal_of 128 7 1) -> mantissa (decimal_of 0 5 1) + mantissa (decimal_of 128 7 1) < two96)
  /\ exists r r',
       DecimalAdd 64%nat (decimal_of 0 5 1) (decimal_of 128 7 1) (mkDECIMAL 7 0 0 0 0) = Some (NOERROR, r)
       /\ DecimalSub 64%nat r (decimal_of 128 7 1) (mkDECIMAL 9 0 0 0 0) = Some (NOERROR, r')
       /\ mantissa r' = mantissa (decimal_of 0 5 1) /\ scale r' = scale (decimal_of 0 5 1)
       /\ (mantissa (decimal_of 0 5 1) <> 0 \/ sign (decimal_of 0 5 1) = sign (decimal_of 128 7 1) -> sign r' = sign (decimal_of 0 5 1)).
Proof.
  assert (H1 : operand (decimal_of 0 5 1)) by by_eval.
  assert (H2 : operand (decimal_of 128 7 1)) by by_eval.
  assert (H3 : scale (decimal_of 0 5 1) = scale (decimal_of 128 7 1)) by reflexivity.
  assert (H4 : sign (decimal_of 0 5 1) = sign (decimal_of 128 7 1) -> mantissa (decimal_of 0 5 1) + mantissa (decimal_of 128 7 1) < two96)
    by (intros _; vm_compute; reflexivity).
  refine (conj H1 (conj H2 (conj H3 (conj H4 _)))).
  exact (add_then_subtract 64%nat _ _ (mkDECIMAL 7 0 0 0 0) (mkDECIMAL 9 0 0 0 0) H1 H2 H3 H4).
Defined.

(** X20: multiplying by a value and dividing by it again gives the first
    operand back: when neither mantissa is zero, the scales sum to at most
    28, the product of the mantissas fits in 96 bits and [R], if wider than
    32 bits, has the top bit of its highest non-zero 32-bit word clear (so
    that the division shifts it by at least one bit),
    [DecimalDiv (DecimalMul L R) R] succeeds with the mantissa, scale and
    sign of [L]. *)
Theorem multiply_then_divide rounds L R res0 res1 :
  operand L -> operand R ->
  Hi32 R < 2 ^ 31 -> (Hi32 R = 0 -> Lo64 R < 2 ^ 63) ->
  mantissa L <> 0 -> mantissa R <> 0 ->
  scale L + scale R <= 28 ->
  mantissa L * mantissa R < two96 ->
  exists r r',
    DecimalMul rounds L R res0 = Some (NOERROR, r)
    /\ DecimalDiv (S (S rounds)) r R res1 = Some (NOERROR, r')
    /\ mantissa r' = mantissa L /\ scale r' = scale L /\ sign r' = sign L.
Proof.
  intros H1 H2 T1 T2 H3 H4 H5 H6.
  exact (multiply_then_divide_aux rounds L R res0 res1 H1 H2 T1 T2 H3 H4 H5 H6).
Qed.

Lemma multiply_then_divide_witness :
  operand (decimal_of 128 12345 2) /\ operand (mkDECIMAL 0 3 0 1 5)
  /\ Hi32 (mkDECIMAL 0 3 0 1 5) < 2 ^ 31
  /\ (Hi32 (mkDECIMAL 0 3 0 1 5) = 0 -> Lo64 (mkDECIMAL 0 3 0 1 5) < 2 ^ 63)
  /\ mantissa (decimal_of 128 12345 2) <> 0 /\ mantissa (mkDECIMAL 0 3 0 1 5) <> 0
  /\ scale (decimal_of 128 12345 2) + scale (mkDECIMAL 0 3 0 1 5) <= 28
  /\ mantissa (decimal_of 128 12345 2) * mantissa (mkDECIMAL 0 3 0 1 5) < two96
  /\ exists r r',
       DecimalMul 64%nat (decimal_of 128 12345 2) (mkDECIMAL 0 3 0 1 5) (mkDECIMAL 7 0 0 0 0) = Some (NOERROR, r)
       /\ DecimalDiv 66%nat r (mkDECIMAL 0 3 0 1 5) (mkDECIMAL 9 0 0 0 0) = Some (NOERROR, r')
       /\ mantissa r' = mantissa (decimal_of 128 12345 2) /\ scale r' = scale (decimal_of 128 12345 2)
       /\ sign r' = sign (decimal_of 128 12345 2).
Proof.
  assert (H1 : operand (decimal_of 128 12345 2)) by by_eval.
  assert (H2 : operand (mkDECIMAL 0 3 0 1 5)) by by_eval.
  assert (T1 : Hi32 (mkDECIMAL 0 3 0 1 5) < 2 ^ 31) by reflexivity.
  assert (T2 : Hi32 (mkDECIMAL 0 3 0 1 5) = 0 -> Lo64 (mkDECIMAL 0 3 0 1 5) < 2 ^ 63)
    by (intros _; reflexivity).
  assert (H3 : mantissa (decimal_of 128 12345 2) <> 0) by by_eval.
  assert (H4 : mantissa (mkDECIMAL 0 3 0 1 5) <> 0) by by_eval.
  assert (H5 : scale (decimal_of 128 12345 2) + scale (mkDECIMAL 0 3 0 1 5) <= 28) by by_eval.
  assert (H6 : mantissa (decimal_of 128 12345 2) * mantissa (mkDECIMAL 0 3 0 1 5) < two96) by by_eval.
  refine (conj H1 (conj H2 (conj T1 (conj T2 (conj H3 (conj H4 (conj H5 (conj H6 _)))))))).
  exact (multiply_then_divide 64%nat _ _ (mkDECIMAL 7 0 0 0 0) (mkDECIMAL 9 0 0 0 0) H1 H2 T1 T2 H3 H4 H5 H6).
Defined.

(** X21: [DecimalSub] is [DecimalAdd] of the operand with its sign bit
    toggled: for sign bytes 0 or 0x80, subtracting [R] and adding [R] with
    the opposite sign give the same return code and the same stored
    value. *)
Theorem DecimalSub_adds_negated rounds L R res0 :
  (sign L = 0 \/ sign L = DECIMAL_NEG) -> (sign R = 0 \/ sign R = DECIMAL_NEG) ->
  DecimalSub rounds L R res0
  = DecimalAdd rounds L (set_sign R (Z.lxor (sign R) DECIMAL_NEG)) res0.
Proof.
  intros H1 H2. exact (DecimalSub_negated_aux rounds L R res0 H1 H2).
Qed.

Lemma DecimalSub_adds_negated_witness :
  (sign (decimal_of 0 5 1) = 0 \/ sign (decimal_of 0 5 1) = DECIMAL_NEG)
  /\ (sign (decimal_of 128 7 3) = 0 \/ sign (decimal_of 128 7 3) = DECIMAL_NEG)
  /\ DecimalSub 64%nat (decimal_of 0 5 1) (decimal_of 128 7 3) (mkDECIMAL 7 0 0 0 0)
     = DecimalAdd 64%nat (decimal_of 0 5 1) (set_sign (decimal_of 128 7 3) (Z.lxor (sign (decimal_of 128 7 3)) DECIMAL_NEG)) (mkDECIMAL 7 0 0 0 0).
Proof.
  assert (H1 : sign (decimal_of 0 5 1) = 0 \/ sign (decimal_of 0 5 1) = DECIMAL_NEG) by (left; reflexivity).
  assert (H2 : sign (decimal_of 128 7 3) = 0 \/ sign (decimal_of 128 7 3) = DECIMAL_NEG) by (right; reflexivity).
  refine (conj H1 (conj H2 _)).
  exact (DecimalSub_adds_negated 64%nat _ _ (mkDECIMAL 7 0 0 0 0) H1 H2).
Defined.

(** X22: when both operands fit in 64 bits, their product fits in 64 bits
    and the scales sum to more than 28, [DecimalMul] divides the product by
    the power of ten of the excess [k], rounds to nearest with ties to
    even and returns it at scale 28; an excess of more than 19 digits
    gives the all-zero decimal. *)
Theorem DecimalMul_small_rounds rounds L R res0 :
  Hi32 L = 0 -> Hi32 R = 0 -> 0 <= Lo64 L < two64 -> 0 <= Lo64 R < two64 ->
  Lo64 L * Lo64 R < two64 ->
  DEC_SCALE_MAX < scale L + scale R ->
  let k := scale L + scale R - DEC_SCALE_MAX in
  (k <= 19 ->
   exists r,
     DecimalMul rounds L R res0 = Some (NOERROR, r)
     /\ mantissa r = div_half_even (mantissa L * mantissa R) (10 ^ k)
     /\ scale r = DEC_SCALE_MAX
     /\ sign r = u8 (Z.lxor (sign L) (sign R))
     /\ wReserved r = wReserved res0)
  /\ (19 < k -> DecimalMul rounds L R res0 = Some (NOERROR, DECIMAL_SETZERO)).
Proof.
  intros H1 H2 H3 H4 H5 H6 k.
  exact (DecimalMul_small_aux rounds L R res0 H1 H2 H3 H4 H5 H6).
Qed.

Lemma DecimalMul_small_rounds_witness :
  Hi32 (mkDECIMAL 0 20 0 0 123456789) = 0 /\ Hi32 (mkDECIMAL 0 15 128 0 1000000005) = 0
  /\ (0 <= Lo64 (mkDECIMAL 0 20 0 0 123456789) < two64) /\ (0 <= Lo64 (mkDECIMAL 0 15 128 0 1000000005) < two64)
  /\ Lo64 (mkDECIMAL 0 20 0 0 123456789) * Lo64 (mkDECIMAL 0 15 128 0 1000000005) < two64
  /\ DEC_SCALE_MAX < scale (mkDECIMAL 0 20 0 0 123456789) + scale (mkDECIMAL 0 15 128 0 1000000005)
  /\ (scale (mkDECIMAL 0 20 0 0 123456789) + scale (mkDECIMAL 0 15 128 0 1000000005) - DEC_SCALE_MAX <= 19 ->
      exists r,
        DecimalMul 64%nat (mkDECIMAL 0 20 0 0 123456789) (mkDECIMAL 0 15 128 0 1000000005) (mkDECIMAL 7 0 0 0 0) = Some (NOERROR, r)
        /\ mantissa r
           = div_half_even (mantissa (mkDECIMAL 0 20 0 0 123456789) * mantissa (mkDECIMAL 0 15 128 0 1000000005))
               (10 ^ (scale (mkDECIMAL 0 20 0 0 123456789) + scale (mkDECIMAL 0 15 128 0 1000000005) - DEC_SCALE_MAX))
        /\ scale r = DEC_SCALE_MAX
        /\ sign r = u8 (Z.lxor (sign (mkDECIMAL 0 20 0 0 123456789)) (sign (mkDECIMAL 0 15 128 0 1000000005)))
        /\ wReserved r = wReserved (mkDECIMAL 7 0 0 0 0))
  /\ (19 < scale (mkDECIMAL 0 20 0 0 123456789) + scale (mkDECIMAL 0 15 128 0 1000000005) - DEC_SCALE_MAX ->
      DecimalMul 64%nat (mkDECIMAL 0 20 0 0 123456789) (mkDECIMAL 0 15 128 0 1000000005) (mkDECIMAL 7 0 0 0 0) = Some (NOERROR, DECIMAL_SETZERO)).
Proof.
  assert (H1 : Hi32 (mkDECIMAL 0 20 0 0 123456789) = 0) by reflexivity.
  assert (H2 : Hi32 (mkDECIMAL 0 15 128 0 1000000005) = 0) by reflexivity.
  assert (H3 : 0 <= Lo64 (mkDECIMAL 0 20 0 0 123456789) < two64) by by_eval.
  assert (H4 : 0 <= Lo64 (mkDECIMAL 0 15 128 0 1000000005) < two64) by by_eval.
  assert (H5 : Lo64 (mkDECIMAL 0 20 0 0 123456789) * Lo64 (mkDECIMAL 0 15 128 0 1000000005) < two64) by by_eval.
  assert (H6 : DEC_SCALE_MAX < scale (mkDECIMAL 0 20 0 0 123456789) + scale (mkDECIMAL 0 15 128 0 1000000005)) by by_eval.
  refine (conj H1 (conj H2 (conj H3 (conj H4 (conj H5 (conj H6 _)))))).
  exact (DecimalMul_small_rounds 64%nat _ _ (mkDECIMAL 7 0 0 0 0) H1 H2 H3 H4 H5 H6).
Defined.

(** X23: when the divisor's mantissa is not zero and divides the
    dividend's mantissa without remainder, and the divisor's scale is the
    larger one (by at most 28), [DecimalDiv] multiplies the quotient of the
    mantissas by the power of ten of the scale difference and returns it
    at scale zero; when that product does not fit in 96 bits it returns
    [DISP_E_OVERFLOW] and leaves the result slot as it was.  This holds for
    a divisor of at most 32 bits, and for a wider one whose highest
    non-zero 32-bit word has its top bit clear (below 2^63 within 64 bits,
    below 2^95 otherwise), so that the shift that normalises it is not
    zero. *)
Theorem DecimalDiv_exact_scaled rounds L R res0 :
  0 <= Hi32 L < two32 -> 0 <= Lo64 L < two64 ->
  0 <= Hi32 R < 2 ^ 31 -> 0 <= Lo64 R < two64 ->
  (Hi32 R = 0 -> Lo64 R < 2 ^ 63) ->
  mantissa R <> 0 ->
  mantissa L mod mantissa R = 0 ->
  0 <= scale R - scale L <= 28 ->
  let v := mantissa L / mantissa R * 10 ^ (scale R - scale L) in
  (v < two96 ->
   exists r,
     DecimalDiv (5 + rounds) L R res0 = Some (NOERROR, r)
     /\ mantissa r = v /\ scale r = 0
     /\ sign r = u8 (Z.lxor (sign L) (sign R))
     /\ wReserved r = wReserved res0)
  /\ (two96 <= v -> DecimalDiv (5 + rounds) L R res0 = Some (DISP_E_OVERFLOW, res0)).
Proof.
  intros H1 H2 H3 H4 H4' H5 H6 H7 v.
  exact (DecimalDiv_exact_scaled_aux rounds L R res0 H1 H2 H3 H4 H4' H5 H6 H7).
Qed.

Lemma DecimalDiv_exact_scaled_witness :
  (0 <= Hi32 (decimal_of 0 77309411370 0) < two32) /\ (0 <= Lo64 (decimal_of 0 77309411370 0) < two64)
  /\ (0 <= Hi32 (decimal_of 128 12884901895 2) < 2 ^ 31) /\ (0 <= Lo64 (decimal_of 128 12884901895 2) < two64)
  /\ (Hi32 (decimal_of 128 12884901895 2) = 0 -> Lo64 (decimal_of 128 12884901895 2) < 2 ^ 63)
  /\ mantissa (decimal_of 128 12884901895 2) <> 0
  /\ mantissa (decimal_of 0 77309411370 0) mod mantissa (decimal_of 128 12884901895 2) = 0
  /\ 0 <= scale (decimal_of 128 12884901895 2) - scale (decimal_of 0 77309411370 0) <= 28
  /\ (mantissa (decimal_of 0 77309411370 0) / mantissa (decimal_of 128 12884901895 2) * 10 ^ (scale (decimal_of 128 12884901895 2) - scale (decimal_of 0 77309411370 0)) < two96 ->
      exists r,
        DecimalDiv (5 + 0)%nat (decimal_of 0 77309411370 0) (decimal_of 128 12884901895 2) (mkDECIMAL 7 0 0 0 0) = Some (NOERROR, r)
        /\ mantissa r
           = mantissa (decimal_of 0 77309411370 0) / mantissa (decimal_of 128 12884901895 2) * 10 ^ (scale (decimal_of 128 12884901895 2) - scale (decimal_of 0 77309411370 0))
        /\ scale r = 0
        /\ sign r = u8 (Z.lxor (sign (decimal_of 0 77309411370 0)) (sign (decimal_of 128 12884901895 2)))
        /\ wReserved r = wReserved (mkDECIMAL 7 0 0 0 0))
  /\ (two96 <= mantissa (decimal_of 0 77309411370 0) / mantissa (decimal_of 128 12884901895 2) * 10 ^ (scale (decimal_of 128 12884901895 2) - scale (decimal_of 0 77309411370 0)) ->
      DecimalDiv (5 + 0)%nat (decimal_of 0 77309411370 0) (decimal_of 128 12884901895 2) (mkDECIMAL 7 0 0 0 0) = Some (DISP_E_OVERFLOW, (mkDECIMAL 7 0 0 0 0))).
Proof.
  assert (H1 : 0 <= Hi32 (decimal_of 0 77309411370 0) < two32) by by_eval.
  assert (H2 : 0 <= Lo64 (decimal_of 0 77309411370 0) < two64) by by_eval.
  assert (H3 : 0 <= Hi32 (decimal_of 128 12884901895 2) < 2 ^ 31) by by_eval.
  assert (H4 : 0 <= Lo64 (decimal_of 128 12884901895 2) < two64) by by_eval.
  assert (H4' : Hi32 (decimal_of 128 12884901895 2) = 0 -> Lo64 (decimal_of 128 12884901895 2) < 2 ^ 63) by (intros _; reflexivity).
  assert (H5 : mantissa (decimal_of 128 12884901895 2) <> 0) by by_eval.
  assert (H6 : mantissa (decimal_of 0 77309411370 0) mod mantissa (decimal_of 128 12884901895 2) = 0) by reflexivity.
  assert (H7 : 0 <= scale (decimal_of 128 12884901895 2) - scale (decimal_of 0 77309411370 0) <= 28) by by_eval.
  refine (conj H1 (conj H2 (conj H3 (conj H4 (conj H4' (conj H5 (conj H6 (conj H7 _)))))))).
  exact (DecimalDiv_exact_scaled 0%nat _ _ (mkDECIMAL 7 0 0 0 0) H1 H2 H3 H4 H4' H5 H6 H7).
Defined.

(** * Further properties: the long divisions *)

(** X24: [ReduceScale] divides the number held by the 64-bit words 0 to
    [iHiRes] of the buffer by [10 ^ min iNewScale 9]: the quotient is left
    in those words, the remainder is returned, the divisor used is
    reported and [iNewScale] is lowered by 9 whatever the divisor was;
    [iHiRes] is lowered by one only when the top word has become zero. *)
Theorem ReduceScale_divides a iHiRes iNewScale :
  0 <= iHiRes < Z.of_nat (length a) ->
  (forall i, 0 <= i <= iHiRes -> 0 <= get a i < two64) ->
  0 <= iNewScale ->
  let n := Z.to_nat (iHiRes + 1) in
  let rs := ReduceScale a iHiRes iNewScale in
  rs_ulDen rs = 10 ^ Z.min iNewScale 9
  /\ rs_iNewScale rs = iNewScale - 9
  /\ words64_value n (rs_rgullRes rs) = words64_value n a / rs_ulDen rs
  /\ rs_remainder rs = words64_value n a mod rs_ulDen rs
  /\ (rs_iHiRes rs = iHiRes
      \/ (rs_iHiRes rs = iHiRes - 1 /\ get (rs_rgullRes rs) iHiRes = 0))
  /\ (forall i, 0 <= i <= iHiRes -> 0 <= get (rs_rgullRes rs) i < two64)
  /\ (forall i, iHiRes < i -> get (rs_rgullRes rs) i = get a i)
  /\ length (rs_rgullRes rs) = length a.
Proof.
  intros H1 H2 H3 n rs. exact (ReduceScale_spec_aux a iHiRes iNewScale H1 H2 H3).
Qed.

Lemma ReduceScale_divides_witness :
  (0 <= 1 < Z.of_nat (length [1234567890123456789; 42; 0]))
  /\ (forall i, 0 <= i <= 1 -> 0 <= get [1234567890123456789; 42; 0] i < two64)
  /\ 0 <= 12
  /\ rs_ulDen (ReduceScale [1234567890123456789; 42; 0] 1 12) = 10 ^ Z.min 12 9
  /\ rs_iNewScale (ReduceScale [1234567890123456789; 42; 0] 1 12) = 12 - 9
  /\ words64_value (Z.to_nat (1 + 1)) (rs_rgullRes (ReduceScale [1234567890123456789; 42; 0] 1 12))
     = words64_value (Z.to_nat (1 + 1)) [1234567890123456789; 42; 0] / rs_ulDen (ReduceScale [1234567890123456789; 42; 0] 1 12)
  /\ rs_remainder (ReduceScale [1234567890123456789; 42; 0] 1 12)
     = words64_value (Z.to_nat (1 + 1)) [1234567890123456789; 42; 0] mod rs_ulDen (ReduceScale [1234567890123456789; 42; 0] 1 12)
  /\ (rs_iHiRes (ReduceScale [1234567890123456789; 42; 0] 1 12) = 1
      \/ (rs_iHiRes (ReduceScale [1234567890123456789; 42; 0] 1 12) = 1 - 1
          /\ get (rs_rgullRes (ReduceScale [1234567890123456789; 42; 0] 1 12)) 1 = 0))
  /\ (forall i, 0 <= i <= 1 ->
        0 <= get (rs_rgullRes (ReduceScale [1234567890123456789; 42; 0] 1 12)) i < two64)
  /\ (forall i, 1 < i -> get (rs_rgullRes (ReduceScale [1234567890123456789; 42; 0] 1 12)) i = get [1234567890123456789; 42; 0] i)
  /\ length (rs_rgullRes (ReduceScale [1234567890123456789; 42; 0] 1 12)) = length [1234567890123456789; 42; 0].
Proof.
  assert (H1 : 0 <= 1 < Z.of_nat (length [1234567890123456789; 42; 0])) by by_eval.
  assert (H2 : forall i, 0 <= i <= 1 -> 0 <= get [1234567890123456789; 42; 0] i < two64).
  { intros i Hi. assert (E : i = 0 \/ i = 1) by lia.
    destruct E as [-> | ->]; by_eval. }
  assert (H3 : 0 <= 12) by by_eval.
  refine (conj H1 (conj H2 (conj H3 _))).
  exact (ReduceScale_divides [1234567890123456789; 42; 0] 1 12 H1 H2 H3).
Defined.

(** X25: [Div96By64_x64] divides the 96-bit number in the first three
    words of the buffer by a 64-bit divisor with its top bit set, when the
    divisor exceeds the upper 64 bits of the dividend: it returns the
    32-bit quotient and leaves the remainder in the lower two words; the
    correcting loop runs at most twice. *)
Theorem Div96By64_x64_divides rounds n0 n1 n2 tl D :
  (2 <= rounds)%nat ->
  0 <= n0 < two32 -> 0 <= n1 < two32 -> 0 <= n2 < two32 ->
  two64 <= 2 * D -> D < two64 ->
  n1 + two32 * n2 < D ->
  let N := n0 + two32 * n1 + two64 * n2 in
  Div96By64_x64 rounds (n0 :: n1 :: n2 :: tl) D
  = Some (N / D, low32 (N mod D) :: hi32 (N mod D) :: n2 :: tl)
  /\ 0 <= N / D < two32.
Proof.
  intros H1 H2 H3 H4 H5 H6 H7 N.
  exact (Div96By64_x64_spec rounds n0 n1 n2 tl D H1 H2 H3 H4 H5 H6 H7).
Qed.

Lemma Div96By64_x64_divides_witness :
  (2 <= 2)%nat
  /\ (0 <= 5 < two32) /\ (0 <= 12000 < two32) /\ (0 <= 2147483648 < two32)
  /\ two64 <= 2 * 9223372036854788153 /\ 9223372036854788153 < two64
  /\ 12000 + two32 * 2147483648 < 9223372036854788153
  /\ Div96By64_x64 2 [5; 12000; 2147483648; 77] 9223372036854788153
     = Some ((5 + two32 * 12000 + two64 * 2147483648) / 9223372036854788153,
             [low32 ((5 + two32 * 12000 + two64 * 2147483648) mod 9223372036854788153);
              hi32 ((5 + two32 * 12000 + two64 * 2147483648) mod 9223372036854788153);
              2147483648; 77])
  /\ 0 <= (5 + two32 * 12000 + two64 * 2147483648) / 9223372036854788153 < two32.
Proof.
  assert (H1 : (2 <= 2)%nat) by apply le_n.
  assert (H2 : 0 <= 5 < two32) by by_eval.
  assert (H3 : 0 <= 12000 < two32) by by_eval.
  assert (H4 : 0 <= 2147483648 < two32) by by_eval.
  assert (H5 : two64 <= 2 * 9223372036854788153) by by_eval.
  assert (H6 : 9223372036854788153 < two64) by by_eval.
  assert (H7 : 12000 + two32 * 2147483648 < 9223372036854788153) by by_eval.
  refine (conj H1 (conj H2 (conj H3 (conj H4 (conj H5 (conj H6 (conj H7 _))))))).
  exact (Div96By64_x64_divides 2 5 12000 2147483648 [77] 9223372036854788153
           H1 H2 H3 H4 H5 H6 H7).
Defined.

(** X26: [Div128By64_x64] divides the 128-bit number in the first four
    words of the buffer by a 64-bit divisor that exceeds the upper 64 bits
    of the dividend: it returns the 64-bit quotient and leaves the
    remainder in the lower two words, the upper two as they were. *)
Theorem Div128By64_x64_divides rounds n0 n1 n2 n3 tl D :
  0 <= n0 < two32 -> 0 <= n1 < two32 -> 0 <= n2 < two32 -> 0 <= n3 < two32 ->
  0 < D -> n2 + two32 * n3 < D -> D <= two64 ->
  let N := (n0 + two32 * n1) + two64 * (n2 + two32 * n3) in
  Div128By64_x64 rounds (n0 :: n1 :: n2 :: n3 :: tl) D
  = Some (N / D, low32 (N mod D) :: hi32 (N mod D) :: n2 :: n3 :: tl)
  /\ 0 <= N / D < two64.
Proof.
  intros H1 H2 H3 H4 H5 H6 H7 N.
  exact (Div128By64_x64_spec rounds n0 n1 n2 n3 tl D H1 H2 H3 H4 H5 H6 H7).
Qed.

Lemma Div128By64_x64_divides_witness :
  (0 <= 5 < two32) /\ (0 <= 7 < two32) /\ (0 <= 9 < two32) /\ (0 <= 11 < two32)
  /\ 0 < 9223372036854788153 /\ 9 + two32 * 11 < 9223372036854788153 /\ 9223372036854788153 <= two64
  /\ Div128By64_x64 0 [5; 7; 9; 11; 77] 9223372036854788153
     = Some (((5 + two32 * 7) + two64 * (9 + two32 * 11)) / 9223372036854788153,
             [low32 (((5 + two32 * 7) + two64 * (9 + two32 * 11)) mod 9223372036854788153);
              hi32 (((5 + two32 * 7) + two64 * (9 + two32 * 11)) mod 9223372036854788153);
              9; 11; 77])
  /\ 0 <= ((5 + two32 * 7) + two64 * (9 + two32 * 11)) / 9223372036854788153 < two64.
Proof.
  assert (H1 : 0 <= 5 < two32) by by_eval.
  assert (H2 : 0 <= 7 < two32) by by_eval.
  assert (H3 : 0 <= 9 < two32) by by_eval.
  assert (H4 : 0 <= 11 < two32) by by_eval.
  assert (H5 : 0 < 9223372036854788153) by by_eval.
  assert (H6 : 9 + two32 * 11 < 9223372036854788153) by by_eval.
  assert (H7 : 9223372036854788153 <= two64) by by_eval.
  refine (conj H1 (conj H2 (conj H3 (conj H4 (conj H5 (conj H6 (conj H7 _))))))).
  exact (Div128By64_x64_divides 0 5 7 9 11 [77] 9223372036854788153 H1 H2 H3 H4 H5 H6 H7).
Defined.

(** X27: [Div128By96_x64] divides the 128-bit number held by four words
    of the buffer (from the element the pointer is at) by a 96-bit divisor
    whose top word has its top bit set and exceeds the top word of the
    dividend: it returns the 32-bit quotient and leaves the remainder in
    the lower three of the four words, everything else as it was; the
    correcting loop runs at most twice. *)
Theorem Div128By96_x64_divides rounds pre n0 n1 n2 n3 tl d0 d1 d2 dtl :
  (2 <= rounds)%nat ->
  0 <= n0 < two32 -> 0 <= n1 < two32 -> 0 <= n2 < two32 -> 0 <= n3 < two32 ->
  0 <= d0 < two32 -> 0 <= d1 < two32 -> 0 <= d2 < two32 ->
  two32 <= 2 * d2 -> n3 < d2 ->
  let N := n0 + two32 * n1 + two64 * n2 + two96 * n3 in
  let D := d0 + two32 * d1 + two64 * d2 in
  exists r0 r1 r2,
    Div128By96_x64 rounds (pre ++ n0 :: n1 :: n2 :: n3 :: tl)
      (Z.of_nat (length pre)) (d0 :: d1 :: d2 :: dtl)
    = Some (N / D, pre ++ r0 :: r1 :: r2 :: n3 :: tl)
    /\ (0 <= r0 < two32) /\ (0 <= r1 < two32) /\ (0 <= r2 < two32)
    /\ r0 + two32 * r1 + two64 * r2 = N mod D
    /\ 0 <= N / D < two32.
Proof.
  intros H1 H2 H3 H4 H5 H6 H7 H8 H9 H10 N D.
  exact (Div128By96_x64_spec rounds pre n0 n1 n2 n3 tl d0 d1 d2 dtl
           H1 H2 H3 H4 H5 H6 H7 H8 H9 H10).
Qed.

Lemma Div128By96_x64_divides_witness :
  (2 <= 2)%nat
  /\ (0 <= 5 < two32) /\ (0 <= 7 < two32) /\ (0 <= 9 < two32)
  /\ (0 <= 2147483647 < two32)
  /\ (0 <= 4294967295 < two32) /\ (0 <= 4294967295 < two32)
  /\ (0 <= 2147483648 < two32)
  /\ two32 <= 2 * 2147483648 /\ 2147483647 < 2147483648
  /\ exists r0 r1 r2,
       Div128By96_x64 2 ([33] ++ [5; 7; 9; 2147483647; 77])
         (Z.of_nat (length [33])) [4294967295; 4294967295; 2147483648; 0]
       = Some ((5 + two32 * 7 + two64 * 9 + two96 * 2147483647)
               / (4294967295 + two32 * 4294967295 + two64 * 2147483648),
               [33] ++ [r0; r1; r2; 2147483647; 77])
       /\ (0 <= r0 < two32) /\ (0 <= r1 < two32) /\ (0 <= r2 < two32)
       /\ r0 + two32 * r1 + two64 * r2
          = (5 + two32 * 7 + two64 * 9 + two96 * 2147483647)
            mod (4294967295 + two32 * 4294967295 + two64 * 2147483648)
       /\ 0 <= (5 + two32 * 7 + two64 * 9 + two96 * 2147483647)
               / (4294967295 + two32 * 4294967295 + two64 * 2147483648) < two32.
Proof.
  assert (H1 : (2 <= 2)%nat) by apply le_n.
  assert (H2 : 0 <= 5 < two32) by by_eval.
  assert (H3 : 0 <= 7 < two32) by by_eval.
  assert (H4 : 0 <= 9 < two32) by by_eval.
  assert (H5 : 0 <= 2147483647 < two32) by by_eval.
  assert (H6 : 0 <= 4294967295 < two32) by by_eval.
  assert (H8 : 0 <= 2147483648 < two32) by by_eval.
  assert (H9 : two32 <= 2 * 2147483648) by by_eval.
  assert (H10 : 2147483647 < 2147483648) by by_eval.
  refine (conj H1 (conj H2 (conj H3 (conj H4 (conj H5 (conj H6 (conj H6 (conj H8
            (conj H9 (conj H10 _)))))))))).
  exact (Div128By96_x64_divides 2 [33] 5 7 9 2147483647 [77]
           4294967295 4294967295 2147483648 [0]
           H1 H2 H3 H4 H5 H6 H6 H8 H9 H10).
Defined.

(** X28: the two tables of powers of ten hold what the code takes them to
    hold: entry [k] of [rgulPower10_64] is [10^k], and entry [k] of
    [PowerOvfl] is the largest 96-bit value that can still be multiplied
    by [10^k], split into its upper 64 and lower 32 bits. *)
Theorem power_tables k :
  0 <= k <= 19 ->
  get rgulPower10_64 k = 10 ^ k
  /\ PowerOvfl_Hi k * two32 + PowerOvfl_Lo k = (two96 - 1) / 10 ^ k
  /\ 0 <= PowerOvfl_Lo k < two32 /\ 0 <= PowerOvfl_Hi k < two64.
Proof.
  intros Hk. split; [exact (power10_table k Hk)|].
  exact (PowerOvfl_table k Hk).
Qed.

Lemma power_tables_witness :
  0 <= 7 <= 19
  /\ get rgulPower10_64 7 = 10 ^ 7
  /\ PowerOvfl_Hi 7 * two32 + PowerOvfl_Lo 7 = (two96 - 1) / 10 ^ 7
  /\ 0 <= PowerOvfl_Lo 7 < two32 /\ 0 <= PowerOvfl_Hi 7 < two64.
Proof.
  assert (H1 : 0 <= 7 <= 19) by by_eval.
  refine (conj H1 _). exact (power_tables 7 H1).
Defined.
